(** * ctxmenu: the menu engine of [menu.go] and the event loop of [ctxmenu.go]

    A shallow embedding of the Wayland version of the package
    ([src/menu.go], [src/ctxmenu.go]).

    Pointers.  Menus are heap objects reached through [*Menu[T]] pointers
    ([curmenu], [caller], [item.submenu], [item.parent]); they live here in a
    store, a list of menu records, and a pointer is an index into it.
    [MakeMenu] allocates at the end of the store.  An [*Item[T]] is named by
    the menu that holds it and its position in [items]: items are only ever
    appended, so this pair is as stable as the Go pointer.

    Integers.  Go's [int] is modelled by [Z].  The values are slice indices,
    bounded by slice lengths, and pixel sizes.

    Panics.  An index out of range or a nil dereference is the outcome
    [Panic]; recursion through the store that the embedding has to bound is
    the outcome [Timeout]; [log.Fatalf], which ends the process, is the
    outcome [Fatal].

    Pixels (the contents of [menu.surf], glyphs, icons) are not modelled;
    what the drawing code does to the compositor (surfaces, pools, buffers)
    is. *)

From Stdlib Require Import ZArith String Ascii List Lia Bool.
From stdpp Require Import base list.
Import ListNotations.

Local Open Scope Z_scope.

(** ** Outcomes of a call *)

Inductive result (A : Type) : Type :=
| Ok (a : A)
| Panic
| Timeout
| Fatal.

Arguments Ok {A} a.
Arguments Panic {A}.
Arguments Timeout {A}.
Arguments Fatal {A}.

Definition bind {A B : Type} (r : result A) (f : A -> result B) : result B :=
  match r with
  | Ok a => f a
  | Panic => Panic
  | Timeout => Timeout
  | Fatal => Fatal
  end.

Notation "'do' x <- r ; k" := (bind r (fun x => k))
  (at level 10, x name, r at level 100, k at level 200,
   format "'[v' 'do'  x  <-  r ; '/' k ']'").

(** A pointer dereference: [nil] or a dangling index panics. *)
Definition deref {A : Type} (o : option A) : result A :=
  match o with
  | Some a => Ok a
  | None => Panic
  end.

(** [xs[i]] for a Go [int] index. *)
Definition index {A : Type} (xs : list A) (i : Z) : option A :=
  if i <? 0 then None else xs !! Z.to_nat i.

Definition len {A : Type} (xs : list A) : Z := Z.of_nat (length xs).

(** ** Data model ([menu.go], lines 27-70) *)

Inductive OverflowItem : Type :=
| OverflowTop
| OverflowNone
| OverflowBottom.

(** [Item[T]].  [iw], [ih] are the fields [w], [h]; [icon] tells whether the
    field [icon] is non-nil. *)
Record Item (T : Type) : Type := mkItem {
  parent : nat;
  output : T;
  label : string;
  submenu : option nat;
  icon : bool;
  overflower : OverflowItem;
  iw : Z;
  ih : Z
}.

Arguments mkItem {T}.
Arguments parent {T}.
Arguments output {T}.
Arguments label {T}.
Arguments submenu {T}.
Arguments icon {T}.
Arguments overflower {T}.
Arguments iw {T}.
Arguments ih {T}.

(** [Menu[T]].  [mx], [my], [mw], [mh] are the fields [x], [y], [w], [h].
    [surface] is the compositor's surface (with its layer surface, created
    and destroyed together), [pool] the shared-memory pool of [openFile]. *)
Record Menu (T : Type) : Type := mkMenu {
  items : list (Item T);
  first : Z;
  selected : Z;
  overflow : Z;
  mx : Z;
  my : Z;
  mw : Z;
  mh : Z;
  caller : option nat;
  itemsChanged : bool;
  overflowItemTop : Item T;
  overflowItemBottom : Item T;
  surface : option nat;
  pool : option nat
}.

Arguments mkMenu {T}.
Arguments items {T}.
Arguments first {T}.
Arguments selected {T}.
Arguments overflow {T}.
Arguments mx {T}.
Arguments my {T}.
Arguments mw {T}.
Arguments mh {T}.
Arguments caller {T}.
Arguments itemsChanged {T}.
Arguments overflowItemTop {T}.
Arguments overflowItemBottom {T}.
Arguments surface {T}.
Arguments pool {T}.

(** [image.Rectangle], as [Monitor] returns it. *)
Record Rectangle : Type := mkRect {
  MinX : Z;
  MinY : Z;
  MaxX : Z;
  MaxY : Z
}.

(** [ContextMenu]: the [Config] it embeds, the initial position [x], [y]
    ([cx], [cy]), the monitor geometry, and what the package takes from
    outside: the font ([messureText], the line height), the arrow images
    [bottomArrow] and [rightArrow] (only [Rect.Max] is read; their file is not
    part of the sources) and the image decoders ([loadIcon f] tells whether
    [getDecoder], [os.Open] and the decoder all succeed on [f]). *)
Record ContextMenu : Type := mkContextMenu {
  MinItemWidth : Z;
  BorderSize : Z;
  SeperatorLength : Z;
  IconSize : Z;
  PaddingX : Z;
  PaddingY : Z;
  cx : Z;
  cy : Z;
  disableIcons : bool;
  monOffsetX : Z;
  monOffsetY : Z;
  monSizeX : Z;
  monSizeY : Z;
  messureText : string -> Z;
  fontHeight : Z;
  bottomArrowX : Z;
  bottomArrowY : Z;
  rightArrowX : Z;
  loadIcon : string -> bool
}.

Definition Monitor (ctxmenu : ContextMenu) : Rectangle :=
  {| MinX := monOffsetX ctxmenu;
     MinY := monOffsetY ctxmenu;
     MaxX := monOffsetX ctxmenu + monSizeX ctxmenu;
     MaxY := monOffsetY ctxmenu + monSizeY ctxmenu |}.

(** Field updates. *)
Section Setters.
Context {T : Type}.

Definition set_items (m : Menu T) (v : list (Item T)) : Menu T :=
  mkMenu v (first m) (selected m) (overflow m) (mx m) (my m) (mw m) (mh m)
         (caller m) (itemsChanged m) (overflowItemTop m)
         (overflowItemBottom m) (surface m) (pool m).

Definition set_first (m : Menu T) (v : Z) : Menu T :=
  mkMenu (items m) v (selected m) (overflow m) (mx m) (my m) (mw m) (mh m)
         (caller m) (itemsChanged m) (overflowItemTop m)
         (overflowItemBottom m) (surface m) (pool m).

Definition set_selected (m : Menu T) (v : Z) : Menu T :=
  mkMenu (items m) (first m) v (overflow m) (mx m) (my m) (mw m) (mh m)
         (caller m) (itemsChanged m) (overflowItemTop m)
         (overflowItemBottom m) (surface m) (pool m).

Definition set_overflow (m : Menu T) (v : Z) : Menu T :=
  mkMenu (items m) (first m) (selected m) v (mx m) (my m) (mw m) (mh m)
         (caller m) (itemsChanged m) (overflowItemTop m)
         (overflowItemBottom m) (surface m) (pool m).

Definition set_pos (m : Menu T) (vx vy : Z) : Menu T :=
  mkMenu (items m) (first m) (selected m) (overflow m) vx vy (mw m) (mh m)
         (caller m) (itemsChanged m) (overflowItemTop m)
         (overflowItemBottom m) (surface m) (pool m).

Definition set_size (m : Menu T) (vw vh : Z) : Menu T :=
  mkMenu (items m) (first m) (selected m) (overflow m) (mx m) (my m) vw vh
         (caller m) (itemsChanged m) (overflowItemTop m)
         (overflowItemBottom m) (surface m) (pool m).

Definition set_caller (m : Menu T) (v : option nat) : Menu T :=
  mkMenu (items m) (first m) (selected m) (overflow m) (mx m) (my m) (mw m)
         (mh m) v (itemsChanged m) (overflowItemTop m)
         (overflowItemBottom m) (surface m) (pool m).

Definition set_itemsChanged (m : Menu T) (v : bool) : Menu T :=
  mkMenu (items m) (first m) (selected m) (overflow m) (mx m) (my m) (mw m)
         (mh m) (caller m) v (overflowItemTop m)
         (overflowItemBottom m) (surface m) (pool m).

Definition set_surface (m : Menu T) (v : option nat) : Menu T :=
  mkMenu (items m) (first m) (selected m) (overflow m) (mx m) (my m) (mw m)
         (mh m) (caller m) (itemsChanged m) (overflowItemTop m)
         (overflowItemBottom m) v (pool m).

Definition set_pool (m : Menu T) (v : option nat) : Menu T :=
  mkMenu (items m) (first m) (selected m) (overflow m) (mx m) (my m) (mw m)
         (mh m) (caller m) (itemsChanged m) (overflowItemTop m)
         (overflowItemBottom m) (surface m) v.
End Setters.

(** ** Building the tree ([menu.go], lines 72-191) *)

Inductive AppendError : Type :=
| TooMuchDepth
| IconError.

Section Tree.
Context {T : Type}.
(** The zero value of [T]. *)
Variable zero : T.
Variable ctxmenu : ContextMenu.

(** The store of menus. *)
Local Abbreviation Store := (list (Menu T)).

Definition update (s : Store) (p : nat) (f : Menu T -> Menu T) : Store :=
  match s !! p with
  | Some m => <[p := f m]> s
  | None => s
  end.

Definition makeOverflow (menu : nat) (top : bool) : Item T :=
  {| parent := menu;
     output := zero;
     label := EmptyString;
     submenu := None;
     icon := false;
     overflower := if top then OverflowTop else OverflowBottom;
     iw := bottomArrowX ctxmenu + PaddingX ctxmenu * 2;
     ih := bottomArrowY ctxmenu + PaddingY ctxmenu * 2 |}.

(** The menu [MakeMenu] builds for the address [p]: every field that the
    composite literal does not name has Go's zero value. *)
Definition newMenu (p : nat) : Menu T :=
  {| items := [];
     first := 0;
     selected := 0;
     overflow := 0;
     mx := -1;
     my := -1;
     mw := 0;
     mh := 0;
     caller := None;
     itemsChanged := false;
     overflowItemTop := makeOverflow p true;
     overflowItemBottom := makeOverflow p false;
     surface := None;
     pool := None |}.

Definition MakeMenu (s : Store) : Store * nat :=
  (s ++ [newMenu (length s)], length s).

Definition makeItem (menu : nat) (lbl : string) (out : T) (imagefile : string)
  : AppendError + Item T :=
  let item := {| parent := menu; output := out; label := lbl;
                 submenu := None; icon := false; overflower := OverflowNone;
                 iw := PaddingX ctxmenu * 2; ih := 0 |} in
  if String.eqb lbl EmptyString then
    inr (mkItem menu out lbl None false OverflowNone
                (iw item) (1 + PaddingY ctxmenu * 2))
  else
    let w1 := iw item + messureText ctxmenu lbl in
    let h1 := fontHeight ctxmenu + PaddingY ctxmenu * 2 in
    if negb (String.eqb imagefile EmptyString) && negb (disableIcons ctxmenu)
    then
      if loadIcon ctxmenu imagefile then
        inr (mkItem menu out lbl None true OverflowNone
                    (w1 + (IconSize ctxmenu + PaddingX ctxmenu))
                    (Z.max h1 (IconSize ctxmenu + PaddingY ctxmenu * 2)))
      else inl IconError
    else inr (mkItem menu out lbl None false OverflowNone w1 h1).

Definition AppendItem (s : Store) (menu : nat) (lbl : string) (out : T)
           (imagefile : string) : result (Store * option AppendError) :=
  do m <- deref (s !! menu);
  match makeItem menu lbl out imagefile with
  | inl e => Ok (s, Some e)
  | inr item =>
      Ok (<[menu := set_itemsChanged (set_items m (items m ++ [item])) true]> s,
          None)
  end.

(** [item.setSubmenu(sub)] for the item at position [i] of [menu]: the item
    is widened by the arrow, [item.parent.w] is raised to it, the link is
    set. *)
Definition setSubmenu (s : Store) (menu : nat) (i : nat) (sub : nat)
  : result Store :=
  do m <- deref (s !! menu);
  do item <- deref (items m !! i);
  let item' := mkItem (parent item) (output item) (label item) (Some sub)
                      (icon item) (overflower item)
                      (iw item + rightArrowX ctxmenu) (ih item) in
  let s1 := <[menu := set_items m (<[i := item']> (items m))]> s in
  do pm <- deref (s1 !! parent item);
  Ok (<[parent item := set_size pm (Z.max (mw pm) (iw item')) (mh pm)]> s1).

(** The loop [for range depth] of [Append], [n] iterations left. *)
Fixpoint descend (n : nat) (s : Store) (menu : nat)
  : result (Store * (AppendError + nat)) :=
  match n with
  | O => Ok (s, inr menu)
  | S n' =>
      do m <- deref (s !! menu);
      match last (items m) with
      | None => Ok (s, inl TooMuchDepth)
      | Some tail =>
          match submenu tail with
          | Some sub => descend n' s sub
          | None =>
              let '(s1, sub) := MakeMenu s in
              do s2 <- setSubmenu s1 menu (length (items m) - 1)%nat sub;
              descend n' s2 sub
          end
      end
  end.

Definition Append (s : Store) (menu : nat) (lbl : string) (out : T)
           (imagefile : string) (depth : Z)
  : result (Store * option AppendError) :=
  do r <- descend (Z.to_nat depth) s menu;
  match r with
  | (s', inl e) => Ok (s', Some e)
  | (s', inr target) => AppendItem s' target lbl out imagefile
  end.

End Tree.

(** ** Navigation on one menu ([menu.go], lines 407-431 and 479-616) *)

(** The constants of the keyboard navigation ([ctxmenu.go], lines 32-37). *)
Definition ItemPrev : Z := 0.
Definition ItemNext : Z := 1.
Definition ItemFirst : Z := 2.
Definition ItemLast : Z := 3.

(** What the iterator of [visibleItems] hands to its consumer, in order: the
    consumer may stop early, and the iterator panics when it reaches an index
    outside [items]. *)
Inductive Seq2 (T : Type) : Type :=
| Done
| Yield (i : Z) (item : Item T) (rest : Seq2 T)
| IndexPanic.

Arguments Done {T}.
Arguments Yield {T} i item rest.
Arguments IndexPanic {T}.

Section Navigation.
Context {T : Type}.

Definition isSeparator (item : Item T) : bool :=
  String.eqb (label item) EmptyString.

(** [for i := start; i < end; i++ { yield(i, menu.items[i]) }], [n]
    iterations left, then [k]. *)
Fixpoint rangeItems (its : list (Item T)) (i : Z) (n : nat) (k : Seq2 T)
  : Seq2 T :=
  match n with
  | O => k
  | S n' =>
      match index its i with
      | Some item => Yield i item (rangeItems its (i + 1) n' k)
      | None => IndexPanic
      end
  end.

Definition visibleItems (menu : Menu T) (withOverflow : bool) : Seq2 T :=
  let scrolling := negb (overflow menu =? -1) in
  let start := if scrolling then first menu else 0 in
  let stop :=
    if scrolling then first menu + overflow menu else len (items menu) in
  let bottom :=
    if withOverflow && scrolling
    then Yield (-1) (overflowItemBottom menu) Done
    else Done in
  let middle := rangeItems (items menu) start (Z.to_nat (stop - start)) bottom in
  if withOverflow && scrolling
  then Yield (-1) (overflowItemTop menu) middle
  else middle.

Fixpoint getitemFrom (target y : Z) (sq : Seq2 T) : result Z :=
  match sq with
  | Done => Ok (-1)
  | IndexPanic => Panic
  | Yield i item rest =>
      if negb (i =? -1) && (y <=? target) && (target <? y + ih item)
      then Ok i
      else getitemFrom target (y + ih item) rest
  end.

Definition getitem (ctxmenu : ContextMenu) (menu : Menu T) (target : Z)
  : result Z :=
  getitemFrom target (BorderSize ctxmenu) (visibleItems menu true).

(** [for _, item := range menu.visibleItems(false) { y += item.h }] *)
Fixpoint heightFrom (y : Z) (sq : Seq2 T) : result Z :=
  match sq with
  | Done => Ok y
  | IndexPanic => Panic
  | Yield _ item rest => heightFrom (y + ih item) rest
  end.

Definition isoverflowitem (ctxmenu : ContextMenu) (menu : Menu T)
           (target : Z) : result OverflowItem :=
  if overflow menu =? -1 then Ok OverflowNone
  else
    let y := BorderSize ctxmenu in
    let item := overflowItemTop menu in
    if (y <=? target) && (target <? y + ih item) then Ok OverflowTop
    else
      do y1 <- heightFrom (y + ih item) (visibleItems menu false);
      let item := overflowItemBottom menu in
      if (y1 <=? target) && (target <? y1 + ih item) then Ok OverflowBottom
      else Ok OverflowNone.

(** [for item < len(menu.items) && menu.items[item].label == "" { item++ }] *)
Fixpoint skipForward (its : list (Item T)) (n : nat) (item : Z) : result Z :=
  if item <? len its then
    do it <- deref (index its item);
    if isSeparator it then
      match n with
      | O => Timeout
      | S n' => skipForward its n' (item + 1)
      end
    else Ok item
  else Ok item.

(** [for item >= 0 && menu.items[item].label == "" { item-- }] *)
Fixpoint skipBackward (its : list (Item T)) (n : nat) (item : Z) : result Z :=
  if 0 <=? item then
    do it <- deref (index its item);
    if isSeparator it then
      match n with
      | O => Timeout
      | S n' => skipBackward its n' (item - 1)
      end
    else Ok item
  else Ok item.

Definition itemcycle (menu : Menu T) (direction : Z) : result Z :=
  let its := items menu in
  let item :=
    if direction =? ItemNext then
      if selected menu =? -1 then 0
      else if selected menu <? len its - 1 then selected menu + 1
      else -1
    else if direction =? ItemPrev then
      if selected menu =? -1 then len its - 1
      else if 0 <=? selected menu then selected menu - 1
      else -1
    else if direction =? ItemFirst then 0
    else if direction =? ItemLast then len its - 1
    else -1 in
  if direction =? ItemNext then Ok item
  else if direction =? ItemFirst then
    do item <- skipForward its (length its) item;
    do it <- deref (index its item);
    if isSeparator it then Ok 0 else Ok item
  else if direction =? ItemPrev then Ok item
  else if direction =? ItemLast then
    do item <- skipBackward its (length its) item;
    do it <- deref (index its item);
    if isSeparator it then Ok (len its - 1) else Ok item
  else Ok item.

(** [for s := label; len(s) > 0; s = s[1:] { if s == text { return item } }]:
    whether the inner loop of [matchitem] returns. *)
Fixpoint labelMatches (s text : string) : bool :=
  match s with
  | EmptyString => false
  | String _ s' => if String.eqb s text then true else labelMatches s' text
  end.

(** [for ; item >= 0 && item < len(menu.items); item += dirinc { ... }]:
    the index the loop returns, if it returns. *)
Fixpoint scan (its : list (Item T)) (text : string) (dirinc : Z) (n : nat)
         (item : Z) : result (option Z) :=
  if (0 <=? item) && (item <? len its) then
    do it <- deref (index its item);
    if labelMatches (label it) text then Ok (Some item)
    else
      match n with
      | O => Timeout
      | S n' => scan its text dirinc n' (item + dirinc)
      end
  else Ok None.

Definition matchitem (menu : Menu T) (text : string) (dir : Z) : result Z :=
  let its := items menu in
  let dirinc := if dir <? 0 then -1 else 1 in
  let item :=
    if dir <? 0 then
      if negb (selected menu =? -1) && (0 <? selected menu)
      then selected menu - 1
      else len its - 1
    else if 0 <? dir then
      if negb (selected menu =? -1) && (selected menu <? len its - 1)
      then selected menu + 1
      else 0
    else 0 in
  do found <- scan its text dirinc (length its) item;
  match found with
  | Some i => Ok i
  | None =>
      let item := if 0 <? dir then 0 else len its - 1 in
      do found <- scan its text dirinc (length its) item;
      match found with
      | Some i => Ok i
      | None => Ok (-1)
      end
  end.

(** The loop of [warp]: whether the selected item is among the visible
    ones. *)
Fixpoint warpFrom (sel : Z) (sq : Seq2 T) : result bool :=
  match sq with
  | Done => Ok false
  | IndexPanic => Panic
  | Yield i _ rest =>
      if negb (i =? -1) && (i =? sel) then Ok true else warpFrom sel rest
  end.

Definition warp (menu : Menu T) : result bool :=
  warpFrom (selected menu) (visibleItems menu true).

End Navigation.

(** ** The compositor as the package drives it

    Objects the compositor hands out (surfaces, pools, buffers) are numbered
    from [nextId].  [attached] lists the buffers that [drawFrame] has attached
    and whose release has not arrived, each with its surface, oldest first. *)
Record Wayland : Type := mkWayland {
  nextId : nat;
  attached : list (nat * nat)
}.

(** The number of buffers attached to [surf] and not yet released. *)
Definition outstanding (wl : Wayland) (surf : nat) : nat :=
  length (filter (fun sb => fst sb = surf) (attached wl)).

(** [OnRelease] of the buffer [b]: the handler destroys the buffer. *)
Definition OnRelease (wl : Wayland) (b : nat) : Wayland :=
  {| nextId := nextId wl;
     attached := filter (fun sb => snd sb <> b) (attached wl) |}.

(** ** Layout and presentation ([menu.go], lines 193-346, 433-457, 632-669) *)

Section Presentation.
Context {T : Type}.
Variable ctxmenu : ContextMenu.

(** [menu.hide()], with [n] bounding the depth of the recursion through the
    submenus; [hideChildren] is the loop inside it. *)
Fixpoint hide (n : nat) (s : list (Menu T)) (menu : nat)
  : result (list (Menu T)) :=
  match n with
  | O => Timeout
  | S n' =>
      do m <- deref (s !! menu);
      do s1 <- fold_left
                 (fun acc item =>
                    do s' <- acc;
                    match submenu item with
                    | Some sub => hide n' s' sub
                    | None => Ok s'
                    end)
                 (items m) (Ok s);
      do m1 <- deref (s1 !! menu);
      Ok (<[menu := set_surface m1 None]> s1)
  end.

Definition hideChildren (n : nat) (s : list (Menu T)) (menu : nat)
           (except : option nat) : result (list (Menu T)) :=
  do m <- deref (s !! menu);
  fold_left
    (fun acc item =>
       do s' <- acc;
       match submenu item with
       | Some sub =>
           if decide (Some sub = except) then Ok s' else hide n s' sub
       | None => Ok s'
       end)
    (items m) (Ok s).

(** [len(menu.surf.Pix)] for the image [updateWindow] allocates,
    [image.NewRGBA(image.Rect(0, 0, menu.w, menu.h))]: [image.Rect] puts
    the corners in order, and the image has four bytes a pixel. *)
Definition pixLen (m : Menu T) : Z := 4 * (Z.abs (mw m) * Z.abs (mh m)).

(** [updateWindow]: the first call creates the surface (with its layer
    surface) and, in [openFile], the file and the pool over the pixels;
    later calls only move the surface.  [syscall.Mmap] refuses a length
    that is not positive, and [openFile] then ends the process with
    [log.Fatalf]: this is what happens to a menu without area.  The other
    system calls of [openFile] are taken to succeed. *)
Definition updateWindow (s : list (Menu T)) (wl : Wayland) (menu : nat)
  : result (list (Menu T) * Wayland) :=
  do m <- deref (s !! menu);
  match surface m with
  | None =>
      if pixLen m <=? 0 then Fatal
      else
        let surf := nextId wl in
        let pl := S surf in
        Ok (<[menu := set_pool (set_surface m (Some surf)) (Some pl)]> s,
            {| nextId := S pl; attached := attached wl |})
  | Some _ => Ok (s, wl)
  end.

(** The two passes of [show] over the items when [itemsChanged] is set:
    [(w, h)] after the first loop, and the second loop with its [break]. *)
Fixpoint measure (its : list (Item T)) (w h : Z) : Z * Z :=
  match its with
  | [] => (w, h)
  | item :: rest => measure rest (Z.max w (iw item)) (h + ih item)
  end.

Fixpoint fit (its : list (Item T)) (i : Z) (w h : Z) (maxY : Z)
  : Z * Z * Z :=
  match its with
  | [] => (w, h, -1)
  | item :: rest =>
      if maxY <? ih item + h then (w, h, i)
      else fit rest (i + 1) (Z.max w (iw item)) (h + ih item) maxY
  end.

Definition recompute (m : Menu T) : Menu T :=
  let mr := Monitor ctxmenu in
  let w0 := BorderSize ctxmenu * 2 + MinItemWidth ctxmenu in
  let h0 := BorderSize ctxmenu * 2 in
  let '(w1, h1) := measure (items m) w0 h0 in
  let '(w2, h2, ov) :=
    if MaxY mr <? h1 then
      fit (items m) 0 w1
          ((bottomArrowY ctxmenu + PaddingY ctxmenu * 2 + BorderSize ctxmenu) * 2)
          (MaxY mr)
    else (w1, h1, -1) in
  set_size (set_overflow (set_first (set_itemsChanged m false) 0) ov) w2 h2.

(** [for i := start; i < caller.selected; i++ { menu.y += caller.items[i].h }] *)
Fixpoint addHeights (its : list (Item T)) (i : Z) (n : nat) (y : Z)
  : result Z :=
  match n with
  | O => Ok y
  | S n' =>
      do item <- deref (index its i);
      addHeights its (i + 1) n' (y + ih item)
  end.

Definition clamp (m : Menu T) : Menu T :=
  let mr := Monitor ctxmenu in
  let x1 := if mx m <? MinX mr then MinX mr
            else if MaxX mr <? mx m + mw m then MaxX mr - mw m
            else mx m in
  let y1 := if my m <? MinY mr then MinY mr
            else if MaxY mr <? my m + mh m then MaxY mr - mh m
            else my m in
  set_pos m x1 y1.

(** The positioning of [show] (lines 286-311), [c] being the caller after
    the test [caller == menu]. *)
Definition place (s : list (Menu T)) (m : Menu T) (c : option nat)
  : result (Menu T) :=
  let mr := Monitor ctxmenu in
  let unplaced :=
    if (mx m =? -1) || (my m =? -1)
    then set_pos m (cx ctxmenu) (if overflow m =? -1 then cy ctxmenu else 0)
    else m in
  match c with
  | Some cp =>
      if decide (caller m = Some cp) then Ok unplaced
      else
        do cm <- deref (s !! cp);
        let x0 := mx cm + mw cm in
        let x1 := if x0 <? MinX mr then MinX mr
                  else if MaxX mr <? x0 + mw m then mx cm - mw m
                  else x0 in
        do y1 <-
          (if overflow m =? -1 then
             let start := if negb (overflow cm =? -1) then first cm else 0 in
             addHeights (items cm) start (Z.to_nat (selected cm - start)) (my cm)
           else Ok (my m));
        Ok (set_pos (set_caller m (Some cp)) x1 y1)
  | None => Ok unplaced
  end.

Definition show (s : list (Menu T)) (wl : Wayland) (menu : nat)
           (caller : option nat) : result (list (Menu T) * Wayland) :=
  let c := if decide (caller = Some menu) then None else caller in
  do s1 <- hideChildren (length s) s menu None;
  do s2 <- match c with
           | Some cp => hideChildren (length s) s1 cp (Some menu)
           | None => Ok s1
           end;
  do m <- deref (s2 !! menu);
  let m1 := if itemsChanged m then recompute m else m in
  do m2 <- place s2 m1 c;
  updateWindow (<[menu := clamp m2]> s2) wl menu.

(** [drawFrame]: without a pool nothing happens; with one, a new buffer is
    created over it and attached to the surface. *)
Definition drawFrame (s : list (Menu T)) (wl : Wayland) (menu : nat)
  : result Wayland :=
  do m <- deref (s !! menu);
  match pool m with
  | None => Ok wl
  | Some _ =>
      do surf <- deref (surface m);
      Ok {| nextId := S (nextId wl);
            attached := attached wl ++ [(surf, nextId wl)] |}
  end.

(** The loop of [draw] over the visible items: [drawItem] paints, which is
    not modelled; the iterator may panic. *)
Fixpoint drawItems (sq : Seq2 T) : result unit :=
  match sq with
  | Done => Ok tt
  | IndexPanic => Panic
  | Yield _ _ rest => drawItems rest
  end.

Definition draw (s : list (Menu T)) (wl : Wayland) (menu : nat)
  : result Wayland :=
  do m <- deref (s !! menu);
  do _ <- drawItems (visibleItems m true);
  do wl1 <- drawFrame s wl menu;
  do _ <- deref (surface m);
  Ok wl1.

(** [OnConfigure] of the layer surface of [menu]. *)
Definition OnConfigure (s : list (Menu T)) (wl : Wayland) (menu : nat)
  : result Wayland :=
  do m <- deref (s !! menu);
  do wl1 <- drawFrame s wl menu;
  do _ <- deref (surface m);
  Ok wl1.

End Presentation.

(** ** The event loop ([ctxmenu.go], lines 22-29 and 253-484) *)

Definition Action : Type := Z.
Definition ActionClear : Action := 1.
Definition ActionMap : Action := 2.
Definition ActionDraw : Action := 4.
Definition ActionWarp : Action := 8.

Inductive Axis : Type :=
| PointerAxisVerticalScroll
| PointerAxisHorizontalScroll.

(** The events [Run] receives from the channel.  [SurfaceY] is
    [int(ev.SurfaceY)]; of [Value] only the sign is read; [pressed] is the
    comparison of [ev.State] with the pressed state; [middle] is
    [ev.Button == sdl.BUTTON_MIDDLE]; [OtherEvent] is any type the switch has
    no case for. *)
Inductive Event : Type :=
| QuitEvent
| WlSurfaceEnterEvent
| PointerLeaveEvent
| PointerEnterEvent
| PointerMotionEvent (SurfaceY : Z)
| PointerAxisEvent (axis : Axis) (Value : Z)
| PointerButtonEvent (pressed : bool) (middle : bool)
| KeyboardKeymapEvent
| KeyboardKeyEvent (pressed : bool) (Key : Z)
| OtherEvent.

Inductive RunError : Type :=
| ErrExited.

(** The variables of [Run], with the heap and the compositor.  [previtem]
    names an item by its menu and position; [hasleft] tells whether the
    dismiss timer is armed; [hovered] records the calls of [hover]. *)
Record Loop (T : Type) : Type := mkLoop {
  store : list (Menu T);
  wl : Wayland;
  seen : bool;
  curmenu : nat;
  buf : string;
  previtem : option (nat * nat);
  hasleft : bool;
  warped : bool;
  curY : Z;
  hovered : list T
}.

Arguments mkLoop {T}.
Arguments store {T}.
Arguments wl {T}.
Arguments seen {T}.
Arguments curmenu {T}.
Arguments buf {T}.
Arguments previtem {T}.
Arguments hasleft {T}.
Arguments warped {T}.
Arguments curY {T}.
Arguments hovered {T}.

(** One turn of the loop either goes on or returns from [Run]. *)
Inductive Outcome (T : Type) : Type :=
| Continue (l : Loop T)
| Return (value : T) (err : option RunError) (l : Loop T).

Arguments Continue {T} l.
Arguments Return {T} value err l.

Section EventLoop.
Context {T : Type}.
Variable zero : T.
Variable ctxmenu : ContextMenu.
(** Whether the [hover] callback is non-nil. *)
Variable hover : bool.

Definition with_store (l : Loop T) (s : list (Menu T)) : Loop T :=
  mkLoop s (wl l) (seen l) (curmenu l) (buf l) (previtem l) (hasleft l)
         (warped l) (curY l) (hovered l).

Definition with_wl (l : Loop T) (w : Wayland) : Loop T :=
  mkLoop (store l) w (seen l) (curmenu l) (buf l) (previtem l) (hasleft l)
         (warped l) (curY l) (hovered l).

Definition with_curmenu (l : Loop T) (c : nat) : Loop T :=
  mkLoop (store l) (wl l) (seen l) c (buf l) (previtem l) (hasleft l)
         (warped l) (curY l) (hovered l).

(** The statements after the switch (lines 473-482). *)
Definition finish (l : Loop T) (action : Action) : result (Outcome T) :=
  let b := if negb (Z.land action ActionClear =? 0) then EmptyString
           else buf l in
  do w1 <- (if negb (Z.land action ActionDraw =? 0)
            then draw (store l) (wl l) (curmenu l)
            else Ok (wl l));
  do wp <- (if negb (Z.land action ActionWarp =? 0)
            then do cm <- deref (store l !! curmenu l);
                 do _ <- warp cm;
                 Ok true
            else Ok (warped l));
  Ok (Continue (mkLoop (store l) w1 (seen l) (curmenu l) b (previtem l)
                       (hasleft l) wp (curY l) (hovered l))).

Definition scrollUp (l : Loop T) : Loop T :=
  with_store l (update (store l) (curmenu l)
                  (fun m => set_first m (Z.max (first m - 1) 0))).

Definition scrollDown (l : Loop T) : Loop T :=
  with_store l (update (store l) (curmenu l)
                  (fun m => set_first m
                              (Z.min (first m + 1)
                                     (len (items m) - overflow m)))).

Definition allActions : Action :=
  Z.lor (Z.lor ActionClear ActionMap) ActionDraw.

Definition onMotion (l : Loop T) (y : Z) : result (Outcome T) :=
  let l := mkLoop (store l) (wl l) (seen l) (curmenu l) (buf l) (previtem l)
                  (hasleft l) (warped l) y (hovered l) in
  if warped l then
    finish (mkLoop (store l) (wl l) (seen l) (curmenu l) (buf l)
                   (previtem l) (hasleft l) false (curY l) (hovered l)) 0
  else
    let menu := curmenu l in
    do m <- deref (store l !! menu);
    do itemidx <- getitem ctxmenu m y;
    if itemidx =? -1 then Ok (Continue l)
    else
      do item <- deref (index (items m) itemidx);
      if decide (previtem l = Some (menu, Z.to_nat itemidx))
      then Ok (Continue l)
      else
        let s1 := <[menu := set_selected m
                              (if isSeparator item then -1 else itemidx)]>
                    (store l) in
        do w1 <- draw s1 (wl l) menu;
        do cs <- match submenu item with
                 | Some sub =>
                     do sm <- deref (s1 !! sub);
                     Ok (sub, <[sub := set_selected sm (-1)]> s1)
                 | None => Ok (menu, s1)
                 end;
        let '(cur, s2) := cs in
        do sw <- show ctxmenu s2 w1 cur (Some menu);
        let '(s3, w3) := sw in
        let hv := if negb (isSeparator item) && hover
                  then hovered l ++ [output item] else hovered l in
        finish (mkLoop s3 w3 true cur (buf l)
                       (Some (menu, Z.to_nat itemidx)) (hasleft l)
                       (warped l) (curY l) hv)
               allActions.

Definition onAxis (l : Loop T) (axis : Axis) (value : Z)
  : result (Outcome T) :=
  match axis with
  | PointerAxisVerticalScroll => finish l 0
  | PointerAxisHorizontalScroll =>
      do cm <- deref (store l !! curmenu l);
      if overflow cm =? -1 then finish l 0
      else if value <? 0 then finish (scrollUp l) allActions
      else if 0 <? value then finish (scrollDown l) allActions
      else finish l 0
  end.

Definition onButton (l : Loop T) (pressed middle : bool)
  : result (Outcome T) :=
  if negb pressed then finish l 0
  else
    let menu := curmenu l in
    do m <- deref (store l !! menu);
    do item <- getitem ctxmenu m (curY l);
    do ovitem <- isoverflowitem ctxmenu m (curY l);
    match ovitem with
    | OverflowNone =>
        if item =? -1 then
          finish (with_store l
                    (<[menu := set_first (set_selected m (-1)) 0]> (store l)))
                 allActions
        else
          do it <- deref (index (items m) item);
          if isSeparator it then Ok (Return zero None l)
          else
            match submenu it with
            | Some sub =>
                do sw <- show ctxmenu (store l) (wl l) sub (Some menu);
                let '(s1, w1) := sw in
                do sm <- deref (s1 !! sub);
                let s2 := <[sub := set_selected sm 0]> s1 in
                finish (mkLoop s2 w1 (seen l) sub (buf l) (previtem l)
                               (hasleft l) (warped l) (curY l) (hovered l))
                       (if middle then Z.lor allActions ActionWarp
                        else allActions)
            | None => Ok (Return (output it) None l)
            end
    | OverflowTop => finish (scrollUp l) allActions
    | OverflowBottom => finish (scrollDown l) allActions
    end.

(** The body of the [for] loop for one event. *)
Definition step (l : Loop T) (event : Event) : result (Outcome T) :=
  match event with
  | QuitEvent => Ok (Return zero (Some ErrExited) l)
  | WlSurfaceEnterEvent => finish l ActionDraw
  | PointerLeaveEvent =>
      finish (mkLoop (store l) (wl l) (seen l) (curmenu l) (buf l)
                     (previtem l) (if seen l then true else hasleft l)
                     (warped l) (curY l) (hovered l)) 0
  | PointerEnterEvent =>
      finish (mkLoop (store l) (wl l) (seen l) (curmenu l) (buf l)
                     (previtem l) false (warped l) (curY l) (hovered l))
             ActionDraw
  | PointerMotionEvent y => onMotion l y
  | PointerAxisEvent axis value => onAxis l axis value
  | PointerButtonEvent pressed middle => onButton l pressed middle
  | KeyboardKeymapEvent => finish l 0
  | KeyboardKeyEvent _ _ => finish l 0
  | OtherEvent => finish l 0
  end.

(** [Run] up to its loop: the root is shown and drawn. *)
Definition start (s : list (Menu T)) (w : Wayland) (rootmenu : nat)
  : result (Loop T) :=
  do sw <- show ctxmenu s w rootmenu None;
  let '(s1, w1) := sw in
  do w2 <- draw s1 w1 rootmenu;
  Ok (mkLoop s1 w2 false rootmenu EmptyString None false false 0 []).

(** The loop over the events the channel delivers; with none left the loop
    is waiting on the channel. *)
Fixpoint loop (l : Loop T) (events : list Event) : result (Outcome T) :=
  match events with
  | [] => Ok (Continue l)
  | event :: rest =>
      do o <- step l event;
      match o with
      | Continue l' => loop l' rest
      | Return v e l' => Ok (Return v e l')
      end
  end.

Definition Run (s : list (Menu T)) (w : Wayland) (rootmenu : nat)
           (events : list Event) : result (Outcome T) :=
  do l <- start s w rootmenu;
  loop l events.

End EventLoop.

(** * Properties *)

(** ** Sample data *)

(** A configuration with a 1920x1080 monitor and a fixed-width font. *)
Definition demoContext : ContextMenu :=
  {| MinItemWidth := 130; BorderSize := 1; SeperatorLength := 3;
     IconSize := 24; PaddingX := 4; PaddingY := 4; cx := 0; cy := 0;
     disableIcons := false;
     monOffsetX := 0; monOffsetY := 0; monSizeX := 1920; monSizeY := 1080;
     messureText := fun s => 8 * Z.of_nat (String.length s);
     fontHeight := 16;
     bottomArrowX := 8; bottomArrowY := 4; rightArrowX := 4;
     loadIcon := fun _ => true |}.

(** A menu at address 0 holding one plain item per label, as [AppendItem]
    would have made them under [demoContext]. *)
Definition demoItem (lbl : string) : Item string :=
  {| parent := 0; output := lbl; label := lbl; submenu := None;
     icon := false; overflower := OverflowNone;
     iw := 8 + 8 * Z.of_nat (String.length lbl);
     ih := if String.eqb lbl EmptyString then 9 else 24 |}.

Definition demoMenu (labels : list string) (sel : Z) : Menu string :=
  set_selected
    (set_items (newMenu EmptyString demoContext 0) (map demoItem labels)) sel.

(** ** Words of the specification about one menu *)

(** [lbl] ends with [text]. *)
Definition endsWith (lbl text : string) : Prop :=
  exists pre : string, lbl = String.append pre text.

(** The item at index [k] has a label that ends with the non-empty
    [text]. *)
Definition matchesAt {T : Type} (m : Menu T) (text : string) (k : Z) : Prop :=
  exists item : Item T,
    index (items m) k = Some item /\
    text <> EmptyString /\ endsWith (label item) text.

(** Where the first pass of [matchitem] starts. *)
Definition scanStart {T : Type} (m : Menu T) (dir : Z) : Z :=
  if dir <? 0 then
    if negb (selected m =? -1) && (0 <? selected m)
    then selected m - 1 else len (items m) - 1
  else if 0 <? dir then
    if negb (selected m =? -1) && (selected m <? len (items m) - 1)
    then selected m + 1 else 0
  else 0.


(** ** Words of the specification about the tree *)

(** [chain s p n opn]: from the menu [p], the rightmost chain (last item,
    its submenu, the last item of that, ...) runs through [n] menus that have
    items.  It ends either at a menu without items ([opn = false]) or at a
    last item without submenu ([opn = true]).  [n] is the greatest depth
    [Append] accepts on [p]. *)
Inductive chain {T : Type} (s : list (Menu T)) : nat -> nat -> bool -> Prop :=
| chain_empty (p : nat) (m : Menu T) :
    s !! p = Some m -> items m = [] -> chain s p 0 false
| chain_open (p : nat) (m : Menu T) (tail : Item T) :
    s !! p = Some m -> last (items m) = Some tail -> submenu tail = None ->
    chain s p 1 true
| chain_link (p : nat) (m : Menu T) (tail : Item T) (sub n : nat) (opn : bool) :
    s !! p = Some m -> last (items m) = Some tail -> submenu tail = Some sub ->
    chain s sub n opn -> chain s p (S n) opn.

(** [rightmost s p k t]: [k] steps from the menu [p], each to the submenu
    of the last item, lead to the menu [t]. *)
Inductive rightmost {T : Type} (s : list (Menu T)) : nat -> nat -> nat -> Prop :=
| rm_here (p : nat) : rightmost s p 0 p
| rm_step (p : nat) (m : Menu T) (tail : Item T) (sub k t : nat) :
    s !! p = Some m -> last (items m) = Some tail -> submenu tail = Some sub ->
    rightmost s sub k t -> rightmost s p (S k) t.

(** The item after [item.setSubmenu(sub)]: it is linked to [sub] and wider
    by the arrow. *)
Definition withSubmenu {T : Type} (ctxmenu : ContextMenu) (item : Item T)
           (sub : nat) : Item T :=
  mkItem (parent item) (output item) (label item) (Some sub) (icon item)
         (overflower item) (iw item + rightArrowX ctxmenu) (ih item).

(** The menu [m] after [setSubmenu] on its last item [tail]: the item is
    replaced by the linked one, and the menu is as wide as that item at
    least. *)
Definition linkLast {T : Type} (ctxmenu : ContextMenu) (m : Menu T)
           (tail : Item T) (sub : nat) : Menu T :=
  set_size
    (set_items m (<[(length (items m) - 1)%nat := withSubmenu ctxmenu tail sub]>
                    (items m)))
    (Z.max (mw m) (iw tail + rightArrowX ctxmenu)) (mh m).

(** Every item points back to the menu that holds it, as [makeItem] sets
    it. *)
Definition parentsOk {T : Type} (s : list (Menu T)) : Prop :=
  forall (q : nat) (m : Menu T) (i : nat) (item : Item T),
    s !! q = Some m -> items m !! i = Some item -> parent item = q.

(** What the user put into the tree: per menu, the labels and outputs of its
    items in order. *)
Definition contents {T : Type} (s : list (Menu T)) : list (list (string * T)) :=
  map (fun m => map (fun item => (label item, output item)) (items m)) s.

(** The stores [MakeMenu] and [Append] can build. *)
Inductive built {T : Type} (zero : T) (ctxmenu : ContextMenu)
  : list (Menu T) -> Prop :=
| built_nil : built zero ctxmenu []
| built_make (s : list (Menu T)) :
    built zero ctxmenu s -> built zero ctxmenu (fst (MakeMenu zero ctxmenu s))
| built_append (s : list (Menu T)) (p : nat) (lbl : string) (out : T)
               (img : string) (depth : Z) (s' : list (Menu T))
               (e : option AppendError) :
    built zero ctxmenu s ->
    Append zero ctxmenu s p lbl out img depth = Ok (s', e) ->
    built zero ctxmenu s'.

(** [grows m m']: [m'] is [m] after calls of [Append]: the navigation
    state and the window are untouched and no item went away. *)
Definition grows {T : Type} (m m' : Menu T) : Prop :=
  first m' = first m /\ selected m' = selected m /\ overflow m' = overflow m /\
  surface m' = surface m /\ pool m' = pool m /\
  overflowItemTop m' = overflowItemTop m /\
  overflowItemBottom m' = overflowItemBottom m /\
  (length (items m) <= length (items m'))%nat.

(** [AppendItem] is the only place that sets [itemsChanged], and it does so
    after appending. *)
Definition dirtyHasItems {T : Type} (m : Menu T) : Prop :=
  itemsChanged m = true -> items m <> [].

(** A submenu was allocated after the menu it hangs under, and exists. *)
Definition linksForward {T : Type} (s : list (Menu T)) : Prop :=
  forall (q : nat) (m : Menu T) (i : nat) (item : Item T) (sub : nat),
    s !! q = Some m -> items m !! i = Some item -> submenu item = Some sub ->
    (q < sub < length s)%nat.

(** A store [Append] keeps well-formed. *)
Definition good {T : Type} (s : list (Menu T)) : Prop :=
  parentsOk s /\ forall q m, s !! q = Some m -> dirtyHasItems m.

(** The menu at [q], or the one [MakeMenu] would allocate there. *)
Definition menuAt {T : Type} (zero : T) (ctxmenu : ContextMenu)
           (s : list (Menu T)) (q : nat) : Menu T :=
  match s !! q with
  | Some m => m
  | None => newMenu zero ctxmenu q
  end.

(** [ext s s']: [s'] is [s] after calls of [MakeMenu] and [Append]. *)
Definition ext {T : Type} (zero : T) (ctxmenu : ContextMenu)
           (s s' : list (Menu T)) : Prop :=
  (length s <= length s')%nat /\
  forall q m', s' !! q = Some m' -> grows (menuAt zero ctxmenu s q) m'.

(** A one-item root menu, and what [Append] leaves of it when asked for
    depth 2. *)
Definition demoRoot : list (Menu string) := [demoMenu ["A"%string] 0].

(** The store after [MakeMenu] and [Append("A", "a", "", 0)] on its menu. *)
Definition builtRoot : list (Menu string) :=
  Eval vm_compute in
    match Append EmptyString demoContext (fst (MakeMenu EmptyString demoContext []))
                 0 "A"%string "a"%string EmptyString 0 with
    | Ok (s', _) => s'
    | _ => []
    end.


(** ** Words of the specification about the layout *)

(** Two menus with the same items, navigation state and scroll
    indicators; position, size, caller and window may differ. *)
Definition sameNav {T : Type} (m m' : Menu T) : Prop :=
  items m' = items m /\ first m' = first m /\ selected m' = selected m /\
  overflow m' = overflow m /\ itemsChanged m' = itemsChanged m /\
  overflowItemTop m' = overflowItemTop m /\
  overflowItemBottom m' = overflowItemBottom m.

(** [navStore s s']: the stores hold the same menus up to [sameNav]. *)
Definition navStore {T : Type} (s s' : list (Menu T)) : Prop :=
  length s' = length s /\
  forall q m, s !! q = Some m -> exists m', s' !! q = Some m' /\ sameNav m m'.

(** The sum of the heights of the items. *)
Definition heights {T : Type} (its : list (Item T)) : Z :=
  fold_right (fun item acc => ih item + acc) 0 its.

(** The total content height the first pass of [show] computes, and the
    height the second pass starts from: both scroll indicators, each with a
    border. *)
Definition totalHeight {T : Type} (ctxmenu : ContextMenu) (m : Menu T) : Z :=
  BorderSize ctxmenu * 2 + heights (items m).

Definition reserved (ctxmenu : ContextMenu) : Z :=
  (bottomArrowY ctxmenu + PaddingY ctxmenu * 2 + BorderSize ctxmenu) * 2.

(** Three items of height 20 on a display of height 50 without border: the
    scenario of the specification.  The arrows are 4 pixels high. *)
Definition smallContext : ContextMenu :=
  {| MinItemWidth := 10; BorderSize := 0; SeperatorLength := 0;
     IconSize := 0; PaddingX := 0; PaddingY := 0; cx := 0; cy := 0;
     disableIcons := true;
     monOffsetX := 0; monOffsetY := 0; monSizeX := 100; monSizeY := 50;
     messureText := fun s => 8 * Z.of_nat (String.length s);
     fontHeight := 20;
     bottomArrowX := 8; bottomArrowY := 4; rightArrowX := 4;
     loadIcon := fun _ => true |}.

Definition appendAll (ctxmenu : ContextMenu) (labels : list string)
  : list (Menu string) :=
  fold_left
    (fun s lbl =>
       match Append EmptyString ctxmenu s 0 lbl lbl EmptyString 0 with
       | Ok (s', _) => s'
       | _ => s
       end)
    labels (fst (MakeMenu EmptyString ctxmenu [])).

Definition threeItems : list (Menu string) :=
  Eval vm_compute in appendAll smallContext ["one"; "two"; "three"]%string.

Definition threeRoot : Menu string :=
  Eval vm_compute in
    match threeItems !! 0%nat with
    | Some m => m
    | None => newMenu EmptyString smallContext 0
    end.

Definition noWayland : Wayland := {| nextId := 0; attached := [] |}.

(** The store after the first [show] of that root. *)
Definition threeShown : list (Menu string) :=
  Eval vm_compute in
    match show smallContext threeItems noWayland 0 None with
    | Ok (s', _) => s'
    | _ => []
    end.

Definition shownWayland : Wayland := {| nextId := 2; attached := [] |}.


(** ** Words of the specification about the engine as a whole *)

(** The invariant of a menu as the specification states it. *)
Definition menuInvStated {T : Type} (m : Menu T) : Prop :=
  (selected m = -1 \/ 0 <= selected m < len (items m)) /\
  (overflow m = -1 -> first m = 0) /\
  (overflow m <> -1 -> 0 <= first m <= len (items m) - overflow m).

(** The invariant the code keeps: as stated, but a menu without items may
    also have [selected == 0], the value [MakeMenu] leaves there. *)
Definition menuInv {T : Type} (m : Menu T) : Prop :=
  (selected m = -1 \/ 0 <= selected m < len (items m) \/
   (items m = [] /\ selected m = 0)) /\
  (overflow m = -1 -> first m = 0) /\
  (overflow m <> -1 -> 0 <= first m <= len (items m) - overflow m).

Definition storeInv {T : Type} (s : list (Menu T)) : Prop :=
  forall (q : nat) (m : Menu T), s !! q = Some m -> menuInv m.

(** One operation of the engine on the store.  [itemcycle] and [matchitem]
    return an index and write nothing; their operation here is the one their
    callers make of them, storing the index in [selected]. *)
Inductive engineStep {T : Type} (zero : T) (ctxmenu : ContextMenu)
          (hover : bool) : list (Menu T) -> list (Menu T) -> Prop :=
| op_MakeMenu (s : list (Menu T)) :
    engineStep zero ctxmenu hover s (fst (MakeMenu zero ctxmenu s))
| op_Append (s : list (Menu T)) (p : nat) (lbl : string) (out : T)
            (img : string) (depth : Z) (s' : list (Menu T))
            (e : option AppendError) :
    Append zero ctxmenu s p lbl out img depth = Ok (s', e) ->
    engineStep zero ctxmenu hover s s'
| op_show (s : list (Menu T)) (w : Wayland) (p : nat) (c : option nat)
          (s' : list (Menu T)) (w' : Wayland) :
    show ctxmenu s w p c = Ok (s', w') ->
    engineStep zero ctxmenu hover s s'
| op_itemcycle (s : list (Menu T)) (p : nat) (m : Menu T) (dir r : Z) :
    s !! p = Some m -> itemcycle m dir = Ok r ->
    engineStep zero ctxmenu hover s (<[p := set_selected m r]> s)
| op_matchitem (s : list (Menu T)) (p : nat) (m : Menu T) (text : string)
               (dir r : Z) :
    s !! p = Some m -> matchitem m text dir = Ok r ->
    engineStep zero ctxmenu hover s (<[p := set_selected m r]> s)
| op_event (l : Loop T) (event : Event) (l' : Loop T) :
    step zero ctxmenu hover l event = Ok (Continue l') ->
    engineStep zero ctxmenu hover (store l) (store l')
| op_return (l : Loop T) (event : Event) (v : T) (e : option RunError)
            (l' : Loop T) :
    step zero ctxmenu hover l event = Ok (Return v e l') ->
    engineStep zero ctxmenu hover (store l) (store l').

(** The stores the engine can be in, starting without any menu. *)
Inductive reachable {T : Type} (zero : T) (ctxmenu : ContextMenu)
          (hover : bool) : list (Menu T) -> Prop :=
| reach_start : reachable zero ctxmenu hover []
| reach_step (s s' : list (Menu T)) :
    reachable zero ctxmenu hover s ->
    engineStep zero ctxmenu hover s s' ->
    reachable zero ctxmenu hover s'.

(** [keeps s s']: every menu of [s'] comes from a menu of [s] at the same
    address, and satisfies the invariant if that one did. *)
Definition keeps {T : Type} (s s' : list (Menu T)) : Prop :=
  forall (q : nat) (m' : Menu T),
    s' !! q = Some m' ->
    exists m : Menu T, s !! q = Some m /\ (menuInv m -> menuInv m').

(** The variables of the loop when a turn ends. *)
Definition loopOf {T : Type} (o : Outcome T) : Loop T :=
  match o with
  | Continue l => l
  | Return _ _ l => l
  end.

(** An iteration that does not panic. *)
Fixpoint safe {T : Type} (sq : Seq2 T) : Prop :=
  match sq with
  | Done => True
  | IndexPanic => False
  | Yield _ _ rest => safe rest
  end.

(** The root with the single item "A" under [demoContext], as [Append]
    builds it. *)
Definition oneItem : list (Menu string) :=
  Eval vm_compute in appendAll demoContext ["A"%string].

(** The store after [Append("B", "b", "", 2)] on that root: the call fails,
    having made a submenu under "A". *)
Definition deepFailed : list (Menu string) :=
  Eval vm_compute in
    match Append EmptyString demoContext oneItem 0 "B"%string "b"%string
                 EmptyString 2 with
    | Ok (s', _) => s'
    | _ => []
    end.

(** The variables of a loop that was given no menu. *)
Definition idleLoop : Loop string :=
  mkLoop [] noWayland false 0 EmptyString None false false 0 [].

Definition runLoop (r : result (Outcome string)) : Loop string :=
  match r with
  | Ok o => loopOf o
  | _ => idleLoop
  end.

(** [Run] on the one-item root: waiting for the first event, and after the
    pointer moved over the item. *)
Definition oneStarted : Loop string :=
  Eval vm_compute in
    runLoop (Run EmptyString demoContext true oneItem noWayland 0 []).

Definition oneHovered : Loop string :=
  Eval vm_compute in
    runLoop (Run EmptyString demoContext true oneItem noWayland 0
                 [PointerMotionEvent 5]).

Definition oneHoveredRoot : Menu string :=
  Eval vm_compute in
    match store oneHovered !! 0%nat with
    | Some m => m
    | None => newMenu EmptyString demoContext 0
    end.

(** [Run] on a root with a separator between two items, after the pointer
    moved over the separator; its root menu. *)
Definition sepItems : list (Menu string) :=
  Eval vm_compute in appendAll demoContext ["A"; ""; "B"]%string.

Definition sepHovered : Loop string :=
  Eval vm_compute in
    runLoop (Run EmptyString demoContext true sepItems noWayland 0
                 [PointerMotionEvent 29]).

Definition sepHoveredRoot : Menu string :=
  Eval vm_compute in
    match store sepHovered !! 0%nat with
    | Some m => m
    | None => newMenu EmptyString demoContext 0
    end.

(** [Run] on the three items that overflow the small display, waiting for
    the first event; its root menu. *)
Definition threeStarted : Loop string :=
  Eval vm_compute in
    runLoop (Run EmptyString smallContext true threeItems noWayland 0 []).

Definition threeStartedRoot : Menu string :=
  Eval vm_compute in
    match store threeStarted !! 0%nat with
    | Some m => m
    | None => newMenu EmptyString smallContext 0
    end.

(** What reaches the compositor's side of one store: a redraw of a menu
    ([draw]), the configure event of its layer surface, the release of a
    buffer. *)
Inductive Frame : Type :=
| Redraw (menu : nat)
| Configure (menu : nat)
| Release (buffer : nat).

Definition frame {T : Type} (s : list (Menu T)) (w : Wayland) (f : Frame)
  : result Wayland :=
  match f with
  | Redraw p => draw s w p
  | Configure p => OnConfigure s w p
  | Release b => Ok (OnRelease w b)
  end.

Fixpoint frames {T : Type} (s : list (Menu T)) (w : Wayland) (tr : list Frame)
  : result Wayland :=
  match tr with
  | [] => Ok w
  | f :: rest => do w1 <- frame s w f; frames s w1 rest
  end.

(** The menu a frame draws, if it draws. *)
Definition drawn (f : Frame) : option nat :=
  match f with
  | Redraw p => Some p
  | Configure p => Some p
  | Release _ => None
  end.

(** A sequence in which the compositor has released every buffer of a
    surface before the menu of that surface is drawn again. *)
Fixpoint disciplined {T : Type} (s : list (Menu T)) (w : Wayland)
         (tr : list Frame) : Prop :=
  match tr with
  | [] => True
  | f :: rest =>
      (forall p m surf, drawn f = Some p -> s !! p = Some m ->
                        surface m = Some surf -> outstanding w surf = 0%nat) /\
      (forall w1, frame s w f = Ok w1 -> disciplined s w1 rest)
  end.

(** The loop after a redraw, a release and another redraw of the one-item
    root, starting without outstanding buffers. *)
Definition releasedWayland : Wayland := {| nextId := 3; attached := [] |}.

Definition redrawnWayland : Wayland :=
  Eval vm_compute in
    match frames (store oneStarted) releasedWayland
                 [Redraw 0; Release 3; Redraw 0] with
    | Ok w => w
    | _ => noWayland
    end.


(** ** Painting a menu ([menu.go], lines 348-457)

    The pixels are the business of [image/draw]; what [drawItem] asks it to
    paint, and where, is recorded here. *)

(** [image.Rect(x0, y0, x1, y1)]: the corners are put in order. *)
Definition Rect (x0 y0 x1 y1 : Z) : Rectangle :=
  let '(a0, a1) := if x1 <? x0 then (x1, x0) else (x0, x1) in
  let '(b0, b1) := if y1 <? y0 then (y1, y0) else (y0, y1) in
  mkRect a0 b0 a1 b1.

(** One call of [draw.Draw] or [draw.DrawMask].  [row] is the rectangle of
    the [SubImage] painted into, and positions are relative to it; [sel]
    tells whether the colours are [ctxmenu.selected] rather than
    [ctxmenu.normal]. *)
Inductive Paint : Type :=
| PaintBackground (row : Rectangle) (sel : bool)
| PaintArrow (row : Rectangle) (top : bool) (x y : Z) (sel : bool)
| PaintLabel (row : Rectangle) (text : string) (x y : Z) (sel : bool)
| PaintSubmenuArrow (row : Rectangle) (x y : Z) (sel : bool)
| PaintIcon (row : Rectangle) (r : Rectangle)
| PaintSeparator (row : Rectangle) (r : Rectangle)
| PaintBorder (r : Rectangle).

(** Whether a paint uses the colours of the selected item. *)
Definition paintSelected (p : Paint) : bool :=
  match p with
  | PaintBackground _ sel => sel
  | PaintArrow _ _ _ _ sel => sel
  | PaintLabel _ _ _ _ sel => sel
  | PaintSubmenuArrow _ _ _ sel => sel
  | PaintIcon _ _ => false
  | PaintSeparator _ _ => false
  | PaintBorder _ => false
  end.

Section Painting.
Context {T : Type}.
Variable ctxmenu : ContextMenu.
(** [rightArrow.Rect.Max.Y]. *)
Variable rightArrowY : Z.

(** [menu.drawItem(y, index, item)].  Go's [/] on [int] truncates, as
    [Z.quot] does.  The label texture that the item caches is the same at
    every call, the label never changing. *)
Definition drawItem (menu : Menu T) (y index : Z) (item : Item T)
  : list Paint :=
  let sel := negb (index =? -1) && (index =? selected menu) in
  let row := Rect 0 y (mw menu) (y + ih item) in
  PaintBackground row sel ::
  match overflower item with
  | OverflowNone =>
      if negb (String.eqb (label item) EmptyString) then
        let x := PaddingX ctxmenu + BorderSize ctxmenu
                 + (if icon item then IconSize ctxmenu + PaddingX ctxmenu
                    else 0) in
        let textH := fontHeight ctxmenu in
        let textY := Z.quot (ih item) 2 - Z.quot textH 2 in
        PaintLabel row (label item) x textY sel ::
        (match submenu item with
         | Some _ =>
             [PaintSubmenuArrow row
                (mw menu - rightArrowX ctxmenu - BorderSize ctxmenu
                 - PaddingX ctxmenu)
                (Z.quot (ih item) 2 - Z.quot rightArrowY 2) sel]
         | None => []
         end) ++
        (if icon item then
           let x := BorderSize ctxmenu + PaddingX ctxmenu in
           let y := Z.quot (ih item) 2 - Z.quot (IconSize ctxmenu) 2 in
           [PaintIcon row (Rect x y (x + IconSize ctxmenu)
                                (y + IconSize ctxmenu))]
         else [])
      else
        let x := BorderSize ctxmenu + PaddingX ctxmenu
                 + SeperatorLength ctxmenu in
        let y := PaddingY ctxmenu in
        [PaintSeparator row (Rect x y (x + mw menu - x * 2) (y + 1))]
  | ov =>
      [PaintArrow row
         (match ov with OverflowBottom => false | _ => true end)
         (Z.quot (mw menu) 2 - Z.quot (bottomArrowX ctxmenu) 2)
         (Z.quot (ih item) 2 - Z.quot (bottomArrowY ctxmenu) 2) sel]
  end.

(** The loop of [draw] over the visible items: its calls
    [drawItem(y, i, item)], in order. *)
Fixpoint drawCalls (y : Z) (sq : Seq2 T) : result (list (Z * Z * Item T)) :=
  match sq with
  | Done => Ok []
  | IndexPanic => Panic
  | Yield i item rest =>
      do calls <- drawCalls (y + ih item) rest;
      Ok ((y, i, item) :: calls)
  end.

(** What [draw] paints before it hands the frame to the compositor: the
    items, then the four sides of the border. *)
Definition paintMenu (menu : Menu T) : result (list Paint) :=
  do calls <- drawCalls (BorderSize ctxmenu) (visibleItems menu true);
  let bw := BorderSize ctxmenu in
  Ok (concat (map (fun c : Z * Z * Item T =>
                     drawItem menu (fst (fst c)) (snd (fst c)) (snd c))
                  calls)
      ++ [PaintBorder (Rect 0 0 (mw menu) bw);
          PaintBorder (Rect 0 (mh menu - bw) (mw menu) (mh menu));
          PaintBorder (Rect 0 0 bw (mh menu));
          PaintBorder (Rect (mw menu - bw) 0 (mw menu) (mh menu))]).

End Painting.

(** ** Words about the rows of a menu *)

(** No item of the menu, and neither scroll indicator, has a negative
    height. *)
Definition heightsOk {T : Type} (m : Menu T) : Prop :=
  (forall item, In item (items m) -> 0 <= ih item) /\
  0 <= ih (overflowItemTop m) /\ 0 <= ih (overflowItemBottom m).

(** All the heights an iteration yields are non-negative. *)
Fixpoint rowsOk {T : Type} (sq : Seq2 T) : Prop :=
  match sq with
  | Done => True
  | IndexPanic => True
  | Yield _ item rest => 0 <= ih item /\ rowsOk rest
  end.

(** Every index an iteration yields is -1 or addresses the item yielded. *)
Fixpoint indexed {T : Type} (its : list (Item T)) (sq : Seq2 T) : Prop :=
  match sq with
  | Done => True
  | IndexPanic => True
  | Yield i item rest =>
      (i = -1 \/ index its i = Some item) /\ indexed its rest
  end.

(** The scroll state addresses items that exist. *)
Definition scrollOk {T : Type} (m : Menu T) : Prop :=
  overflow m <> -1 -> 0 <= first m <= len (items m) - overflow m.

(** Whether the item at index [i] is among those [visibleItems] yields. *)
Definition visibleIndex {T : Type} (m : Menu T) (i : Z) : bool :=
  if overflow m =? -1 then (0 <=? i) && (i <? len (items m))
  else (first m <=? i) && (i <? first m + overflow m).

(** A call of [drawItem] made with the colours of the selected item. *)
Definition highlightedCall {T : Type} (ctxmenu : ContextMenu)
           (rightArrowY : Z) (m : Menu T) (c : Z * Z * Item T) : bool :=
  existsb paintSelected
          (drawItem ctxmenu rightArrowY m (fst (fst c)) (snd (fst c)) (snd c)).

(** The root of the three items on the small display after [show], scrolled
    by one step: it shows the items 1 and 2 between the indicators, and the
    item 2 is selected. *)
Definition scrolledRoot : Menu string :=
  Eval vm_compute in
    set_selected (set_first threeStartedRoot 1) 2.


(** ** Words about the window of a menu *)

(** [hidden s s']: [s'] is [s] with some menus unmapped, as [hide] leaves
    it: nothing but [surface] differs, and that only by being [nil]
    afterwards. *)
Definition hidden {T : Type} (s s' : list (Menu T)) : Prop :=
  length s' = length s /\
  forall (q : nat) (m : Menu T),
    s !! q = Some m ->
    s' !! q = Some m \/ s' !! q = Some (set_surface m None).

(** Where the rows that [draw] paints end: below the last one, or at [y]
    when there is none. *)
Definition rowsEnd {T : Type} (y : Z) (calls : list (Z * Z * Item T)) : Z :=
  match last calls with
  | Some c => fst (fst c) + ih (snd c)
  | None => y
  end.

(** The rectangle a menu occupies lies within the monitor, horizontally and
    vertically. *)
Definition withinX {T : Type} (ctxmenu : ContextMenu) (m : Menu T) : Prop :=
  MinX (Monitor ctxmenu) <= mx m /\ mx m + mw m <= MaxX (Monitor ctxmenu).

Definition withinY {T : Type} (ctxmenu : ContextMenu) (m : Menu T) : Prop :=
  MinY (Monitor ctxmenu) <= my m /\ my m + mh m <= MaxY (Monitor ctxmenu).


(** ** Words about a run of the event loop *)

(** [sameItems s s']: the stores hold the same menus with the same items. *)
Definition sameItems {T : Type} (s s' : list (Menu T)) : Prop :=
  length s' = length s /\
  forall (q : nat) (m : Menu T),
    s !! q = Some m -> exists m', s' !! q = Some m' /\ items m' = items m.

(** What the loop of [Run] relies on between two events: every menu
    satisfies the invariant, submenus are menus of the store allocated after
    their parents, and the current menu is mapped. *)
Definition loopOk {T : Type} (l : Loop T) : Prop :=
  storeInv (store l) /\ linksForward (store l) /\
  exists (m : Menu T) (surf : nat),
    store l !! curmenu l = Some m /\ surface m = Some surf.

(** The menu as [show] lays it out: its size is computed anew when its items
    changed, and is the one it has otherwise. *)
Definition laidOut {T : Type} (ctxmenu : ContextMenu) (m : Menu T) : Menu T :=
  if itemsChanged m then recompute ctxmenu m else m.

(** The menu has an area when it is laid out, so that [openFile] can map
    its pixels. *)
Definition hasArea {T : Type} (ctxmenu : ContextMenu) (m : Menu T) : Prop :=
  0 < pixLen (laidOut ctxmenu m).

Definition allHaveArea {T : Type} (ctxmenu : ContextMenu) (s : list (Menu T))
  : Prop :=
  forall (q : nat) (m : Menu T), s !! q = Some m -> hasArea ctxmenu m.

(** The menus of [s'] are laid out to the size of those of [s]. *)
Definition sameArea {T : Type} (ctxmenu : ContextMenu) (s s' : list (Menu T))
  : Prop :=
  length s' = length s /\
  forall (q : nat) (m m' : Menu T),
    s !! q = Some m -> s' !! q = Some m' ->
    pixLen (laidOut ctxmenu m') = pixLen (laidOut ctxmenu m).

(** [v] is the output of a labelled item without submenu of some menu of
    [s]. *)
Definition leafOf {T : Type} (s : list (Menu T)) (v : T) : Prop :=
  exists (q : nat) (m : Menu T) (i : nat) (item : Item T),
    s !! q = Some m /\ items m !! i = Some item /\
    label item <> EmptyString /\ submenu item = None /\ output item = v.

(** The values [Run] returns: the zero value with [ErrExited]; without
    error, the zero value or the output of a leaf. *)
Definition returnOk {T : Type} (zero : T) (s : list (Menu T)) (v : T)
           (e : option RunError) : Prop :=
  match e with
  | Some ErrExited => v = zero
  | None => v = zero \/ leafOf s v
  end.

(** [descendant s p q]: the menu [q] is [p] or is reached from [p] through
    submenus. *)
Inductive descendant {T : Type} (s : list (Menu T)) : nat -> nat -> Prop :=
| desc_refl (p : nat) : descendant s p p
| desc_step (p : nat) (m : Menu T) (i : nat) (item : Item T) (sub q : nat) :
    s !! p = Some m -> items m !! i = Some item -> submenu item = Some sub ->
    descendant s sub q -> descendant s p q.

(** What one turn of the loop, started in [l], establishes. *)
Definition turnOk {T : Type} (zero : T) (l : Loop T) (o : Outcome T) : Prop :=
  sameItems (store l) (store (loopOf o)) /\
  descendant (store l) (curmenu l) (curmenu (loopOf o)) /\
  match o with
  | Continue l' => loopOk l'
  | Return v e _ => returnOk zero (store l) v e
  end.

(** A tree of three menus under [demoContext]: "File" with the submenu
    "Open", "Recent" and under "Recent" the item "a.txt". *)
Definition fileTree : list (Menu string) :=
  Eval vm_compute in
    fold_left
      (fun s (line : string * Z) =>
         match Append EmptyString demoContext s 0 (fst line) (fst line)
                      EmptyString (snd line) with
         | Ok (s', _) => s'
         | _ => s
         end)
      [("File", 0); ("Open", 1); ("Recent", 1); ("a.txt", 2); ("Quit", 0)]%string
      (fst (MakeMenu EmptyString demoContext [])).

(** Events over it: the pointer moves over "File", whose submenu opens, and
    the button is pressed at the height of "Open". *)
Definition fileEvents : list Event :=
  [PointerEnterEvent; PointerMotionEvent 5; PointerButtonEvent true false].

(** The loop when [Run] returned from these events, and after the pointer
    moved to "Recent" instead. *)
Definition fileDone : Loop string :=
  Eval vm_compute in
    runLoop (Run EmptyString demoContext true fileTree noWayland 0 fileEvents).

Definition fileOpened : Loop string :=
  Eval vm_compute in
    runLoop (Run EmptyString demoContext true fileTree noWayland 0
                 [PointerMotionEvent 5]).

Definition fileDeeper : Loop string :=
  Eval vm_compute in
    runLoop (Run EmptyString demoContext true fileTree noWayland 0
                 ([PointerMotionEvent 5] ++ [PointerMotionEvent 30])).


(** ** Words about the windows on the screen *)

(** The surface of the menu [q], [None] when it has none (or is no menu). *)
Definition surfaceAt {T : Type} (s : list (Menu T)) (q : nat) : option nat :=
  match s !! q with
  | Some m => surface m
  | None => None
  end.

(** The menu [q] has a window. *)
Definition mapped {T : Type} (s : list (Menu T)) (q : nat) : Prop :=
  surfaceAt s q <> None.

(** [pathTo s p path q]: [path] lists the menus from [p] down to [q], each
    the submenu of an item of the one before. *)
Inductive pathTo {T : Type} (s : list (Menu T))
  : nat -> list nat -> nat -> Prop :=
| path_here (p : nat) : pathTo s p [p] p
| path_step (p : nat) (m : Menu T) (i : nat) (item : Item T) (sub : nat)
            (rest : list nat) (q : nat) :
    s !! p = Some m -> items m !! i = Some item -> submenu item = Some sub ->
    pathTo s sub rest q -> pathTo s p (p :: rest) q.

(** The menus below the address [k] are the same in [s] and [s']. *)
Definition keptBelow {T : Type} (k : nat) (s s' : list (Menu T)) : Prop :=
  forall q : nat, (q < k)%nat -> s' !! q = s !! q.


(** ** The menu of a window ([menu.go], lines 459-477) *)

Section GetMenu.
Context {T : Type}.

(** [menu.getmenu(win)], the receiver being [nil] ([None]) or a menu; [n]
    bounds the depth of the recursion through the submenus.  The id of a
    surface is the number the compositor gave it.  The loop over the items
    returns at the first submenu that answers. *)
Fixpoint getmenu (n : nat) (s : list (Menu T)) (menu : option nat)
         (win : nat) : result (option nat) :=
  match menu with
  | None => Ok None
  | Some p =>
      match n with
      | O => Timeout
      | S n' =>
          do m <- deref (s !! p);
          if decide (surface m = Some win) then Ok (Some p)
          else
            fold_left
              (fun acc item =>
                 do w <- acc;
                 match w with
                 | Some q => Ok (Some q)
                 | None => getmenu n' s (submenu item) win
                 end)
              (items m) (Ok None)
      end
  end.

End GetMenu.

(** The menu [q] of [s] is mapped as the window [win]. *)
Definition windowOf {T : Type} (s : list (Menu T)) (q : nat) (win : nat)
  : Prop :=
  exists m : Menu T, s !! q = Some m /\ surface m = Some win.

(** What a search from [p] may answer: a menu at or below [p] that is mapped
    as [win], or nil when there is none. *)
Definition found {T : Type} (s : list (Menu T)) (p : nat) (win : nat)
           (r : option nat) : Prop :=
  match r with
  | Some q => descendant s p q /\ windowOf s q win
  | None => forall q, descendant s p q -> ~ windowOf s q win
  end.

(** The menus of the tree of three after the pointer went to "Recent":
    all three are mapped. *)
Definition fileMapped : list (Menu string) :=
  Eval vm_compute in store fileDeeper.


(** ** Words about a successful Append *)

(** Whether [makeItem] gets by without an icon, or loads the one it is
    given: it needs none for a separator, for an empty image path and when
    icons are disabled. *)
Definition iconLoads (ctxmenu : ContextMenu) (lbl img : string) : bool :=
  String.eqb lbl EmptyString || String.eqb img EmptyString
  || disableIcons ctxmenu || loadIcon ctxmenu img.


(** ** Words about the sizes of the items *)

(** The size [makeItem] gives an item, with the arrow that [setSubmenu]
    adds to the width of an item that has a submenu. *)
Definition itemHeight {T : Type} (ctxmenu : ContextMenu) (item : Item T) : Z :=
  if String.eqb (label item) EmptyString then 1 + PaddingY ctxmenu * 2
  else if icon item
       then Z.max (fontHeight ctxmenu + PaddingY ctxmenu * 2)
                  (IconSize ctxmenu + PaddingY ctxmenu * 2)
       else fontHeight ctxmenu + PaddingY ctxmenu * 2.

Definition itemWidth {T : Type} (ctxmenu : ContextMenu) (item : Item T) : Z :=
  PaddingX ctxmenu * 2
  + (if String.eqb (label item) EmptyString then 0
     else messureText ctxmenu (label item)
          + (if icon item then IconSize ctxmenu + PaddingX ctxmenu else 0))
  + match submenu item with
    | Some _ => rightArrowX ctxmenu
    | None => 0
    end.

Definition madeSize {T : Type} (ctxmenu : ContextMenu) (item : Item T) : Prop :=
  overflower item = OverflowNone /\
  ih item = itemHeight ctxmenu item /\
  iw item = itemWidth ctxmenu item /\
  (icon item = true -> label item <> EmptyString).

(** Every item of every menu of the store has the size it was made with. *)
Definition sizesOk {T : Type} (ctxmenu : ContextMenu) (s : list (Menu T))
  : Prop :=
  forall (q : nat) (m : Menu T) (item : Item T),
    s !! q = Some m -> In item (items m) -> madeSize ctxmenu item.

(** The root menu of the tree of three menus. *)
Definition fileRoot : Menu string :=
  Eval vm_compute in
    match fileTree !! 0%nat with
    | Some m => m
    | None => newMenu EmptyString demoContext 0
    end.


(** ** Words about the area of the menus *)

(** The sizes of a configuration and a font as they are in use: no negative
    border or padding, a minimal width, a font and an arrow image that take
    room. *)
Definition sizesPositive (ctxmenu : ContextMenu) : Prop :=
  0 <= BorderSize ctxmenu /\ 0 < MinItemWidth ctxmenu /\
  0 <= PaddingY ctxmenu /\ 0 < fontHeight ctxmenu /\
  0 < bottomArrowY ctxmenu.

(** Every menu of the store has an item. *)
Definition allHaveItems {T : Type} (s : list (Menu T)) : Prop :=
  forall (q : nat) (m : Menu T), s !! q = Some m -> items m <> [].

(** Every menu of the store but [x] has an item. *)
Definition filledBut {T : Type} (s : list (Menu T)) (x : nat) : Prop :=
  forall (q : nat) (m : Menu T), s !! q = Some m -> q <> x -> items m <> [].

(** What [Append] keeps of a menu it does not append to: the number of its
    items, its height and the mark that its items changed. *)
Definition keepsLayout {T : Type} (m m' : Menu T) : Prop :=
  length (items m') = length (items m) /\ mh m' = mh m /\
  itemsChanged m' = itemsChanged m.

(** A menu before it is shown for the first time: it has no height, and it
    is marked for layout as soon as it has an item. *)
Definition unsized {T : Type} (m : Menu T) : Prop :=
  mh m = 0 /\ (items m <> [] -> itemsChanged m = true).


(** ** Colours ([ctxmenu.go], lines 121-172)

    A Go string is a sequence of bytes, as a [string] here; [len], indexing
    and slicing count bytes. *)

(** A byte as a number. *)
Definition byteOf (c : ascii) : Z := Z.of_N (N_of_ascii c).

(** [strconv.ParseUint(s, 16, 8)], from the library's source.  One digit:
    a decimal digit, or a letter, lowered by [c | ('x' - 'X')], that is
    below the base; [None] is the syntax error. *)
Definition hexDigit (c : ascii) : option Z :=
  let c := byteOf c in
  let lower := Z.lor c 32 in
  if (48 <=? c) && (c <=? 57) then Some (c - 48)
  else if (97 <=? lower) && (lower <=? 122) then
    let d := lower - 97 + 10 in
    if 16 <=? d then None else Some d
  else None.

(** Its loop over the bytes, [n] being the value so far.  The cutoff
    [maxUint64/16 + 1] guards the multiplication and [maxVal = 1<<8 - 1] the
    result; [None] is the syntax or the range error. *)
Fixpoint parseDigits (s : string) (n : Z) : option Z :=
  match s with
  | EmptyString => Some n
  | String c rest =>
      match hexDigit c with
      | None => None
      | Some d =>
          if 2 ^ 60 <=? n then None
          else
            let n1 := n * 16 + d in
            if (n1 <? n) || (255 <? n1) then None else parseDigits rest n1
      end
  end.

Definition ParseUint_16_8 (s : string) : option Z :=
  match s with
  | EmptyString => None
  | _ => parseDigits s 0
  end.

(** [color.NRGBA]. *)
Record NRGBA : Type := mkNRGBA {
  colorR : Z;
  colorG : Z;
  colorB : Z;
  colorA : Z
}.

(** The errors of [parseColor]: "empty color" and "invalid color: %s", with
    the string as it is when the error is found. *)
Inductive ColorError : Type :=
| EmptyColor
| InvalidColor (s : string).

(** [parseColor] from its [switch len(s)] on.  The switch is the match on
    the shape of the string: three and four bytes are doubled, six get "ff"
    appended, eight are taken as they are. *)
Definition parseSized (s : string) : ColorError + NRGBA :=
  let sized : option string :=
    match s with
    | String a (String b (String c EmptyString)) =>
        Some (String a (String a (String b (String b (String c (String c
                "ff"%string))))))
    | String a (String b (String c (String d EmptyString))) =>
        Some (String a (String a (String b (String b (String c (String c
                (String d (String d EmptyString))))))))
    | _ =>
        if (String.length s =? 6)%nat then Some (s ++ "ff")%string
        else if (String.length s =? 8)%nat then Some s
        else None
    end in
  match sized with
  | None => inl (InvalidColor s)
  | Some s =>
      match ParseUint_16_8 (substring 0 2 s) with
      | None => inl (InvalidColor s)
      | Some r =>
          match ParseUint_16_8 (substring 2 2 s) with
          | None => inl (InvalidColor s)
          | Some g =>
              match ParseUint_16_8 (substring 4 2 s) with
              | None => inl (InvalidColor s)
              | Some b =>
                  match ParseUint_16_8 (substring 6 2 s) with
                  | None => inl (InvalidColor s)
                  | Some a => inr (mkNRGBA r g b a)
                  end
              end
          end
      end
  end.

(** [parseColor(s)]: the empty string is refused, one leading number sign
    is dropped, and the rest is read. *)
Definition parseColor (s : string) : ColorError + NRGBA :=
  if (String.length s =? 0)%nat then inl EmptyColor
  else
    parseSized (match s with
                | String "#"%char rest => rest
                | _ => s
                end).

(** The colour strings of [Config], and the colours [CtxMenuInit] keeps in
    the [ContextMenu]. *)
Record ColorConfig : Type := mkColorConfig {
  BackgroundColor : string;
  ForegroundColor : string;
  SelbackgroundColor : string;
  SelforegroundColor : string;
  SeparatorColor : string;
  BorderColor : string
}.

Record Colors : Type := mkColors {
  normalBackground : NRGBA;
  normalForeground : NRGBA;
  selectedBackground : NRGBA;
  selectedForeground : NRGBA;
  separator : NRGBA;
  border : NRGBA
}.

(** The first statements of [CtxMenuInit] ([ctxmenu.go], lines 508-536): the
    six colours are parsed in this order, and the first error is returned
    before the font is looked up and the compositor is contacted. *)
Definition initColors (conf : ColorConfig) : ColorError + Colors :=
  match parseColor (BackgroundColor conf) with
  | inl err => inl err
  | inr nb =>
      match parseColor (ForegroundColor conf) with
      | inl err => inl err
      | inr nf =>
          match parseColor (SelbackgroundColor conf) with
          | inl err => inl err
          | inr sb =>
              match parseColor (SelforegroundColor conf) with
              | inl err => inl err
              | inr sf =>
                  match parseColor (SeparatorColor conf) with
                  | inl err => inl err
                  | inr sep =>
                      match parseColor (BorderColor conf) with
                      | inl err => inl err
                      | inr bd => inr (mkColors nb nf sb sf sep bd)
                      end
                  end
              end
          end
      end
  end.

(** The colours of the configuration the program passes. *)
Definition shippedColors : ColorConfig :=
  {| BackgroundColor := "#FFFFFF";
     ForegroundColor := "#2E3436";
     SelbackgroundColor := "#3584E4";
     SelforegroundColor := "#FFFFFF";
     SeparatorColor := "#CDC7C2";
     BorderColor := "#E6E6E6" |}.

(** ** Words about colour strings *)

(** The value of a hexadecimal digit, of either case. *)
Definition hexVal (c : ascii) : option Z :=
  let b := byteOf c in
  if (48 <=? b) && (b <=? 57) then Some (b - 48)
  else if (65 <=? b) && (b <=? 70) then Some (b - 55)
  else if (97 <=? b) && (b <=? 102) then Some (b - 87)
  else None.

Definition isHex (c : ascii) : bool :=
  match hexVal c with
  | Some _ => true
  | None => false
  end.

Fixpoint allHex (s : string) : bool :=
  match s with
  | EmptyString => true
  | String c rest => isHex c && allHex rest
  end.

(** The string without one leading number sign. *)
Definition colorBody (s : string) : string :=
  match s with
  | String "#"%char rest => rest
  | _ => s
  end.

(** The strings that name a colour: three, four, six or eight hexadecimal
    digits, after a number sign or not. *)
Definition validColor (s : string) : Prop :=
  allHex (colorBody s) = true /\
  (String.length (colorBody s) = 3 \/ String.length (colorBody s) = 4 \/
   String.length (colorBody s) = 6 \/ String.length (colorBody s) = 8)%nat.

(** The value of two digits. *)
Definition hexPair (a b : ascii) : option Z :=
  match hexVal a, hexVal b with
  | Some x, Some y => Some (16 * x + y)
  | _, _ => None
  end.

(** The colour of eight digits. *)
Definition colorOf (a b c d e f g h : ascii) : option NRGBA :=
  match hexPair a b, hexPair c d, hexPair e f, hexPair g h with
  | Some r, Some gg, Some bb, Some aa => Some (mkNRGBA r gg bb aa)
  | _, _, _, _ => None
  end.

(** The colour a body of digits names: eight digits are red, green, blue
    and alpha; six are an opaque colour; of four or three, each digit stands
    for itself doubled. *)
Definition bodyColor (body : string) : option NRGBA :=
  match body with
  | String a (String b (String c EmptyString)) =>
      colorOf a a b b c c "f" "f"
  | String a (String b (String c (String d EmptyString))) =>
      colorOf a a b b c c d d
  | String a (String b (String c (String d (String e (String f
      EmptyString))))) =>
      colorOf a b c d e f "f" "f"
  | String a (String b (String c (String d (String e (String f
      (String g (String h EmptyString))))))) =>
      colorOf a b c d e f g h
  | _ => None
  end.


(** ** A window into an image (the type [SubImage], which [drawItem] paints
       a row through)

    The image behind it is a [draw.Image], an interface: its type and its
    methods [At] and [Set] are parameters.  [Set] changes that image, which
    every [SubImage] over it shares; here it returns the image it leaves. *)

(** [Rectangle.Dx], [Rectangle.Dy] and [Point.In]. *)
Definition Dx (r : Rectangle) : Z := MaxX r - MinX r.
Definition Dy (r : Rectangle) : Z := MaxY r - MinY r.

Definition inRect (r : Rectangle) (x y : Z) : Prop :=
  MinX r <= x < MaxX r /\ MinY r <= y < MaxY r.

Section SubImages.
Variable Image : Type.
(** [color.Color]. *)
Variable Color : Type.
(** [Src.At(x, y)], [None] being the nil colour, and [Src.Set(x, y, c)]. *)
Variable srcAt : Image -> Z -> Z -> option Color.
Variable srcSet : Image -> Z -> Z -> Color -> Image.

Record SubImage : Type := mkSubImage {
  Src : Image;
  SRect : Rectangle
}.

Definition outside (si : SubImage) (x y : Z) : bool :=
  (x <? 0) || (Dx (SRect si) <=? x) || (y <? 0) || (Dy (SRect si) <=? y).

Definition SubImage_At (si : SubImage) (x y : Z) : option Color :=
  if outside si x y then None
  else srcAt (Src si) (MinX (SRect si) + x) (MinY (SRect si) + y).

Definition SubImage_Set (si : SubImage) (x y : Z) (c : Color) : SubImage :=
  if outside si x y then si
  else {| Src := srcSet (Src si) (MinX (SRect si) + x) (MinY (SRect si) + y) c;
          SRect := SRect si |}.

Definition SubImage_Bounds (si : SubImage) : Rectangle :=
  Rect 0 0 (Dx (SRect si)) (Dy (SRect si)).

End SubImages.

Arguments Src {Image}.
Arguments SRect {Image}.
Arguments mkSubImage {Image}.
Arguments outside {Image}.
Arguments SubImage_At {Image Color}.
Arguments SubImage_Set {Image Color}.
Arguments SubImage_Bounds {Image}.

(** Two rectangles without a common point. *)
Definition apart (r1 r2 : Rectangle) : Prop :=
  forall x y, inRect r1 x y -> ~ inRect r2 x y.

(** An image as a function from positions to colours, for examples: the
    colours are numbers, and every position can be set. *)
Definition Canvas : Type := Z -> Z -> option nat.

Definition canvasAt (img : Canvas) (x y : Z) : option nat := img x y.

Definition canvasSet (img : Canvas) (x y : Z) (c : nat) : Canvas :=
  fun x' y' => if (x' =? x) && (y' =? y) then Some c else img x' y'.

Definition blank : Canvas := fun _ _ => None.

(** The first row of a menu 100 wide, from 0 to 24. *)
Definition rowOne : SubImage Canvas := mkSubImage blank (Rect 0 0 100 24).


(** ** The program ([main], in the sources as [src/unnamed/part_003])

    It reads the menu from the standard input, one item a line, runs the
    menu and prints.  A line arrives as [[]rune(scan.Text())]: a rune is a
    number here, a string a sequence of bytes. *)

(** The delimiter, a tab. *)
Definition delim : Z := 9.

Definition tabChar : ascii := ascii_of_N 9.

(** [byte(v)], as a character. *)
Definition byteChar (v : Z) : ascii := ascii_of_N (Z.to_N (v mod 256)).

(** [string(r)] for a rune: its UTF-8 encoding, from the library's source.
    [i] is [uint32(r)]; a surrogate or a value beyond [MaxRune] is encoded
    as the replacement character. *)
Definition encodeRune (r : Z) : string :=
  let i := r mod 2 ^ 32 in
  if i <=? 127 then String (byteChar r) EmptyString
  else if i <=? 2047 then
    String (byteChar (Z.lor 192 (Z.shiftr r 6 mod 256)))
      (String (byteChar (Z.lor 128 (Z.land (r mod 256) 63))) EmptyString)
  else if (1114111 <? i) || ((55296 <=? i) && (i <=? 57343)) then
    String (byteChar 239) (String (byteChar 191) (String (byteChar 189)
      EmptyString))
  else if i <=? 65535 then
    String (byteChar (Z.lor 224 (Z.shiftr r 12 mod 256)))
      (String (byteChar (Z.lor 128 (Z.land (Z.shiftr r 6 mod 256) 63)))
         (String (byteChar (Z.lor 128 (Z.land (r mod 256) 63))) EmptyString))
  else
    String (byteChar (Z.lor 240 (Z.shiftr r 18 mod 256)))
      (String (byteChar (Z.lor 128 (Z.land (Z.shiftr r 12 mod 256) 63)))
         (String (byteChar (Z.lor 128 (Z.land (Z.shiftr r 6 mod 256) 63)))
            (String (byteChar (Z.lor 128 (Z.land (r mod 256) 63)))
               EmptyString))).

(** [string(text)] for a slice of runes. *)
Fixpoint stringOfRunes (text : list Z) : string :=
  match text with
  | [] => EmptyString
  | r :: rest => (encodeRune r ++ stringOfRunes rest)%string
  end.

(** [for len(text) > 0 && text[0] == delim { depth++; text = text[1:] }] *)
Fixpoint stripTabs (text : list Z) (depth : Z) : Z * list Z :=
  match text with
  | [] => (depth, text)
  | r :: rest =>
      if r =? delim then stripTabs rest (depth + 1) else (depth, text)
  end.

(** [strings.SplitSeq(s, sep)] for a separator of one byte: the pieces
    between the separators, in order; an empty string has one empty
    piece. *)
Fixpoint splitOn (sep : ascii) (s : string) : list string :=
  match s with
  | EmptyString => [EmptyString]
  | String c rest =>
      if Ascii.eqb c sep then EmptyString :: splitOn sep rest
      else
        match splitOn sep rest with
        | piece :: pieces => String c piece :: pieces
        | [] => [String c EmptyString]
        end
  end.

(** The loop over the pieces: the fields are those that are not empty. *)
Definition fieldsOf (s : string) : list string :=
  List.filter (fun f => negb (String.eqb f EmptyString)) (splitOn tabChar s).

(** [strings.TrimPrefix]. *)
Fixpoint hasPrefix (s pre : string) : option string :=
  match pre with
  | EmptyString => Some s
  | String c pre' =>
      match s with
      | EmptyString => None
      | String d s' => if Ascii.eqb c d then hasPrefix s' pre' else None
      end
  end.

Definition TrimPrefix (s pre : string) : string :=
  match hasPrefix s pre with
  | Some rest => rest
  | None => s
  end.

(** One line of the input. *)
Record Line : Type := mkLine {
  lineDepth : Z;
  lineLabel : string;
  lineOutput : string;
  lineImage : string
}.

(** The body of the loop up to the call of [Append] (lines 58-88): the
    depth and the three strings; more than three fields panic. *)
Definition parseLine (text : list Z) : result Line :=
  let '(depth, text) := stripTabs text 0 in
  match fieldsOf (stringOfRunes text) with
  | [] => Ok (mkLine depth EmptyString EmptyString EmptyString)
  | [f0] => Ok (mkLine depth f0 f0 EmptyString)
  | [f0; f1] => Ok (mkLine depth f0 f1 EmptyString)
  | [f0; f1; f2] => Ok (mkLine depth f1 f2 (TrimPrefix f0 "IMG:"))
  | _ => Panic
  end.

(** What the hover callback prints: [fmt.Printf("\t%s\n", s)]; and what
    is printed after [Run]: [fmt.Printf("%s\n", res)]. *)
Definition newline : string := String (ascii_of_N 10) EmptyString.

Definition hoverLine (v : string) : string :=
  (String tabChar v ++ newline)%string.

Definition resultLine (v : string) : string := (v ++ newline)%string.

Section Program.
Variable ctxmenu : ContextMenu.

(** One turn of the loop over the lines: an error of [Append] panics. *)
Definition appendLine (s : list (Menu string)) (root : nat) (text : list Z)
  : result (list (Menu string)) :=
  do line <- parseLine text;
  do r <- Append EmptyString ctxmenu s root (lineLabel line)
                 (lineOutput line) (lineImage line) (lineDepth line);
  match r with
  | (s', None) => Ok s'
  | (_, Some _) => Panic
  end.

Fixpoint readLines (s : list (Menu string)) (root : nat)
         (lines : list (list Z)) : result (list (Menu string)) :=
  match lines with
  | [] => Ok s
  | text :: rest =>
      do s' <- appendLine s root text;
      readLines s' root rest
  end.

(** What the two [Printf] statements of [main] have written when [Run] is
    in the state [o]: a line with a tab and the output for every call of
    the hover callback, and after [Run] returned, the value and a newline
    if the error is not nil.  The package writes lines of its own to the
    same output ([draw], [openFile], [drawFrame] and the key handler of
    [Run] print while they work); those are not part of this. *)
Definition printed (o : Outcome string) : list string :=
  map hoverLine (hovered (loopOf o))
  ++ match o with
     | Return v (Some _) _ => [resultLine v]
     | _ => []
     end.

(** [main] after [CtxMenuInit], given the lines of the input, the state of
    the compositor and the events that arrive. *)
Definition program (lines : list (list Z)) (w : Wayland)
           (events : list Event) : result (list string) :=
  let '(s0, rootmenu) := MakeMenu EmptyString ctxmenu [] in
  do s <- readLines s0 rootmenu lines;
  do o <- Run EmptyString ctxmenu true s w rootmenu events;
  Ok (printed o).

End Program.

(** ** Words about the lines of the input *)

(** A rune as [[]rune] holds it, an [int32]; and one other than the tab. *)
Definition inRune (r : Z) : Prop := - 2 ^ 31 <= r < 2 ^ 31.

Definition plainRune (r : Z) : Prop := inRune r /\ r <> 9.

(** A field: runes without a tab, at least one. *)
Definition isField (f : list Z) : Prop :=
  f <> [] /\ Forall plainRune f.

(** Fields with the tabs after them: after each field but the last, one tab
    and as many more as the number with it says; after the last, as many
    tabs as its number says. *)
Fixpoint joinFields (fs : list (list Z * nat)) : list Z :=
  match fs with
  | [] => []
  | (f, k) :: rest =>
      match rest with
      | [] => f ++ repeat delim k
      | _ :: _ => f ++ repeat delim (S k) ++ joinFields rest
      end
  end.

(** The strings of the fields. *)
Definition fieldStrings (fs : list (list Z * nat)) : list string :=
  map (fun f => stringOfRunes (fst f)) fs.

(** A string without a tab. *)
Fixpoint noTab (s : string) : Prop :=
  match s with
  | EmptyString => True
  | String c rest => c <> tabChar /\ noTab rest
  end.

(** The depths of consecutive lines that [Append] takes: none is more than
    one below the line before, the first being at 0. *)
Fixpoint nested (prev : Z) (depths : list Z) : Prop :=
  match depths with
  | [] => True
  | d :: rest => d <= prev + 1 /\ nested d rest
  end.

Definition depthOf (text : list Z) : Z := fst (stripTabs text 0).

(** A line the program can turn into an item: at most three fields, and an
    icon, if it names one, that loads. *)
Definition lineOk (ctxmenu : ContextMenu) (text : list Z) : Prop :=
  exists line : Line,
    parseLine text = Ok line /\
    iconLoads ctxmenu (lineLabel line) (lineImage line) = true.

(** The root menu of the program, and its store. *)
Definition rootStore (ctxmenu : ContextMenu) : list (Menu string) :=
  fst (MakeMenu EmptyString ctxmenu []).

(** [v] is the output of a labelled item of [s]. *)
Definition labelledOutput (s : list (Menu string)) (v : string) : Prop :=
  exists (q : nat) (m : Menu string) (i : nat) (item : Item string),
    s !! q = Some m /\ items m !! i = Some item /\
    label item <> EmptyString /\ output item = v.

(** The runes of a string of bytes below 128. *)
Definition runesOf (s : string) : list Z :=
  map (fun c => Z.of_N (N_of_ascii c)) (list_ascii_of_string s).

(** A menu file: two entries, the first with a submenu of two items and a
    separator between them, the last with an icon. *)
Definition menuFile : list (list Z) :=
  Eval vm_compute in
    map runesOf
        ["File"; String tabChar "Open" ++ String tabChar "open";
         String tabChar ""; String tabChar "Quit" ++ String tabChar "quit";
         "IMG:help.png" ++ String tabChar "Help" ++ String tabChar "help"]%string.

(** Its last line. *)
Definition iconLine : list Z :=
  Eval vm_compute in
    runesOf ("IMG:help.png" ++ String tabChar "Help" ++ String tabChar "help").

(** The same file with its second line two levels below the first. *)
Definition jumpFile : list (list Z) :=
  Eval vm_compute in
    map runesOf
        ["File"; String tabChar (String tabChar "Open")]%string.

(** The menus the program builds from [menuFile] under [demoContext]. *)
Definition menuTree : list (Menu string) :=
  Eval vm_compute in
    match readLines demoContext (rootStore demoContext) 0 menuFile with
    | Ok s => s
    | _ => []
    end.

(** The pointer moves over "File", then over "Open" in the submenu that
    opened, and the button is pressed there. *)
Definition menuEvents : list Event :=
  [PointerMotionEvent 5; PointerMotionEvent 5; PointerButtonEvent true false].


(** * Theorems *)

(** ** Lists indexed by Go integers *)

Lemma len_nonneg {A : Type} (xs : list A) : 0 <= len xs.
Proof. unfold len. lia. Qed.

Lemma len_nil {A : Type} : len (@nil A) = 0.
Proof. reflexivity. Qed.

Lemma len_app {A : Type} (xs ys : list A) : len (xs ++ ys) = len xs + len ys.
Proof. unfold len. rewrite length_app. lia. Qed.

Lemma len_pos {A : Type} (xs : list A) : xs <> [] -> 0 < len xs.
Proof. destruct xs; [congruence | unfold len; simpl; lia]. Qed.

Lemma index_Some {A : Type} (xs : list A) (i : Z) (x : A) :
  index xs i = Some x -> 0 <= i < len xs.
Proof.
  unfold index, len. destruct (Z.ltb_spec i 0) as [Hneg | Hpos]; [discriminate |].
  intros Hlk. apply lookup_lt_Some in Hlk. lia.
Qed.

Lemma index_in_range {A : Type} (xs : list A) (i : Z) :
  0 <= i < len xs -> exists x, index xs i = Some x.
Proof.
  unfold index, len. intros [H0 H1].
  destruct (Z.ltb_spec i 0); [lia |].
  destruct (lookup_lt_is_Some_2 xs (Z.to_nat i)) as [x Hx]; [lia |].
  eauto.
Qed.

Lemma index_out {A : Type} (xs : list A) (i : Z) :
  ~ (0 <= i < len xs) -> index xs i = None.
Proof.
  intros H. destruct (index xs i) eqn:E; [| reflexivity].
  apply index_Some in E. contradiction.
Qed.

(** ** itemcycle *)

Section Cycle.
Context {T : Type}.
Implicit Types m : Menu T.

(** C8, as amended.  For a menu with at least one item: [itemcycle] with
    [ItemNext] on the last index returns -1, not the index it started from
    (and not 0); with [ItemPrev] and nothing selected it returns the last
    index; with [ItemNext] and nothing selected it returns 0; with
    [ItemNext] on an index below the last it returns the next one.
    [itemcycle] returns an index and writes no field of the menu. *)
Theorem itemcycle_next_prev m :
  items m <> [] ->
  (selected m = len (items m) - 1 -> itemcycle m ItemNext = Ok (-1)) /\
  (selected m = -1 -> itemcycle m ItemPrev = Ok (len (items m) - 1)) /\
  (selected m = -1 -> itemcycle m ItemNext = Ok 0) /\
  (0 <= selected m < len (items m) - 1 ->
   itemcycle m ItemNext = Ok (selected m + 1)).
Proof.
  intros Hne. apply len_pos in Hne.
  unfold itemcycle, ItemNext, ItemPrev. cbn [Z.eqb Pos.eqb].
  repeat split; intros H.
  - destruct (Z.eqb_spec (selected m) (-1)); [lia |].
    destruct (Z.ltb_spec (selected m) (len (items m) - 1)); [lia |].
    reflexivity.
  - rewrite H. reflexivity.
  - rewrite H. reflexivity.
  - destruct (Z.eqb_spec (selected m) (-1)); [lia |].
    destruct (Z.ltb_spec (selected m) (len (items m) - 1)); [| lia].
    reflexivity.
Qed.

Lemma skipForward_separators (its : list (Item T)) :
  forall (n : nat) (i : Z),
    0 <= i ->
    (Z.to_nat (len its - i) <= n)%nat ->
    (forall k item, i <= k -> index its k = Some item -> isSeparator item = true) ->
    skipForward its n i = Ok (Z.max i (len its)).
Proof.
  induction n as [| n IH]; intros i Hi Hn Hsep.
  - cbn. destruct (Z.ltb_spec i (len its)); [lia |]. f_equal. lia.
  - cbn. destruct (Z.ltb_spec i (len its)) as [Hlt | Hge]; [| f_equal; lia].
    destruct (index_in_range its i) as [item Hitem]; [lia |].
    rewrite Hitem. cbn. rewrite (Hsep i item); [| lia | assumption].
    rewrite IH; [f_equal; lia | lia | lia |].
    intros k it Hk. apply Hsep. lia.
Qed.

Lemma skipBackward_separators (its : list (Item T)) :
  forall (n : nat) (i : Z),
    i < len its ->
    (Z.to_nat (i + 1) <= n)%nat ->
    (forall k item, k <= i -> index its k = Some item -> isSeparator item = true) ->
    skipBackward its n i = Ok (Z.min i (-1)).
Proof.
  induction n as [| n IH]; intros i Hi Hn Hsep.
  - cbn. destruct (Z.leb_spec 0 i); [lia |]. f_equal. lia.
  - cbn. destruct (Z.leb_spec 0 i) as [Hle | Hgt]; [| f_equal; lia].
    destruct (index_in_range its i) as [item Hitem]; [lia |].
    rewrite Hitem. cbn. rewrite (Hsep i item); [| lia | assumption].
    rewrite IH; [f_equal; lia | lia | lia |].
    intros k it Hk. apply Hsep. lia.
Qed.

(** When every item is a separator (or there is none), [ItemFirst] and
    [ItemLast] index [items] outside its range: the fallback of the source
    is never reached. *)
Lemma itemcycle_separators_panic m :
  (forall k item, index (items m) k = Some item -> isSeparator item = true) ->
  itemcycle m ItemFirst = Panic /\ itemcycle m ItemLast = Panic.
Proof.
  intros Hsep. unfold itemcycle, ItemFirst, ItemLast, ItemNext, ItemPrev.
  cbn [Z.eqb Pos.eqb]. split.
  - rewrite skipForward_separators; [| lia | unfold len; lia | eauto].
    cbn. rewrite index_out; [reflexivity |].
    pose proof (len_nonneg (items m)). lia.
  - rewrite skipBackward_separators; [| lia | unfold len; lia | eauto].
    cbn. rewrite index_out; [reflexivity |].
    pose proof (len_nonneg (items m)). lia.
Qed.

Lemma skipForward_stops (its : list (Item T)) (j : Z) (item : Item T) :
  index its j = Some item -> isSeparator item = false ->
  forall (n : nat) (i : Z),
    0 <= i <= j ->
    (Z.to_nat (j - i) <= n)%nat ->
    (forall k it, i <= k < j -> index its k = Some it -> isSeparator it = true) ->
    skipForward its n i = Ok j.
Proof.
  intros Hj Hlab. pose proof (index_Some _ _ _ Hj) as Hr.
  induction n as [| n IH]; intros i Hi Hn Hsep.
  - assert (i = j) by lia. subst i. cbn.
    destruct (Z.ltb_spec j (len its)); [| lia]. rewrite Hj. cbn.
    rewrite Hlab. reflexivity.
  - cbn. destruct (Z.ltb_spec i (len its)); [| lia].
    destruct (Z.eq_dec i j) as [-> | Hne].
    + rewrite Hj. cbn. rewrite Hlab. reflexivity.
    + destruct (index_in_range its i) as [it Hit]; [lia |].
      rewrite Hit. cbn. rewrite (Hsep i it); [| lia | assumption].
      apply IH; [lia | lia |]. intros k it' Hk. apply Hsep. lia.
Qed.

Lemma skipBackward_stops (its : list (Item T)) (j : Z) (item : Item T) :
  index its j = Some item -> isSeparator item = false ->
  forall (n : nat) (i : Z),
    j <= i < len its ->
    (Z.to_nat (i - j) <= n)%nat ->
    (forall k it, j < k <= i -> index its k = Some it -> isSeparator it = true) ->
    skipBackward its n i = Ok j.
Proof.
  intros Hj Hlab. pose proof (index_Some _ _ _ Hj) as Hr.
  induction n as [| n IH]; intros i Hi Hn Hsep.
  - assert (i = j) by lia. subst i. cbn.
    destruct (Z.leb_spec 0 j); [| lia]. rewrite Hj. cbn.
    rewrite Hlab. reflexivity.
  - cbn. destruct (Z.leb_spec 0 i); [| lia].
    destruct (Z.eq_dec i j) as [-> | Hne].
    + rewrite Hj. cbn. rewrite Hlab. reflexivity.
    + destruct (index_in_range its i) as [it Hit]; [lia |].
      rewrite Hit. cbn. rewrite (Hsep i it); [| lia | assumption].
      apply IH; [lia | lia |]. intros k it' Hk. apply Hsep. lia.
Qed.

(** X1.  With a labelled item in the menu, [ItemFirst] returns the first
    labelled index and [ItemLast] the last one. *)
Lemma itemcycle_first_labelled m (j : Z) (item : Item T) :
  index (items m) j = Some item -> isSeparator item = false ->
  (forall k it, 0 <= k < j -> index (items m) k = Some it ->
                isSeparator it = true) ->
  itemcycle m ItemFirst = Ok j.
Proof.
  intros Hj Hlab Hsep. pose proof (index_Some _ _ _ Hj) as Hr.
  unfold itemcycle, ItemFirst, ItemLast, ItemNext, ItemPrev.
  cbn [Z.eqb Pos.eqb].
  rewrite (skipForward_stops _ j item Hj Hlab); [| lia | unfold len in *; lia | assumption].
  cbn. rewrite Hj. cbn. rewrite Hlab. reflexivity.
Qed.

(** X2.  With a labelled item in the menu, [ItemLast] returns the index of the
    last labelled item: every item after it is a separator. *)
Lemma itemcycle_last_labelled m (j : Z) (item : Item T) :
  index (items m) j = Some item -> isSeparator item = false ->
  (forall k it, j < k -> index (items m) k = Some it ->
                isSeparator it = true) ->
  itemcycle m ItemLast = Ok j.
Proof.
  intros Hj Hlab Hsep. pose proof (index_Some _ _ _ Hj) as Hr.
  unfold itemcycle, ItemFirst, ItemLast, ItemNext, ItemPrev.
  cbn [Z.eqb Pos.eqb].
  rewrite (skipBackward_stops _ j item Hj Hlab);
    [| lia | unfold len in *; lia | intros k it Hk; apply Hsep; lia].
  cbn. rewrite Hj. cbn. rewrite Hlab. reflexivity.
Qed.

End Cycle.

(** X1, witness.  A separator, two labelled items and a separator: the first labelled
    item is at index 1. *)
Lemma itemcycle_first_labelled_witness :
  itemcycle (demoMenu [""; "Open"; "Save"; ""]%string (-1)) ItemFirst = Ok 1.
Proof.
  apply (itemcycle_first_labelled (demoMenu [""; "Open"; "Save"; ""]%string (-1))
                                  1 (demoItem "Open"%string)).
  - reflexivity.
  - reflexivity.
  - intros k it Hk. assert (k = 0) as -> by lia.
    intros [= <-]. reflexivity.
Defined.

(** X2, witness.  The same menu: the last labelled item is at index 2. *)
Lemma itemcycle_last_labelled_witness :
  itemcycle (demoMenu [""; "Open"; "Save"; ""]%string (-1)) ItemLast = Ok 2.
Proof.
  apply (itemcycle_last_labelled (demoMenu [""; "Open"; "Save"; ""]%string (-1))
                                 2 (demoItem "Save"%string)).
  - reflexivity.
  - reflexivity.
  - intros k it Hk Hit. pose proof (index_Some _ _ _ Hit) as Hr.
    unfold len in Hr. cbn in Hr. assert (k = 3) as -> by lia.
    injection Hit as <-. reflexivity.
Defined.

(** C8, witness: a menu of two items with the second selected. *)
Lemma itemcycle_next_prev_witness :
  itemcycle (demoMenu ["A"; "B"]%string 1) ItemNext = Ok (-1).
Proof.
  apply (itemcycle_next_prev (demoMenu ["A"; "B"]%string 1)).
  - discriminate.
  - reflexivity.
Defined.

(** C8, counterexample.  With the last of two items selected, [ItemNext]
    does not return the selected index: it returns -1. *)
Lemma itemcycle_next_at_last_returns_none :
  let m := demoMenu ["A"; "B"]%string 1 in
  selected m = len (items m) - 1 /\
  itemcycle m ItemNext = Ok (-1) /\
  itemcycle m ItemNext <> Ok (selected m).
Proof. cbv zeta. repeat split. discriminate. Qed.

(** C5, at the failing input: a menu whose only item is a separator.  Both
    [ItemFirst] and [ItemLast] panic instead of falling back to 0 and to
    [len(items)-1]. *)
Example itemcycle_only_separator_panics :
  itemcycle (demoMenu [""%string] (-1)) ItemFirst = Panic /\
  itemcycle (demoMenu [""%string] (-1)) ItemLast = Panic.
Proof. split; reflexivity. Qed.

(** The scenario of the specification: a separator followed by one labelled
    item. *)
Example itemcycle_first_skips_separator :
  itemcycle (demoMenu [""; "Open"]%string (-1)) ItemFirst = Ok 1.
Proof. reflexivity. Qed.

(** ** matchitem *)

(** The inner loop of [matchitem] compares [text] with the label and with
    every shorter non-empty tail of it: it finds the labels that end with
    [text]. *)
Lemma labelMatches_spec (lbl text : string) :
  labelMatches lbl text = true <-> text <> EmptyString /\ endsWith lbl text.
Proof.
  induction lbl as [| c lbl IH]; cbn [labelMatches].
  - split; [discriminate |]. intros [Hne [pre Hpre]].
    destruct pre; cbn in Hpre; [congruence | discriminate].
  - destruct (String.eqb_spec (String c lbl) text) as [Heq | Hneq].
    + split; [| reflexivity]. intros _. subst text.
      split; [discriminate |]. exists EmptyString. reflexivity.
    + rewrite IH. split.
      * intros [Hne [pre Hpre]]. split; [assumption |].
        exists (String c pre). rewrite Hpre. reflexivity.
      * intros [Hne [pre Hpre]]. split; [assumption |].
        destruct pre as [| c' pre]; cbn in Hpre; [congruence |].
        exists pre. injection Hpre as _ Hpre. exact Hpre.
Qed.

Section Match.
Context {T : Type}.
Implicit Types m : Menu T.

Lemma matchesAt_range m text k : matchesAt m text k -> 0 <= k < len (items m).
Proof. intros (item & Hk & _). eapply index_Some, Hk. Qed.

Lemma matchesAt_labelMatches m text k item :
  index (items m) k = Some item ->
  (labelMatches (label item) text = true <-> matchesAt m text k).
Proof.
  intros Hk. rewrite labelMatches_spec. split.
  - intros [Hne He]. exists item. auto.
  - intros (item' & Hk' & Hne & He).
    assert (item' = item) by congruence. subst item'. auto.
Qed.

Lemma matchesAt_not_separator m text k item :
  matchesAt m text k -> index (items m) k = Some item ->
  isSeparator item = false.
Proof.
  intros (item' & Hk' & Hne & [pre Hpre]) Hk.
  assert (item' = item) by congruence. subst item'.
  unfold isSeparator. destruct (String.eqb_spec (label item) EmptyString) as [He | _];
    [| reflexivity].
  rewrite He in Hpre. destruct pre; cbn in Hpre; [congruence | discriminate].
Qed.

(** A pass that starts outside the list returns at once. *)
Lemma scan_outside m text dirinc n i :
  ~ (0 <= i < len (items m)) -> scan (items m) text dirinc n i = Ok None.
Proof.
  intros Hout. destruct n; cbn;
    destruct (Z.leb_spec 0 i); destruct (Z.ltb_spec i (len (items m)));
    cbn; solve [reflexivity | lia].
Qed.

(** The forward pass returns the first match at or after its start. *)
Lemma scan_forward m text :
  forall (n : nat) (i : Z),
    0 <= i ->
    (Z.to_nat (len (items m) - i) <= n)%nat ->
    exists r, scan (items m) text 1 n i = Ok r /\
      match r with
      | Some j => i <= j /\ matchesAt m text j /\
                  forall k, i <= k < j -> ~ matchesAt m text k
      | None => forall k, i <= k -> ~ matchesAt m text k
      end.
Proof.
  induction n as [| n IH]; intros i Hi Hn.
  - rewrite scan_outside by lia. eexists; split; [reflexivity |].
    intros k Hk Hm%matchesAt_range. lia.
  - destruct (Z.lt_ge_cases i (len (items m))) as [Hlt | Hge].
    2:{ rewrite scan_outside by lia. eexists; split; [reflexivity |].
        intros k Hk Hm%matchesAt_range. lia. }
    destruct (index_in_range (items m) i) as [item Hitem]; [lia |].
    cbn [scan].
    destruct (Z.leb_spec 0 i); [| lia].
    destruct (Z.ltb_spec i (len (items m))); [| lia].
    cbn [andb]. rewrite Hitem. cbn [deref bind].
    destruct (labelMatches (label item) text) eqn:Hlm.
    + eexists; split; [reflexivity |]. split; [lia |]. split.
      * apply (matchesAt_labelMatches m text i item Hitem), Hlm.
      * intros k Hk. lia.
    + destruct (IH (i + 1)) as (r & Hr & Hspec); [lia | lia |].
      exists r. split; [exact Hr |].
      assert (Hni : ~ matchesAt m text i).
      { intros Hm. apply (matchesAt_labelMatches m text i item Hitem) in Hm.
        congruence. }
      destruct r as [j |].
      * destruct Hspec as (Hj & Hmj & Hbefore). split; [lia |].
        split; [assumption |]. intros k Hk.
        destruct (Z.eq_dec k i) as [-> | Hne]; [assumption |].
        apply Hbefore. lia.
      * intros k Hk. destruct (Z.eq_dec k i) as [-> | Hne]; [assumption |].
        apply Hspec. lia.
Qed.

(** The backward pass returns the last match at or before its start. *)
Lemma scan_backward m text :
  forall (n : nat) (i : Z),
    i < len (items m) ->
    (Z.to_nat (i + 1) <= n)%nat ->
    exists r, scan (items m) text (-1) n i = Ok r /\
      match r with
      | Some j => j <= i /\ matchesAt m text j /\
                  forall k, j < k <= i -> ~ matchesAt m text k
      | None => forall k, k <= i -> ~ matchesAt m text k
      end.
Proof.
  induction n as [| n IH]; intros i Hi Hn.
  - rewrite scan_outside by lia. eexists; split; [reflexivity |].
    intros k Hk Hm%matchesAt_range. lia.
  - destruct (Z.lt_ge_cases i 0) as [Hlt | Hge].
    { rewrite scan_outside by lia. eexists; split; [reflexivity |].
      intros k Hk Hm%matchesAt_range. lia. }
    destruct (index_in_range (items m) i) as [item Hitem]; [lia |].
    cbn [scan].
    destruct (Z.leb_spec 0 i); [| lia].
    destruct (Z.ltb_spec i (len (items m))); [| lia].
    cbn [andb]. rewrite Hitem. cbn [deref bind].
    destruct (labelMatches (label item) text) eqn:Hlm.
    + eexists; split; [reflexivity |]. split; [lia |]. split.
      * apply (matchesAt_labelMatches m text i item Hitem), Hlm.
      * intros k Hk. lia.
    + destruct (IH (i + -1)) as (r & Hr & Hspec); [lia | lia |].
      exists r. split; [exact Hr |].
      assert (Hni : ~ matchesAt m text i).
      { intros Hm. apply (matchesAt_labelMatches m text i item Hitem) in Hm.
        congruence. }
      destruct r as [j |].
      * destruct Hspec as (Hj & Hmj & Hbefore). split; [lia |].
        split; [assumption |]. intros k Hk.
        destruct (Z.eq_dec k i) as [-> | Hne]; [assumption |].
        apply Hbefore. lia.
      * intros k Hk. destruct (Z.eq_dec k i) as [-> | Hne]; [assumption |].
        apply Hspec. lia.
Qed.

Lemma pass_forward m text (st : Z) :
  exists r, scan (items m) text 1 (length (items m)) st = Ok r /\
    match r with
    | Some j => st <= j /\ matchesAt m text j /\
                forall k, st <= k < j -> ~ matchesAt m text k
    | None => 0 <= st -> forall k, st <= k -> ~ matchesAt m text k
    end.
Proof.
  destruct (Z.lt_ge_cases st 0) as [Hneg | Hpos].
  - rewrite scan_outside by lia. eexists; split; [reflexivity |].
    intros Hst. lia.
  - destruct (scan_forward m text (length (items m)) st) as (r & Hr & Hspec);
      [lia | unfold len; lia |].
    exists r. split; [exact Hr |]. destruct r; auto.
Qed.

Lemma pass_backward m text (st : Z) :
  exists r, scan (items m) text (-1) (length (items m)) st = Ok r /\
    match r with
    | Some j => j <= st /\ matchesAt m text j /\
                forall k, j < k <= st -> ~ matchesAt m text k
    | None => st < len (items m) -> forall k, k <= st -> ~ matchesAt m text k
    end.
Proof.
  destruct (Z.lt_ge_cases st (len (items m))) as [Hin | Hout].
  - destruct (scan_backward m text (length (items m)) st) as (r & Hr & Hspec);
      [lia | unfold len in *; lia |].
    exists r. split; [exact Hr |]. destruct r; auto.
  - rewrite scan_outside by lia. eexists; split; [reflexivity |].
    intros Hst. lia.
Qed.

Lemma matchitem_unfold m text dir :
  matchitem m text dir =
  (do found <- scan (items m) text (if dir <? 0 then -1 else 1)
                    (length (items m)) (scanStart m dir);
   match found with
   | Some i => Ok i
   | None =>
       do found <- scan (items m) text (if dir <? 0 then -1 else 1)
                        (length (items m))
                        (if 0 <? dir then 0 else len (items m) - 1);
       match found with
       | Some i => Ok i
       | None => Ok (-1)
       end
   end).
Proof. reflexivity. Qed.

(** Whatever [matchitem] returns is -1 or an index of [items]. *)
Lemma matchitem_range m (text : string) (dir r : Z) :
  matchitem m text dir = Ok r -> r = -1 \/ 0 <= r < len (items m).
Proof.
  rewrite matchitem_unfold. intros Hm.
  assert (Hpass : forall inc st,
            inc = 1 \/ inc = -1 ->
            exists r1, scan (items m) text inc (length (items m)) st = Ok r1 /\
                       match r1 with
                       | Some j => 0 <= j < len (items m)
                       | None => True
                       end).
  { intros inc st [-> | ->].
    - destruct (pass_forward m text st) as (r1 & Hr1 & H1). exists r1.
      split; [exact Hr1 |]. destruct r1; [| exact I].
      destruct H1 as (_ & Hj & _). eapply matchesAt_range, Hj.
    - destruct (pass_backward m text st) as (r1 & Hr1 & H1). exists r1.
      split; [exact Hr1 |]. destruct r1; [| exact I].
      destruct H1 as (_ & Hj & _). eapply matchesAt_range, Hj. }
  assert (Hinc : (if dir <? 0 then -1 else 1) = 1 \/
                 (if dir <? 0 then -1 else 1) = -1)
    by (destruct (dir <? 0); auto).
  destruct (Hpass _ (scanStart m dir) Hinc) as (r1 & Hr1 & H1).
  rewrite Hr1 in Hm. cbn [bind] in Hm.
  destruct r1 as [j |]; [injection Hm as <-; auto |].
  destruct (Hpass _ (if 0 <? dir then 0 else len (items m) - 1) Hinc)
    as (r2 & Hr2 & H2).
  rewrite Hr2 in Hm. cbn [bind] in Hm.
  destruct r2 as [j |]; injection Hm as <-; auto.
Qed.

(** C4, as amended.  [matchitem] always returns.  It returns -1 exactly
    when no label ends with the non-empty [text]; otherwise it returns the
    index of an item whose label ends with [text] (so never a separator),
    chosen in scanning order: for [dir >= 0] the first such index at or
    after the start ([selected+1], or 0 at the end of the list, without a
    selection and for [dir == 0]), and when there is none, the first such
    index of the whole list; for [dir < 0] the mirror image, downwards from
    [selected-1] (or from the last index). *)
Theorem matchitem_spec m (text : string) (dir : Z) :
  exists r : Z,
    matchitem m text dir = Ok r /\
    ((r = -1 /\ forall k, ~ matchesAt m text k) \/
     (0 <= r < len (items m) /\
      matchesAt m text r /\
      (forall item, index (items m) r = Some item ->
                    isSeparator item = false) /\
      (0 <= dir ->
       (forall k, scanStart m dir <= k < r -> ~ matchesAt m text k) /\
       (r < scanStart m dir ->
        forall k, scanStart m dir <= k \/ k < r -> ~ matchesAt m text k)) /\
      (dir < 0 ->
       (forall k, r < k <= scanStart m dir -> ~ matchesAt m text k) /\
       (scanStart m dir < r ->
        forall k, k <= scanStart m dir \/ r < k -> ~ matchesAt m text k)))).
Proof.
  rewrite matchitem_unfold.
  set (st := scanStart m dir).
  assert (Hout : forall k, ~ (0 <= k < len (items m)) -> ~ matchesAt m text k).
  { intros k Hk Hm%matchesAt_range. contradiction. }
  assert (Hfound : forall j, matchesAt m text j ->
            0 <= j < len (items m) /\ matchesAt m text j /\
            (forall item, index (items m) j = Some item ->
                          isSeparator item = false)).
  { intros j Hj. split; [eapply matchesAt_range, Hj |]. split; [exact Hj |].
    intros item. eapply matchesAt_not_separator, Hj. }
  assert (Hpack : forall j,
            matchesAt m text j ->
            ((0 <= dir ->
              (forall k, st <= k < j -> ~ matchesAt m text k) /\
              (j < st -> forall k, st <= k \/ k < j -> ~ matchesAt m text k)) /\
             (dir < 0 ->
              (forall k, j < k <= st -> ~ matchesAt m text k) /\
              (st < j -> forall k, k <= st \/ j < k -> ~ matchesAt m text k))) ->
            exists r : Z,
              Ok j = Ok r /\
              ((r = -1 /\ forall k, ~ matchesAt m text k) \/
               (0 <= r < len (items m) /\
                matchesAt m text r /\
                (forall item, index (items m) r = Some item ->
                              isSeparator item = false) /\
                (0 <= dir ->
                 (forall k, st <= k < r -> ~ matchesAt m text k) /\
                 (r < st ->
                  forall k, st <= k \/ k < r -> ~ matchesAt m text k)) /\
                (dir < 0 ->
                 (forall k, r < k <= st -> ~ matchesAt m text k) /\
                 (st < r ->
                  forall k, k <= st \/ r < k -> ~ matchesAt m text k))))).
  { intros j Hmj [Hup Hdown]. exists j. split; [reflexivity |]. right.
    destruct (Hfound j Hmj) as (Hrange & _ & Hsep). auto. }
  assert (Hnothing : (forall k, ~ matchesAt m text k) ->
            exists r : Z,
              Ok (-1) = Ok r /\
              ((r = -1 /\ forall k, ~ matchesAt m text k) \/
               (0 <= r < len (items m) /\
                matchesAt m text r /\
                (forall item, index (items m) r = Some item ->
                              isSeparator item = false) /\
                (0 <= dir ->
                 (forall k, st <= k < r -> ~ matchesAt m text k) /\
                 (r < st ->
                  forall k, st <= k \/ k < r -> ~ matchesAt m text k)) /\
                (dir < 0 ->
                 (forall k, r < k <= st -> ~ matchesAt m text k) /\
                 (st < r ->
                  forall k, k <= st \/ r < k -> ~ matchesAt m text k))))).
  { intros Hnone. exists (-1). split; [reflexivity |]. left. auto. }
  destruct (Z.ltb_spec dir 0) as [Hneg | Hpos].
  - (* downwards *)
    destruct (Z.ltb_spec 0 dir) as [? | _]; [lia |].
    destruct (pass_backward m text st) as (r1 & Hr1 & H1). rewrite Hr1.
    cbn [bind]. destruct r1 as [j |].
    + destruct H1 as (Hj & Hmj & Hbetween).
      apply Hpack; [exact Hmj |]. split; intros Hd; [lia |].
      split; [exact Hbetween |]. intros Hlt. lia.
    + destruct (pass_backward m text (len (items m) - 1)) as (r2 & Hr2 & H2).
      rewrite Hr2. cbn [bind]. destruct r2 as [j |].
      * destruct H2 as (Hj & Hmj & Hbetween).
        apply Hpack; [exact Hmj |]. split; intros Hd; [lia |].
        pose proof (matchesAt_range m text j Hmj) as Hrange.
        split.
        -- intros k Hk. destruct (Z.lt_ge_cases k (len (items m)));
             [apply Hbetween; lia | apply Hout; lia].
        -- intros Hlt k [Hk | Hk].
           ++ apply H1; lia.
           ++ destruct (Z.lt_ge_cases k (len (items m)));
                [apply Hbetween; lia | apply Hout; lia].
      * apply Hnothing.
        intros k. destruct (Z.lt_ge_cases k (len (items m)));
          [apply H2; lia | apply Hout; lia].
  - (* upwards *)
    destruct (pass_forward m text st) as (r1 & Hr1 & H1). rewrite Hr1.
    cbn [bind]. destruct r1 as [j |].
    + destruct H1 as (Hj & Hmj & Hbetween).
      apply Hpack; [exact Hmj |]. split; intros Hd; [| lia].
      split; [exact Hbetween |]. intros Hlt. lia.
    + destruct (pass_forward m text (if 0 <? dir then 0 else len (items m) - 1))
        as (r2 & Hr2 & H2).
      rewrite Hr2. cbn [bind].
      destruct (Z.ltb_spec 0 dir) as [Hup | Hzero].
      * destruct r2 as [j |].
        -- destruct H2 as (Hj & Hmj & Hbetween).
           apply Hpack; [exact Hmj |]. split; intros Hd; [| lia].
           pose proof (matchesAt_range m text j Hmj) as Hrange.
           split.
           ++ intros k Hk. destruct (Z.lt_ge_cases k 0);
                [apply Hout; lia | apply Hbetween; lia].
           ++ intros Hlt k [Hk | Hk].
              ** apply H1; lia.
              ** destruct (Z.lt_ge_cases k 0);
                   [apply Hout; lia | apply Hbetween; lia].
        -- apply Hnothing.
           intros k. destruct (Z.lt_ge_cases k 0);
             [apply Hout; lia | apply H2; lia].
      * assert (Hst : st = 0).
        { unfold st, scanStart.
          destruct (Z.ltb_spec dir 0); [lia |].
          destruct (Z.ltb_spec 0 dir); [lia | reflexivity]. }
        assert (Hnone : forall k, ~ matchesAt m text k).
        { intros k. destruct (Z.lt_ge_cases k 0);
            [apply Hout; lia | apply H1; lia]. }
        destruct r2 as [j |].
        -- destruct H2 as (_ & Hmj & _). exfalso. exact (Hnone j Hmj).
        -- apply Hnothing. exact Hnone.
Qed.

End Match.

(** C4, counterexample.  The only item is "Cut".  The text "Cu" is a
    non-empty prefix of its label and [matchitem] returns -1; the text "ut"
    is no prefix of it and [matchitem] returns the item. *)
Lemma matchitem_prefix_counterexample :
  let m := demoMenu ["Cut"%string] (-1) in
  String.prefix "Cu" "Cut" = true /\
  matchitem m "Cu" 0 = Ok (-1) /\
  String.prefix "ut" "Cut" = false /\
  matchitem m "ut" 0 = Ok 0.
Proof. cbv zeta. repeat split. Qed.

(** ** Append *)

Section AppendFacts.
Context {T : Type}.
Variable zero : T.
Variable ctxmenu : ContextMenu.
Implicit Types s : list (Menu T).

Lemma last_index (its : list (Item T)) (tail : Item T) :
  last its = Some tail -> its !! (length its - 1)%nat = Some tail.
Proof. rewrite last_lookup, Nat.sub_1_r. auto. Qed.

Lemma contents_length s : length (contents s) = length s.
Proof. unfold contents. apply length_map. Qed.

Lemma contents_insert_same s (p : nat) (m m' : Menu T) :
  s !! p = Some m ->
  map (fun item => (label item, output item)) (items m') =
  map (fun item => (label item, output item)) (items m) ->
  contents (<[p := m']> s) = contents s.
Proof.
  intros Hp Hsame. unfold contents.
  apply list_eq. intros q.
  rewrite !list_lookup_fmap.
  destruct (decide (p = q)) as [-> | Hne].
  - rewrite list_lookup_insert_eq by (eapply lookup_lt_Some, Hp).
    rewrite Hp. cbn. f_equal. exact Hsame.
  - rewrite list_lookup_insert_ne by assumption. reflexivity.
Qed.

(** What [setSubmenu] does to a well-formed store when called on the last
    item of [p]. *)
Lemma setSubmenu_last s (p : nat) (m : Menu T) (tail : Item T) (sub : nat) :
  parentsOk s -> s !! p = Some m -> last (items m) = Some tail ->
  exists m' : Menu T,
    setSubmenu ctxmenu (s ++ [newMenu zero ctxmenu (length s)]) p
               (length (items m) - 1)%nat sub
    = Ok (<[p := m']> (s ++ [newMenu zero ctxmenu (length s)])) /\
    map (fun item => (label item, output item)) (items m') =
    map (fun item => (label item, output item)) (items m) /\
    length (items m') = length (items m) /\
    itemsChanged m' = itemsChanged m /\
    grows m m' /\
    (forall i item, items m' !! i = Some item -> parent item = p) /\
    last (items m') =
      Some (mkItem (parent tail) (output tail) (label tail) (Some sub)
                   (icon tail) (overflower tail)
                   (iw tail + rightArrowX ctxmenu) (ih tail)) /\
    (forall i item, items m' !! i = Some item ->
                    submenu item = Some sub \/ items m !! i = Some item).
Proof.
  intros Hwf Hp Hlast. pose proof (last_index _ _ Hlast) as Hidx.
  pose proof (lookup_lt_Some _ _ _ Hp) as Hlt.
  pose proof (lookup_lt_Some _ _ _ Hidx) as Hilt.
  assert (Hpar : parent tail = p) by (eapply Hwf; eauto).
  set (tail' := mkItem (parent tail) (output tail) (label tail) (Some sub)
                       (icon tail) (overflower tail)
                       (iw tail + rightArrowX ctxmenu) (ih tail)).
  set (its' := <[(length (items m) - 1)%nat := tail']> (items m)).
  exists (set_size (set_items m its') (Z.max (mw m) (iw tail')) (mh m)).
  unfold setSubmenu.
  rewrite lookup_app_l by assumption. rewrite Hp. cbn [deref bind].
  rewrite Hidx. cbn [deref bind]. fold tail'. fold its'.
  rewrite Hpar.
  rewrite list_lookup_insert_eq by (rewrite length_app; cbn; lia).
  cbn [deref bind]. rewrite list_insert_insert_eq.
  split; [reflexivity |].
  assert (Hlen : length its' = length (items m))
    by (unfold its'; apply length_insert).
  split; [| split; [exact Hlen | split; [reflexivity | split; [| split; [| split]]]]].
  - cbn. unfold its'. apply list_eq. intros i.
    rewrite !list_lookup_fmap.
    destruct (decide ((length (items m) - 1)%nat = i)) as [<- | Hne].
    + rewrite list_lookup_insert_eq by assumption. rewrite Hidx. reflexivity.
    + rewrite list_lookup_insert_ne by assumption. reflexivity.
  - unfold grows. cbn. rewrite Hlen.
    repeat split; try reflexivity; try lia.
  - cbn. intros i item. unfold its'.
    destruct (decide ((length (items m) - 1)%nat = i)) as [<- | Hne].
    + rewrite list_lookup_insert_eq by assumption.
      intros [= <-]. exact Hpar.
    + rewrite list_lookup_insert_ne by assumption. intros Hi.
      eapply Hwf; eauto.
  - cbn. rewrite last_lookup, Hlen. unfold its'.
    rewrite <- Nat.sub_1_r. rewrite list_lookup_insert_eq by assumption.
    reflexivity.
  - cbn. intros i item. unfold its'.
    destruct (decide ((length (items m) - 1)%nat = i)) as [<- | Hne].
    + rewrite list_lookup_insert_eq by assumption.
      intros [= <-]. left. reflexivity.
    + rewrite list_lookup_insert_ne by assumption. auto.
Qed.

(** The store [setSubmenu] returns when called on the last item of [p]. *)
Lemma setSubmenu_linkLast s (p : nat) (m : Menu T) (tail : Item T) (sub : nat) :
  parentsOk s -> s !! p = Some m -> last (items m) = Some tail ->
  setSubmenu ctxmenu (s ++ [newMenu zero ctxmenu (length s)]) p
             (length (items m) - 1)%nat sub
  = Ok (<[p := linkLast ctxmenu m tail sub]>
          (s ++ [newMenu zero ctxmenu (length s)])).
Proof.
  intros Hwf Hp Hlast. pose proof (last_index _ _ Hlast) as Hidx.
  pose proof (lookup_lt_Some _ _ _ Hp) as Hlt.
  assert (Hpar : parent tail = p) by (eapply Hwf; eauto).
  unfold setSubmenu, linkLast, withSubmenu.
  rewrite lookup_app_l by assumption. rewrite Hp. cbn [deref bind].
  rewrite Hidx. cbn [deref bind]. rewrite Hpar.
  rewrite list_lookup_insert_eq by (rewrite length_app; cbn; lia).
  cbn [deref bind]. rewrite list_insert_insert_eq. reflexivity.
Qed.

Lemma chain_open_pos s (p n : nat) (opn : bool) :
  chain s p n opn -> opn = true -> (1 <= n)%nat.
Proof.
  induction 1 as [p m Hp Hnil | p m tail Hp Hlast Hsub
                 | p m tail sub n opn Hp Hlast Hsub Hchain IH];
    intros Hopn; [discriminate | lia | lia].
Qed.

(** [descend] beyond a chain that ends at a last item without submenu:
    the menu at the end of the chain gets the link to a new menu. *)
Lemma descend_too_deep_open s :
  parentsOk s ->
  forall (p n : nat) (opn : bool),
    chain s p n opn -> opn = true ->
    forall k : nat,
      (n < k)%nat ->
      exists (t : nat) (m : Menu T) (tail : Item T),
        rightmost s p (n - 1) t /\ s !! t = Some m /\
        last (items m) = Some tail /\ submenu tail = None /\
        descend zero ctxmenu k s p
        = Ok (<[t := linkLast ctxmenu m tail (length s)]>
                (s ++ [newMenu zero ctxmenu (length s)]),
              inl TooMuchDepth).
Proof.
  intros Hwf p n opn Hchain.
  induction Hchain as [p m Hp Hnil | p m tail Hp Hlast Hsub
                      | p m tail sub n opn Hp Hlast Hsub Hchain IH];
    intros Hopn k Hk.
  - discriminate.
  - destruct k as [| [| k]]; [lia | lia |].
    exists p, m, tail. split; [apply rm_here |].
    split; [exact Hp |]. split; [exact Hlast |]. split; [exact Hsub |].
    cbn [descend]. rewrite Hp. cbn [deref bind]. rewrite Hlast, Hsub.
    unfold MakeMenu.
    rewrite (setSubmenu_linkLast s p m tail (length s) Hwf Hp Hlast).
    cbn [bind].
    pose proof (lookup_lt_Some _ _ _ Hp) as Hlt.
    rewrite list_lookup_insert_ne by lia.
    rewrite lookup_app_r by lia. rewrite Nat.sub_diag. cbn. reflexivity.
  - destruct k as [| k]; [lia |].
    destruct (IH Hopn k ltac:(lia))
      as (t & mt & tl & Hright & Ht & Htl & Hnone & Hdesc).
    exists t, mt, tl.
    pose proof (chain_open_pos s sub n opn Hchain Hopn) as Hpos.
    split.
    { replace (S n - 1)%nat with (S (n - 1)) by lia.
      eapply rm_step; eassumption. }
    split; [exact Ht |]. split; [exact Htl |]. split; [exact Hnone |].
    cbn [descend]. rewrite Hp. cbn [deref bind]. rewrite Hlast, Hsub.
    exact Hdesc.
Qed.

(** [descend] beyond the chain: the depth error, and what is left of the
    tree. *)
Lemma descend_too_deep s :
  parentsOk s ->
  forall (p n : nat) (opn : bool),
    chain s p n opn ->
    forall k : nat,
      (n < k)%nat ->
      exists s' : list (Menu T),
        descend zero ctxmenu k s p = Ok (s', inl TooMuchDepth) /\
        contents s' = contents s ++ (if opn then [[]] else []) /\
        (opn = false -> s' = s).
Proof.
  intros Hwf p n opn Hchain.
  induction Hchain as [p m Hp Hnil | p m tail Hp Hlast Hsub
                      | p m tail sub n opn Hp Hlast Hsub Hchain IH];
    intros k Hk.
  - destruct k as [| k]; [lia |]. cbn [descend]. rewrite Hp. cbn [deref bind].
    rewrite Hnil. cbn. exists s. rewrite app_nil_r. auto.
  - destruct k as [| [| k]]; [lia | lia |].
    cbn [descend]. rewrite Hp. cbn [deref bind]. rewrite Hlast, Hsub.
    unfold MakeMenu.
    destruct (setSubmenu_last s p m tail (length s) Hwf Hp Hlast)
      as (m' & Hset & Hsame & _).
    rewrite Hset. cbn [bind].
    pose proof (lookup_lt_Some _ _ _ Hp) as Hlt.
    rewrite list_lookup_insert_ne by lia.
    rewrite lookup_app_r by lia. rewrite Nat.sub_diag. cbn.
    eexists. split; [reflexivity |]. split; [| discriminate].
    rewrite (contents_insert_same _ p m m');
      [| rewrite lookup_app_l by assumption; exact Hp | exact Hsame].
    unfold contents. rewrite map_app. reflexivity.
  - destruct k as [| k]; [lia |].
    cbn [descend]. rewrite Hp. cbn [deref bind]. rewrite Hlast, Hsub.
    apply IH. lia.
Qed.

(** [descend] within the chain reaches a menu: [chain] measures exactly the
    depth [Append] accepts. *)
Lemma descend_within s :
  parentsOk s ->
  forall (p n : nat) (opn : bool),
    chain s p n opn ->
    forall k : nat,
      (k <= n)%nat ->
      exists (s' : list (Menu T)) (target : nat),
        descend zero ctxmenu k s p = Ok (s', inr target).
Proof.
  intros Hwf p n opn Hchain.
  induction Hchain as [p m Hp Hnil | p m tail Hp Hlast Hsub
                      | p m tail sub n opn Hp Hlast Hsub Hchain IH];
    intros k Hk.
  - assert (k = 0%nat) by lia. subst k. cbn. eauto.
  - destruct k as [| [| k]]; [cbn; eauto | | lia].
    cbn [descend]. rewrite Hp. cbn [deref bind]. rewrite Hlast, Hsub.
    unfold MakeMenu.
    destruct (setSubmenu_last s p m tail (length s) Hwf Hp Hlast)
      as (m' & Hset & _).
    rewrite Hset. cbn. eauto.
  - destruct k as [| k]; [cbn; eauto |].
    cbn [descend]. rewrite Hp. cbn [deref bind]. rewrite Hlast, Hsub.
    apply IH. lia.
Qed.

(** C2, as amended.  On a tree whose items point back to their menus, a
    call of [Append] with a depth beyond the chain fails with the depth
    error and adds no item anywhere.  The tree is unchanged when the chain
    ends at a menu without items; when it ends at a last item without
    submenu, that item has been given a new, empty submenu and has been
    widened by the arrow before the call fails: the store is the old one
    with a new menu at its end, and with the menu at the end of the chain
    replaced by the one whose last item is linked to the new menu. *)
Theorem Append_too_deep s (p n : nat) (opn : bool) (lbl : string) (out : T)
        (img : string) (depth : Z) :
  parentsOk s ->
  chain s p n opn ->
  Z.of_nat n < depth ->
  exists s' : list (Menu T),
    Append zero ctxmenu s p lbl out img depth = Ok (s', Some TooMuchDepth) /\
    contents s' = contents s ++ (if opn then [[]] else []) /\
    (opn = false -> s' = s) /\
    (opn = true -> length s' = S (length s)) /\
    (opn = true ->
     exists (t : nat) (m : Menu T) (tail : Item T),
       rightmost s p (n - 1) t /\ s !! t = Some m /\
       last (items m) = Some tail /\ submenu tail = None /\
       s' = <[t := linkLast ctxmenu m tail (length s)]>
              (s ++ [newMenu zero ctxmenu (length s)])).
Proof.
  intros Hwf Hchain Hdepth.
  destruct (descend_too_deep s Hwf p n opn Hchain (Z.to_nat depth))
    as (s' & Hdesc & Hcont & Hsame); [lia |].
  exists s'. unfold Append. rewrite Hdesc. cbn [bind].
  split; [reflexivity |]. split; [exact Hcont |]. split; [exact Hsame |].
  split.
  - intros ->.
    rewrite <- (contents_length s'), Hcont, length_app, contents_length.
    cbn. lia.
  - intros Hopn.
    destruct (descend_too_deep_open s Hwf p n opn Hchain Hopn
                                    (Z.to_nat depth))
      as (t & m & tail & Hright & Ht & Htail & Hnone & Hdesc'); [lia |].
    exists t, m, tail. rewrite Hdesc in Hdesc'. injection Hdesc' as ->.
    auto.
Qed.

(** *** What every call of [Append] keeps *)

Lemma grows_refl (m : Menu T) : grows m m.
Proof. unfold grows. repeat split; lia. Qed.

Lemma grows_trans (m1 m2 m3 : Menu T) :
  grows m1 m2 -> grows m2 m3 -> grows m1 m3.
Proof. unfold grows. intuition (try congruence; try lia). Qed.

Lemma menuAt_Some s q m : s !! q = Some m -> menuAt zero ctxmenu s q = m.
Proof. unfold menuAt. intros ->. reflexivity. Qed.

Lemma menuAt_None s q :
  s !! q = None -> menuAt zero ctxmenu s q = newMenu zero ctxmenu q.
Proof. unfold menuAt. intros ->. reflexivity. Qed.

Lemma ext_refl s : ext zero ctxmenu s s.
Proof.
  split; [lia |]. intros q m Hq. rewrite (menuAt_Some _ _ _ Hq).
  apply grows_refl.
Qed.

Lemma ext_trans s1 s2 s3 :
  ext zero ctxmenu s1 s2 -> ext zero ctxmenu s2 s3 -> ext zero ctxmenu s1 s3.
Proof.
  intros [Hl12 H12] [Hl23 H23]. split; [lia |]. intros q m3 Hq.
  apply grows_trans with (menuAt zero ctxmenu s2 q); [| auto].
  destruct (s2 !! q) as [m2 |] eqn:E2.
  - rewrite (menuAt_Some s2 _ _ E2). auto.
  - rewrite (menuAt_None s2 _ E2).
    apply lookup_ge_None_1 in E2.
    rewrite menuAt_None by (apply lookup_ge_None_2; lia).
    apply grows_refl.
Qed.

Lemma ext_MakeMenu s : ext zero ctxmenu s (fst (MakeMenu zero ctxmenu s)).
Proof.
  cbn. split; [rewrite length_app; lia |]. intros q m Hq.
  apply lookup_app_Some in Hq as [Hq | [Hge Hq]].
  - rewrite (menuAt_Some _ _ _ Hq). apply grows_refl.
  - rewrite menuAt_None by (apply lookup_ge_None_2; lia).
    apply list_lookup_singleton_Some in Hq as [Hq <-].
    replace q with (length s) by lia. apply grows_refl.
Qed.

Lemma good_MakeMenu s : good s -> good (fst (MakeMenu zero ctxmenu s)).
Proof.
  intros [Hwf Hdirty]. cbn. split.
  - intros q m i item Hq Hi.
    apply lookup_app_Some in Hq as [Hq | [Hge Hq]]; [eapply Hwf; eauto |].
    apply list_lookup_singleton_Some in Hq as [_ <-]. cbn in Hi.
    rewrite lookup_nil in Hi. discriminate.
  - intros q m Hq.
    apply lookup_app_Some in Hq as [Hq | [Hge Hq]]; [eauto |].
    apply list_lookup_singleton_Some in Hq as [_ <-]. intros Hc.
    discriminate.
Qed.

(** Replacing the menu at [p] by a grown one. *)
Lemma ext_insert s (p : nat) (m m' : Menu T) :
  s !! p = Some m -> grows m m' -> ext zero ctxmenu s (<[p := m']> s).
Proof.
  intros Hp Hg. split; [rewrite length_insert; lia |]. intros q mq Hq.
  destruct (decide (p = q)) as [<- | Hne].
  - rewrite list_lookup_insert_eq in Hq by (eapply lookup_lt_Some, Hp).
    injection Hq as <-. rewrite (menuAt_Some _ _ _ Hp). exact Hg.
  - rewrite list_lookup_insert_ne in Hq by assumption.
    rewrite (menuAt_Some _ _ _ Hq). apply grows_refl.
Qed.

Lemma good_insert s (p : nat) (m m' : Menu T) :
  good s -> s !! p = Some m ->
  (forall i item, items m' !! i = Some item -> parent item = p) ->
  dirtyHasItems m' ->
  good (<[p := m']> s).
Proof.
  intros [Hwf Hdirty] Hp Hpar Hd. split.
  - intros q mq i item Hq Hi.
    destruct (decide (p = q)) as [<- | Hne].
    + rewrite list_lookup_insert_eq in Hq by (eapply lookup_lt_Some, Hp).
      injection Hq as <-. eauto.
    + rewrite list_lookup_insert_ne in Hq by assumption. eapply Hwf; eauto.
  - intros q mq Hq.
    destruct (decide (p = q)) as [<- | Hne].
    + rewrite list_lookup_insert_eq in Hq by (eapply lookup_lt_Some, Hp).
      injection Hq as <-. exact Hd.
    + rewrite list_lookup_insert_ne in Hq by assumption. eauto.
Qed.

Lemma descend_ext :
  forall (k : nat) s (p : nat) s' (r : AppendError + nat),
    descend zero ctxmenu k s p = Ok (s', r) ->
    good s ->
    good s' /\ ext zero ctxmenu s s'.
Proof.
  induction k as [| k IH]; intros s p s' r Hdesc Hgood.
  - cbn in Hdesc. injection Hdesc as <- <-.
    split; [assumption | apply ext_refl].
  - cbn [descend] in Hdesc.
    destruct (s !! p) as [m |] eqn:Hp; [| discriminate]. cbn [deref bind] in Hdesc.
    destruct (last (items m)) as [tail |] eqn:Hlast.
    2:{ injection Hdesc as <- <-. split; [assumption | apply ext_refl]. }
    destruct (submenu tail) as [sub |] eqn:Hsub.
    + exact (IH _ _ _ _ Hdesc Hgood).
    + unfold MakeMenu in Hdesc.
      destruct Hgood as [Hwf Hdirty].
      destruct (setSubmenu_last s p m tail (length s) Hwf Hp Hlast)
        as (m' & Hset & _ & Hlen & Hchg & Hgrow & Hpar & _).
      rewrite Hset in Hdesc. cbn [bind] in Hdesc.
      pose proof (lookup_lt_Some _ _ _ Hp) as Hlt.
      assert (Hp1 : (s ++ [newMenu zero ctxmenu (length s)]) !! p = Some m)
        by (rewrite lookup_app_l by assumption; exact Hp).
      assert (Hg1 : good (<[p := m']> (s ++ [newMenu zero ctxmenu (length s)]))).
      { apply good_insert with m; [| assumption | assumption |].
        - apply (good_MakeMenu s). split; assumption.
        - intros Hc Hnil. rewrite Hchg in Hc.
          apply (Hdirty _ _ Hp Hc). rewrite Hnil in Hlen.
          destruct (items m); [reflexivity | discriminate]. }
      destruct (IH _ _ _ _ Hdesc Hg1) as (Hg & He).
      split; [assumption |].
      eapply ext_trans; [apply ext_MakeMenu |].
      eapply ext_trans; [| exact He].
      cbn. eapply ext_insert; eassumption.
Qed.

Lemma makeItem_parent (p : nat) (lbl : string) (out : T) (img : string)
      (item : Item T) :
  makeItem ctxmenu p lbl out img = inr item ->
  parent item = p /\ label item = lbl /\ output item = out /\
  submenu item = None.
Proof.
  unfold makeItem.
  destruct (String.eqb lbl EmptyString); [intros [= <-]; auto |].
  destruct (negb (String.eqb img EmptyString) && negb (disableIcons ctxmenu));
    [destruct (loadIcon ctxmenu img); [| discriminate] |];
    intros [= <-]; auto.
Qed.

Lemma AppendItem_ext s (p : nat) (lbl : string) (out : T) (img : string)
      s' (e : option AppendError) :
  AppendItem ctxmenu s p lbl out img = Ok (s', e) ->
  good s ->
  good s' /\ ext zero ctxmenu s s'.
Proof.
  unfold AppendItem. intros Happ Hgood.
  destruct (s !! p) as [m |] eqn:Hp; [| discriminate]. cbn [deref bind] in Happ.
  destruct (makeItem ctxmenu p lbl out img) as [err | item] eqn:Hmk.
  - injection Happ as <- <-. split; [assumption | apply ext_refl].
  - injection Happ as <- <-.
    apply makeItem_parent in Hmk as (Hpar & _).
    split.
    + apply good_insert with m; [assumption | assumption | |].
      * cbn. intros i it Hi.
        apply lookup_app_Some in Hi as [Hi | [_ Hi]].
        -- destruct Hgood as [Hwf _]. eapply Hwf; eauto.
        -- apply list_lookup_singleton_Some in Hi as [_ <-]. exact Hpar.
      * intros _. cbn. destruct (items m); discriminate.
    + apply ext_insert with m; [assumption |].
      unfold grows. cbn. rewrite length_app. repeat split; lia.
Qed.

Lemma Append_ext s (p : nat) (lbl : string) (out : T) (img : string)
      (depth : Z) s' (e : option AppendError) :
  Append zero ctxmenu s p lbl out img depth = Ok (s', e) ->
  good s ->
  good s' /\ ext zero ctxmenu s s'.
Proof.
  unfold Append. intros Happ Hgood.
  destruct (descend zero ctxmenu (Z.to_nat depth) s p) as [[s1 r] | | |] eqn:Hd;
    try discriminate.
  cbn [bind] in Happ.
  destruct (descend_ext _ _ _ _ _ Hd Hgood) as (Hg1 & He1).
  destruct r as [err | target].
  - injection Happ as <- <-. auto.
  - destruct (AppendItem_ext _ _ _ _ _ _ _ Happ Hg1) as [Hg2 He2].
    split; [assumption |]. eapply ext_trans; eassumption.
Qed.

(** A built store is well-formed, and each of its menus still has the
    navigation state and the window fields [MakeMenu] gave it. *)
Lemma built_good s :
  built zero ctxmenu s -> good s /\ ext zero ctxmenu [] s.
Proof.
  induction 1 as [| s Hb [Hg He] | s p lbl out img depth s' e Hb [Hg He] Happ].
  - split; [| apply ext_refl]. split.
    + intros q m i item Hq. rewrite lookup_nil in Hq. discriminate.
    + intros q m Hq. rewrite lookup_nil in Hq. discriminate.
  - split; [apply good_MakeMenu; assumption |].
    eapply ext_trans; [exact He | apply ext_MakeMenu].
  - destruct (Append_ext _ _ _ _ _ _ _ _ Happ Hg) as [Hg' He'].
    split; [assumption |]. eapply ext_trans; eassumption.
Qed.

Lemma built_fresh s (q : nat) (m : Menu T) :
  built zero ctxmenu s -> s !! q = Some m ->
  grows (newMenu zero ctxmenu q) m /\ dirtyHasItems m.
Proof.
  intros Hb Hq. destruct (built_good s Hb) as [[_ Hd] [_ He]].
  split; [| eauto]. specialize (He q m Hq).
  rewrite menuAt_None in He by apply lookup_nil. exact He.
Qed.

(** *** Submenus are allocated after their parents *)

Lemma links_MakeMenu s :
  linksForward s -> linksForward (fst (MakeMenu zero ctxmenu s)).
Proof.
  intros Hl q m i item sub Hq Hi Hsub. cbn in *. rewrite length_app. cbn.
  apply lookup_app_Some in Hq as [Hq | [Hge Hq]].
  - specialize (Hl q m i item sub Hq Hi Hsub). lia.
  - apply list_lookup_singleton_Some in Hq as [_ <-]. cbn in Hi.
    rewrite lookup_nil in Hi. discriminate.
Qed.

Lemma links_insert s (p : nat) (m m' : Menu T) :
  linksForward s -> s !! p = Some m ->
  (forall i item sub, items m' !! i = Some item -> submenu item = Some sub ->
                      (p < sub < length s)%nat) ->
  linksForward (<[p := m']> s).
Proof.
  intros Hl Hp Hm' q mq i item sub Hq Hi Hsub. rewrite length_insert.
  destruct (decide (p = q)) as [<- | Hne].
  - rewrite list_lookup_insert_eq in Hq by (eapply lookup_lt_Some, Hp).
    injection Hq as <-. eauto.
  - rewrite list_lookup_insert_ne in Hq by assumption. eauto.
Qed.

Lemma descend_links :
  forall (k : nat) s (p : nat) s' (r : AppendError + nat),
    descend zero ctxmenu k s p = Ok (s', r) ->
    good s -> linksForward s -> linksForward s'.
Proof.
  induction k as [| k IH]; intros s p s' r Hdesc Hgood Hl.
  - cbn in Hdesc. injection Hdesc as <- <-. exact Hl.
  - cbn [descend] in Hdesc.
    destruct (s !! p) as [m |] eqn:Hp; [| discriminate].
    cbn [deref bind] in Hdesc.
    destruct (last (items m)) as [tail |] eqn:Hlast.
    2:{ injection Hdesc as <- <-. exact Hl. }
    destruct (submenu tail) as [sub |] eqn:Hsub; [eauto |].
    unfold MakeMenu in Hdesc.
    pose proof Hgood as [Hwf Hdirty].
    destruct (setSubmenu_last s p m tail (length s) Hwf Hp Hlast)
      as (m' & Hset & _ & Hlen & Hchg & Hgrow & Hpar & _ & Hitems).
    rewrite Hset in Hdesc. cbn [bind] in Hdesc.
    pose proof (lookup_lt_Some _ _ _ Hp) as Hlt.
    assert (Hp1 : (s ++ [newMenu zero ctxmenu (length s)]) !! p = Some m)
      by (rewrite lookup_app_l by assumption; exact Hp).
    eapply IH; [exact Hdesc | |].
    + apply good_insert with m; [| assumption | assumption |].
      * apply (good_MakeMenu s). exact Hgood.
      * intros Hc Hnil. rewrite Hchg in Hc.
        apply (Hdirty _ _ Hp Hc). rewrite Hnil in Hlen.
        destruct (items m); [reflexivity | discriminate].
    + apply links_insert with m; [apply (links_MakeMenu s Hl) | exact Hp1 |].
      intros i item sub Hi Hs. rewrite length_app. cbn.
      destruct (Hitems i item Hi) as [Hnew | Hold].
      * assert (sub = length s) by congruence. subst sub. lia.
      * specialize (Hl p m i item sub Hp Hold Hs). lia.
Qed.

Lemma Append_links s (p : nat) (lbl : string) (out : T) (img : string)
      (depth : Z) s' (e : option AppendError) :
  Append zero ctxmenu s p lbl out img depth = Ok (s', e) ->
  good s -> linksForward s -> linksForward s'.
Proof.
  unfold Append. intros Happ Hgood Hl.
  destruct (descend zero ctxmenu (Z.to_nat depth) s p) as [[s1 r] | | |] eqn:Hd;
    try discriminate.
  cbn [bind] in Happ.
  pose proof (descend_links _ _ _ _ _ Hd Hgood Hl) as Hl1.
  destruct r as [err | target]; [injection Happ as <- <-; exact Hl1 |].
  unfold AppendItem in Happ.
  destruct (s1 !! target) as [m |] eqn:Ht; [| discriminate].
  cbn [deref bind] in Happ.
  destruct (makeItem ctxmenu target lbl out img) as [err | item] eqn:Hmk;
    [injection Happ as <- <-; exact Hl1 |].
  injection Happ as <- <-.
  apply makeItem_parent in Hmk as (_ & _ & _ & Hnone).
  apply links_insert with m; [exact Hl1 | exact Ht |].
  cbn. intros i it sub Hi Hs.
  apply lookup_app_Some in Hi as [Hi | [_ Hi]]; [eauto |].
  apply list_lookup_singleton_Some in Hi as [_ <-]. congruence.
Qed.

Lemma built_links s : built zero ctxmenu s -> linksForward s.
Proof.
  induction 1 as [| s Hb IH | s p lbl out img depth s' e Hb IH Happ].
  - intros q m i item sub Hq. rewrite lookup_nil in Hq. discriminate.
  - apply links_MakeMenu, IH.
  - eapply Append_links; [exact Happ | apply built_good, Hb | exact IH].
Qed.

(** In such a store the rightmost chain of every menu ends. *)
Lemma chain_exists s :
  linksForward s ->
  forall (k p : nat),
    (length s - p <= k)%nat -> (p < length s)%nat ->
    exists (n : nat) (opn : bool), chain s p n opn.
Proof.
  intros Hl. induction k as [| k IH]; intros p Hk Hp; [lia |].
  destruct (lookup_lt_is_Some_2 s p Hp) as [m Hm].
  destruct (last (items m)) as [tail |] eqn:Hlast.
  - destruct (submenu tail) as [sub |] eqn:Hsub.
    + pose proof (Hl p m _ tail sub Hm (last_index _ _ Hlast) Hsub) as Hfw.
      destruct (IH sub) as (n & opn & Hchain); [lia | lia |].
      exists (S n), opn. eapply chain_link; eassumption.
    + exists 1%nat, true. eapply chain_open; eassumption.
  - apply last_None in Hlast. exists 0%nat, false.
    eapply chain_empty; eassumption.
Qed.

(** X3.  The hypotheses of [Append_too_deep] hold of every store that
    [MakeMenu] and [Append] built: each menu has a chain. *)
Lemma built_chain s (p : nat) :
  built zero ctxmenu s -> (p < length s)%nat ->
  parentsOk s /\ exists (n : nat) (opn : bool), chain s p n opn.
Proof.
  intros Hb Hp. split; [apply built_good, Hb |].
  apply (chain_exists s (built_links s Hb) (length s) p); [lia | exact Hp].
Qed.

(** *** The same without assuming anything of the store *)

Lemma setSubmenu_grows s (p i sub : nat) s' :
  setSubmenu ctxmenu s p i sub = Ok s' -> ext zero ctxmenu s s'.
Proof.
  unfold setSubmenu. intros Hset.
  destruct (s !! p) as [m |] eqn:Hp; [| discriminate].
  cbn [deref bind] in Hset.
  destruct (items m !! i) as [item |] eqn:Hi; [| discriminate].
  cbn [deref bind] in Hset.
  match type of Hset with
  | bind (deref (?s1 !! _)) _ = _ =>
      assert (He1 : ext zero ctxmenu s s1);
      [| destruct (s1 !! parent item) as [pm |] eqn:Hpm; [| discriminate]]
  end.
  { eapply ext_insert; [exact Hp |]. unfold grows. cbn.
    rewrite length_insert. repeat split; lia. }
  cbn in Hset. injection Hset as <-.
  eapply ext_trans; [exact He1 |].
  eapply ext_insert; [exact Hpm |]. unfold grows. cbn. repeat split; lia.
Qed.

Lemma descend_grows :
  forall (k : nat) s (p : nat) s' (r : AppendError + nat),
    descend zero ctxmenu k s p = Ok (s', r) -> ext zero ctxmenu s s'.
Proof.
  induction k as [| k IH]; intros s p s' r Hdesc.
  - cbn in Hdesc. injection Hdesc as <- <-. apply ext_refl.
  - cbn [descend] in Hdesc.
    destruct (s !! p) as [m |] eqn:Hp; [| discriminate].
    cbn [deref bind] in Hdesc.
    destruct (last (items m)) as [tail |] eqn:Hlast.
    2:{ injection Hdesc as <- <-. apply ext_refl. }
    destruct (submenu tail) as [sub |] eqn:Hsub; [eauto |].
    unfold MakeMenu in Hdesc.
    match type of Hdesc with
    | bind ?r _ = _ => destruct r as [s2 | | |] eqn:Hset
    end; try discriminate.
    cbn [bind] in Hdesc.
    eapply ext_trans; [apply ext_MakeMenu |].
    eapply ext_trans; [eapply setSubmenu_grows, Hset |]. eauto.
Qed.

Lemma AppendItem_grows s (p : nat) (lbl : string) (out : T) (img : string)
      s' (e : option AppendError) :
  AppendItem ctxmenu s p lbl out img = Ok (s', e) -> ext zero ctxmenu s s'.
Proof.
  unfold AppendItem. intros Happ.
  destruct (s !! p) as [m |] eqn:Hp; [| discriminate].
  cbn [deref bind] in Happ.
  destruct (makeItem ctxmenu p lbl out img) as [err | item].
  - injection Happ as <- <-. apply ext_refl.
  - injection Happ as <- <-. apply ext_insert with m; [assumption |].
    unfold grows. cbn. rewrite length_app. repeat split; lia.
Qed.

Lemma Append_grows s (p : nat) (lbl : string) (out : T) (img : string)
      (depth : Z) s' (e : option AppendError) :
  Append zero ctxmenu s p lbl out img depth = Ok (s', e) ->
  ext zero ctxmenu s s'.
Proof.
  unfold Append. intros Happ.
  destruct (descend zero ctxmenu (Z.to_nat depth) s p) as [[s1 r] | | |] eqn:Hd;
    try discriminate.
  cbn [bind] in Happ. apply descend_grows in Hd.
  destruct r as [err | target].
  - injection Happ as <- <-. exact Hd.
  - eapply ext_trans; [exact Hd |]. eapply AppendItem_grows, Happ.
Qed.

End AppendFacts.

Lemma builtRoot_built : built EmptyString demoContext builtRoot.
Proof.
  apply (built_append EmptyString demoContext
           (fst (MakeMenu EmptyString demoContext [])) 0
           "A"%string "a"%string EmptyString 0 builtRoot None);
    [apply built_make, built_nil | vm_compute; reflexivity].
Qed.

(** X3, witness.  The root that [MakeMenu] and one [Append] built has a chain. *)
Lemma built_chain_witness :
  parentsOk builtRoot /\ exists (n : nat) (opn : bool), chain builtRoot 0 n opn.
Proof.
  apply (built_chain EmptyString demoContext builtRoot 0 builtRoot_built).
  vm_compute. lia.
Defined.

Lemma demoRoot_parentsOk : parentsOk demoRoot.
Proof.
  intros q m i item Hq Hi.
  destruct q as [| q]; [| destruct q; discriminate].
  injection Hq as <-. destruct i as [| i]; [| destruct i; discriminate].
  injection Hi as <-. reflexivity.
Qed.

Lemma demoRoot_chain : chain demoRoot 0 1 true.
Proof. eapply chain_open; reflexivity. Qed.

(** C2, witness: depth 2 on a root with the single item "A". *)
Lemma Append_too_deep_witness :
  exists s' : list (Menu string),
    Append EmptyString demoContext demoRoot 0 "B"%string "b"%string ""%string 2
    = Ok (s', Some TooMuchDepth) /\
    contents s' = contents demoRoot ++ [[]] /\
    (true = false -> s' = demoRoot) /\
    (true = true -> length s' = S (length demoRoot)) /\
    (true = true ->
     exists (t : nat) (m : Menu string) (tail : Item string),
       rightmost demoRoot 0 (1 - 1) t /\ demoRoot !! t = Some m /\
       last (items m) = Some tail /\ submenu tail = None /\
       s' = <[t := linkLast demoContext m tail (length demoRoot)]>
              (demoRoot ++ [newMenu EmptyString demoContext (length demoRoot)])).
Proof.
  apply (Append_too_deep EmptyString demoContext demoRoot 0 1 true
                         "B"%string "b"%string ""%string 2 demoRoot_parentsOk demoRoot_chain).
  reflexivity.
Defined.

(** C2, counterexample.  The root holds the single item "A", so the chain
    has one link and depth 2 is beyond it.  The call fails with the depth
    error, and afterwards the store holds a second menu, linked as the
    submenu of "A", which is wider than before. *)
Lemma Append_too_deep_changes_tree :
  exists (s' : list (Menu string)) (root : Menu string) (a : Item string),
    Append EmptyString demoContext demoRoot 0 "B"%string "b"%string ""%string 2
    = Ok (s', Some TooMuchDepth) /\
    s' <> demoRoot /\
    length s' = 2%nat /\
    s' !! 0%nat = Some root /\
    items root !! 0%nat = Some a /\
    submenu a = Some 1%nat /\
    iw a = iw (demoItem "A"%string) + rightArrowX demoContext.
Proof.
  eexists _, _, _. split; [vm_compute; reflexivity |].
  split; [discriminate |]. repeat split.
Qed.

(** ** hide, show *)

Section ShowFacts.
Context {T : Type}.
Variable ctxmenu : ContextMenu.
Implicit Types s : list (Menu T).
Implicit Types m : Menu T.

Lemma sameNav_refl m : sameNav m m.
Proof. unfold sameNav. auto 10. Qed.

Lemma sameNav_trans m1 m2 m3 : sameNav m1 m2 -> sameNav m2 m3 -> sameNav m1 m3.
Proof. unfold sameNav. intuition congruence. Qed.

Lemma navStore_refl s : navStore s s.
Proof. split; [reflexivity |]. intros q m Hq. eauto using sameNav_refl. Qed.

Lemma navStore_trans s1 s2 s3 : navStore s1 s2 -> navStore s2 s3 -> navStore s1 s3.
Proof.
  intros [Hl12 H12] [Hl23 H23]. split; [congruence |]. intros q m Hq.
  destruct (H12 q m Hq) as (m2 & Hq2 & Hn2).
  destruct (H23 q m2 Hq2) as (m3 & Hq3 & Hn3).
  eauto using sameNav_trans.
Qed.

Lemma navStore_insert s (p : nat) m m' :
  s !! p = Some m -> sameNav m m' -> navStore s (<[p := m']> s).
Proof.
  intros Hp Hn. split; [apply length_insert |]. intros q mq Hq.
  destruct (decide (p = q)) as [<- | Hne].
  - rewrite list_lookup_insert_eq by (eapply lookup_lt_Some, Hp).
    assert (mq = m) by congruence. subst mq. eauto.
  - rewrite list_lookup_insert_ne by assumption. eauto using sameNav_refl.
Qed.

(** A loop over items whose body keeps the store up to [sameNav]. *)
Lemma fold_navStore (g : list (Menu T) -> Item T -> result (list (Menu T))) :
  (forall s item s', g s item = Ok s' -> navStore s s') ->
  forall (its : list (Item T)) (acc : result (list (Menu T))) s',
    fold_left (fun acc item => do s1 <- acc; g s1 item) its acc = Ok s' ->
    exists s0, acc = Ok s0 /\ navStore s0 s'.
Proof.
  intros Hg. induction its as [| item its IH]; intros acc s' Hfold.
  - cbn in Hfold. subst acc. eauto using navStore_refl.
  - cbn [fold_left] in Hfold. apply IH in Hfold as (s1 & Hstep & Hn1).
    destruct acc as [s0 | | |]; cbn in Hstep; try discriminate.
    exists s0. split; [reflexivity |].
    eapply navStore_trans; [| exact Hn1]. eapply Hg, Hstep.
Qed.

Lemma hide_navStore :
  forall (n : nat) s (p : nat) s', hide n s p = Ok s' -> navStore s s'.
Proof.
  induction n as [| n IH]; intros s p s' Hhide; [discriminate |].
  cbn [hide] in Hhide.
  destruct (s !! p) as [m |] eqn:Hp; [| discriminate].
  cbn [deref bind] in Hhide.
  match type of Hhide with
  | bind ?folded _ = _ => destruct folded as [s1 | | |] eqn:Hfold
  end; try discriminate.
  cbn [bind] in Hhide.
  apply (fold_navStore
           (fun s' item => match submenu item with
                           | Some sub => hide n s' sub
                           | None => Ok s'
                           end)) in Hfold.
  2:{ intros s0 item s0' Hg. destruct (submenu item); [eauto |].
      injection Hg as <-. apply navStore_refl. }
  destruct Hfold as (s0 & [= <-] & Hn).
  destruct (s1 !! p) as [m1 |] eqn:Hp1; [| discriminate].
  cbn in Hhide. injection Hhide as <-.
  eapply navStore_trans; [exact Hn |].
  eapply navStore_insert; [exact Hp1 |].
  unfold sameNav. cbn. auto 10.
Qed.

Lemma hideChildren_navStore (n : nat) s (p : nat) (except : option nat) s' :
  hideChildren n s p except = Ok s' -> navStore s s'.
Proof.
  unfold hideChildren. intros Hh.
  destruct (s !! p) as [m |] eqn:Hp; [| discriminate].
  cbn [deref bind] in Hh.
  apply (fold_navStore
           (fun s' item => match submenu item with
                           | Some sub =>
                               if decide (Some sub = except) then Ok s'
                               else hide n s' sub
                           | None => Ok s'
                           end)) in Hh.
  2:{ intros s0 item s0' Hg. destruct (submenu item) as [sub |].
      - destruct (decide (Some sub = except)).
        + injection Hg as <-. apply navStore_refl.
        + eapply hide_navStore, Hg.
      - injection Hg as <-. apply navStore_refl. }
  destruct Hh as (s0 & [= <-] & Hn). exact Hn.
Qed.

Lemma heights_nil : heights (@nil (Item T)) = 0.
Proof. reflexivity. Qed.

Lemma heights_cons (item : Item T) (its : list (Item T)) :
  heights (item :: its) = ih item + heights its.
Proof. reflexivity. Qed.

(** The first pass of [show] adds up the heights. *)
Lemma measure_height (its : list (Item T)) :
  forall w h, snd (measure its w h) = h + heights its.
Proof.
  induction its as [| item its IH]; intros w h; cbn [measure].
  - rewrite heights_nil. cbn. lia.
  - rewrite IH, heights_cons. lia.
Qed.

(** The second pass: either every item fits, or it stops at the first
    item that does not. *)
Lemma fit_spec (maxY : Z) (its : list (Item T)) :
  forall (i w h : Z),
    (snd (fit its i w h maxY) = -1 /\
     forall k : nat, (1 <= k <= length its)%nat ->
                     h + heights (take k its) <= maxY) \/
    (exists j : nat,
        (j < length its)%nat /\
        snd (fit its i w h maxY) = i + Z.of_nat j /\
        maxY < h + heights (take (S j) its) /\
        forall k : nat, (1 <= k <= j)%nat ->
                        h + heights (take k its) <= maxY).
Proof.
  induction its as [| item its IH]; intros i w h.
  - left. cbn. split; [reflexivity |]. intros k Hk. lia.
  - cbn [fit]. destruct (Z.ltb_spec maxY (ih item + h)) as [Hover | Hfits].
    + right. exists 0%nat. cbn [length snd]. split; [lia |].
      split; [lia |]. split.
      * cbn [take]. rewrite take_0, heights_cons, heights_nil. lia.
      * intros k Hk. lia.
    + destruct (IH (i + 1) (Z.max w (iw item)) (h + ih item))
        as [[Hov Hall] | (j & Hj & Hov & Hstop & Hall)].
      * left. split; [exact Hov |]. intros k Hk.
        destruct k as [| k]; [lia |]. cbn [take]. rewrite heights_cons.
        destruct k as [| k]; [rewrite take_0, heights_nil; lia |].
        specialize (Hall (S k)). cbn [length] in Hk. lia.
      * right. exists (S j). cbn [length]. split; [lia |].
        split; [rewrite Hov; lia |]. split.
        -- cbn [take]. rewrite heights_cons. lia.
        -- intros k Hk. destruct k as [| k]; [lia |].
           cbn [take]. rewrite heights_cons.
           destruct k as [| k]; [rewrite take_0, heights_nil; lia |].
           specialize (Hall (S k)). lia.
Qed.

Lemma recompute_nav m :
  items (recompute ctxmenu m) = items m /\
  first (recompute ctxmenu m) = 0 /\
  selected (recompute ctxmenu m) = selected m /\
  itemsChanged (recompute ctxmenu m) = false /\
  overflowItemTop (recompute ctxmenu m) = overflowItemTop m /\
  overflowItemBottom (recompute ctxmenu m) = overflowItemBottom m /\
  surface (recompute ctxmenu m) = surface m /\
  pool (recompute ctxmenu m) = pool m.
Proof.
  unfold recompute.
  destruct (measure (items m) _ _) as [w1 h1].
  destruct (if MaxY (Monitor ctxmenu) <? h1 then _ else _) as [[w2 h2] ov].
  cbn. auto 10.
Qed.

Lemma recompute_overflow m :
  overflow (recompute ctxmenu m) =
  if MaxY (Monitor ctxmenu) <? totalHeight ctxmenu m
  then snd (fit (items m) 0
                (fst (measure (items m)
                              (BorderSize ctxmenu * 2 + MinItemWidth ctxmenu)
                              (BorderSize ctxmenu * 2)))
                (reserved ctxmenu) (MaxY (Monitor ctxmenu)))
  else -1.
Proof.
  unfold recompute, totalHeight, reserved.
  pose proof (measure_height (items m)
                (BorderSize ctxmenu * 2 + MinItemWidth ctxmenu)
                (BorderSize ctxmenu * 2)) as Hh.
  destruct (measure (items m) _ _) as [w1 h1]. cbn [fst snd] in *. subst h1.
  destruct (MaxY (Monitor ctxmenu) <? BorderSize ctxmenu * 2 + heights (items m)).
  - destruct (fit (items m) 0 w1 _ _) as [[w2 h2] ov]. reflexivity.
  - reflexivity.
Qed.

(** Positioning and clamping leave the navigation state alone. *)
Lemma place_nav s m (c : option nat) m' :
  place ctxmenu s m c = Ok m' ->
  sameNav m m' /\ surface m' = surface m /\ pool m' = pool m.
Proof.
  unfold place. intros Hplace.
  assert (Hun : forall x y, sameNav m (if (mx m =? -1) || (my m =? -1)
                                       then set_pos m x y else m) /\
                            surface (if (mx m =? -1) || (my m =? -1)
                                     then set_pos m x y else m) = surface m /\
                            pool (if (mx m =? -1) || (my m =? -1)
                                  then set_pos m x y else m) = pool m).
  { intros x y. destruct ((mx m =? -1) || (my m =? -1)); cbn;
      auto using sameNav_refl. unfold sameNav. cbn. auto 10. }
  destruct c as [cp |].
  - destruct (decide (caller m = Some cp)).
    + injection Hplace as <-. apply Hun.
    + destruct (s !! cp) as [cm |]; [| discriminate].
      cbn [deref bind] in Hplace.
      match type of Hplace with
      | bind ?r _ = _ => destruct r as [y1 | | |]
      end; try discriminate.
      cbn in Hplace. injection Hplace as <-.
      unfold sameNav. cbn. auto 10.
  - injection Hplace as <-. apply Hun.
Qed.

Lemma clamp_nav m :
  sameNav m (clamp ctxmenu m) /\ surface (clamp ctxmenu m) = surface m /\
  pool (clamp ctxmenu m) = pool m.
Proof. unfold clamp, sameNav. cbn. auto 10. Qed.

Lemma updateWindow_spec s (w : Wayland) (p : nat) m s' (w' : Wayland) :
  updateWindow s w p = Ok (s', w') -> s !! p = Some m ->
  exists m', s' !! p = Some m' /\ sameNav m m' /\
             navStore s s' /\
             attached w' = attached w /\
             (nextId w <= nextId w')%nat /\
             match surface m with
             | Some sf => m' = m /\ w' = w
             | None => surface m' = Some (nextId w) /\ pool m' <> None
             end.
Proof.
  unfold updateWindow. intros Hup Hp. rewrite Hp in Hup.
  cbn [deref bind] in Hup.
  destruct (surface m) as [sf |] eqn:Hsf.
  - injection Hup as <- <-. exists m.
    split; [exact Hp |]. split; [apply sameNav_refl |].
    split; [apply navStore_refl |]. auto.
  - destruct (pixLen m <=? 0); [discriminate |].
    injection Hup as <- <-.
    assert (Hn : sameNav m (set_pool (set_surface m (Some (nextId w)))
                                     (Some (S (nextId w)))))
      by (unfold sameNav; cbn; auto 10).
    eexists. split.
    { apply list_lookup_insert_eq. eapply lookup_lt_Some, Hp. }
    split; [exact Hn |]. split; [eapply navStore_insert; eassumption |].
    cbn. repeat split; try lia. discriminate.
Qed.

(** What [show] leaves of the store: the menu shown is recomputed when its
    items changed; every menu keeps its items, selection and, unless
    recomputed, its scroll state. *)
Lemma show_spec s (w : Wayland) (p : nat) (c : option nat) s' (w' : Wayland) m :
  show ctxmenu s w p c = Ok (s', w') -> s !! p = Some m ->
  length s' = length s /\
  (forall q mq, q <> p -> s !! q = Some mq ->
                exists mq', s' !! q = Some mq' /\ sameNav mq mq') /\
  attached w' = attached w /\
  exists m', s' !! p = Some m' /\
             sameNav (if itemsChanged m then recompute ctxmenu m else m) m' /\
             surface m' <> None.
Proof.
  unfold show. intros Hshow Hp.
  destruct (hideChildren (length s) s p None) as [s1 | | |] eqn:Hh1;
    try discriminate.
  cbn [bind] in Hshow.
  match type of Hshow with
  | bind ?r _ = _ => destruct r as [s2 | | |] eqn:Hh2
  end; try discriminate.
  cbn [bind] in Hshow.
  assert (Hn12 : navStore s s2).
  { apply hideChildren_navStore in Hh1.
    eapply navStore_trans; [exact Hh1 |].
    destruct (if decide (c = Some p) then None else c) as [cp |].
    - eapply hideChildren_navStore, Hh2.
    - injection Hh2 as <-. apply navStore_refl. }
  destruct Hn12 as [Hlen2 Hn2].
  destruct (Hn2 p m Hp) as (m2 & Hp2 & Hnav2).
  rewrite Hp2 in Hshow. cbn [deref bind] in Hshow.
  match type of Hshow with
  | bind ?r _ = _ => destruct r as [m3 | | |] eqn:Hplace
  end; try discriminate.
  cbn [bind] in Hshow.
  apply place_nav in Hplace as (Hnav3 & Hsf3 & Hpl3).
  assert (Hp4 : <[p := clamp ctxmenu m3]> s2 !! p = Some (clamp ctxmenu m3)).
  { apply list_lookup_insert_eq. eapply lookup_lt_Some, Hp2. }
  destruct (updateWindow_spec _ _ _ _ _ _ Hshow Hp4)
    as (m' & Hp' & Hnav' & [Hlen' Hn'] & Hatt & _ & Hsurf).
  rewrite length_insert in Hlen'.
  split; [congruence |]. split; [| split; [exact Hatt |]].
  - intros q mq Hne Hq. destruct (Hn2 q mq Hq) as (mq2 & Hq2 & Hnq2).
    destruct (Hn' q mq2) as (mq' & Hq' & Hnq').
    { rewrite list_lookup_insert_ne by congruence. exact Hq2. }
    eauto using sameNav_trans.
  - exists m'. split; [exact Hp' |]. split.
    + eapply sameNav_trans; [| exact Hnav'].
      eapply sameNav_trans; [| apply clamp_nav].
      eapply sameNav_trans; [| exact Hnav3].
      destruct Hnav2 as (Hi & Hf & Hs & Ho & Hc & Ht & Hb).
      rewrite Hc. destruct (itemsChanged m) eqn:Hcm;
        [| unfold sameNav; repeat split; congruence].
      pose proof (recompute_nav m) as (Ri & Rf & Rs & Rc & Rt & Rb & _).
      pose proof (recompute_nav m2) as (Ri2 & Rf2 & Rs2 & Rc2 & Rt2 & Rb2 & _).
      unfold sameNav. rewrite !recompute_overflow.
      unfold totalHeight. rewrite Hi.
      repeat split; congruence.
    + destruct (surface (clamp ctxmenu m3)) eqn:Hs4.
      * destruct Hsurf as [-> _]. congruence.
      * destruct Hsurf as [-> _]. discriminate.
Qed.



End ShowFacts.

(** ** The sample stores *)

Lemma appendAll_built (ctxmenu : ContextMenu) (labels : list string) :
  built EmptyString ctxmenu (appendAll ctxmenu labels).
Proof.
  unfold appendAll.
  assert (Hgen : forall ls s, built EmptyString ctxmenu s ->
            built EmptyString ctxmenu
              (fold_left
                 (fun s lbl =>
                    match Append EmptyString ctxmenu s 0 lbl lbl EmptyString 0 with
                    | Ok (s', _) => s'
                    | _ => s
                    end) ls s)).
  { induction ls as [| lbl ls IH]; intros s Hs; [exact Hs |].
    cbn [fold_left]. apply IH.
    destruct (Append EmptyString ctxmenu s 0 lbl lbl EmptyString 0)
      as [[s' e] | | |] eqn:Happ; try assumption.
    eapply built_append; eassumption. }
  apply Hgen. apply (built_make EmptyString ctxmenu []). constructor.
Qed.

Lemma threeItems_built : built EmptyString smallContext threeItems.
Proof.
  replace threeItems with (appendAll smallContext ["one"; "two"; "three"]%string)
    by (vm_compute; reflexivity).
  apply appendAll_built.
Qed.



(** ** The invariant *)

Lemma bind_Ok {A B : Type} (r : result A) (f : A -> result B) (b : B) :
  bind r f = Ok b -> exists a, r = Ok a /\ f a = Ok b.
Proof.
  destruct r as [a | | |]; cbn [bind]; intros H;
    [eauto | discriminate ..].
Qed.

Lemma deref_Ok {A : Type} (o : option A) (a : A) : deref o = Ok a -> o = Some a.
Proof. destruct o; cbn; congruence. Qed.

Ltac bind_inv H :=
  let a := fresh "a" in
  let Ha := fresh "Ha" in
  apply bind_Ok in H as (a & Ha & H).

Section Invariant.
Context {T : Type}.
Variable zero : T.
Variable ctxmenu : ContextMenu.
Variable hover : bool.
Implicit Types s : list (Menu T).
Implicit Types m : Menu T.
Implicit Types l : Loop T.

Lemma menuInv_newMenu (q : nat) : menuInv (newMenu zero ctxmenu q).
Proof.
  unfold menuInv, len. cbn. split; [auto |]. split; lia.
Qed.

Lemma menuInv_grows m m' : grows m m' -> menuInv m -> menuInv m'.
Proof.
  intros (Hf & Hs & Ho & _ & _ & _ & _ & Hlen) (Hsel & Hno & Hov).
  unfold menuInv. rewrite Hf, Hs, Ho.
  assert (Hl : len (items m) <= len (items m')) by (unfold len; lia).
  split; [| split; [assumption |]].
  - destruct Hsel as [Hsel | [Hsel | [Hnil Hsel]]]; [auto | right; left; lia |].
    destruct (items m') eqn:E; [auto |].
    right. left. unfold len. cbn. lia.
  - intros Hne. specialize (Hov Hne). lia.
Qed.

Lemma menuInv_sameNav m m' : sameNav m m' -> menuInv m -> menuInv m'.
Proof.
  intros (Hi & Hf & Hs & Ho & _). unfold menuInv.
  rewrite Hi, Hf, Hs, Ho. auto.
Qed.

Lemma storeInv_ext s s' : ext zero ctxmenu s s' -> storeInv s -> storeInv s'.
Proof.
  intros [_ Hext] Hinv q m' Hq. apply (menuInv_grows _ _ (Hext q m' Hq)).
  unfold menuAt. destruct (s !! q) as [m |] eqn:E; [eauto |].
  apply menuInv_newMenu.
Qed.

Lemma keeps_refl s : keeps s s.
Proof. intros q m Hq. eauto. Qed.

Lemma keeps_trans s1 s2 s3 : keeps s1 s2 -> keeps s2 s3 -> keeps s1 s3.
Proof.
  intros H12 H23 q m3 Hq. destruct (H23 q m3 Hq) as (m2 & Hq2 & H2).
  destruct (H12 q m2 Hq2) as (m1 & Hq1 & H1). eauto.
Qed.

Lemma keeps_insert s (p : nat) m m' :
  s !! p = Some m -> (menuInv m -> menuInv m') -> keeps s (<[p := m']> s).
Proof.
  intros Hp Hinv q mq Hq. destruct (decide (p = q)) as [<- | Hne].
  - rewrite list_lookup_insert_eq in Hq by (eapply lookup_lt_Some, Hp).
    injection Hq as <-. eauto.
  - rewrite list_lookup_insert_ne in Hq by assumption. eauto.
Qed.

Lemma keeps_update s (p : nat) (f : Menu T -> Menu T) :
  (forall m, s !! p = Some m -> menuInv m -> menuInv (f m)) ->
  keeps s (update s p f).
Proof.
  intros Hf. unfold update. destruct (s !! p) as [m |] eqn:Hp.
  - eapply keeps_insert; eauto.
  - apply keeps_refl.
Qed.

Lemma storeInv_keeps s s' : keeps s s' -> storeInv s -> storeInv s'.
Proof.
  intros Hk Hinv q m' Hq. destruct (Hk q m' Hq) as (m & Hm & Himp). eauto.
Qed.

(** The geometry [show] recomputes satisfies the invariant whatever the
    scroll state was. *)
Lemma menuInv_recompute m : menuInv m -> menuInv (recompute ctxmenu m).
Proof.
  intros (Hsel & _ & _).
  pose proof (recompute_nav ctxmenu m) as (Ri & Rf & Rs & _).
  unfold menuInv. rewrite Ri, Rf, Rs, recompute_overflow.
  split; [exact Hsel |]. split; [reflexivity |]. intros Hne.
  destruct (MaxY (Monitor ctxmenu) <? totalHeight ctxmenu m); [| congruence].
  match goal with
  | |- context [fit ?its ?i ?w0 ?h0 ?my] =>
      destruct (fit_spec my its i w0 h0)
        as [[Hnone _] | (j & Hj & Hidx & _)]
  end; [congruence |].
  rewrite Hidx. unfold len. lia.
Qed.

Lemma show_defined s (w : Wayland) (p : nat) (c : option nat) s'
      (w' : Wayland) :
  show ctxmenu s w p c = Ok (s', w') -> exists m, s !! p = Some m.
Proof.
  unfold show, hideChildren. intros Hshow.
  destruct (s !! p) as [m |]; [eauto | discriminate].
Qed.

Lemma show_keeps s (w : Wayland) (p : nat) (c : option nat) s' (w' : Wayland) :
  show ctxmenu s w p c = Ok (s', w') -> keeps s s'.
Proof.
  intros Hshow. destruct (show_defined _ _ _ _ _ _ Hshow) as (m & Hp).
  destruct (show_spec ctxmenu _ _ _ _ _ _ _ Hshow Hp)
    as (Hlen & Hothers & _ & m' & Hp' & Hnav & _).
  intros q mq' Hq.
  destruct (decide (q = p)) as [-> | Hne].
  - assert (mq' = m') by congruence. subst mq'.
    exists m. split; [exact Hp |]. intros Hinv.
    apply (menuInv_sameNav _ _ Hnav).
    destruct (itemsChanged m); [apply menuInv_recompute |]; exact Hinv.
  - destruct (lookup_lt_is_Some_2 s q) as [mq Hmq].
    { rewrite <- Hlen. eapply lookup_lt_Some, Hq. }
    destruct (Hothers q mq Hne Hmq) as (mq2 & Hq2 & Hn2).
    assert (mq2 = mq') by congruence. subst mq2.
    exists mq. split; [exact Hmq |]. apply menuInv_sameNav, Hn2.
Qed.

(** The index [itemcycle] returns may be stored in [selected]. *)
Lemma itemcycle_result m (dir r : Z) :
  itemcycle m dir = Ok r -> menuInv m -> menuInv (set_selected m r).
Proof.
  intros Hcycle (Hsel & Hno & Hov).
  unfold menuInv. cbn. split; [| auto].
  pose proof (len_nonneg (items m)) as Hlen.
  assert (Hempty : items m = [] \/ 0 < len (items m)).
  { destruct (items m); [auto | right; unfold len; cbn; lia]. }
  unfold itemcycle in Hcycle.
  destruct (Z.eqb_spec dir ItemNext) as [-> | Hn].
  { cbn [Z.eqb ItemNext Pos.eqb] in Hcycle. injection Hcycle as <-.
    destruct (Z.eqb_spec (selected m) (-1)); [| 
      destruct (Z.ltb_spec (selected m) (len (items m) - 1)); [lia | auto]].
    destruct Hempty; [auto | lia]. }
  destruct (Z.eqb_spec dir ItemPrev) as [-> | Hp].
  { cbn in Hcycle. injection Hcycle as <-.
    destruct (Z.eqb_spec (selected m) (-1)); [lia |].
    destruct (Z.leb_spec 0 (selected m)); lia. }
  destruct (Z.eqb_spec dir ItemFirst) as [-> | Hf].
  { bind_inv Hcycle. bind_inv Hcycle. apply deref_Ok, index_Some in Ha0.
    destruct (isSeparator a0); injection Hcycle as <-; lia. }
  destruct (Z.eqb_spec dir ItemLast) as [-> | Hl].
  { bind_inv Hcycle. bind_inv Hcycle. apply deref_Ok, index_Some in Ha0.
    destruct (isSeparator a0); injection Hcycle as <-; lia. }
  injection Hcycle as <-. auto.
Qed.

(** The index [matchitem] returns may be stored in [selected]. *)
Lemma matchitem_result m (text : string) (dir r : Z) :
  matchitem m text dir = Ok r -> menuInv m -> menuInv (set_selected m r).
Proof.
  intros Hmatch (_ & Hno & Hov).
  apply matchitem_range in Hmatch.
  unfold menuInv. cbn. split; [| auto].
  destruct Hmatch as [-> | Hrange]; auto.
Qed.

Lemma menuInv_select m (v : Z) :
  menuInv m ->
  v = -1 \/ 0 <= v < len (items m) \/ (items m = [] /\ v = 0) ->
  menuInv (set_selected m v).
Proof. intros (_ & Hno & Hov) Hv. unfold menuInv. cbn. auto. Qed.

Lemma menuInv_first m (v : Z) :
  menuInv m ->
  (overflow m = -1 -> v = 0) ->
  (overflow m <> -1 -> 0 <= v <= len (items m) - overflow m) ->
  menuInv (set_first m v).
Proof. intros (Hsel & _ & _) Hno Hov. unfold menuInv. cbn. auto. Qed.

Lemma finish_store l (action : Action) (o : Outcome T) :
  finish l action = Ok o ->
  exists l', o = Continue l' /\ store l' = store l /\
             curmenu l' = curmenu l /\ curY l' = curY l.
Proof.
  unfold finish. intros Hfin. bind_inv Hfin. bind_inv Hfin.
  injection Hfin as <-. eexists. split; [reflexivity |]. cbn. auto.
Qed.

Lemma isoverflowitem_scrolling m (y : Z) (ov : OverflowItem) :
  isoverflowitem ctxmenu m y = Ok ov -> ov <> OverflowNone ->
  overflow m <> -1.
Proof.
  unfold isoverflowitem. destruct (Z.eqb_spec (overflow m) (-1)); [| auto].
  intros [= <-]. congruence.
Qed.

Lemma scrollUp_keeps l :
  (forall m, store l !! curmenu l = Some m -> overflow m <> -1) ->
  keeps (store l) (store (scrollUp l)).
Proof.
  intros Hscroll. unfold scrollUp. cbn. apply keeps_update.
  intros m Hm Hinv. pose proof Hinv as (_ & _ & Hov).
  specialize (Hov (Hscroll m Hm)).
  apply menuInv_first; [exact Hinv | | lia].
  intros Hno. exfalso. exact (Hscroll m Hm Hno).
Qed.

Lemma scrollDown_keeps l :
  (forall m, store l !! curmenu l = Some m -> overflow m <> -1) ->
  keeps (store l) (store (scrollDown l)).
Proof.
  intros Hscroll. unfold scrollDown. cbn. apply keeps_update.
  intros m Hm Hinv. pose proof Hinv as (_ & _ & Hov).
  specialize (Hov (Hscroll m Hm)).
  apply menuInv_first; [exact Hinv | | lia].
  intros Hno. exfalso. exact (Hscroll m Hm Hno).
Qed.

Lemma scroll_curmenu l :
  curmenu (scrollUp l) = curmenu l /\ curmenu (scrollDown l) = curmenu l.
Proof. split; reflexivity. Qed.

Lemma finish_keeps l0 l (action : Action) (o : Outcome T) :
  keeps (store l0) (store l) ->
  finish l action = Ok o -> keeps (store l0) (store (loopOf o)).
Proof.
  intros Hk Hfin. apply finish_store in Hfin as (l' & -> & Hs & _).
  cbn. rewrite Hs. exact Hk.
Qed.

Lemma onMotion_keeps l (y : Z) (o : Outcome T) :
  onMotion ctxmenu hover l y = Ok o -> keeps (store l) (store (loopOf o)).
Proof.
  unfold onMotion. cbn [warped store wl curmenu previtem buf hasleft curY hovered seen].
  destruct (warped l).
  { apply finish_keeps. apply keeps_refl. }
  intros Hm. bind_inv Hm. apply deref_Ok in Ha. bind_inv Hm.
  destruct (a0 =? -1); [injection Hm as <-; apply keeps_refl |].
  bind_inv Hm. apply deref_Ok in Ha1.
  destruct (decide (previtem l = Some (curmenu l, Z.to_nat a0)));
    [injection Hm as <-; apply keeps_refl |].
  bind_inv Hm. bind_inv Hm. destruct a3 as [cur s2].
  bind_inv Hm. destruct a3 as [s3 w3].
  pose proof (index_Some _ _ _ Ha1) as Hrange.
  assert (Hk1 : keeps (store l)
                  (<[curmenu l := set_selected a
                                    (if isSeparator a1 then -1 else a0)]>
                     (store l))).
  { eapply keeps_insert; [exact Ha |]. intros Hinv.
    apply menuInv_select; [exact Hinv |].
    destruct (isSeparator a1); auto. }
  assert (Hk2 : keeps (store l) s2).
  { destruct (submenu a1) as [sub |].
    - bind_inv Ha3. apply deref_Ok in Ha5. injection Ha3 as <- <-.
      eapply keeps_trans; [exact Hk1 |].
      eapply keeps_insert; [exact Ha5 |]. intros Hinv.
      apply menuInv_select; auto.
    - injection Ha3 as <- <-. exact Hk1. }
  apply show_keeps in Ha4.
  eapply finish_keeps; [| exact Hm]. cbn.
  eapply keeps_trans; eassumption.
Qed.

Lemma onAxis_keeps l (axis : Axis) (value : Z) (o : Outcome T) :
  onAxis l axis value = Ok o -> keeps (store l) (store (loopOf o)).
Proof.
  unfold onAxis. destruct axis.
  { apply finish_keeps, keeps_refl. }
  intros Hax. bind_inv Hax. apply deref_Ok in Ha.
  destruct (Z.eqb_spec (overflow a) (-1)) as [Hno | Hscroll].
  { eapply finish_keeps; [apply keeps_refl | exact Hax]. }
  assert (Hcur : forall m, store l !! curmenu l = Some m -> overflow m <> -1).
  { intros m Hm. congruence. }
  destruct (value <? 0).
  { eapply finish_keeps; [| exact Hax]. apply scrollUp_keeps, Hcur. }
  destruct (0 <? value).
  { eapply finish_keeps; [| exact Hax]. apply scrollDown_keeps, Hcur. }
  eapply finish_keeps; [apply keeps_refl | exact Hax].
Qed.

Lemma onButton_keeps l (pressed middle : bool) (o : Outcome T) :
  onButton zero ctxmenu l pressed middle = Ok o ->
  keeps (store l) (store (loopOf o)).
Proof.
  unfold onButton. destruct pressed; cbn [negb].
  2:{ apply finish_keeps, keeps_refl. }
  intros Hb. bind_inv Hb. apply deref_Ok in Ha. bind_inv Hb. bind_inv Hb.
  assert (Hcur : a1 <> OverflowNone ->
                 forall m, store l !! curmenu l = Some m -> overflow m <> -1).
  { intros Hne m Hm. assert (m = a) by congruence. subst m.
    eapply isoverflowitem_scrolling; eassumption. }
  destruct a1.
  - eapply finish_keeps; [| exact Hb]. apply scrollUp_keeps, Hcur. discriminate.
  - destruct (a0 =? -1).
    { eapply finish_keeps; [| exact Hb]. cbn.
      eapply keeps_insert; [exact Ha |]. intros Hinv.
      pose proof Hinv as (_ & _ & Hov).
      apply menuInv_first.
      - apply menuInv_select; auto.
      - reflexivity.
      - cbn. intros Hne. specialize (Hov Hne). lia. }
    bind_inv Hb. destruct (isSeparator a1).
    { injection Hb as <-. apply keeps_refl. }
    destruct (submenu a1) as [sub |].
    + bind_inv Hb. destruct a2 as [s1 w1]. bind_inv Hb.
      apply deref_Ok in Ha4. apply show_keeps in Ha3.
      eapply finish_keeps; [| exact Hb]. cbn.
      eapply keeps_trans; [exact Ha3 |].
      eapply keeps_insert; [exact Ha4 |]. intros Hinv.
      apply menuInv_select; [exact Hinv |].
      destruct (items a2) eqn:E; [auto |].
      right. left. unfold len. cbn. lia.
    + injection Hb as <-. apply keeps_refl.
  - eapply finish_keeps; [| exact Hb]. apply scrollDown_keeps, Hcur. discriminate.
Qed.

Lemma step_keeps l (event : Event) (o : Outcome T) :
  step zero ctxmenu hover l event = Ok o ->
  keeps (store l) (store (loopOf o)).
Proof.
  destruct event; cbn [step];
    try (intros Hs; eapply finish_keeps; [| exact Hs]; cbn; apply keeps_refl).
  - intros [= <-]. apply keeps_refl.
  - apply onMotion_keeps.
  - apply onAxis_keeps.
  - apply onButton_keeps.
Qed.

Lemma engineStep_storeInv s s' :
  engineStep zero ctxmenu hover s s' -> storeInv s -> storeInv s'.
Proof.
  intros Hstep Hinv.
  destruct Hstep as [s | s p lbl out img depth s' e Happ
                    | s w p c s' w' Hshow
                    | s p m dir r Hp Hcycle
                    | s p m text dir r Hp Hmatch
                    | l event l' Hev
                    | l event v e l' Hev].
  - eapply storeInv_ext; [apply ext_MakeMenu | exact Hinv].
  - eapply storeInv_ext; [eapply Append_grows, Happ | exact Hinv].
  - eapply storeInv_keeps; [eapply show_keeps, Hshow | exact Hinv].
  - eapply storeInv_keeps; [| exact Hinv].
    eapply keeps_insert; [exact Hp |]. eapply itemcycle_result, Hcycle.
  - eapply storeInv_keeps; [| exact Hinv].
    eapply keeps_insert; [exact Hp |]. eapply matchitem_result, Hmatch.
  - eapply storeInv_keeps; [apply (step_keeps _ _ _ Hev) | exact Hinv].
  - eapply storeInv_keeps; [apply (step_keeps _ _ _ Hev) | exact Hinv].
Qed.

(** C3, as amended.  After any sequence of operations of the engine
    ([MakeMenu], [Append], [show], storing the result of [itemcycle] or
    [matchitem], the scroll adjustment and every other event of the loop of
    [Run]), every menu satisfies: [selected] is -1, or a valid index into
    [items], or 0 in a menu that has no items (the value [MakeMenu] leaves
    there); [overflow == -1] implies [first == 0]; and [overflow != -1]
    implies [0 <= first <= len(items) - overflow]. *)
Theorem engine_invariant s :
  reachable zero ctxmenu hover s -> storeInv s.
Proof.
  induction 1 as [| s s' Hreach IH Hstep].
  - intros q m Hq. rewrite lookup_nil in Hq. discriminate.
  - eapply engineStep_storeInv; eassumption.
Qed.

End Invariant.

(** C3, witness: the one-item root is reachable. *)
Lemma oneItem_reachable : reachable EmptyString demoContext true oneItem.
Proof.
  apply reach_step with (s := fst (MakeMenu EmptyString demoContext [])).
  - apply reach_step with (s := []); constructor.
  - apply op_Append with (p := 0%nat) (lbl := "A"%string) (out := "A"%string)
                         (img := EmptyString) (depth := 0) (e := None).
    vm_compute. reflexivity.
Qed.

Lemma engine_invariant_witness :
  exists m : Menu string, oneItem !! 0%nat = Some m /\ menuInv m.
Proof.
  eexists. split; [reflexivity |].
  apply (engine_invariant EmptyString demoContext true oneItem
                          oneItem_reachable 0%nat).
  reflexivity.
Defined.

(** C3, counterexample.  [Append] with a depth beyond the chain fails and
    leaves a new submenu under "A": a menu without items and with
    [selected == 0], the value [MakeMenu] left there, which is neither -1
    nor a valid index. *)
Lemma failed_Append_leaves_selected_zero :
  reachable EmptyString demoContext true oneItem /\
  Append EmptyString demoContext oneItem 0 "B"%string "b"%string EmptyString 2
  = Ok (deepFailed, Some TooMuchDepth) /\
  reachable EmptyString demoContext true deepFailed /\
  exists m : Menu string,
    deepFailed !! 1%nat = Some m /\
    items m = [] /\ selected m = 0 /\ ~ menuInvStated m.
Proof.
  assert (Happ : Append EmptyString demoContext oneItem 0 "B"%string
                        "b"%string EmptyString 2
                 = Ok (deepFailed, Some TooMuchDepth))
    by (vm_compute; reflexivity).
  split; [exact oneItem_reachable |]. split; [exact Happ |]. split.
  - apply reach_step with (s := oneItem); [exact oneItem_reachable |].
    eapply op_Append, Happ.
  - eexists. split; [reflexivity |]. split; [reflexivity |].
    split; [reflexivity |].
    intros [[Hsel | Hsel] _]; cbn in Hsel; [discriminate |].
    unfold len in Hsel. cbn in Hsel. lia.
Qed.

(** ** The turns of the loop *)

Section LoopFacts.
Context {T : Type}.
Variable zero : T.
Variable ctxmenu : ContextMenu.
Variable hover : bool.
Implicit Types s : list (Menu T).
Implicit Types m : Menu T.
Implicit Types l : Loop T.

Lemma finish_idle l : finish l 0 = Ok (Continue l).
Proof. destruct l. reflexivity. Qed.

Lemma rangeItems_safe (its : list (Item T)) (k : Seq2 T) :
  safe k ->
  forall (n : nat) (i : Z),
    ((0 < n)%nat -> 0 <= i /\ i + Z.of_nat n <= len its) ->
    safe (rangeItems its i n k).
Proof.
  intros Hk. induction n as [| n IH]; intros i Hn; [exact Hk |].
  cbn [rangeItems]. destruct (index_in_range its i) as [item Hitem]; [lia |].
  rewrite Hitem. cbn [safe]. apply IH. lia.
Qed.

Lemma visibleItems_safe m (withOverflow : bool) :
  (overflow m <> -1 -> 0 <= first m <= len (items m) - overflow m) ->
  safe (visibleItems m withOverflow).
Proof.
  intros Hov. unfold visibleItems.
  destruct (Z.eqb_spec (overflow m) (-1)) as [Hno | Hscroll]; cbn [negb].
  - rewrite andb_false_r. apply rangeItems_safe; [exact I |].
    pose proof (len_nonneg (items m)). lia.
  - specialize (Hov Hscroll).
    assert (Hmid : forall k, safe k ->
              safe (rangeItems (items m) (first m)
                      (Z.to_nat (first m + overflow m - first m)) k)).
    { intros k Hk. apply rangeItems_safe; [exact Hk | lia]. }
    destruct withOverflow; cbn [andb safe]; apply Hmid; exact I.
Qed.

Lemma getitemFrom_safe (target : Z) (sq : Seq2 T) :
  safe sq -> forall y, exists r, getitemFrom target y sq = Ok r.
Proof.
  induction sq as [| i item rest IH |]; intros Hs y; cbn.
  - eauto.
  - destruct (negb (i =? -1) && (y <=? target) && (target <? y + ih item));
      eauto.
  - destruct Hs.
Qed.

Lemma drawItems_safe (sq : Seq2 T) : safe sq -> drawItems sq = Ok tt.
Proof.
  induction sq as [| i item rest IH |]; intros Hs; cbn; auto. destruct Hs.
Qed.

(** [drawFrame] on a menu with a pool and a surface: one more buffer on
    that surface, nothing else changes. *)
Lemma drawFrame_attaches s (w : Wayland) (p : nat) m (surf pl : nat) :
  s !! p = Some m -> pool m = Some pl -> surface m = Some surf ->
  drawFrame s w p
  = Ok {| nextId := S (nextId w);
          attached := attached w ++ [(surf, nextId w)] |}.
Proof.
  intros Hp Hpool Hsurf. unfold drawFrame. rewrite Hp. cbn.
  rewrite Hpool, Hsurf. reflexivity.
Qed.

Lemma drawFrame_without_pool s (w : Wayland) (p : nat) m :
  s !! p = Some m -> pool m = None -> drawFrame s w p = Ok w.
Proof. intros Hp Hpool. unfold drawFrame. rewrite Hp. cbn. rewrite Hpool. reflexivity. Qed.

Lemma draw_ok s (w : Wayland) (p : nat) m (surf : nat) :
  s !! p = Some m -> safe (visibleItems m true) -> surface m = Some surf ->
  exists w', draw s w p = Ok w'.
Proof.
  intros Hp Hsafe Hsurf. unfold draw. rewrite Hp. cbn [deref bind].
  rewrite (drawItems_safe _ Hsafe). cbn [bind].
  destruct (pool m) as [pl |] eqn:Hpool.
  - rewrite (drawFrame_attaches s w p m surf pl Hp Hpool Hsurf).
    cbn. rewrite Hsurf. cbn. eauto.
  - rewrite (drawFrame_without_pool s w p m Hp Hpool).
    cbn. rewrite Hsurf. cbn. eauto.
Qed.

Lemma finish_redraw l m (surf : nat) :
  store l !! curmenu l = Some m -> safe (visibleItems m true) ->
  surface m = Some surf ->
  exists l', finish l allActions = Ok (Continue l') /\
             store l' = store l /\ curmenu l' = curmenu l.
Proof.
  intros Hm Hsafe Hsurf. unfold finish.
  change (negb (Z.land allActions ActionClear =? 0)) with true.
  change (negb (Z.land allActions ActionDraw =? 0)) with true.
  change (negb (Z.land allActions ActionWarp =? 0)) with false.
  cbn iota.
  destruct (draw_ok (store l) (wl l) (curmenu l) m surf Hm Hsafe Hsurf)
    as (w' & Hdraw).
  rewrite Hdraw. cbn. eauto.
Qed.

(** C6, as amended.  The keyboard case of the loop does nothing: after a
    key event, pressed or released, whatever the key (Escape and Left
    among them), the loop goes on with all its variables and every menu
    unchanged, whether the current menu is a submenu or the root.  The
    loop ends without selection ([ErrExited]) on a [QuitEvent].  A press of
    a pointer button over a labelled item that has no submenu ends the loop
    and returns the output of that item. *)
Theorem keys_ignored_leaf_returned l :
  (forall (pressed : bool) (key : Z) (rest : list Event),
      step zero ctxmenu hover l (KeyboardKeyEvent pressed key)
      = Ok (Continue l) /\
      loop zero ctxmenu hover l (KeyboardKeyEvent pressed key :: rest)
      = loop zero ctxmenu hover l rest) /\
  (forall rest : list Event,
      loop zero ctxmenu hover l (QuitEvent :: rest)
      = Ok (Return zero (Some ErrExited) l)) /\
  (forall (middle : bool) (rest : list Event) m (i : Z) (item : Item T),
      store l !! curmenu l = Some m ->
      getitem ctxmenu m (curY l) = Ok i ->
      isoverflowitem ctxmenu m (curY l) = Ok OverflowNone ->
      index (items m) i = Some item ->
      isSeparator item = false ->
      submenu item = None ->
      loop zero ctxmenu hover l (PointerButtonEvent true middle :: rest)
      = Ok (Return (output item) None l)).
Proof.
  split; [| split].
  - intros pressed key rest. cbn [loop step]. rewrite finish_idle.
    split; reflexivity.
  - intros rest. reflexivity.
  - intros middle rest m i item Hm Hget Hov Hidx Hsep Hsub.
    cbn [loop step]. unfold onButton. cbn [negb].
    rewrite Hm. cbn [deref bind]. rewrite Hget. cbn [bind].
    rewrite Hov. cbn [bind].
    destruct (Z.eqb_spec i (-1)) as [-> | _].
    { apply index_Some in Hidx. lia. }
    rewrite Hidx. cbn [deref bind]. rewrite Hsep, Hsub. reflexivity.
Qed.

(** C9, as amended.  In a menu that scrolls ([overflow != -1], [first]
    within its bounds, the window mapped), a pointer-axis event on the
    horizontal-scroll axis with a negative value, or a button press on the
    top scroll indicator, sets [first] to [max(first-1, 0)]; with a
    positive value, or a press on the bottom indicator, to
    [min(first+1, len(items)-overflow)]: one step, unless [first] is
    already at that end, and never outside [0, len(items) - overflow].  The
    loop goes on with the same current menu. *)
Theorem scroll_adjusts_first l m (surf : nat) :
  store l !! curmenu l = Some m ->
  overflow m <> -1 ->
  0 <= first m <= len (items m) - overflow m ->
  surface m = Some surf ->
  (forall value : Z,
      value < 0 ->
      exists l',
        step zero ctxmenu hover l
             (PointerAxisEvent PointerAxisHorizontalScroll value)
        = Ok (Continue l') /\
        store l' = <[curmenu l := set_first m (Z.max (first m - 1) 0)]> (store l) /\
        curmenu l' = curmenu l) /\
  (forall value : Z,
      0 < value ->
      exists l',
        step zero ctxmenu hover l
             (PointerAxisEvent PointerAxisHorizontalScroll value)
        = Ok (Continue l') /\
        store l'
        = <[curmenu l := set_first m (Z.min (first m + 1)
                                            (len (items m) - overflow m))]>
            (store l) /\
        curmenu l' = curmenu l) /\
  (forall middle : bool,
      isoverflowitem ctxmenu m (curY l) = Ok OverflowTop ->
      exists l',
        step zero ctxmenu hover l (PointerButtonEvent true middle)
        = Ok (Continue l') /\
        store l' = <[curmenu l := set_first m (Z.max (first m - 1) 0)]> (store l) /\
        curmenu l' = curmenu l) /\
  (forall middle : bool,
      isoverflowitem ctxmenu m (curY l) = Ok OverflowBottom ->
      exists l',
        step zero ctxmenu hover l (PointerButtonEvent true middle)
        = Ok (Continue l') /\
        store l'
        = <[curmenu l := set_first m (Z.min (first m + 1)
                                            (len (items m) - overflow m))]>
            (store l) /\
        curmenu l' = curmenu l) /\
  (Z.max (first m - 1) 0 = first m - 1 \/
   (first m = 0 /\ Z.max (first m - 1) 0 = first m)) /\
  (Z.min (first m + 1) (len (items m) - overflow m) = first m + 1 \/
   (first m = len (items m) - overflow m /\
    Z.min (first m + 1) (len (items m) - overflow m) = first m)) /\
  0 <= Z.max (first m - 1) 0 <= len (items m) - overflow m /\
  0 <= Z.min (first m + 1) (len (items m) - overflow m)
    <= len (items m) - overflow m.
Proof.
  intros Hm Hscroll Hfirst Hsurf.
  pose proof (lookup_lt_Some _ _ _ Hm) as Hlt.
  assert (Hup : exists l',
             finish (scrollUp l) allActions = Ok (Continue l') /\
             store l' = <[curmenu l := set_first m (Z.max (first m - 1) 0)]>
                          (store l) /\
             curmenu l' = curmenu l).
  { assert (Hs : store (scrollUp l)
                 = <[curmenu l := set_first m (Z.max (first m - 1) 0)]> (store l)).
    { unfold scrollUp, update. cbn. rewrite Hm. reflexivity. }
    destruct (finish_redraw (scrollUp l)
                (set_first m (Z.max (first m - 1) 0)) surf)
      as (l' & Hfin & Hst & Hcur).
    - rewrite Hs. cbn. apply list_lookup_insert_eq. exact Hlt.
    - apply visibleItems_safe. cbn. lia.
    - exact Hsurf.
    - exists l'. rewrite Hst, Hs. auto. }
  assert (Hdown : exists l',
             finish (scrollDown l) allActions = Ok (Continue l') /\
             store l' = <[curmenu l := set_first m
                                         (Z.min (first m + 1)
                                                (len (items m) - overflow m))]>
                          (store l) /\
             curmenu l' = curmenu l).
  { assert (Hs : store (scrollDown l)
                 = <[curmenu l := set_first m
                                    (Z.min (first m + 1)
                                           (len (items m) - overflow m))]>
                     (store l)).
    { unfold scrollDown, update. cbn. rewrite Hm. reflexivity. }
    destruct (finish_redraw (scrollDown l)
                (set_first m (Z.min (first m + 1)
                                    (len (items m) - overflow m))) surf)
      as (l' & Hfin & Hst & Hcur).
    - rewrite Hs. cbn. apply list_lookup_insert_eq. exact Hlt.
    - apply visibleItems_safe. cbn. lia.
    - exact Hsurf.
    - exists l'. rewrite Hst, Hs. auto. }
  assert (Hget : exists i, getitem ctxmenu m (curY l) = Ok i).
  { apply getitemFrom_safe, visibleItems_safe. auto. }
  destruct Hget as (i & Hget).
  split; [| split; [| split; [| split]]].
  - intros value Hv. cbn [step]. unfold onAxis. rewrite Hm. cbn [deref bind].
    destruct (Z.eqb_spec (overflow m) (-1)); [contradiction |].
    destruct (Z.ltb_spec value 0); [exact Hup | lia].
  - intros value Hv. cbn [step]. unfold onAxis. rewrite Hm. cbn [deref bind].
    destruct (Z.eqb_spec (overflow m) (-1)); [contradiction |].
    destruct (Z.ltb_spec value 0); [lia |].
    destruct (Z.ltb_spec 0 value); [exact Hdown | lia].
  - intros middle Hov. cbn [step]. unfold onButton. cbn [negb].
    rewrite Hm. cbn [deref bind]. rewrite Hget. cbn [bind].
    rewrite Hov. cbn [bind]. exact Hup.
  - intros middle Hov. cbn [step]. unfold onButton. cbn [negb].
    rewrite Hm. cbn [deref bind]. rewrite Hget. cbn [bind].
    rewrite Hov. cbn [bind]. exact Hdown.
  - lia.
Qed.

(** X4.  A press of a pointer button over a separator ends the loop: the naked
    [return] under the comment "ignore separators" makes [Run] return the
    zero value of the output type together with a nil error, which a caller
    cannot tell from the choice of an item whose output is the zero
    value. *)
Lemma separator_press_returns_zero (l : Loop T) (middle : bool)
      (m : Menu T) (item : Z) (it : Item T) :
  store l !! curmenu l = Some m ->
  getitem ctxmenu m (curY l) = Ok item ->
  isoverflowitem ctxmenu m (curY l) = Ok OverflowNone ->
  index (items m) item = Some it ->
  label it = EmptyString ->
  step zero ctxmenu hover l (PointerButtonEvent true middle)
  = Ok (Return zero None l).
Proof.
  intros Hm Hget Hov Hit Hlbl. cbn [step]. unfold onButton. cbn [negb].
  rewrite Hm. cbn [deref bind]. rewrite Hget. cbn [bind].
  rewrite Hov. cbn [bind].
  pose proof (index_Some _ _ _ Hit) as Hr.
  destruct (Z.eqb_spec item (-1)); [lia |].
  rewrite Hit. cbn [deref bind].
  unfold isSeparator. rewrite Hlbl. reflexivity.
Qed.

End LoopFacts.

(** X4, witness.  The pointer is over the separator between "A" and "B" and its button is
    pressed: the loop returns the empty string and no error. *)
Lemma separator_press_returns_zero_witness :
  loop EmptyString demoContext true sepHovered [PointerButtonEvent true false]
  = Ok (Return EmptyString None sepHovered).
Proof.
  cbn [loop].
  rewrite (separator_press_returns_zero EmptyString demoContext true sepHovered
             false sepHoveredRoot 1 (demoItem EmptyString)).
  - reflexivity.
  - vm_compute; reflexivity.
  - vm_compute; reflexivity.
  - vm_compute; reflexivity.
  - vm_compute; reflexivity.
  - reflexivity.
Defined.


(** C6, witness: the pointer is over the item "A" of the root, a leaf. *)
Lemma keys_ignored_leaf_returned_witness :
  loop EmptyString demoContext true oneHovered [PointerButtonEvent true false]
  = Ok (Return "A"%string None oneHovered).
Proof.
  apply (proj2 (proj2 (keys_ignored_leaf_returned EmptyString demoContext true
                                                  oneHovered))
           false [] oneHoveredRoot 0 (demoItem "A"%string)).
  all: vm_compute; reflexivity.
Defined.

(** C6, counterexample.  The loop has shown the one-item root, which has no
    caller, and receives a press of Escape (key code 1) and one of Left (key
    code 105): it has not returned, and waits for the next event in the state
    it started in. *)
Lemma escape_at_root_goes_on :
  Run EmptyString demoContext true oneItem noWayland 0
      [KeyboardKeyEvent true 1; KeyboardKeyEvent true 105]
  = Ok (Continue oneStarted) /\
  curmenu oneStarted = 0%nat /\
  exists m : Menu string,
    store oneStarted !! 0%nat = Some m /\ caller m = None.
Proof.
  split; [vm_compute; reflexivity |]. split; [reflexivity |].
  eexists. split; reflexivity.
Qed.

(** C9, witness: the three items on the small display, scrolled down once
    by a horizontal-axis event. *)
Lemma scroll_adjusts_first_witness :
  exists l' : Loop string,
    step EmptyString smallContext true threeStarted
         (PointerAxisEvent PointerAxisHorizontalScroll 1)
    = Ok (Continue l') /\
    store l'
    = <[curmenu threeStarted :=
          set_first threeStartedRoot
                    (Z.min (first threeStartedRoot + 1)
                           (len (items threeStartedRoot)
                            - overflow threeStartedRoot))]>
        (store threeStarted) /\
    curmenu l' = curmenu threeStarted.
Proof.
  assert (H1 : store threeStarted !! curmenu threeStarted = Some threeStartedRoot)
    by reflexivity.
  assert (H2 : overflow threeStartedRoot <> -1) by discriminate.
  assert (H3 : 0 <= first threeStartedRoot
               <= len (items threeStartedRoot) - overflow threeStartedRoot)
    by (vm_compute; split; discriminate).
  assert (H4 : surface threeStartedRoot = Some 0%nat) by reflexivity.
  destruct (scroll_adjusts_first EmptyString smallContext true threeStarted
              threeStartedRoot 0%nat H1 H2 H3 H4) as (_ & Hdown & _).
  apply Hdown. reflexivity.
Defined.

(** C9, counterexample.  The three items on the small display: the menu
    scrolls ([overflow == 2]) and [first == 0] may grow to 1.  A scroll event
    on the vertical axis leaves [first], with the whole state, as it was. *)
Lemma vertical_scroll_ignored :
  step EmptyString smallContext true threeStarted
       (PointerAxisEvent PointerAxisVerticalScroll 1)
  = Ok (Continue threeStarted) /\
  store threeStarted !! curmenu threeStarted = Some threeStartedRoot /\
  overflow threeStartedRoot = 2 /\
  first threeStartedRoot = 0 /\
  Z.min (first threeStartedRoot + 1)
        (len (items threeStartedRoot) - overflow threeStartedRoot) = 1.
Proof. repeat split. Qed.

(** ** Buffers *)

Section Buffers.
Context {T : Type}.
Implicit Types s : list (Menu T).
Implicit Types w : Wayland.

Lemma outstanding_attach w (surf b surf' : nat) :
  outstanding {| nextId := S (nextId w);
                 attached := attached w ++ [(surf, b)] |} surf'
  = (outstanding w surf' + if decide (surf = surf') then 1 else 0)%nat.
Proof.
  unfold outstanding. cbn [attached]. rewrite filter_app, length_app.
  f_equal. rewrite filter_cons, filter_nil. cbn [fst].
  destruct (decide (surf = surf')); reflexivity.
Qed.

Lemma outstanding_release w (b surf : nat) :
  (outstanding (OnRelease w b) surf <= outstanding w surf)%nat.
Proof.
  unfold outstanding, OnRelease. cbn [attached].
  induction (attached w) as [| [sf bf] rest IH]; [reflexivity |].
  rewrite !filter_cons. cbn [fst snd].
  destruct (decide (bf <> b)); destruct (decide (sf = surf));
    rewrite ?filter_cons; cbn [fst snd length];
    try destruct (decide (sf = surf)); cbn [length]; try lia; contradiction.
Qed.

Lemma drawFrame_outstanding s w (p : nat) w' (m : Menu T) :
  drawFrame s w p = Ok w' -> s !! p = Some m ->
  forall surf,
    (outstanding w' surf
     <= outstanding w surf
        + if decide (surface m = Some surf) then 1 else 0)%nat.
Proof.
  unfold drawFrame. intros Hdraw Hp surf. rewrite Hp in Hdraw.
  cbn [deref bind] in Hdraw. destruct (pool m).
  - destruct (surface m) as [sf |]; [| discriminate].
    cbn in Hdraw. injection Hdraw as <-. rewrite outstanding_attach.
    destruct (decide (sf = surf)) as [-> | Hne].
    + destruct (decide (Some surf = Some surf)); [lia | contradiction].
    + lia.
  - injection Hdraw as <-. lia.
Qed.

Lemma frame_outstanding s w (f : Frame) w' :
  frame s w f = Ok w' ->
  forall surf,
    (outstanding w' surf <= outstanding w surf)%nat \/
    (exists p m, drawn f = Some p /\ s !! p = Some m /\
                 surface m = Some surf /\
                 (outstanding w' surf <= S (outstanding w surf))%nat).
Proof.
  intros Hf surf. destruct f as [p | p | b]; cbn in Hf.
  - unfold draw in Hf. bind_inv Hf. apply deref_Ok in Ha.
    bind_inv Hf. bind_inv Hf. bind_inv Hf. injection Hf as <-.
    pose proof (drawFrame_outstanding _ _ _ _ _ Ha1 Ha surf) as Hle.
    destruct (decide (surface a = Some surf)) as [Hs | Hs]; [| left; lia].
    right. exists p, a. cbn. repeat split; auto. lia.
  - unfold OnConfigure in Hf. bind_inv Hf. apply deref_Ok in Ha.
    bind_inv Hf. bind_inv Hf. injection Hf as <-.
    pose proof (drawFrame_outstanding _ _ _ _ _ Ha0 Ha surf) as Hle.
    destruct (decide (surface a = Some surf)) as [Hs | Hs]; [| left; lia].
    right. exists p, a. cbn. repeat split; auto. lia.
  - injection Hf as <-. left. apply outstanding_release.
Qed.

(** C1, as amended.  The code keeps no record of the buffers it has
    attached: [drawFrame] on a menu that has a pool creates a buffer and
    attaches it to the surface whether or not an earlier one is still
    unreleased, so the number outstanding on that surface grows by one;
    a release never adds one.  The number outstanding therefore stays at
    most 1 on every surface along a sequence of redraws, configure events
    and releases exactly as far as the compositor's releases see to it:
    it does when each drawing finds no buffer outstanding on its
    surface. *)
Theorem buffers_outstanding s :
  (forall w (p : nat) (m : Menu T) (surf pl : nat),
      s !! p = Some m -> surface m = Some surf -> pool m = Some pl ->
      exists w',
        drawFrame s w p = Ok w' /\
        outstanding w' surf = S (outstanding w surf)) /\
  (forall w (b surf : nat),
      (outstanding (OnRelease w b) surf <= outstanding w surf)%nat) /\
  (forall (tr : list Frame) w w',
      (forall surf, (outstanding w surf <= 1)%nat) ->
      disciplined s w tr ->
      frames s w tr = Ok w' ->
      forall surf, (outstanding w' surf <= 1)%nat).
Proof.
  split; [| split].
  - intros w p m surf pl Hp Hsurf Hpool.
    rewrite (drawFrame_attaches s w p m surf pl Hp Hpool Hsurf).
    eexists. split; [reflexivity |]. rewrite outstanding_attach.
    destruct (decide (surf = surf)); [lia | contradiction].
  - apply outstanding_release.
  - induction tr as [| f rest IH]; intros w w' Hbound Hdisc Hrun surf.
    + cbn in Hrun. injection Hrun as <-. apply Hbound.
    + cbn [frames] in Hrun. bind_inv Hrun.
      destruct Hdisc as [Hfree Hrest].
      apply (IH a w'); [| apply Hrest, Ha | exact Hrun].
      intros sf. destruct (frame_outstanding _ _ _ _ Ha sf)
        as [Hle | (p & m & Hd & Hp & Hs & Hle)].
      * specialize (Hbound sf). lia.
      * rewrite (Hfree p m sf Hd Hp Hs) in Hle. exact Hle.
Qed.

End Buffers.

(** C1, witness: the one-item root redrawn, its buffer released, and redrawn
    again. *)
Lemma buffers_outstanding_witness : (outstanding redrawnWayland 0 <= 1)%nat.
Proof.
  apply (proj2 (proj2 (buffers_outstanding (store oneStarted)))
           [Redraw 0; Release 3; Redraw 0] releasedWayland redrawnWayland).
  - intros surf. cbn. lia.
  - split; [intros p m surf _ _ _; reflexivity |].
    intros w1 Hw1. vm_compute in Hw1. injection Hw1 as <-.
    split; [intros p m surf Hd; discriminate |].
    intros w2 Hw2. vm_compute in Hw2. injection Hw2 as <-.
    split; [intros p m surf _ _ _; reflexivity |].
    intros w3 _. exact I.
  - vm_compute. reflexivity.
Defined.

(** C1, counterexample.  [Run] shows and draws the one-item root and then
    receives a single surface-enter event, for which it draws again: no
    release has arrived, and two buffers are attached to the surface of the
    root. *)
Lemma second_buffer_without_release :
  exists (l : Loop string) (m : Menu string) (surf : nat),
    Run EmptyString demoContext true oneItem noWayland 0 [WlSurfaceEnterEvent]
    = Ok (Continue l) /\
    store l !! 0%nat = Some m /\
    surface m = Some surf /\
    attached (wl l) = [(surf, 2%nat); (surf, 3%nat)] /\
    outstanding (wl l) surf = 2%nat.
Proof.
  eexists _, _, _. split; [vm_compute; reflexivity |].
  split; [reflexivity |]. split; [reflexivity |]. split; reflexivity.
Qed.

(** ** Hit testing and painting *)

(** Case analysis on every comparison of integers in the goal. *)
Ltac zcases :=
  repeat match goal with
         | |- context [?a <=? ?b] => destruct (Z.leb_spec a b)
         | |- context [?a <? ?b] => destruct (Z.ltb_spec a b)
         | |- context [?a =? ?b] => destruct (Z.eqb_spec a b)
         end;
  cbn; try reflexivity; try lia.

Section GeomFacts.
Context {T : Type}.
Variable ctxmenu : ContextMenu.
Variable rightArrowY : Z.
Implicit Types m : Menu T.
Implicit Types sq : Seq2 T.

Lemma index_In {A : Type} (xs : list A) (i : Z) (x : A) :
  index xs i = Some x -> In x xs.
Proof.
  unfold index. destruct (i <? 0); [discriminate |]. intros Hi.
  apply list_elem_of_In. eapply list_elem_of_lookup_2, Hi.
Qed.

Lemma rangeItems_rowsOk (its : list (Item T)) (k : Seq2 T) :
  (forall item, In item its -> 0 <= ih item) -> rowsOk k ->
  forall (n : nat) (i : Z), rowsOk (rangeItems its i n k).
Proof.
  intros Hits Hk. induction n as [| n IH]; intros i; cbn; [exact Hk |].
  destruct (index its i) as [item |] eqn:Hi; cbn; [| exact I].
  split; [| apply IH]. eapply Hits, index_In, Hi.
Qed.

Lemma rangeItems_indexed (its : list (Item T)) (k : Seq2 T) :
  indexed its k ->
  forall (n : nat) (i : Z), indexed its (rangeItems its i n k).
Proof.
  intros Hk. induction n as [| n IH]; intros i; cbn; [exact Hk |].
  destruct (index its i) as [item |] eqn:Hi; cbn; [| exact I].
  split; [right; exact Hi | apply IH].
Qed.

Lemma visibleItems_rowsOk m (withOverflow : bool) :
  heightsOk m -> rowsOk (visibleItems m withOverflow).
Proof.
  intros (Hits & Htop & Hbot). unfold visibleItems.
  destruct (withOverflow && negb (overflow m =? -1)); cbn.
  - split; [exact Htop |]. apply rangeItems_rowsOk; [exact Hits |].
    cbn. auto.
  - apply rangeItems_rowsOk; [exact Hits | exact I].
Qed.

Lemma visibleItems_indexed m (withOverflow : bool) :
  indexed (items m) (visibleItems m withOverflow).
Proof.
  unfold visibleItems.
  destruct (withOverflow && negb (overflow m =? -1)); cbn.
  - split; [left; reflexivity |]. apply rangeItems_indexed. cbn. auto.
  - apply rangeItems_indexed. exact I.
Qed.

Lemma drawCalls_safe sq :
  safe sq -> forall y, exists calls, drawCalls y sq = Ok calls.
Proof.
  induction sq as [| i item rest IH |]; intros Hs y; cbn in *.
  - eauto.
  - destruct (IH Hs (y + ih item)) as (calls & ->). cbn. eauto.
  - contradiction.
Qed.

(** The rows follow each other downwards. *)
Lemma drawCalls_below sq :
  rowsOk sq ->
  forall y calls, drawCalls y sq = Ok calls ->
  forall y' i item, In (y', i, item) calls -> y <= y' /\ 0 <= ih item.
Proof.
  induction sq as [| i0 item0 rest IH |]; intros Hrows y calls Hc y' i item Hin;
    cbn in *.
  - injection Hc as <-. contradiction.
  - destruct Hrows as [H0 Hrows].
    destruct (drawCalls (y + ih item0) rest) as [calls' | | |] eqn:Hrest;
      try discriminate.
    cbn in Hc. injection Hc as <-.
    destruct Hin as [Heq | Hin].
    + injection Heq as <- <- <-. lia.
    + destruct (IH Hrows _ _ Hrest _ _ _ Hin). lia.
  - discriminate.
Qed.

(** The row a position falls into is the one [getitemFrom] returns. *)
Lemma getitemFrom_hit (target : Z) sq :
  rowsOk sq ->
  forall y calls, drawCalls y sq = Ok calls ->
  forall y' i item,
    In (y', i, item) calls -> i <> -1 -> y' <= target < y' + ih item ->
    getitemFrom target y sq = Ok i.
Proof.
  induction sq as [| i0 item0 rest IH |];
    intros Hrows y calls Hc y' i item Hin Hi Ht; cbn in *.
  - injection Hc as <-. contradiction.
  - destruct Hrows as [H0 Hrows].
    destruct (drawCalls (y + ih item0) rest) as [calls' | | |] eqn:Hrest;
      try discriminate.
    cbn in Hc. injection Hc as <-.
    destruct Hin as [Heq | Hin].
    + injection Heq as <- <- <-.
      destruct (Z.eqb_spec i0 (-1)); [contradiction |].
      destruct (Z.leb_spec y target); [| lia].
      destruct (Z.ltb_spec target (y + ih item0)); [| lia].
      reflexivity.
    + destruct (drawCalls_below rest Hrows _ _ Hrest _ _ _ Hin) as [Hge _].
      destruct (Z.ltb_spec target (y + ih item0)); [lia |].
      rewrite andb_false_r. eapply IH; eassumption.
  - discriminate.
Qed.

(** What [getitemFrom] returns is the index of a row the position falls
    into. *)
Lemma getitemFrom_row (target : Z) sq :
  forall y calls, drawCalls y sq = Ok calls ->
  forall i, getitemFrom target y sq = Ok i -> i <> -1 ->
  exists y' item, In (y', i, item) calls /\ y' <= target < y' + ih item.
Proof.
  induction sq as [| i0 item0 rest IH |]; intros y calls Hc i Hg Hi;
    cbn in *.
  - injection Hg as <-. contradiction.
  - destruct (drawCalls (y + ih item0) rest) as [calls' | | |] eqn:Hrest;
      try discriminate.
    cbn in Hc. injection Hc as <-.
    destruct (negb (i0 =? -1) && (y <=? target) && (target <? y + ih item0))
      eqn:Hcond.
    + injection Hg as <-.
      apply andb_prop in Hcond as [Hcond Hlt].
      apply andb_prop in Hcond as [_ Hle].
      exists y, item0. split; [left; reflexivity | lia].
    + destruct (IH _ _ Hrest _ Hg Hi) as (y' & item & Hin & Hr).
      exists y', item. split; [right; exact Hin | exact Hr].
  - discriminate.
Qed.

Lemma getitemFrom_total (target : Z) sq :
  safe sq -> forall y, exists i, getitemFrom target y sq = Ok i.
Proof. intros Hs y. apply getitemFrom_safe, Hs. Qed.

(** The index [getitemFrom] returns addresses an item. *)
Lemma getitemFrom_indexed (its : list (Item T)) (target : Z) sq :
  indexed its sq ->
  forall y i, getitemFrom target y sq = Ok i -> i <> -1 ->
  exists item, index its i = Some item.
Proof.
  induction sq as [| i0 item0 rest IH |]; intros Hix y i Hg Hi; cbn in *.
  - injection Hg as <-. contradiction.
  - destruct Hix as [Hi0 Hix].
    destruct (negb (i0 =? -1) && (y <=? target) && (target <? y + ih item0)).
    + injection Hg as <-. destruct Hi0 as [-> | Hi0]; [contradiction | eauto].
    + eapply IH; eassumption.
  - discriminate.
Qed.

Lemma getitem_indexed m (target i : Z) :
  getitem ctxmenu m target = Ok i -> i <> -1 ->
  exists item, index (items m) i = Some item.
Proof.
  unfold getitem. apply getitemFrom_indexed, visibleItems_indexed.
Qed.

(** X5.  Hit testing agrees with painting.  [getitem(target)] returns the
    index [i] of an item exactly when [draw] painted the row of that item,
    by [drawItem(y, i, item)], over the position: [y <= target < y +
    item.h]; it returns -1 exactly when the position is in no item's row
    (it may be in the row of a scroll indicator, which [draw] paints with
    index -1). *)
Theorem getitem_hits_drawn_row m (target : Z) :
  scrollOk m -> heightsOk m ->
  exists calls,
    drawCalls (BorderSize ctxmenu) (visibleItems m true) = Ok calls /\
    (forall i, i <> -1 ->
       (getitem ctxmenu m target = Ok i <->
        exists y item, In (y, i, item) calls /\ y <= target < y + ih item)) /\
    (getitem ctxmenu m target = Ok (-1) <->
     forall y i item, In (y, i, item) calls ->
                      y <= target < y + ih item -> i = -1).
Proof.
  intros Hscroll Hh.
  pose proof (visibleItems_safe m true Hscroll) as Hsafe.
  pose proof (visibleItems_rowsOk m true Hh) as Hrows.
  destruct (drawCalls_safe _ Hsafe (BorderSize ctxmenu)) as (calls & Hc).
  destruct (getitemFrom_total target _ Hsafe (BorderSize ctxmenu)) as (r & Hr).
  exists calls. split; [exact Hc |]. unfold getitem. split.
  - intros i Hi. split.
    + intros Hg. eapply getitemFrom_row; eassumption.
    + intros (y & item & Hin & Ht). eapply getitemFrom_hit; eassumption.
  - split.
    + intros Hg y i item Hin Ht.
      destruct (Z.eq_dec i (-1)) as [| Hne]; [assumption |].
      pose proof (getitemFrom_hit target _ Hrows _ _ Hc _ _ _ Hin Hne Ht) as Hg'.
      congruence.
    + intros Hnone. rewrite Hr. f_equal.
      destruct (Z.eq_dec r (-1)) as [| Hne]; [assumption |].
      destruct (getitemFrom_row target _ _ _ Hc _ Hr Hne)
        as (y & item & Hin & Ht).
      apply (Hnone _ _ _ Hin Ht).
Qed.

(** *** The scroll indicators *)

Lemma getitemFrom_above (target : Z) sq :
  safe sq -> rowsOk sq ->
  forall y, target < y -> getitemFrom target y sq = Ok (-1).
Proof.
  induction sq as [| i0 item0 rest IH |]; intros Hs Hrows y Hy; cbn in *.
  - reflexivity.
  - destruct Hrows as [H0 Hrows].
    destruct (Z.leb_spec y target); [lia |].
    rewrite andb_false_r. cbn. apply IH; [assumption | assumption | lia].
  - contradiction.
Qed.

Lemma getitemFrom_range (its : list (Item T)) (target : Z) (k : Seq2 T) :
  (forall item, In item its -> 0 <= ih item) ->
  forall (n : nat) (i y y1 : Z),
    heightFrom y (rangeItems its i n Done) = Ok y1 ->
    y1 <= target ->
    getitemFrom target y (rangeItems its i n k) = getitemFrom target y1 k.
Proof.
  intros Hits. induction n as [| n IH]; intros i y y1 Hh Ht; cbn in *.
  - injection Hh as <-. reflexivity.
  - destruct (index its i) as [item |] eqn:Hi; cbn in *; [| discriminate].
    assert (H0 : 0 <= ih item).
    { eapply Hits, index_In, Hi. }
    assert (Hmono : y + ih item <= y1).
    { clear IH Ht. revert Hh. generalize (y + ih item) as y0.
      generalize (i + 1) as j. induction n as [| n IHn]; intros j y0 Hh;
        cbn in Hh.
      - injection Hh as <-. lia.
      - destruct (index its j) as [item' |] eqn:Hj; cbn in Hh;
          [| discriminate].
        assert (0 <= ih item').
        { eapply Hits, index_In, Hj. }
        specialize (IHn _ _ Hh). lia. }
    destruct (Z.ltb_spec target (y + ih item)); [lia |].
    rewrite andb_false_r. eapply IH; eassumption.
Qed.

(** X6.  A position on a scroll indicator is on no item.  When
    [isoverflowitem(target)] answers [OverflowTop] or [OverflowBottom],
    [getitem(target)] answers -1: the two tests of the button handler of
    [Run] never both name something. *)
Theorem indicator_hit_is_no_item m (target : Z) (ov : OverflowItem) :
  scrollOk m -> heightsOk m ->
  isoverflowitem ctxmenu m target = Ok ov -> ov <> OverflowNone ->
  getitem ctxmenu m target = Ok (-1).
Proof.
  intros Hscroll Hh Hov Hne.
  pose proof Hh as (Hits & Htop & Hbot).
  unfold isoverflowitem in Hov. unfold getitem, visibleItems.
  destruct (Z.eqb_spec (overflow m) (-1)) as [Heq | Hneq];
    [injection Hov as <-; contradiction |].
  cbn [negb andb]. cbn [getitemFrom]. cbn [Z.eqb negb andb].
  change (-1 =? -1) with true. cbn [negb andb].
  destruct ((BorderSize ctxmenu <=? target)
            && (target <? BorderSize ctxmenu + ih (overflowItemTop m)))
    eqn:Htopc.
  - apply andb_prop in Htopc as [_ Hlt]. apply Z.ltb_lt in Hlt.
    apply getitemFrom_above; [| | exact Hlt].
    + apply rangeItems_safe; [exact I |]. intros Hn.
      specialize (Hscroll Hneq). unfold len in *. lia.
    + apply rangeItems_rowsOk; [exact Hits | cbn; auto].
  - unfold visibleItems in Hov.
    replace (negb (overflow m =? -1)) with true in Hov
      by (destruct (Z.eqb_spec (overflow m) (-1)); [contradiction | reflexivity]).
    cbn [andb] in Hov.
    match type of Hov with
    | bind ?r _ = _ => destruct r as [y1 | | |] eqn:Hy1
    end; try discriminate.
    cbn [bind] in Hov.
    destruct ((y1 <=? target) && (target <? y1 + ih (overflowItemBottom m)))
      eqn:Hbotc; [| injection Hov as <-; contradiction].
    apply andb_prop in Hbotc as [Hle _]. apply Z.leb_le in Hle.
    rewrite (getitemFrom_range (items m) target _ Hits _ _ _ _ Hy1 Hle).
    cbn. reflexivity.
Qed.

(** *** The selected row *)

Lemma warpFrom_range (its : list (Item T)) (sel : Z) (k : Seq2 T) :
  forall (n : nat) (i : Z),
    0 <= i -> i + Z.of_nat n <= len its ->
    warpFrom sel (rangeItems its i n k)
    = if (i <=? sel) && (sel <? i + Z.of_nat n) then Ok true
      else warpFrom sel k.
Proof.
  induction n as [| n IH]; intros i H0 Hn; cbn [rangeItems].
  - destruct (Z.leb_spec i sel), (Z.ltb_spec sel (i + Z.of_nat 0));
      cbn; try reflexivity; lia.
  - destruct (index_in_range its i) as (item & Hi); [lia |].
    rewrite Hi. cbn [warpFrom].
    destruct (Z.eqb_spec i (-1)); [lia |]. cbn [negb andb].
    destruct (Z.eqb_spec i sel) as [-> | Hne].
    + destruct (Z.leb_spec sel sel), (Z.ltb_spec sel (sel + Z.of_nat (S n)));
        cbn; try reflexivity; lia.
    + rewrite IH by lia.
      destruct (Z.leb_spec (i + 1) sel), (Z.ltb_spec sel (i + 1 + Z.of_nat n)),
        (Z.leb_spec i sel), (Z.ltb_spec sel (i + Z.of_nat (S n)));
        cbn; try reflexivity; lia.
Qed.

Lemma warp_visible m :
  scrollOk m -> warp m = Ok (visibleIndex m (selected m)).
Proof.
  intros Hscroll. unfold warp, visibleItems, visibleIndex, scrollOk in *.
  destruct (Z.eqb_spec (overflow m) (-1)) as [Heq | Hneq]; cbn [negb andb].
  - rewrite warpFrom_range.
    + rewrite Z.sub_0_r. unfold len. rewrite Nat2Z.id. cbn [warpFrom]. zcases.
    + lia.
    + rewrite Z.sub_0_r. unfold len. rewrite Nat2Z.id. lia.
  - specialize (Hscroll Hneq). cbn [warpFrom].
    change (-1 =? -1) with true. cbn [negb andb].
    replace (first m + overflow m - first m) with (overflow m) by lia.
    destruct (Z.le_gt_cases 0 (overflow m)) as [Hpos | Hnegv].
    + rewrite warpFrom_range by (rewrite ?Z2Nat.id by lia; lia).
      rewrite Z2Nat.id by lia. cbn [warpFrom].
      change (-1 =? -1) with true. cbn [negb andb]. zcases.
    + replace (Z.to_nat (overflow m)) with 0%nat by lia. cbn [rangeItems warpFrom].
      change (-1 =? -1) with true. cbn [negb andb]. zcases.
Qed.

Lemma highlightedCall_spec m (y i : Z) (item : Item T) :
  highlightedCall ctxmenu rightArrowY m (y, i, item)
  = negb (i =? -1) && (i =? selected m).
Proof.
  unfold highlightedCall, drawItem. cbn [fst snd existsb paintSelected].
  destruct (negb (i =? -1) && (i =? selected m)); [reflexivity |].
  cbn [orb].
  destruct (overflower item); cbn; try reflexivity.
  destruct (negb (label item =? "")%string); cbn; [| reflexivity].
  destruct (submenu item), (icon item); reflexivity.
Qed.

Lemma filter_highlight_range m (its : list (Item T)) (k : Seq2 T) :
  forall (n : nat) (i y : Z) calls,
    0 <= i -> i + Z.of_nat n <= len its ->
    drawCalls y (rangeItems its i n k) = Ok calls ->
    exists callsk yk,
      drawCalls yk k = Ok callsk /\
      length (List.filter (highlightedCall ctxmenu rightArrowY m) calls)
      = (Nat.b2n ((i <=? selected m) && (selected m <? i + Z.of_nat n))%Z
         + length (List.filter (highlightedCall ctxmenu rightArrowY m) callsk))%nat.
Proof.
  induction n as [| n IH]; intros i y calls H0 Hn Hc; cbn [rangeItems] in Hc.
  - exists calls, y. split; [exact Hc |]. zcases.
  - destruct (index_in_range its i) as (item & Hi); [lia |].
    rewrite Hi in Hc. cbn [drawCalls] in Hc.
    destruct (drawCalls (y + ih item) (rangeItems its (i + 1) n k))
      as [calls' | | |] eqn:Hrest; try discriminate.
    cbn in Hc. injection Hc as <-.
    destruct (IH (i + 1) (y + ih item) calls' ltac:(lia) ltac:(lia) Hrest)
      as (callsk & yk & Hk & Hlen).
    exists callsk, yk. split; [exact Hk |].
    cbn [List.filter]. rewrite highlightedCall_spec.
    destruct (Z.eqb_spec i (-1)); [lia |]. cbn [negb andb].
    destruct (Z.eqb_spec i (selected m)) as [Heq | Hne]; cbn [length];
      rewrite Hlen; zcases.
Qed.

(** X7.  At most one row is painted in the colours of the selected item, the
    row of [menu.selected], and only while that item is in view;
    [warp] reports whether there is such a row.  The scroll indicators are
    never painted selected, and a row painted selected has the index
    [menu.selected]. *)
Theorem draw_highlights_selected m :
  scrollOk m ->
  exists calls,
    drawCalls (BorderSize ctxmenu) (visibleItems m true) = Ok calls /\
    length (List.filter (highlightedCall ctxmenu rightArrowY m) calls)
    = (if visibleIndex m (selected m) then 1%nat else 0%nat) /\
    warp m = Ok (visibleIndex m (selected m)) /\
    (forall y i item,
        In (y, i, item) calls ->
        highlightedCall ctxmenu rightArrowY m (y, i, item) = true ->
        i = selected m /\ i <> -1 /\ index (items m) i = Some item).
Proof.
  intros Hscroll.
  pose proof (visibleItems_safe m true Hscroll) as Hsafe.
  destruct (drawCalls_safe _ Hsafe (BorderSize ctxmenu)) as (calls & Hc).
  exists calls. split; [exact Hc |]. split; [| split].
  - unfold visibleItems, visibleIndex, scrollOk in *.
    destruct (Z.eqb_spec (overflow m) (-1)) as [Heq | Hneq];
      cbn [negb andb] in Hc.
    + rewrite Z.sub_0_r in Hc. unfold len in Hc. rewrite Nat2Z.id in Hc.
      destruct (filter_highlight_range m (items m) Done
                  (length (items m)) 0 (BorderSize ctxmenu) calls
                  ltac:(lia) ltac:(unfold len; lia) Hc)
        as (callsk & yk & Hk & Hlen).
      cbn in Hk. injection Hk as <-. rewrite Hlen. cbn [List.filter length].
      unfold len. zcases.
    + specialize (Hscroll Hneq). cbn [drawCalls] in Hc.
      match type of Hc with
      | bind ?r _ = _ => destruct r as [calls' | | |] eqn:Hrest
      end; try discriminate.
      cbn in Hc. injection Hc as <-.
      replace (first m + overflow m - first m) with (overflow m) in Hrest
        by lia.
      cbn [List.filter]. rewrite highlightedCall_spec.
      change (-1 =? -1) with true. cbn [negb andb].
      destruct (Z.le_gt_cases 0 (overflow m)) as [Hpos | Hnegv].
      * destruct (filter_highlight_range m (items m)
                    (Yield (-1) (overflowItemBottom m) Done)
                    (Z.to_nat (overflow m)) (first m)
                    (BorderSize ctxmenu + ih (overflowItemTop m)) calls'
                    ltac:(lia) ltac:(rewrite Z2Nat.id by lia; lia) Hrest)
          as (callsk & yk & Hk & Hlen).
        cbn in Hk. injection Hk as <-. rewrite Hlen.
        rewrite Z2Nat.id by lia.
        cbn [List.filter]. rewrite highlightedCall_spec.
        change (-1 =? -1) with true. cbn [negb andb length]. zcases.
      * replace (Z.to_nat (overflow m)) with 0%nat in Hrest by lia.
        cbn in Hrest. injection Hrest as <-.
        cbn [List.filter]. rewrite highlightedCall_spec.
        change (-1 =? -1) with true. cbn [negb andb length]. zcases.
  - apply warp_visible, Hscroll.
  - intros y i item Hin Hhl. rewrite highlightedCall_spec in Hhl.
    apply andb_prop in Hhl as [Hn1 Heq].
    apply Z.eqb_eq in Heq. apply negb_true_iff, Z.eqb_neq in Hn1.
    split; [exact Heq |]. split; [exact Hn1 |].
    clear Hsafe. pose proof (visibleItems_indexed m true) as Hix.
    revert Hc Hin Hix. generalize (BorderSize ctxmenu) as y0.
    generalize (visibleItems m true) as sq. clear -Hn1.
    intros sq. revert calls.
    induction sq as [| i0 item0 rest IH |]; intros calls y0 Hc Hin Hix;
      cbn in *.
    + injection Hc as <-. contradiction.
    + destruct (drawCalls (y0 + ih item0) rest) as [calls' | | |] eqn:Hrest;
        try discriminate.
      cbn in Hc. injection Hc as <-. destruct Hix as [Hi0 Hix].
      destruct Hin as [Heq | Hin].
      * injection Heq as <- <- <-. destruct Hi0; [contradiction | assumption].
      * eapply IH; eassumption.
    + discriminate.
Qed.

End GeomFacts.

(** X5, witness.  The root of the three items on the small display after [show]: a press
    at height 30 is over the second item, which [draw] painted from 24 to
    44. *)
Lemma getitem_hits_drawn_row_witness :
  exists calls,
    drawCalls (BorderSize smallContext) (visibleItems threeStartedRoot true)
    = Ok calls /\
    (forall i, i <> -1 ->
       (getitem smallContext threeStartedRoot 30 = Ok i <->
        exists y item, In (y, i, item) calls /\ y <= 30 < y + ih item)) /\
    (getitem smallContext threeStartedRoot 30 = Ok (-1) <->
     forall y i item, In (y, i, item) calls -> y <= 30 < y + ih item -> i = -1).
Proof.
  apply (getitem_hits_drawn_row smallContext threeStartedRoot 30).
  - intros _. vm_compute. split; discriminate.
  - split; [| split; vm_compute; discriminate].
    intros item Hin. vm_compute in Hin.
    repeat (destruct Hin as [<- | Hin]; [vm_compute; discriminate |]).
    contradiction.
Defined.

(** X6, witness.  The same root: a press at height 2 is on the top indicator. *)
Lemma indicator_hit_is_no_item_witness :
  getitem smallContext threeStartedRoot 2 = Ok (-1).
Proof.
  apply (indicator_hit_is_no_item smallContext threeStartedRoot 2 OverflowTop).
  - intros _. vm_compute. split; discriminate.
  - split; [| split; vm_compute; discriminate].
    intros item Hin. vm_compute in Hin.
    repeat (destruct Hin as [<- | Hin]; [vm_compute; discriminate |]).
    contradiction.
  - vm_compute. reflexivity.
  - discriminate.
Defined.

(** X7, witness.  The scrolled root: the items 1 and 2 are in view and item 2 is selected,
    so one row is painted selected. *)
Lemma draw_highlights_selected_witness :
  exists calls,
    drawCalls (BorderSize smallContext) (visibleItems scrolledRoot true)
    = Ok calls /\
    length (List.filter (highlightedCall smallContext 8 scrolledRoot) calls)
    = (if visibleIndex scrolledRoot (selected scrolledRoot)
       then 1%nat else 0%nat) /\
    warp scrolledRoot = Ok (visibleIndex scrolledRoot (selected scrolledRoot)) /\
    (forall y i item,
        In (y, i, item) calls ->
        highlightedCall smallContext 8 scrolledRoot (y, i, item) = true ->
        i = selected scrolledRoot /\ i <> -1 /\
        index (items scrolledRoot) i = Some item).
Proof.
  apply (draw_highlights_selected smallContext 8 scrolledRoot).
  intros _. vm_compute. split; discriminate.
Defined.

(** ** The geometry [show] computes *)

Section LayoutFacts.
Context {T : Type}.
Variable zero : T.
Variable ctxmenu : ContextMenu.
Implicit Types s : list (Menu T).
Implicit Types m : Menu T.

Lemma hidden_refl s : hidden s s.
Proof. split; [reflexivity | auto]. Qed.

Lemma hidden_trans s1 s2 s3 : hidden s1 s2 -> hidden s2 s3 -> hidden s1 s3.
Proof.
  intros [Hl12 H12] [Hl23 H23]. split; [congruence |].
  intros q m Hq. destruct (H12 q m Hq) as [Hq2 | Hq2];
    destruct (H23 _ _ Hq2) as [Hq3 | Hq3]; auto.
Qed.

Lemma hidden_unmap s (p : nat) m :
  s !! p = Some m -> hidden s (<[p := set_surface m None]> s).
Proof.
  intros Hp. split; [apply length_insert |].
  intros q mq Hq. destruct (decide (p = q)) as [<- | Hne].
  - right. rewrite list_lookup_insert_eq by (eapply lookup_lt_Some, Hp).
    congruence.
  - left. rewrite list_lookup_insert_ne by assumption. exact Hq.
Qed.

Lemma fold_hidden (g : list (Menu T) -> Item T -> result (list (Menu T))) :
  (forall s item s', g s item = Ok s' -> hidden s s') ->
  forall (its : list (Item T)) (acc : result (list (Menu T))) s',
    fold_left (fun acc item => do s1 <- acc; g s1 item) its acc = Ok s' ->
    exists s0, acc = Ok s0 /\ hidden s0 s'.
Proof.
  intros Hg. induction its as [| item its IH]; intros acc s' Hfold.
  - cbn in Hfold. subst acc. eauto using hidden_refl.
  - cbn [fold_left] in Hfold. apply IH in Hfold as (s1 & Hstep & Hn1).
    destruct acc as [s0 | | |]; cbn in Hstep; try discriminate.
    exists s0. split; [reflexivity |].
    eapply hidden_trans; [| exact Hn1]. eapply Hg, Hstep.
Qed.

(** [hide] unmaps and does nothing else. *)
Lemma hide_hidden :
  forall (n : nat) s (p : nat) s', hide n s p = Ok s' -> hidden s s'.
Proof.
  induction n as [| n IH]; intros s p s' Hhide; [discriminate |].
  cbn [hide] in Hhide.
  destruct (s !! p) as [m |] eqn:Hp; [| discriminate].
  cbn [deref bind] in Hhide.
  match type of Hhide with
  | bind ?folded _ = _ => destruct folded as [s1 | | |] eqn:Hfold
  end; try discriminate.
  cbn [bind] in Hhide.
  apply (fold_hidden
           (fun s' item => match submenu item with
                           | Some sub => hide n s' sub
                           | None => Ok s'
                           end)) in Hfold.
  2:{ intros s0 item s0' Hg. destruct (submenu item); [eauto |].
      injection Hg as <-. apply hidden_refl. }
  destruct Hfold as (s0 & [= <-] & Hn).
  destruct (s1 !! p) as [m1 |] eqn:Hp1; [| discriminate].
  cbn in Hhide. injection Hhide as <-.
  eapply hidden_trans; [exact Hn |]. apply hidden_unmap, Hp1.
Qed.

Lemma hideChildren_hidden (n : nat) s (p : nat) (except : option nat) s' :
  hideChildren n s p except = Ok s' -> hidden s s'.
Proof.
  unfold hideChildren. intros Hh.
  destruct (s !! p) as [m |] eqn:Hp; [| discriminate].
  cbn [deref bind] in Hh.
  apply (fold_hidden
           (fun s' item => match submenu item with
                           | Some sub =>
                               if decide (Some sub = except) then Ok s'
                               else hide n s' sub
                           | None => Ok s'
                           end)) in Hh.
  2:{ intros s0 item s0' Hg. destruct (submenu item) as [sub |].
      - destruct (decide (Some sub = except)).
        + injection Hg as <-. apply hidden_refl.
        + eapply hide_hidden, Hg.
      - injection Hg as <-. apply hidden_refl. }
  destruct Hh as (s0 & [= <-] & Hn). exact Hn.
Qed.

(** *** The two passes over the items *)

Lemma measure_width (its : list (Item T)) :
  forall w h,
    w <= fst (measure its w h) /\
    forall item, In item its -> iw item <= fst (measure its w h).
Proof.
  induction its as [| item its IH]; intros w h; cbn [measure].
  - cbn. split; [lia | contradiction].
  - destruct (IH (Z.max w (iw item)) (h + ih item)) as [Hw Hits].
    split; [lia |]. intros item' [<- | Hin]; [lia | auto].
Qed.

Lemma fit_result (maxY : Z) (its : list (Item T)) :
  forall (i w h : Z),
    w <= fst (fst (fit its i w h maxY)) /\
    ((snd (fit its i w h maxY) = -1 /\
      snd (fst (fit its i w h maxY)) = h + heights its) \/
     (exists j : nat,
         (j < length its)%nat /\
         snd (fit its i w h maxY) = i + Z.of_nat j /\
         snd (fst (fit its i w h maxY)) = h + heights (take j its))).
Proof.
  induction its as [| item its IH]; intros i w h.
  - cbn. split; [lia |]. left. split; [reflexivity | lia].
  - cbn [fit]. destruct (Z.ltb_spec maxY (ih item + h)) as [Hover | Hfits].
    + cbn. split; [lia |]. right. exists 0%nat. cbn [length].
      split; [lia |]. split; [lia |]. rewrite take_0, heights_nil. lia.
    + destruct (IH (i + 1) (Z.max w (iw item)) (h + ih item))
        as [Hw [[Hov Hh] | (j & Hj & Hov & Hh)]].
      * split; [lia |]. left. rewrite heights_cons. split; [exact Hov | lia].
      * split; [lia |]. right. exists (S j). cbn [length].
        split; [lia |]. split; [lia |].
        rewrite Hh. cbn [take]. rewrite heights_cons. lia.
Qed.

(** The size [recompute] gives the menu. *)
Lemma recompute_size m :
  0 <= bottomArrowY ctxmenu + PaddingY ctxmenu * 2 ->
  items m <> [] ->
  let m' := recompute ctxmenu m in
  BorderSize ctxmenu * 2 + MinItemWidth ctxmenu <= mw m' /\
  (forall item, In item (items m) -> iw item <= mw m') /\
  ((overflow m' = -1 /\ mh m' = totalHeight ctxmenu m /\
    totalHeight ctxmenu m <= MaxY (Monitor ctxmenu)) \/
   (exists j : nat,
       (j < length (items m))%nat /\ overflow m' = Z.of_nat j /\
       mh m' = reserved ctxmenu + heights (take j (items m)) /\
       (j = 0%nat \/ mh m' <= MaxY (Monitor ctxmenu)))).
Proof.
  intros Harrow Hne. cbv zeta. unfold recompute.
  pose proof (measure_width (items m)
                (BorderSize ctxmenu * 2 + MinItemWidth ctxmenu)
                (BorderSize ctxmenu * 2)) as [Hw1 Hits1].
  pose proof (measure_height (items m)
                (BorderSize ctxmenu * 2 + MinItemWidth ctxmenu)
                (BorderSize ctxmenu * 2)) as Hh1.
  destruct (measure (items m) (BorderSize ctxmenu * 2 + MinItemWidth ctxmenu)
                    (BorderSize ctxmenu * 2)) as [w1 h1] eqn:Hm.
  cbn [fst snd] in *.
  destruct (Z.ltb_spec (MaxY (Monitor ctxmenu)) h1) as [Hover | Hfits].
  - pose proof (fit_result (MaxY (Monitor ctxmenu)) (items m) 0 w1
                  ((bottomArrowY ctxmenu + PaddingY ctxmenu * 2
                    + BorderSize ctxmenu) * 2)) as [Hw2 Hcase].
    pose proof (fit_spec (MaxY (Monitor ctxmenu)) (items m) 0 w1
                  ((bottomArrowY ctxmenu + PaddingY ctxmenu * 2
                    + BorderSize ctxmenu) * 2)) as Hspec.
    destruct (fit (items m) 0 w1
                  ((bottomArrowY ctxmenu + PaddingY ctxmenu * 2
                    + BorderSize ctxmenu) * 2) (MaxY (Monitor ctxmenu)))
      as [[w2 h2] ov] eqn:Hfit.
    cbn [fst snd set_size set_overflow mw mh overflow items] in *.
    split; [lia |]. split; [intros item Hin; specialize (Hits1 item Hin); lia |].
    destruct Hcase as [[Hov Hh] | (j & Hj & Hov & Hh)].
    + exfalso. destruct Hspec as [[_ Hall] | (j & Hj & Hov' & _)]; [| lia].
      destruct (items m) as [| item its] eqn:Hitems.
      * contradiction.
      * specialize (Hall (length (item :: its)) ltac:(cbn; lia)).
        rewrite firstn_all in Hall. lia.
    + right. exists j. split; [exact Hj |]. split; [lia |].
      split; [unfold reserved; exact Hh |].
      destruct j as [| j]; [left; reflexivity | right].
      destruct Hspec as [[Hov' _] | (j' & Hj' & Hov' & _ & Hpre)]; [lia |].
      assert (j' = S j) as -> by lia.
      rewrite Hh. apply Hpre. lia.
  - cbn [fst snd set_size set_overflow mw mh overflow items].
    split; [lia |]. split; [exact Hits1 |].
    left. unfold totalHeight. split; [reflexivity |]. split; lia.
Qed.

(** *** Position *)

Lemma place_fields s m (c : option nat) m' :
  place ctxmenu s m c = Ok m' ->
  mw m' = mw m /\ mh m' = mh m /\ items m' = items m /\
  overflow m' = overflow m /\ first m' = first m /\
  overflowItemTop m' = overflowItemTop m /\
  overflowItemBottom m' = overflowItemBottom m.
Proof.
  unfold place. intros Hpl.
  assert (Hun : forall m0,
             (if (mx m =? -1) || (my m =? -1)
              then set_pos m (cx ctxmenu)
                           (if overflow m =? -1 then cy ctxmenu else 0)
              else m) = m0 ->
             mw m0 = mw m /\ mh m0 = mh m /\ items m0 = items m /\
             overflow m0 = overflow m /\ first m0 = first m /\
             overflowItemTop m0 = overflowItemTop m /\
             overflowItemBottom m0 = overflowItemBottom m).
  { intros m0 <-. destruct ((mx m =? -1) || (my m =? -1)); cbn; auto 10. }
  destruct c as [cp |]; [| injection Hpl as Hpl; auto].
  destruct (decide (caller m = Some cp)); [injection Hpl as Hpl; auto |].
  destruct (s !! cp) as [cm |]; [| discriminate].
  cbn [deref bind] in Hpl.
  match type of Hpl with
  | bind ?r _ = _ => destruct r as [y1 | | |]
  end; try discriminate.
  cbn in Hpl. injection Hpl as <-. cbn. auto 10.
Qed.

(** [clamp] brings a menu that fits the monitor inside it. *)
Lemma clamp_within m :
  let m' := clamp ctxmenu m in
  mw m' = mw m /\ mh m' = mh m /\
  (mw m <= MaxX (Monitor ctxmenu) - MinX (Monitor ctxmenu) ->
   withinX ctxmenu m') /\
  (mh m <= MaxY (Monitor ctxmenu) - MinY (Monitor ctxmenu) ->
   withinY ctxmenu m').
Proof.
  cbv zeta. unfold clamp, withinX, withinY.
  cbn [set_pos mx my mw mh].
  split; [reflexivity |]. split; [reflexivity |]. split; intros Hfit.
  - destruct (Z.ltb_spec (mx m) (MinX (Monitor ctxmenu)));
      [lia |].
    destruct (Z.ltb_spec (MaxX (Monitor ctxmenu)) (mx m + mw m)); lia.
  - destruct (Z.ltb_spec (my m) (MinY (Monitor ctxmenu)));
      [lia |].
    destruct (Z.ltb_spec (MaxY (Monitor ctxmenu)) (my m + mh m)); lia.
Qed.

(** What [show] leaves of the menu it shows: the size and the scroll state
    are those of [recompute] when the items had changed and the old ones
    otherwise, the position is the one [clamp] chose. *)
Lemma show_geometry s (w : Wayland) (p : nat) (c : option nat) s'
      (w' : Wayland) m :
  show ctxmenu s w p c = Ok (s', w') -> s !! p = Some m ->
  exists m3 m',
    s' !! p = Some m' /\
    let m1 := if itemsChanged m then recompute ctxmenu m else m in
    mw m3 = mw m1 /\ mh m3 = mh m1 /\
    mw m' = mw m1 /\ mh m' = mh m1 /\
    mx m' = mx (clamp ctxmenu m3) /\ my m' = my (clamp ctxmenu m3) /\
    items m' = items m /\ overflow m' = overflow m1 /\ first m' = first m1 /\
    overflowItemTop m' = overflowItemTop m /\
    overflowItemBottom m' = overflowItemBottom m.
Proof.
  unfold show. intros Hshow Hp.
  destruct (hideChildren (length s) s p None) as [s1 | | |] eqn:Hh1;
    try discriminate.
  cbn [bind] in Hshow.
  match type of Hshow with
  | bind ?r _ = _ => destruct r as [s2 | | |] eqn:Hh2
  end; try discriminate.
  cbn [bind] in Hshow.
  assert (Hn12 : hidden s s2).
  { apply hideChildren_hidden in Hh1.
    eapply hidden_trans; [exact Hh1 |].
    destruct (if decide (c = Some p) then None else c) as [cp |].
    - eapply hideChildren_hidden, Hh2.
    - injection Hh2 as <-. apply hidden_refl. }
  destruct Hn12 as [Hlen2 Hn2].
  assert (Hm2 : exists m2, s2 !! p = Some m2 /\
                           (m2 = m \/ m2 = set_surface m None)).
  { destruct (Hn2 p m Hp) as [Hp2 | Hp2]; eauto. }
  destruct Hm2 as (m2 & Hp2 & Hm2).
  rewrite Hp2 in Hshow. cbn [deref bind] in Hshow.
  match type of Hshow with
  | bind ?r _ = _ => destruct r as [m3 | | |] eqn:Hplace
  end; try discriminate.
  cbn [bind] in Hshow.
  apply place_fields in Hplace as (Pw & Ph & Pi & Po & Pf & Pt & Pb).
  unfold updateWindow in Hshow.
  rewrite list_lookup_insert_eq in Hshow by (eapply lookup_lt_Some, Hp2).
  cbn [deref bind] in Hshow.
  assert (Hm1 : let m1 := if itemsChanged m then recompute ctxmenu m else m in
                let m1' := if itemsChanged m2 then recompute ctxmenu m2
                           else m2 in
                mw m1' = mw m1 /\ mh m1' = mh m1 /\ items m1' = items m /\
                overflow m1' = overflow m1 /\ first m1' = first m1 /\
                overflowItemTop m1' = overflowItemTop m /\
                overflowItemBottom m1' = overflowItemBottom m).
  { cbv zeta. destruct Hm2 as [-> | ->].
    - destruct (itemsChanged m); [| auto 10].
      pose proof (recompute_nav ctxmenu m) as (Ri & _ & _ & _ & Rt & Rb & _).
      auto 10.
    - cbn [itemsChanged set_surface].
      destruct (itemsChanged m); [| cbn; auto 10].
      pose proof (recompute_nav ctxmenu m) as (Ri & _ & _ & _ & Rt & Rb & _).
      unfold recompute in *. cbn [items set_surface] in *.
      destruct (measure (items m) _ _) as [w1 h1].
      destruct (if MaxY (Monitor ctxmenu) <? h1 then _ else _) as [[w2 h2] ov].
      cbn in *. auto 10. }
  cbv zeta in Hm1. destruct Hm1 as (Mw & Mh & Mi & Mo & Mf & Mt & Mb).
  exists m3.
  destruct (surface (clamp ctxmenu m3)) eqn:Hsurf.
  - injection Hshow as <- <-. exists (clamp ctxmenu m3).
    split; [apply list_lookup_insert_eq; eapply lookup_lt_Some, Hp2 |].
    cbv zeta. pose proof (clamp_within m3) as (Cw & Ch & _).
    pose proof (clamp_nav ctxmenu m3) as ((Ci & Cf & _ & Co & _ & Ct & Cb) & _).
    cbv zeta in Cw, Ch.
    repeat split; congruence.
  - destruct (pixLen (clamp ctxmenu m3) <=? 0); [discriminate |].
    injection Hshow as <- <-.
    eexists. split.
    { rewrite list_insert_insert_eq.
      apply list_lookup_insert_eq. eapply lookup_lt_Some, Hp2. }
    cbv zeta. pose proof (clamp_within m3) as (Cw & Ch & _).
    pose proof (clamp_nav ctxmenu m3) as ((Ci & Cf & _ & Co & _ & Ct & Cb) & _).
    cbv zeta in Cw, Ch. cbn [set_pool set_surface mw mh mx my items overflow
                               first overflowItemTop overflowItemBottom].
    repeat split; congruence.
Qed.

(** X8.  After [show] the window of the menu lies on the monitor in each
    direction in which it is not larger than the monitor: [show] ends by
    pushing the menu back inside, first from the left and top, then from
    the right and bottom. *)
Theorem show_keeps_menu_on_screen s (w : Wayland) (p : nat) (c : option nat)
        s' (w' : Wayland) :
  show ctxmenu s w p c = Ok (s', w') ->
  exists m',
    s' !! p = Some m' /\
    (mw m' <= MaxX (Monitor ctxmenu) - MinX (Monitor ctxmenu) ->
     withinX ctxmenu m') /\
    (mh m' <= MaxY (Monitor ctxmenu) - MinY (Monitor ctxmenu) ->
     withinY ctxmenu m').
Proof.
  intros Hshow. destruct (show_defined _ _ _ _ _ _ _ Hshow) as (m & Hp).
  destruct (show_geometry _ _ _ _ _ _ _ Hshow Hp)
    as (m3 & m' & Hp' & Hgeo).
  cbv zeta in Hgeo.
  destruct Hgeo as (Hw3 & Hh3 & Hw' & Hh' & Hx & Hy & _).
  pose proof (clamp_within m3) as (Cw & Ch & CX & CY). cbv zeta in *.
  exists m'. split; [exact Hp' |]. unfold withinX, withinY in *.
  rewrite Hx, Hy, Hw', Hh', <- Hw3, <- Hh3.
  rewrite Cw in CX. rewrite Ch in CY. split; assumption.
Qed.

(** *** Rows and window *)

Lemma rowsEnd_cons (y y0 : Z) (c : Z * Z * Item T) calls :
  rowsEnd y0 (c :: calls) = rowsEnd (fst (fst c) + ih (snd c)) calls.
Proof.
  unfold rowsEnd. destruct calls as [| c' calls]; [reflexivity |].
  rewrite last_cons. destruct (last (c' :: calls)) eqn:Hl; [reflexivity |].
  apply last_None in Hl. discriminate.
Qed.

Lemma rowsEnd_range (its : list (Item T)) (k : Seq2 T) :
  forall (n i : nat) (y : Z) calls,
    (i + n <= length its)%nat ->
    drawCalls y (rangeItems its (Z.of_nat i) n k) = Ok calls ->
    exists callsk,
      drawCalls (y + heights (take n (drop i its))) k = Ok callsk /\
      rowsEnd y calls = rowsEnd (y + heights (take n (drop i its))) callsk.
Proof.
  induction n as [| n IH]; intros i y calls Hn Hc.
  - cbn [rangeItems] in Hc. rewrite take_0, heights_nil, Z.add_0_r.
    eauto.
  - cbn [rangeItems] in Hc.
    destruct (lookup_lt_is_Some_2 its i) as [item Hi]; [lia |].
    assert (Hidx : index its (Z.of_nat i) = Some item).
    { unfold index. destruct (Z.ltb_spec (Z.of_nat i) 0); [lia |].
      rewrite Nat2Z.id. exact Hi. }
    rewrite Hidx in Hc. cbn [drawCalls] in Hc.
    replace (Z.of_nat i + 1) with (Z.of_nat (S i)) in Hc by lia.
    destruct (drawCalls (y + ih item) (rangeItems its (Z.of_nat (S i)) n k))
      as [calls' | | |] eqn:Hrest; try discriminate.
    cbn in Hc. injection Hc as <-.
    destruct (IH (S i) (y + ih item) calls' ltac:(lia) Hrest)
      as (callsk & Hk & Hend).
    rewrite (drop_S its item i Hi). cbn [take]. rewrite heights_cons.
    exists callsk. rewrite Z.add_assoc. split; [exact Hk |].
    rewrite (rowsEnd_cons y). cbn [fst snd]. exact Hend.
Qed.

(** X9.  When [show] has recomputed the layout of a menu built by [MakeMenu]
    and [Append], the rows that [draw] paints fill the window between the
    borders exactly: the last row (the last item, or the bottom scroll
    indicator) ends at [menu.h - BorderSize].  The window is at least as
    wide as [MinItemWidth] with both borders and as every item, and it is
    not higher than [Monitor().Max.Y] unless not even the first item fits
    between the scroll indicators. *)
Theorem show_rows_fill_window s (w : Wayland) (p : nat) (c : option nat)
        s' (w' : Wayland) m :
  built zero ctxmenu s -> s !! p = Some m -> itemsChanged m = true ->
  0 <= bottomArrowY ctxmenu + PaddingY ctxmenu * 2 ->
  show ctxmenu s w p c = Ok (s', w') ->
  exists m' calls,
    s' !! p = Some m' /\
    drawCalls (BorderSize ctxmenu) (visibleItems m' true) = Ok calls /\
    rowsEnd (BorderSize ctxmenu) calls = mh m' - BorderSize ctxmenu /\
    BorderSize ctxmenu * 2 + MinItemWidth ctxmenu <= mw m' /\
    (forall item, In item (items m') -> iw item <= mw m') /\
    (mh m' <= MaxY (Monitor ctxmenu) \/ overflow m' = 0).
Proof.
  intros Hbuilt Hp Hdirty Harrow Hshow.
  destruct (show_geometry _ _ _ _ _ _ _ Hshow Hp) as (m3 & m' & Hp' & Hgeo).
  cbv zeta in Hgeo. rewrite Hdirty in Hgeo.
  destruct Hgeo as (_ & _ & Hw' & Hh' & _ & _ & Hi' & Ho' & Hf' & Ht' & Hb').
  pose proof (recompute_nav ctxmenu m) as (_ & Rf & _).
  rewrite Rf in Hf'.
  destruct (built_fresh zero ctxmenu s p m Hbuilt Hp)
    as ((_ & _ & _ & _ & _ & Gt & Gb & _) & Hitems).
  assert (Hht : ih (overflowItemTop m')
                = bottomArrowY ctxmenu + PaddingY ctxmenu * 2)
    by (rewrite Ht', Gt; reflexivity).
  assert (Hhb : ih (overflowItemBottom m')
                = bottomArrowY ctxmenu + PaddingY ctxmenu * 2)
    by (rewrite Hb', Gb; reflexivity).
  pose proof (recompute_size m Harrow (Hitems Hdirty)) as (Rw & Rits & Rcase).
  cbv zeta in Rw, Rits, Rcase.
  exists m'.
  assert (Hscroll : scrollOk m').
  { intros Hne. rewrite Hf', Hi', Ho'.
    destruct Rcase as [(Hov & _) | (j & Hj & Hov & _)].
    - rewrite Ho', Hov in Hne. contradiction.
    - rewrite Hov. unfold len. lia. }
  destruct (drawCalls_safe _ (visibleItems_safe m' true Hscroll)
                           (BorderSize ctxmenu)) as (calls & Hc).
  exists calls. split; [exact Hp' |]. split; [exact Hc |].
  rewrite Hw', Hh', Hi'. split; [| split; [exact Rw | split; [exact Rits |]]].
  - unfold visibleItems in Hc. rewrite Hf', Ho', Hi' in Hc.
    destruct Rcase as [(Hov & Hh & _) | (j & Hj & Hov & Hh & _)];
      rewrite Hov in Hc; rewrite Hh.
    + change (negb (-1 =? -1)) with false in Hc. cbn [andb] in Hc.
      rewrite Z.sub_0_r in Hc. unfold len in Hc. rewrite Nat2Z.id in Hc.
      change 0 with (Z.of_nat 0) in Hc at 1.
      destruct (rowsEnd_range (items m) Done (length (items m)) 0%nat
                              (BorderSize ctxmenu) calls ltac:(lia) Hc)
        as (callsk & Hk & Hend).
      cbn in Hk. injection Hk as <-. rewrite Hend.
      rewrite drop_0, firstn_all. unfold rowsEnd, totalHeight. cbn. lia.
    + replace (negb (Z.of_nat j =? -1)) with true in Hc
        by (destruct (Z.eqb_spec (Z.of_nat j) (-1)); [lia | reflexivity]).
      cbn [andb drawCalls] in Hc.
      match type of Hc with
      | bind ?r _ = _ => destruct r as [calls1 | | |] eqn:Hrest
      end; try discriminate.
      cbn in Hc. injection Hc as <-.
      replace (Z.to_nat (0 + Z.of_nat j - 0)) with j in Hrest by lia.
      change 0 with (Z.of_nat 0) in Hrest at 1.
      destruct (rowsEnd_range (items m)
                              (Yield (-1) (overflowItemBottom m') Done) j 0%nat
                              (BorderSize ctxmenu + ih (overflowItemTop m'))
                              calls1 ltac:(lia) Hrest)
        as (callsk & Hk & Hend).
      cbn in Hk. injection Hk as <-.
      rewrite (rowsEnd_cons (BorderSize ctxmenu)). cbn [fst snd].
      rewrite Hend, drop_0. unfold rowsEnd, reserved. cbn.
      rewrite Hht, Hhb. lia.
  - rewrite Ho'.
    destruct Rcase as [(Hov & Hh & Hfit) | (j & Hj & Hov & Hh & Hjfit)].
    + left. lia.
    + destruct Hjfit as [-> | Hle]; [right; rewrite Hov; reflexivity |].
      left. exact Hle.
Qed.

End LayoutFacts.

(** X8, witness.  The three items on the small display: [show] leaves the root at the
    origin, 10 wide and 48 high on the monitor of 100 by 50. *)
Lemma show_keeps_menu_on_screen_witness :
  exists m' : Menu string,
    threeShown !! 0%nat = Some m' /\
    (mw m' <= MaxX (Monitor smallContext) - MinX (Monitor smallContext) ->
     withinX smallContext m') /\
    (mh m' <= MaxY (Monitor smallContext) - MinY (Monitor smallContext) ->
     withinY smallContext m').
Proof.
  apply (show_keeps_menu_on_screen smallContext threeItems noWayland 0 None
                                   threeShown shownWayland).
  vm_compute. reflexivity.
Defined.

(** X9, witness.  The same: the top indicator, two items and the bottom indicator end at
    48, the height of the window. *)
Lemma show_rows_fill_window_witness :
  exists (m' : Menu string) calls,
    threeShown !! 0%nat = Some m' /\
    drawCalls (BorderSize smallContext) (visibleItems m' true) = Ok calls /\
    rowsEnd (BorderSize smallContext) calls = mh m' - BorderSize smallContext /\
    BorderSize smallContext * 2 + MinItemWidth smallContext <= mw m' /\
    (forall item, In item (items m') -> iw item <= mw m') /\
    (mh m' <= MaxY (Monitor smallContext) \/ overflow m' = 0).
Proof.
  apply (show_rows_fill_window EmptyString smallContext threeItems noWayland 0
                               None threeShown shownWayland threeRoot
                               threeItems_built).
  - reflexivity.
  - reflexivity.
  - vm_compute. discriminate.
  - vm_compute. reflexivity.
Defined.

(** ** The loop never panics *)

Section SafetyFacts.
Context {T : Type}.
Variable zero : T.
Variable ctxmenu : ContextMenu.
Variable hover : bool.
Implicit Types s : list (Menu T).
Implicit Types m : Menu T.
Implicit Types l : Loop T.

Lemma sameItems_refl s : sameItems s s.
Proof. split; [reflexivity | eauto]. Qed.

Lemma sameItems_trans s1 s2 s3 :
  sameItems s1 s2 -> sameItems s2 s3 -> sameItems s1 s3.
Proof.
  intros [Hl12 H12] [Hl23 H23]. split; [congruence |].
  intros q m Hq. destruct (H12 q m Hq) as (m2 & Hq2 & Hi2).
  destruct (H23 q m2 Hq2) as (m3 & Hq3 & Hi3).
  exists m3. split; [exact Hq3 | congruence].
Qed.

Lemma navStore_sameItems s s' : navStore s s' -> sameItems s s'.
Proof.
  intros [Hlen Hn]. split; [exact Hlen |].
  intros q m Hq. destruct (Hn q m Hq) as (m' & Hq' & Hnav).
  exists m'. split; [exact Hq' | apply Hnav].
Qed.

Lemma sameItems_insert s (p : nat) m m' :
  s !! p = Some m -> items m' = items m -> sameItems s (<[p := m']> s).
Proof.
  intros Hp Hi. split; [apply length_insert |].
  intros q mq Hq. destruct (decide (p = q)) as [<- | Hne].
  - exists m'. rewrite list_lookup_insert_eq by (eapply lookup_lt_Some, Hp).
    split; [reflexivity | congruence].
  - exists mq. rewrite list_lookup_insert_ne by assumption. auto.
Qed.

(** The menus of [s'] are those of [s]. *)
Lemma sameItems_back s s' (q : nat) m' :
  sameItems s s' -> s' !! q = Some m' ->
  exists m, s !! q = Some m /\ items m' = items m.
Proof.
  intros [Hlen Hs] Hq'.
  destruct (lookup_lt_is_Some_2 s q) as [m Hq].
  { rewrite <- Hlen. eapply lookup_lt_Some, Hq'. }
  destruct (Hs q m Hq) as (m2 & Hq2 & Hi2).
  exists m. split; [exact Hq | congruence].
Qed.

Lemma links_sameItems s s' :
  sameItems s s' -> linksForward s -> linksForward s'.
Proof.
  intros Hsame Hl q m' i item sub Hq' Hi Hsub.
  destruct (sameItems_back _ _ _ _ Hsame Hq') as (m & Hq & Heq).
  rewrite Heq in Hi. destruct Hsame as [Hlen _]. rewrite Hlen. eauto.
Qed.

Lemma leafOf_sameItems s s' (v : T) :
  sameItems s s' -> leafOf s' v -> leafOf s v.
Proof.
  intros Hsame (q & m' & i & item & Hq' & Hi & Hleaf).
  destruct (sameItems_back _ _ _ _ Hsame Hq') as (m & Hq & Heq).
  rewrite Heq in Hi. exists q, m, i, item. auto.
Qed.

Lemma returnOk_sameItems s s' (v : T) (e : option RunError) :
  sameItems s s' -> returnOk zero s' v e -> returnOk zero s v e.
Proof.
  intros Hsame. destruct e as [[] |]; cbn; [auto |].
  intros [Hz | Hleaf]; [auto | right; eapply leafOf_sameItems; eassumption].
Qed.

Lemma descendant_trans s (p q r : nat) :
  descendant s p q -> descendant s q r -> descendant s p r.
Proof.
  induction 1 as [p | p m i item sub q Hp Hi Hsub _ IH]; intros Hqr;
    [exact Hqr |].
  eapply desc_step; [exact Hp | exact Hi | exact Hsub | apply IH, Hqr].
Qed.

Lemma descendant_back s s' (p q : nat) :
  sameItems s s' -> descendant s' p q -> descendant s p q.
Proof.
  intros Hsame. induction 1 as [p | p m' i item sub q Hp Hi Hsub _ IH];
    [apply desc_refl |].
  destruct (sameItems_back _ _ _ _ Hsame Hp) as (m & Hq & Heq).
  rewrite Heq in Hi. eapply desc_step; eassumption.
Qed.

(** Submenus being allocated after their parents, a descendant has the
    greater address. *)
Lemma descendant_le s (p q : nat) :
  linksForward s -> descendant s p q -> (p <= q)%nat.
Proof.
  intros Hl. induction 1 as [p | p m i item sub q Hp Hi Hsub _ IH]; [lia |].
  destruct (Hl p m i item sub Hp Hi Hsub). lia.
Qed.

Lemma menuInv_scrollOk m : menuInv m -> scrollOk m.
Proof. intros (_ & _ & H). exact H. Qed.

(** An update of one menu that keeps its items and its invariant. *)
Lemma ok_insert s (p : nat) m m' :
  storeInv s -> linksForward s -> s !! p = Some m ->
  menuInv m' -> items m' = items m ->
  storeInv (<[p := m']> s) /\ linksForward (<[p := m']> s) /\
  sameItems s (<[p := m']> s).
Proof.
  intros Hinv Hl Hp Hm' Hi. split; [| split].
  - intros q mq Hq. destruct (decide (p = q)) as [<- | Hne].
    + rewrite list_lookup_insert_eq in Hq by (eapply lookup_lt_Some, Hp).
      injection Hq as <-. exact Hm'.
    + rewrite list_lookup_insert_ne in Hq by assumption. eauto.
  - eapply links_sameItems; [| exact Hl].
    eapply sameItems_insert; eassumption.
  - eapply sameItems_insert; eassumption.
Qed.

(** *** hide and show *)

Lemma hide_fold_total (n : nat) s (p : nat) :
  linksForward s ->
  (forall s0 sub, linksForward s0 -> length s0 = length s ->
                  (p < sub < length s0)%nat ->
                  exists s1, hide n s0 sub = Ok s1) ->
  forall (except : option nat) (its : list (Item T)),
    (forall item sub, In item its -> submenu item = Some sub ->
                      (p < sub < length s)%nat) ->
    forall s0, navStore s s0 ->
      exists s1,
        fold_left
          (fun acc item =>
             do s' <- acc;
             match submenu item with
             | Some sub =>
                 if decide (Some sub = except) then Ok s' else hide n s' sub
             | None => Ok s'
             end) its (Ok s0) = Ok s1 /\
        navStore s s1.
Proof.
  intros Hl Hhide except. induction its as [| item its IH]; intros Hits s0 Hn0.
  - cbn. eauto.
  - cbn [fold_left bind].
    assert (Hstep : exists s0',
               match submenu item with
               | Some sub =>
                   if decide (Some sub = except) then Ok s0 else hide n s0 sub
               | None => Ok s0
               end = Ok s0' /\ navStore s s0').
    { destruct (submenu item) as [sub |] eqn:Hsub; [| eauto].
      destruct (decide (Some sub = except)); [eauto |].
      pose proof Hn0 as [Hlen0 _].
      destruct (Hhide s0 sub) as (s1 & Hh).
      - eapply links_sameItems; [apply navStore_sameItems, Hn0 | exact Hl].
      - exact Hlen0.
      - rewrite Hlen0. eapply Hits; [left; reflexivity | exact Hsub].
      - exists s1. split; [exact Hh |].
        eapply navStore_trans; [exact Hn0 | eapply hide_navStore, Hh]. }
    destruct Hstep as (s0' & -> & Hn0').
    apply IH; [| exact Hn0'].
    intros item' sub Hin. apply Hits. right. exact Hin.
Qed.

(** With the submenus allocated after their parents, the recursion of
    [hide] ends within the number of menus. *)
Lemma hide_total :
  forall (n : nat) s (p : nat),
    linksForward s -> (p < length s)%nat -> (length s - p <= n)%nat ->
    exists s', hide n s p = Ok s'.
Proof.
  induction n as [| n IH]; intros s p Hl Hp Hn; [lia |].
  cbn [hide].
  destruct (lookup_lt_is_Some_2 s p Hp) as [m Hm]. rewrite Hm.
  cbn [deref bind].
  destruct (hide_fold_total n s p Hl) with (except := @None nat)
                                           (its := items m) (s0 := s)
    as (s1 & Hfold & Hn1).
  - intros s0 sub Hl0 Hlen0 Hsub. apply IH; [exact Hl0 | lia | lia].
  - intros item sub Hin Hsub.
    apply list_elem_of_In, list_elem_of_lookup_1 in Hin as [i Hi]. eauto.
  - apply navStore_refl.
  - assert (Hfold' :
              fold_left
                (fun acc item =>
                   do s' <- acc;
                   match submenu item with
                   | Some sub => hide n s' sub
                   | None => Ok s'
                   end) (items m) (Ok s) = Ok s1).
    { rewrite <- Hfold. clear. generalize (Ok s) as acc.
      induction (items m) as [| item its IH]; intros acc; [reflexivity |].
      cbn [fold_left]. rewrite IH. f_equal. }
    rewrite Hfold'. cbn [bind].
    destruct Hn1 as [Hlen1 Hn1]. destruct (Hn1 p m Hm) as (m1 & Hm1 & _).
    rewrite Hm1. cbn. eauto.
Qed.

Lemma hideChildren_total (n : nat) s (p : nat) (except : option nat) :
  linksForward s -> (p < length s)%nat -> (length s <= n)%nat ->
  exists s', hideChildren n s p except = Ok s' /\ navStore s s'.
Proof.
  intros Hl Hp Hn. unfold hideChildren.
  destruct (lookup_lt_is_Some_2 s p Hp) as [m Hm]. rewrite Hm.
  cbn [deref bind].
  apply (hide_fold_total n s p Hl).
  - intros s0 sub Hl0 Hlen0 Hsub. apply hide_total; [exact Hl0 | lia | lia].
  - intros item sub Hin Hsub.
    apply list_elem_of_In, list_elem_of_lookup_1 in Hin as [i Hi]. eauto.
  - apply navStore_refl.
Qed.

Lemma addHeights_total (its : list (Item T)) :
  forall (n : nat) (i y : Z),
    ((0 < n)%nat -> 0 <= i /\ i + Z.of_nat n <= len its) ->
    exists y', addHeights its i n y = Ok y'.
Proof.
  induction n as [| n IH]; intros i y Hn; cbn [addHeights]; [eauto |].
  destruct (index_in_range its i) as [item Hitem]; [lia |].
  rewrite Hitem. cbn [deref bind]. apply IH. lia.
Qed.

Lemma place_total s m (c : option nat) :
  (forall cp, c = Some cp -> exists cm, s !! cp = Some cm /\ menuInv cm) ->
  exists m', place ctxmenu s m c = Ok m'.
Proof.
  intros Hc. unfold place. destruct c as [cp |]; [| eauto].
  destruct (decide (caller m = Some cp)); [eauto |].
  destruct (Hc cp eq_refl) as (cm & Hcm & (Hsel & Hno & Hov)).
  rewrite Hcm. cbn [deref bind].
  destruct (Z.eqb_spec (overflow m) (-1)); [| cbn; eauto].
  destruct (addHeights_total (items cm)
              (Z.to_nat (selected cm
                         - (if negb (overflow cm =? -1) then first cm else 0)))
              (if negb (overflow cm =? -1) then first cm else 0) (my cm))
    as (y1 & Hy1).
  { intros Hpos.
    destruct (Z.eqb_spec (overflow cm) (-1)) as [Hoc | Hoc]; cbn [negb] in *.
    - destruct Hsel as [Hs | [Hs | [Hnil Hs]]]; [lia | lia |].
      rewrite Hs in Hpos. cbn in Hpos. lia.
    - specialize (Hov Hoc).
      destruct Hsel as [Hs | [Hs | [Hnil Hs]]]; [lia | lia |].
      rewrite Hs in Hpos. lia. }
  rewrite Hy1. cbn. eauto.
Qed.

(** *** The area of the menus *)

Lemma sameArea_refl s : sameArea ctxmenu s s.
Proof. split; [reflexivity |]. intros q m m' Hq Hq'. congruence. Qed.

Lemma sameArea_trans s1 s2 s3 :
  sameArea ctxmenu s1 s2 -> sameArea ctxmenu s2 s3 -> sameArea ctxmenu s1 s3.
Proof.
  intros [Hl12 H12] [Hl23 H23]. split; [congruence |].
  intros q m1 m3 Hq1 Hq3.
  destruct (lookup_lt_is_Some_2 s2 q) as [m2 Hq2].
  { rewrite Hl12. eapply lookup_lt_Some, Hq1. }
  rewrite (H23 q m2 m3 Hq2 Hq3). apply (H12 q m1 m2 Hq1 Hq2).
Qed.

Lemma allHaveArea_forth s s' :
  sameArea ctxmenu s s' -> allHaveArea ctxmenu s -> allHaveArea ctxmenu s'.
Proof.
  intros [Hlen Hs] Hall q m' Hq'.
  destruct (lookup_lt_is_Some_2 s q) as [m Hq].
  { rewrite <- Hlen. eapply lookup_lt_Some, Hq'. }
  unfold hasArea. rewrite (Hs q m m' Hq Hq'). apply (Hall q m Hq).
Qed.

Lemma allHaveArea_back s s' :
  sameArea ctxmenu s s' -> allHaveArea ctxmenu s' -> allHaveArea ctxmenu s.
Proof.
  intros [Hlen Hs] Hall q m Hq.
  destruct (lookup_lt_is_Some_2 s' q) as [m' Hq'].
  { rewrite Hlen. eapply lookup_lt_Some, Hq. }
  unfold hasArea. rewrite <- (Hs q m m' Hq Hq'). apply (Hall q m' Hq').
Qed.

(** The size [recompute] gives depends on the items only. *)
Lemma recompute_pix m m' :
  items m' = items m ->
  pixLen (recompute ctxmenu m') = pixLen (recompute ctxmenu m).
Proof.
  intros Hi. unfold recompute, pixLen. rewrite Hi.
  destruct (measure (items m) _ _) as [w1 h1].
  destruct (if MaxY (Monitor ctxmenu) <? h1 then _ else _) as [[w2 h2] ov].
  reflexivity.
Qed.

Lemma laidOut_pix m m' :
  items m' = items m -> itemsChanged m' = itemsChanged m ->
  mw m' = mw m -> mh m' = mh m ->
  pixLen (laidOut ctxmenu m') = pixLen (laidOut ctxmenu m).
Proof.
  intros Hi Hc Hw Hh. unfold laidOut. rewrite Hc.
  destruct (itemsChanged m); [apply recompute_pix, Hi |].
  unfold pixLen. rewrite Hw, Hh. reflexivity.
Qed.

Lemma sameArea_insert s (p : nat) m m' :
  s !! p = Some m ->
  items m' = items m -> itemsChanged m' = itemsChanged m ->
  mw m' = mw m -> mh m' = mh m ->
  sameArea ctxmenu s (<[p := m']> s).
Proof.
  intros Hp Hi Hc Hw Hh. split; [apply length_insert |].
  intros q mq mq' Hq Hq'. destruct (decide (p = q)) as [<- | Hne].
  - rewrite list_lookup_insert_eq in Hq' by (eapply lookup_lt_Some, Hp).
    injection Hq' as <-. assert (mq = m) as -> by congruence.
    apply laidOut_pix; assumption.
  - rewrite list_lookup_insert_ne in Hq' by assumption. congruence.
Qed.

Lemma sameArea_update s (p : nat) (f : Menu T -> Menu T) :
  (forall m, items (f m) = items m /\ itemsChanged (f m) = itemsChanged m /\
             mw (f m) = mw m /\ mh (f m) = mh m) ->
  sameArea ctxmenu s (update s p f).
Proof.
  intros Hf. unfold update. destruct (s !! p) as [m |] eqn:Hp;
    [| apply sameArea_refl].
  destruct (Hf m) as (Hi & Hc & Hw & Hh).
  eapply sameArea_insert; eassumption.
Qed.

Lemma hidden_sameArea s s' : hidden s s' -> sameArea ctxmenu s s'.
Proof.
  intros [Hlen Hh]. split; [exact Hlen |].
  intros q m m' Hq Hq'. destruct (Hh q m Hq) as [Hm | Hm];
    rewrite Hm in Hq'; injection Hq' as <-; [reflexivity |].
  apply laidOut_pix; reflexivity.
Qed.

(** What [show] leaves of the other menus: at most their windows are
    closed. *)
Lemma show_others s (w : Wayland) (p : nat) (c : option nat) s'
      (w' : Wayland) (q : nat) (mq : Menu T) :
  show ctxmenu s w p c = Ok (s', w') -> q <> p -> s !! q = Some mq ->
  s' !! q = Some mq \/ s' !! q = Some (set_surface mq None).
Proof.
  unfold show. intros Hshow Hne Hq.
  destruct (hideChildren (length s) s p None) as [s1 | | |] eqn:Hh1;
    try discriminate.
  cbn [bind] in Hshow.
  match type of Hshow with
  | bind ?r _ = _ => destruct r as [s2 | | |] eqn:Hh2
  end; try discriminate.
  cbn [bind] in Hshow.
  assert (Hn12 : hidden s s2).
  { apply hideChildren_hidden in Hh1.
    eapply hidden_trans; [exact Hh1 |].
    destruct (if decide (c = Some p) then None else c) as [cp |].
    - eapply hideChildren_hidden, Hh2.
    - injection Hh2 as <-. apply hidden_refl. }
  destruct (s2 !! p) as [m2 |] eqn:Hp2; [| discriminate].
  cbn [deref bind] in Hshow.
  match type of Hshow with
  | bind ?r _ = _ => destruct r as [m3 | | |]
  end; try discriminate.
  cbn [bind] in Hshow. unfold updateWindow in Hshow.
  rewrite list_lookup_insert_eq in Hshow by (eapply lookup_lt_Some, Hp2).
  cbn [deref bind] in Hshow.
  assert (Hq' : s' !! q = s2 !! q).
  { destruct (surface (clamp ctxmenu m3)).
    - injection Hshow as <- _. apply list_lookup_insert_ne. auto.
    - destruct (pixLen (clamp ctxmenu m3) <=? 0); [discriminate |].
      injection Hshow as <- _. rewrite !list_lookup_insert_ne by auto.
      reflexivity. }
  rewrite Hq'. destruct Hn12 as [_ Hn]. apply Hn, Hq.
Qed.

(** [show] changes the area of no menu: the menu it shows gets the size
    it was to be laid out to. *)
Lemma show_sameArea s (w : Wayland) (p : nat) (c : option nat) s'
      (w' : Wayland) :
  show ctxmenu s w p c = Ok (s', w') -> sameArea ctxmenu s s'.
Proof.
  intros Hshow.
  destruct (show_defined ctxmenu _ _ _ _ _ _ Hshow) as (m & Hp).
  destruct (show_spec ctxmenu s w p c s' w' m Hshow Hp)
    as (Hlen & _ & _ & m' & Hm' & Hnav' & _).
  destruct (show_geometry ctxmenu s w p c s' w' m Hshow Hp)
    as (m3 & m'' & Hm'' & Hgeo).
  assert (m'' = m') as -> by congruence.
  cbv zeta in Hgeo. destruct Hgeo as (_ & _ & Hw & Hh & _).
  split; [exact Hlen |]. intros q mq mq' Hq Hq'.
  destruct (decide (q = p)) as [-> | Hne].
  - assert (mq = m) as -> by congruence.
    assert (mq' = m') as -> by congruence.
    destruct Hnav' as (_ & _ & _ & _ & Hc & _).
    assert (Hclean : itemsChanged m' = false).
    { rewrite Hc. destruct (itemsChanged m) eqn:Hcm; [| exact Hcm].
      apply recompute_nav. }
    unfold laidOut at 1. rewrite Hclean. unfold pixLen at 1.
    rewrite Hw, Hh. reflexivity.
  - destruct (show_others s w p c s' w' q mq Hshow Hne Hq) as [Hs | Hs];
      rewrite Hs in Hq'; injection Hq' as <-; [reflexivity |].
    apply laidOut_pix; reflexivity.
Qed.

(** [show], on a store in the state the loop keeps, either returns and
    leaves the menu mapped, or ends the process in [openFile]; that it does
    only for a menu without area. *)
Lemma show_ok s (w : Wayland) (p : nat) (c : option nat) :
  storeInv s -> linksForward s -> (p < length s)%nat ->
  (forall cp, c = Some cp -> (cp < length s)%nat) ->
  (show ctxmenu s w p c = Fatal /\ ~ allHaveArea ctxmenu s) \/
  exists s' w' m' (surf : nat),
    show ctxmenu s w p c = Ok (s', w') /\
    storeInv s' /\ linksForward s' /\ sameItems s s' /\
    s' !! p = Some m' /\ surface m' = Some surf.
Proof.
  intros Hinv Hl Hp Hc.
  assert (Htotal : (show ctxmenu s w p c = Fatal /\ ~ allHaveArea ctxmenu s) \/
                   exists s' w', show ctxmenu s w p c = Ok (s', w')).
  { unfold show.
    destruct (hideChildren_total (length s) s p None Hl Hp (le_n _))
      as (s1 & Hh1 & Hn1).
    rewrite Hh1. cbn [bind].
    assert (Hs2 : exists s2,
               match (if decide (c = Some p) then None else c) with
               | Some cp => hideChildren (length s) s1 cp (Some p)
               | None => Ok s1
               end = Ok s2 /\ navStore s s2 /\ hidden s s2).
    { pose proof (hideChildren_hidden _ _ _ _ _ Hh1) as Hhid1.
      destruct (decide (c = Some p)) as [Hcp | Hcp]; [eauto |].
      destruct c as [cp |]; [| eauto].
      pose proof Hn1 as [Hlen1 _].
      destruct (hideChildren_total (length s) s1 cp (Some p))
        as (s2 & Hh2 & Hn2).
      - eapply links_sameItems; [apply navStore_sameItems, Hn1 | exact Hl].
      - rewrite Hlen1. apply Hc. reflexivity.
      - lia.
      - exists s2. split; [exact Hh2 |].
        split; [eapply navStore_trans; eassumption |].
        eapply hidden_trans; [exact Hhid1 |].
        eapply hideChildren_hidden, Hh2. }
    destruct Hs2 as (s2 & -> & Hn2 & Hhid2). cbn [bind].
    destruct (lookup_lt_is_Some_2 s p Hp) as [m Hm].
    pose proof Hn2 as [Hlen2 Hnav2].
    destruct (Hnav2 p m Hm) as (m2 & Hm2 & _).
    rewrite Hm2. cbn [deref bind].
    destruct (place ctxmenu s2
                (if itemsChanged m2 then recompute ctxmenu m2 else m2)
                (if decide (c = Some p) then None else c))
      as [m3 | | |] eqn:Hpl.
    2-4: exfalso;
      destruct (place_total s2
                  (if itemsChanged m2 then recompute ctxmenu m2 else m2)
                  (if decide (c = Some p) then None else c)) as (m3 & Hpl');
      [| congruence];
      intros cp Hcp;
      assert (Hlt : (cp < length s)%nat)
        by (apply Hc; destruct (decide (c = Some p));
            [discriminate | exact Hcp]);
      destruct (lookup_lt_is_Some_2 s cp Hlt) as [cm Hcm];
      destruct (Hnav2 cp cm Hcm) as (cm2 & Hcm2 & Hnavc);
      exists cm2; (split; [exact Hcm2 |]);
      eapply menuInv_sameNav; [exact Hnavc | eapply Hinv, Hcm].
    cbn [bind]. unfold updateWindow.
    rewrite list_lookup_insert_eq by (eapply lookup_lt_Some, Hm2).
    cbn [deref bind]. destruct (surface (clamp ctxmenu m3)); [eauto |].
    destruct (Z.leb_spec (pixLen (clamp ctxmenu m3)) 0) as [Hzero | Hpos];
      [left | eauto].
    split; [reflexivity |]. intros Hall.
    apply place_fields in Hpl as (Pw & Ph & _).
    pose proof (clamp_within ctxmenu m3) as (Cw & Ch & _).
    cbv zeta in Cw, Ch.
    assert (Hpix : pixLen (clamp ctxmenu m3) = pixLen (laidOut ctxmenu m2)).
    { unfold pixLen at 1. rewrite Cw, Ch, Pw, Ph. reflexivity. }
    pose proof (allHaveArea_forth s s2 (hidden_sameArea s s2 Hhid2) Hall
                                  p m2 Hm2) as Harea.
    unfold hasArea in Harea. lia. }
  destruct Htotal as [Hfatal | (s' & w' & Hshow)]; [left; exact Hfatal |].
  right.
  destruct (lookup_lt_is_Some_2 s p Hp) as [m Hm].
  destruct (show_spec ctxmenu s w p c s' w' m Hshow Hm)
    as (Hlen & Hothers & _ & m' & Hm' & Hnav' & Hsurf).
  assert (Hsame : sameItems s s').
  { split; [exact Hlen |]. intros q mq Hq.
    destruct (decide (q = p)) as [-> | Hne].
    - exists m'. split; [exact Hm' |].
      assert (mq = m) as -> by congruence.
      destruct Hnav' as (Hi & _). rewrite Hi.
      destruct (itemsChanged m); [apply recompute_nav | reflexivity].
    - destruct (Hothers q mq Hne Hq) as (mq' & Hq' & Hnavq).
      exists mq'. split; [exact Hq' | apply Hnavq]. }
  destruct (surface m') as [surf |] eqn:Hs; [| contradiction].
  exists s', w', m', surf. split; [exact Hshow |].
  split; [eapply storeInv_keeps; [eapply show_keeps, Hshow | exact Hinv] |].
  split; [eapply links_sameItems; eassumption |]. auto.
Qed.

(** *** One turn of the loop *)

Lemma heightFrom_safe (sq : Seq2 T) :
  safe sq -> forall y, exists y1, heightFrom y sq = Ok y1.
Proof.
  induction sq as [| i item rest IH |]; intros Hs y; cbn; [eauto | | destruct Hs].
  apply IH, Hs.
Qed.

Lemma isoverflowitem_total m (y : Z) :
  scrollOk m -> exists ov, isoverflowitem ctxmenu m y = Ok ov.
Proof.
  intros Hscroll. unfold isoverflowitem.
  destruct (overflow m =? -1); [eauto |].
  destruct ((BorderSize ctxmenu <=? y)
            && (y <? BorderSize ctxmenu + ih (overflowItemTop m))); [eauto |].
  destruct (heightFrom_safe _ (visibleItems_safe m false Hscroll)
              (BorderSize ctxmenu + ih (overflowItemTop m))) as (y1 & ->).
  cbn [bind].
  destruct ((y1 <=? y) && (y <? y1 + ih (overflowItemBottom m))); eauto.
Qed.

(** The statements after the switch: with the current menu mapped they
    return, and change neither store nor current menu. *)
Lemma finish_ok l (action : Action) :
  loopOk l ->
  exists l', finish l action = Ok (Continue l') /\
             store l' = store l /\ curmenu l' = curmenu l.
Proof.
  intros (Hinv & _ & m & surf & Hm & Hsurf). unfold finish.
  pose proof (menuInv_scrollOk m (Hinv _ _ Hm)) as Hscroll.
  destruct (draw_ok (store l) (wl l) (curmenu l) m surf Hm
              (visibleItems_safe m true Hscroll) Hsurf) as (w' & Hdraw).
  assert (Hw : exists w1,
             (if negb (Z.land action ActionDraw =? 0)
              then draw (store l) (wl l) (curmenu l)
              else Ok (wl l)) = Ok w1).
  { destruct (negb (Z.land action ActionDraw =? 0)); eauto. }
  destruct Hw as (w1 & ->). cbn [bind].
  assert (Hp : exists wp,
             (if negb (Z.land action ActionWarp =? 0)
              then do cm <- deref (store l !! curmenu l);
                   do _ <- warp cm;
                   Ok true
              else Ok (warped l)) = Ok wp).
  { destruct (negb (Z.land action ActionWarp =? 0)); [| eauto].
    rewrite Hm. cbn [deref bind]. rewrite (warp_visible m Hscroll).
    cbn. eauto. }
  destruct Hp as (wp & ->). cbn. eauto.
Qed.

Lemma finish_turn l0 l (action : Action) :
  sameItems (store l0) (store l) ->
  descendant (store l0) (curmenu l0) (curmenu l) -> loopOk l ->
  sameArea ctxmenu (store l0) (store l) ->
  exists o, finish l action = Ok o /\ turnOk zero l0 o /\
            sameArea ctxmenu (store l0) (store (loopOf o)).
Proof.
  intros Hsame Hdesc Hok Harea.
  destruct (finish_ok l action Hok) as (l' & Hfin & Hst & Hcur).
  exists (Continue l'). split; [exact Hfin |].
  unfold turnOk. cbn [loopOf]. rewrite Hst, Hcur.
  split; [| exact Harea]. split; [exact Hsame |].
  split; [exact Hdesc |].
  destruct Hok as (Hinv & Hl & Hmapped).
  unfold loopOk. rewrite Hst, Hcur. auto.
Qed.

(** A turn that leaves the loop as it is. *)
Lemma same_turn l l' :
  store l' = store l -> curmenu l' = curmenu l -> loopOk l ->
  turnOk zero l (Continue l') /\
  sameArea ctxmenu (store l) (store (loopOf (Continue l'))).
Proof.
  intros Hst Hcur Hok. unfold turnOk. cbn [loopOf]. rewrite Hst, Hcur.
  split; [| apply sameArea_refl]. split; [apply sameItems_refl |].
  split; [apply desc_refl |]. unfold loopOk. rewrite Hst, Hcur. exact Hok.
Qed.

(** A loop whose store and current menu are those of [l], whatever its
    other variables. *)
Lemma loopOk_same l l' :
  store l' = store l -> curmenu l' = curmenu l -> loopOk l -> loopOk l'.
Proof. unfold loopOk. intros -> ->. auto. Qed.

Lemma scroll_turn l (f : Menu T -> Menu T) :
  loopOk l ->
  (forall m, menuInv m -> overflow m <> -1 -> menuInv (f m)) ->
  (forall m, items (f m) = items m /\ surface (f m) = surface m /\
             itemsChanged (f m) = itemsChanged m /\
             mw (f m) = mw m /\ mh (f m) = mh m) ->
  (forall m, store l !! curmenu l = Some m -> overflow m <> -1) ->
  exists o,
    finish (with_store l (update (store l) (curmenu l) f)) allActions = Ok o /\
    turnOk zero l o /\ sameArea ctxmenu (store l) (store (loopOf o)).
Proof.
  intros Hok Hf Hfi Hover.
  pose proof Hok as (Hinv & Hl & m & surf & Hm & Hsurf).
  unfold update. rewrite Hm.
  destruct (Hfi m) as (Hi & Hs & Hc & Hw & Hh).
  destruct (ok_insert (store l) (curmenu l) m (f m) Hinv Hl Hm)
    as (Hinv' & Hl' & Hsame).
  { apply Hf; [eapply Hinv, Hm | eapply Hover, Hm]. }
  { auto. }
  apply finish_turn; [exact Hsame | apply desc_refl | |].
  - split; [exact Hinv' |]. split; [exact Hl' |].
    exists (f m), surf. cbn [with_store store curmenu]. split.
    + apply list_lookup_insert_eq. eapply lookup_lt_Some, Hm.
    + rewrite Hs. exact Hsurf.
  - cbn [with_store store]. eapply sameArea_insert; eassumption.
Qed.

Lemma scrollUp_turn l :
  loopOk l ->
  (forall m, store l !! curmenu l = Some m -> overflow m <> -1) ->
  exists o, finish (scrollUp l) allActions = Ok o /\ turnOk zero l o /\
            sameArea ctxmenu (store l) (store (loopOf o)).
Proof.
  intros Hok Hover. unfold scrollUp. apply scroll_turn; try assumption.
  - intros m Hm Hov. apply menuInv_first; [exact Hm | contradiction |].
    intros _. destruct Hm as (_ & _ & Hm). specialize (Hm Hov). lia.
  - intros m. repeat split; reflexivity.
Qed.

Lemma scrollDown_turn l :
  loopOk l ->
  (forall m, store l !! curmenu l = Some m -> overflow m <> -1) ->
  exists o, finish (scrollDown l) allActions = Ok o /\ turnOk zero l o /\
            sameArea ctxmenu (store l) (store (loopOf o)).
Proof.
  intros Hok Hover. unfold scrollDown. apply scroll_turn; try assumption.
  - intros m Hm Hov. apply menuInv_first; [exact Hm | contradiction |].
    intros _. destruct Hm as (_ & _ & Hm). specialize (Hm Hov). lia.
  - intros m. repeat split; reflexivity.
Qed.

Lemma index_lookup {A : Type} (xs : list A) (i : Z) (x : A) :
  index xs i = Some x -> xs !! Z.to_nat i = Some x.
Proof. unfold index. destruct (i <? 0); [discriminate | auto]. Qed.

(** A pointer motion: the handler returns, or [show] ends the process on
    a submenu without area. *)
Lemma onMotion_turn l (y : Z) :
  loopOk l ->
  (onMotion ctxmenu hover l y = Fatal /\ ~ allHaveArea ctxmenu (store l)) \/
  exists o, onMotion ctxmenu hover l y = Ok o /\ turnOk zero l o /\
            sameArea ctxmenu (store l) (store (loopOf o)).
Proof.
  intros Hok. pose proof Hok as (Hinv & Hl & m & surf & Hm & Hsurf).
  unfold onMotion. cbn [warped store wl seen curmenu buf previtem hasleft curY
                          hovered].
  destruct (warped l).
  - right. apply finish_turn;
      [apply sameItems_refl | apply desc_refl | | apply sameArea_refl].
    eapply loopOk_same; [| | exact Hok]; reflexivity.
  - rewrite Hm. cbn [deref bind].
    pose proof (menuInv_scrollOk m (Hinv _ _ Hm)) as Hscroll.
    destruct (getitemFrom_safe y _ (visibleItems_safe m true Hscroll)
                               (BorderSize ctxmenu)) as (idx & Hget).
    fold (getitem ctxmenu m y) in Hget. rewrite Hget. cbn [bind].
    destruct (Z.eqb_spec idx (-1)) as [Hnone | Hsome].
    { right. eexists. split; [reflexivity |].
      apply same_turn; [reflexivity | reflexivity | exact Hok]. }
    destruct (getitem_indexed ctxmenu m y idx Hget Hsome) as (item & Hitem).
    rewrite Hitem. cbn [deref bind].
    destruct (decide (previtem l = Some (curmenu l, Z.to_nat idx))).
    { right. eexists. split; [reflexivity |].
      apply same_turn; [reflexivity | reflexivity | exact Hok]. }
    set (m1 := set_selected m (if isSeparator item then -1 else idx)).
    destruct (ok_insert (store l) (curmenu l) m m1 Hinv Hl Hm)
      as (Hinv1 & Hl1 & Hsame1).
    { apply menuInv_select; [eapply Hinv, Hm |].
      destruct (isSeparator item); [left; reflexivity | right; left].
      eapply index_Some, Hitem. }
    { reflexivity. }
    assert (Harea1 : sameArea ctxmenu (store l) (<[curmenu l := m1]> (store l)))
      by (eapply sameArea_insert; [exact Hm | reflexivity ..]).
    assert (Hm1 : <[curmenu l := m1]> (store l) !! curmenu l = Some m1)
      by (apply list_lookup_insert_eq; eapply lookup_lt_Some, Hm).
    destruct (draw_ok _ (wl l) (curmenu l) m1 surf Hm1
                (visibleItems_safe m1 true (menuInv_scrollOk _ (Hinv1 _ _ Hm1)))
                Hsurf) as (w1 & Hdraw).
    rewrite Hdraw. cbn [bind].
    assert (Hcs : exists cur s2,
               match submenu item with
               | Some sub =>
                   do sm <- deref (<[curmenu l := m1]> (store l) !! sub);
                   Ok (sub, <[sub := set_selected sm (-1)]>
                              (<[curmenu l := m1]> (store l)))
               | None => Ok (curmenu l, <[curmenu l := m1]> (store l))
               end = Ok (cur, s2) /\
               storeInv s2 /\ linksForward s2 /\
               sameItems (store l) s2 /\ (cur < length s2)%nat /\
               (curmenu l < length s2)%nat /\
               descendant (store l) (curmenu l) cur /\
               sameArea ctxmenu (store l) s2).
    { pose proof (lookup_lt_Some _ _ _ Hm1) as Hlt1.
      destruct (submenu item) as [sub |] eqn:Hsub.
      - destruct (Hl (curmenu l) m (Z.to_nat idx) item sub Hm
                     (index_lookup _ _ _ Hitem) Hsub) as [_ Hsublt].
        destruct (lookup_lt_is_Some_2 (<[curmenu l := m1]> (store l)) sub)
          as [sm Hsm]; [rewrite length_insert; exact Hsublt |].
        rewrite Hsm. cbn [deref bind].
        destruct (ok_insert _ sub sm (set_selected sm (-1)) Hinv1 Hl1 Hsm)
          as (Hinv2 & Hl2 & Hsame2).
        { apply menuInv_select; [eapply Hinv1, Hsm | left; reflexivity]. }
        { reflexivity. }
        eexists _, _. split; [reflexivity |].
        split; [exact Hinv2 |]. split; [exact Hl2 |].
        split; [eapply sameItems_trans; eassumption |].
        split; [rewrite !length_insert in *; assumption |].
        split; [rewrite !length_insert in *; assumption |].
        split.
        + eapply desc_step;
            [exact Hm | apply index_lookup, Hitem | exact Hsub
            | apply desc_refl].
        + eapply sameArea_trans; [exact Harea1 |].
          eapply sameArea_insert; [exact Hsm | reflexivity ..].
      - eexists _, _. split; [reflexivity |].
        split; [exact Hinv1 |]. split; [exact Hl1 |].
        split; [exact Hsame1 |]. split; [exact Hlt1 |].
        split; [exact Hlt1 |]. split; [apply desc_refl | exact Harea1]. }
    destruct Hcs
      as (cur & s2 & -> & Hinv2 & Hl2 & Hsame2 & Hcur & Hmenu & Hdesc
          & Harea2).
    cbn [bind].
    destruct (show_ok s2 w1 cur (Some (curmenu l)) Hinv2 Hl2 Hcur)
      as [[Hfatal Hnot]
         | (s3 & w3 & m3 & surf3 & Hshow & Hinv3 & Hl3 & Hsame3 & Hm3
            & Hsurf3)].
    { intros cp [= <-]. exact Hmenu. }
    { left. rewrite Hfatal. split; [reflexivity |].
      intros Hall. apply Hnot. eapply allHaveArea_forth; eassumption. }
    right. rewrite Hshow. cbn [bind].
    apply finish_turn.
    + cbn [store]. eapply sameItems_trans; eassumption.
    + exact Hdesc.
    + split; [exact Hinv3 |]. split; [exact Hl3 |]. eauto.
    + cbn [store]. eapply sameArea_trans; [exact Harea2 |].
      eapply show_sameArea, Hshow.
Qed.

Lemma onAxis_turn l (axis : Axis) (value : Z) :
  loopOk l ->
  exists o, onAxis l axis value = Ok o /\ turnOk zero l o /\
            sameArea ctxmenu (store l) (store (loopOf o)).
Proof.
  intros Hok. pose proof Hok as (Hinv & Hl & m & surf & Hm & Hsurf).
  unfold onAxis. destruct axis.
  - apply finish_turn;
      [apply sameItems_refl | apply desc_refl | exact Hok
      | apply sameArea_refl].
  - rewrite Hm. cbn [deref bind].
    destruct (Z.eqb_spec (overflow m) (-1)) as [Hno | Hscroll].
    + apply finish_turn;
        [apply sameItems_refl | apply desc_refl | exact Hok
        | apply sameArea_refl].
    + assert (Hover : forall m0, store l !! curmenu l = Some m0 ->
                                 overflow m0 <> -1)
        by (intros m0 Hm0; congruence).
      destruct (value <? 0); [apply scrollUp_turn; assumption |].
      destruct (0 <? value); [apply scrollDown_turn; assumption |].
      apply finish_turn;
        [apply sameItems_refl | apply desc_refl | exact Hok
        | apply sameArea_refl].
Qed.

(** A button: the handler returns, or [show] ends the process on a
    submenu without area. *)
Lemma onButton_turn l (pressed middle : bool) :
  loopOk l ->
  (onButton zero ctxmenu l pressed middle = Fatal /\
   ~ allHaveArea ctxmenu (store l)) \/
  exists o, onButton zero ctxmenu l pressed middle = Ok o /\
            turnOk zero l o /\
            sameArea ctxmenu (store l) (store (loopOf o)).
Proof.
  intros Hok. pose proof Hok as (Hinv & Hl & m & surf & Hm & Hsurf).
  unfold onButton. destruct pressed; cbn [negb].
  2:{ right. apply finish_turn;
        [apply sameItems_refl | apply desc_refl | exact Hok
        | apply sameArea_refl]. }
  rewrite Hm. cbn [deref bind].
  pose proof (Hinv _ _ Hm) as Hminv.
  pose proof (menuInv_scrollOk m Hminv) as Hscroll.
  destruct (getitemFrom_safe (curY l) _ (visibleItems_safe m true Hscroll)
                             (BorderSize ctxmenu)) as (idx & Hget).
  fold (getitem ctxmenu m (curY l)) in Hget. rewrite Hget. cbn [bind].
  destruct (isoverflowitem_total m (curY l) Hscroll) as (ov & Hov).
  rewrite Hov. cbn [bind].
  assert (Hover : ov <> OverflowNone ->
                  forall m0, store l !! curmenu l = Some m0 ->
                             overflow m0 <> -1).
  { intros Hne m0 Hm0. assert (m0 = m) as -> by congruence.
    eapply isoverflowitem_scrolling; eassumption. }
  destruct ov.
  - right. apply scrollUp_turn; [exact Hok | apply Hover; discriminate].
  - destruct (Z.eqb_spec idx (-1)) as [Hnone | Hsome].
    + destruct (ok_insert (store l) (curmenu l) m
                          (set_first (set_selected m (-1)) 0) Hinv Hl Hm)
        as (Hinv1 & Hl1 & Hsame1).
      { apply menuInv_first.
        - apply menuInv_select; [exact Hminv | left; reflexivity].
        - reflexivity.
        - cbn. intros Hne. destruct Hminv as (_ & _ & Hb).
          specialize (Hb Hne). lia. }
      { reflexivity. }
      right. apply finish_turn; [exact Hsame1 | apply desc_refl | |].
      * split; [exact Hinv1 |]. split; [exact Hl1 |].
        eexists _, surf. cbn [with_store store curmenu]. split.
        -- apply list_lookup_insert_eq. eapply lookup_lt_Some, Hm.
        -- exact Hsurf.
      * cbn [with_store store].
        eapply sameArea_insert; [exact Hm | reflexivity ..].
    + destruct (getitem_indexed ctxmenu m (curY l) idx Hget Hsome)
        as (item & Hitem).
      rewrite Hitem. cbn [deref bind].
      destruct (isSeparator item) eqn:Hsep.
      { right. eexists. split; [reflexivity |].
        split; [| apply sameArea_refl].
        split; [apply sameItems_refl |]. split; [apply desc_refl |].
        cbn. left. reflexivity. }
      destruct (submenu item) as [sub |] eqn:Hsub.
      * destruct (Hl (curmenu l) m (Z.to_nat idx) item sub Hm
                     (index_lookup _ _ _ Hitem) Hsub) as [_ Hsublt].
        destruct (show_ok (store l) (wl l) sub (Some (curmenu l))
                          Hinv Hl Hsublt)
          as [[Hfatal Hnot]
             | (s1 & w1 & sm & surf1 & Hshow & Hinv1 & Hl1 & Hsame1 & Hsm
                & Hsurf1)].
        { intros cp [= <-]. eapply lookup_lt_Some, Hm. }
        { left. rewrite Hfatal. split; [reflexivity | exact Hnot]. }
        right. rewrite Hshow. cbn [bind]. rewrite Hsm. cbn [deref bind].
        destruct (ok_insert s1 sub sm (set_selected sm 0) Hinv1 Hl1 Hsm)
          as (Hinv2 & Hl2 & Hsame2).
        { apply menuInv_select; [eapply Hinv1, Hsm |].
          destruct (items sm) as [| it its] eqn:Hits.
          - right; right. auto.
          - right; left. unfold len. cbn. lia. }
        { reflexivity. }
        apply finish_turn.
        -- cbn [store]. eapply sameItems_trans; eassumption.
        -- eapply desc_step;
             [exact Hm | apply index_lookup, Hitem | exact Hsub
             | apply desc_refl].
        -- split; [exact Hinv2 |]. split; [exact Hl2 |].
           eexists _, surf1. cbn [store curmenu]. split.
           ++ apply list_lookup_insert_eq. eapply lookup_lt_Some, Hsm.
           ++ exact Hsurf1.
        -- cbn [store]. eapply sameArea_trans;
             [eapply show_sameArea, Hshow |].
           eapply sameArea_insert; [exact Hsm | reflexivity ..].
      * right. eexists. split; [reflexivity |].
        split; [| apply sameArea_refl].
        split; [apply sameItems_refl |]. split; [apply desc_refl |].
        cbn. right. exists (curmenu l), m, (Z.to_nat idx), item.
        split; [exact Hm |]. split; [apply index_lookup, Hitem |].
        split; [| auto].
        unfold isSeparator in Hsep. intros Hlbl. rewrite Hlbl in Hsep.
        discriminate.
  - right. apply scrollDown_turn; [exact Hok | apply Hover; discriminate].
Qed.

(** One event: the body of the loop returns and leaves the loop in the
    state it relies on, or it ends the process, which it does only when a
    menu of the tree has no area. *)
Lemma step_turn l (event : Event) :
  loopOk l ->
  (step zero ctxmenu hover l event = Fatal /\
   ~ allHaveArea ctxmenu (store l)) \/
  exists o, step zero ctxmenu hover l event = Ok o /\ turnOk zero l o /\
            sameArea ctxmenu (store l) (store (loopOf o)).
Proof.
  intros Hok.
  assert (Hfin : forall l' action,
             store l' = store l -> curmenu l' = curmenu l ->
             exists o, finish l' action = Ok o /\ turnOk zero l o /\
                       sameArea ctxmenu (store l) (store (loopOf o))).
  { intros l' action Hst Hcur.
    destruct (finish_turn l' l' action (sameItems_refl _) (desc_refl _ _)
                (loopOk_same l l' Hst Hcur Hok) (sameArea_refl _))
      as (o & Hfin & Hturn & Harea).
    exists o. split; [exact Hfin |].
    unfold turnOk in *. rewrite Hst, Hcur in *. auto. }
  destruct event; cbn [step].
  - right. eexists. split; [reflexivity |].
    split; [| apply sameArea_refl]. split; [apply sameItems_refl |].
    split; [apply desc_refl |]. reflexivity.
  - right. apply Hfin; reflexivity.
  - right. apply Hfin; reflexivity.
  - right. apply Hfin; reflexivity.
  - apply onMotion_turn, Hok.
  - right. apply onAxis_turn, Hok.
  - apply onButton_turn, Hok.
  - right. apply Hfin; reflexivity.
  - right. apply Hfin; reflexivity.
  - right. apply Hfin; reflexivity.
Qed.

Lemma loop_turn (events : list Event) :
  forall l, loopOk l ->
  (loop zero ctxmenu hover l events = Fatal /\
   ~ allHaveArea ctxmenu (store l)) \/
  exists o, loop zero ctxmenu hover l events = Ok o /\ turnOk zero l o /\
            sameArea ctxmenu (store l) (store (loopOf o)).
Proof.
  induction events as [| event rest IH]; intros l Hok; cbn [loop].
  - right. eexists. split; [reflexivity |].
    split; [| apply sameArea_refl]. split; [apply sameItems_refl |].
    split; [apply desc_refl | exact Hok].
  - destruct (step_turn l event Hok)
      as [[-> Hnot] | (o & -> & (Hsame & Hdesc & Ho) & Harea)];
      [left; split; [reflexivity | exact Hnot] |].
    cbn [bind]. destruct o as [l' | v e l'].
    + cbn [loopOf] in Hsame, Hdesc, Harea.
      destruct (IH l' Ho)
        as [[Hloop Hnot]
           | (o' & Hloop & (Hsame' & Hdesc' & Ho') & Harea')].
      * left. split; [exact Hloop |]. intros Hall. apply Hnot.
        eapply allHaveArea_forth; eassumption.
      * right. exists o'. split; [exact Hloop |].
        split; [| eapply sameArea_trans; eassumption].
        split; [eapply sameItems_trans; eassumption |].
        split.
        -- eapply descendant_trans; [exact Hdesc |].
           eapply descendant_back; eassumption.
        -- destruct o' as [l'' | v e l'']; [exact Ho' |].
           eapply returnOk_sameItems; eassumption.
    + right. eexists. split; [reflexivity |].
      split; [| exact Harea]. split; [assumption |].
      split; assumption.
Qed.

Lemma loop_app (ev1 ev2 : list Event) :
  forall l,
    loop zero ctxmenu hover l (ev1 ++ ev2)
    = do o <- loop zero ctxmenu hover l ev1;
      match o with
      | Continue l' => loop zero ctxmenu hover l' ev2
      | Return v e l' => Ok (Return v e l')
      end.
Proof.
  induction ev1 as [| event rest IH]; intros l; cbn [loop app bind];
    [reflexivity |].
  destruct (step zero ctxmenu hover l event) as [[l' | v e l'] | | |];
    cbn [bind]; auto.
Qed.

Lemma built_storeInv s : built zero ctxmenu s -> storeInv s.
Proof.
  intros Hb. destruct (built_good zero ctxmenu s Hb) as [_ Hext].
  eapply storeInv_ext; [exact Hext |].
  intros q m Hq. rewrite lookup_nil in Hq. discriminate.
Qed.

(** The statements of [Run] before the loop: the root menu is shown and
    drawn, or [show] ends the process. *)
Lemma start_ok s (w : Wayland) (root : nat) :
  storeInv s -> linksForward s -> (root < length s)%nat ->
  (start ctxmenu s w root = Fatal /\ ~ allHaveArea ctxmenu s) \/
  exists l, start ctxmenu s w root = Ok l /\ loopOk l /\
            sameItems s (store l) /\ curmenu l = root /\
            sameArea ctxmenu s (store l).
Proof.
  intros Hinv Hl Hroot. unfold start.
  destruct (show_ok s w root None Hinv Hl Hroot)
    as [[Hfatal Hnot]
       | (s1 & w1 & m1 & surf & Hshow & Hinv1 & Hl1 & Hsame1 & Hm1 & Hsurf)];
    [discriminate | |].
  { left. rewrite Hfatal. split; [reflexivity | exact Hnot]. }
  right. rewrite Hshow. cbn [bind].
  destruct (draw_ok s1 w1 root m1 surf Hm1
              (visibleItems_safe m1 true (menuInv_scrollOk _ (Hinv1 _ _ Hm1)))
              Hsurf) as (w2 & ->).
  cbn [bind]. eexists. split; [reflexivity |].
  split; [| split; [exact Hsame1 | split; [reflexivity |]]].
  - split; [exact Hinv1 |]. split; [exact Hl1 |]. eauto.
  - cbn [store]. eapply show_sameArea, Hshow.
Qed.

(** [Run] on a tree that was built: it returns an outcome, with the loop in
    the state it relies on, or the process ends in [openFile], and then some
    menu of the tree has no area. *)
Lemma Run_cases s (w : Wayland) (root : nat) (events : list Event) :
  built zero ctxmenu s -> (root < length s)%nat ->
  (Run zero ctxmenu hover s w root events = Fatal /\
   ~ allHaveArea ctxmenu s) \/
  exists l0 o,
    start ctxmenu s w root = Ok l0 /\ loopOk l0 /\
    sameItems s (store l0) /\ curmenu l0 = root /\
    Run zero ctxmenu hover s w root events = Ok o /\
    loop zero ctxmenu hover l0 events = Ok o /\
    turnOk zero l0 o.
Proof.
  intros Hb Hroot. unfold Run.
  destruct (start_ok s w root (built_storeInv s Hb)
                     (built_links zero ctxmenu s Hb) Hroot)
    as [[-> Hnot] | (l & -> & Hok & Hsame0 & Hcur0 & Harea0)];
    [left; split; [reflexivity | exact Hnot] |].
  cbn [bind].
  destruct (loop_turn events l Hok) as [[Hloop Hnot] | (o & Hloop & Ho & _)].
  - left. split; [exact Hloop |]. intros Hall. apply Hnot.
    eapply allHaveArea_forth; eassumption.
  - right. exists l, o. auto 10.
Qed.

(** X11.  What [Run] returns.  With the error [ErrExited] the value is the zero
    value.  Without error it is the output of an item of the tree that has
    a label and no submenu, or the zero value (a press on a separator):
    the output of a separator or of an item with a submenu is never
    returned as such.  The items of the tree are the same afterwards. *)
Theorem Run_returns_leaf_output s (w : Wayland) (root : nat)
        (events : list Event) (v : T) (e : option RunError) l :
  built zero ctxmenu s -> (root < length s)%nat ->
  Run zero ctxmenu hover s w root events = Ok (Return v e l) ->
  returnOk zero s v e /\ sameItems s (store l).
Proof.
  intros Hb Hroot Hrun.
  destruct (Run_cases s w root events Hb Hroot)
    as [[Hfatal _] | (l0 & o & _ & _ & Hsame0 & _ & Hrun' & _ & Hsame & _ & Ho)];
    [congruence |].
  rewrite Hrun in Hrun'. injection Hrun' as <-.
  cbn [loopOf] in Hsame. split.
  - eapply returnOk_sameItems; eassumption.
  - eapply sameItems_trans; eassumption.
Qed.

(** X12.  The loop only ever descends.  The current menu changes only to a
    submenu of an item of the current menu: after more events it is the
    menu it was or one below it in the tree, never its parent again or a
    menu elsewhere (no event is looked up by the surface it arrived on, and
    the keys that went back are disabled). *)
Theorem Run_only_descends s (w : Wayland) (root : nat)
        (ev1 ev2 : list Event) l1 (o2 : Outcome T) :
  built zero ctxmenu s -> (root < length s)%nat ->
  Run zero ctxmenu hover s w root ev1 = Ok (Continue l1) ->
  Run zero ctxmenu hover s w root (ev1 ++ ev2) = Ok o2 ->
  descendant s root (curmenu l1) /\
  descendant s (curmenu l1) (curmenu (loopOf o2)) /\
  (root <= curmenu l1 <= curmenu (loopOf o2))%nat.
Proof.
  intros Hb Hroot Hrun1 Hrun2.
  pose proof (built_links zero ctxmenu s Hb) as Hlinks.
  destruct (Run_cases s w root ev1 Hb Hroot)
    as [[Hfatal _]
       | (l0 & o1 & Hstart & Hok & Hsame0 & Hcur0 & Hrun1' & Hloop1
          & Hsame1 & Hdesc1 & Hok1)];
    [congruence |].
  rewrite Hrun1 in Hrun1'. injection Hrun1' as <-.
  unfold Run in Hrun2. rewrite Hstart in Hrun2. cbn [bind] in Hrun2.
  rewrite loop_app, Hloop1 in Hrun2. cbn [bind] in Hrun2.
  cbn [loopOf] in *.
  destruct (loop_turn ev2 l1 Hok1)
    as [[Hfatal _] | (o2' & Hloop2 & (_ & Hdesc2 & _) & _)];
    [congruence |].
  rewrite Hrun2 in Hloop2. injection Hloop2 as <-.
  rewrite Hcur0 in Hdesc1.
  assert (D1 : descendant s root (curmenu l1))
    by (eapply descendant_back; eassumption).
  assert (D2 : descendant s (curmenu l1) (curmenu (loopOf o2))).
  { eapply descendant_back; [| exact Hdesc2].
    eapply sameItems_trans; eassumption. }
  split; [exact D1 |]. split; [exact D2 |].
  split; eapply descendant_le; eassumption.
Qed.

End SafetyFacts.

Lemma fileTree_built : built EmptyString demoContext fileTree.
Proof.
  assert (Hgen : forall (ls : list (string * Z)) s,
             built EmptyString demoContext s ->
             built EmptyString demoContext
               (fold_left
                  (fun s (line : string * Z) =>
                     match Append EmptyString demoContext s 0 (fst line)
                                  (fst line) EmptyString (snd line) with
                     | Ok (s', _) => s'
                     | _ => s
                     end) ls s)).
  { induction ls as [| line ls IH]; intros s Hs; [exact Hs |].
    cbn [fold_left]. apply IH.
    destruct (Append EmptyString demoContext s 0 (fst line) (fst line)
                     EmptyString (snd line)) as [[s' e] | | |] eqn:Happ;
      [| exact Hs ..].
    eapply built_append; eassumption. }
  replace fileTree with
    (fold_left
       (fun s (line : string * Z) =>
          match Append EmptyString demoContext s 0 (fst line) (fst line)
                       EmptyString (snd line) with
          | Ok (s', _) => s'
          | _ => s
          end)
       [("File", 0); ("Open", 1); ("Recent", 1); ("a.txt", 2); ("Quit", 0)]%string
       (fst (MakeMenu EmptyString demoContext [])))
    by (vm_compute; reflexivity).
  apply Hgen. apply built_make, built_nil.
Qed.

(** X11, witness.  A press at the height of "Open" while the submenu of "File" is current:
    [Run] returns "Open", the output of a leaf of the tree. *)
Lemma Run_returns_leaf_output_witness :
  returnOk EmptyString fileTree "Open"%string None /\
  sameItems fileTree (store fileDone).
Proof.
  apply (Run_returns_leaf_output EmptyString demoContext true fileTree
                                 noWayland 0 fileEvents "Open"%string None
                                 fileDone fileTree_built).
  - vm_compute. lia.
  - vm_compute. reflexivity.
Defined.

(** X12, witness.  The pointer over "File" makes its submenu (menu 1) current; moving on to
    the height of "Recent" makes the submenu of that item (menu 2)
    current. *)
Lemma Run_only_descends_witness :
  descendant fileTree 0 (curmenu fileOpened) /\
  descendant fileTree (curmenu fileOpened) (curmenu (loopOf (Continue fileDeeper))) /\
  (0 <= curmenu fileOpened <= curmenu (loopOf (Continue fileDeeper)))%nat.
Proof.
  apply (Run_only_descends EmptyString demoContext true fileTree noWayland 0
                           [PointerMotionEvent 5] [PointerMotionEvent 30]
                           fileOpened (Continue fileDeeper) fileTree_built).
  - vm_compute. lia.
  - vm_compute. reflexivity.
  - vm_compute. reflexivity.
Defined.

(** ** The windows on the screen *)

Section WindowFacts.
Context {T : Type}.
Variable zero : T.
Variable ctxmenu : ContextMenu.
Variable hover : bool.
Implicit Types s : list (Menu T).
Implicit Types m : Menu T.
Implicit Types l : Loop T.

Lemma hidden_sameItems s s' : hidden s s' -> sameItems s s'.
Proof.
  intros [Hlen Hh]. split; [exact Hlen |].
  intros q m Hq. destruct (Hh q m Hq) as [Hq' | Hq']; eauto.
Qed.

Lemma hidden_surface s s' (q : nat) :
  hidden s s' -> surfaceAt s' q = surfaceAt s q \/ surfaceAt s' q = None.
Proof.
  intros [Hlen Hh]. unfold surfaceAt.
  destruct (s !! q) as [m |] eqn:Hq.
  - destruct (Hh q m Hq) as [-> | ->]; auto.
  - right. rewrite (proj2 (lookup_ge_None s' q)); [reflexivity |].
    apply lookup_ge_None in Hq. lia.
Qed.

Lemma keptBelow_refl (k : nat) s : keptBelow k s s.
Proof. intros q _. reflexivity. Qed.

Lemma keptBelow_trans (k : nat) s1 s2 s3 :
  keptBelow k s1 s2 -> keptBelow k s2 s3 -> keptBelow k s1 s3.
Proof. intros H12 H23 q Hq. rewrite (H23 q Hq). apply H12, Hq. Qed.

Lemma keptBelow_le (k k' : nat) s s' :
  (k' <= k)%nat -> keptBelow k s s' -> keptBelow k' s s'.
Proof. intros Hle H q Hq. apply H. lia. Qed.

Lemma fold_keptBelow (k : nat)
      (g : list (Menu T) -> Item T -> result (list (Menu T))) :
  forall its : list (Item T),
    (forall s1 item s2,
        In item its -> linksForward s1 -> g s1 item = Ok s2 ->
        keptBelow k s1 s2 /\ linksForward s2) ->
    forall (acc : result (list (Menu T))) s',
      fold_left (fun acc item => do s1 <- acc; g s1 item) its acc = Ok s' ->
      exists s0, acc = Ok s0 /\
                 (linksForward s0 -> keptBelow k s0 s' /\ linksForward s').
Proof.
  induction its as [| item its IH]; intros Hg acc s' Hfold.
  - cbn in Hfold. subst acc. exists s'. split; [reflexivity |].
    intros Hl. split; [apply keptBelow_refl | exact Hl].
  - cbn [fold_left] in Hfold.
    apply IH in Hfold as (s1 & Hstep & Hrest).
    2:{ intros s1 it s2 Hin. apply Hg. right. exact Hin. }
    destruct acc as [s0 | | |]; cbn in Hstep; try discriminate.
    exists s0. split; [reflexivity |]. intros Hl.
    destruct (Hg s0 item s1 (or_introl eq_refl) Hl Hstep) as [Hf1 Hl1].
    destruct (Hrest Hl1) as [Hf2 Hl2].
    split; [eapply keptBelow_trans; eassumption | exact Hl2].
Qed.

(** [hide] touches no menu allocated before the one it is called on. *)
Lemma hide_frame :
  forall (n : nat) s (p : nat) s',
    linksForward s -> hide n s p = Ok s' ->
    keptBelow p s s' /\ linksForward s'.
Proof.
  induction n as [| n IH]; intros s p s' Hl Hhide; [discriminate |].
  split.
  2:{ eapply links_sameItems; [| exact Hl].
      eapply hidden_sameItems, hide_hidden, Hhide. }
  cbn [hide] in Hhide.
  destruct (s !! p) as [m |] eqn:Hp; [| discriminate].
  cbn [deref bind] in Hhide.
  match type of Hhide with
  | bind ?folded _ = _ => destruct folded as [s1 | | |] eqn:Hfold
  end; try discriminate.
  cbn [bind] in Hhide.
  apply (fold_keptBelow (S p)
           (fun s' item => match submenu item with
                           | Some sub => hide n s' sub
                           | None => Ok s'
                           end)) in Hfold.
  2:{ intros s0 item s0' Hin Hl0 Hg.
      destruct (submenu item) as [sub |] eqn:Hsub.
      - apply list_elem_of_In, list_elem_of_lookup_1 in Hin as [i Hi].
        destruct (Hl p m i item sub Hp Hi Hsub) as [Hps _].
        destruct (IH s0 sub s0' Hl0 Hg) as [Hf Hl0'].
        split; [| exact Hl0']. eapply keptBelow_le; [| exact Hf]. lia.
      - injection Hg as <-. split; [apply keptBelow_refl | exact Hl0]. }
  destruct Hfold as (s0 & [= <-] & Hf). destruct (Hf Hl) as [Hf1 _].
  destruct (s1 !! p) as [m1 |] eqn:Hp1; [| discriminate].
  cbn in Hhide. injection Hhide as <-.
  intros q Hq. rewrite list_lookup_insert_ne by lia. apply Hf1. lia.
Qed.

(** [hideChildren] touches neither the menu it is called on nor any
    allocated before it. *)
Lemma hideChildren_frame (n : nat) s (p : nat) (except : option nat) s' :
  linksForward s -> hideChildren n s p except = Ok s' ->
  keptBelow (S p) s s' /\ linksForward s'.
Proof.
  intros Hl Hh. unfold hideChildren in Hh.
  destruct (s !! p) as [m |] eqn:Hp; [| discriminate].
  cbn [deref bind] in Hh.
  apply (fold_keptBelow (S p)
           (fun s' item => match submenu item with
                           | Some sub =>
                               if decide (Some sub = except) then Ok s'
                               else hide n s' sub
                           | None => Ok s'
                           end)) in Hh.
  2:{ intros s0 item s0' Hin Hl0 Hg.
      destruct (submenu item) as [sub |] eqn:Hsub.
      - destruct (decide (Some sub = except)).
        + injection Hg as <-. split; [apply keptBelow_refl | exact Hl0].
        + apply list_elem_of_In, list_elem_of_lookup_1 in Hin as [i Hi].
          destruct (Hl p m i item sub Hp Hi Hsub) as [Hps _].
          destruct (hide_frame n s0 sub s0' Hl0 Hg) as [Hf Hl0'].
          split; [| exact Hl0']. eapply keptBelow_le; [| exact Hf]. lia.
      - injection Hg as <-. split; [apply keptBelow_refl | exact Hl0]. }
  destruct Hh as (s0 & [= <-] & Hf). apply Hf, Hl.
Qed.

Lemma surfaceAt_insert_ne s (p q : nat) m' :
  q <> p -> surfaceAt (<[p := m']> s) q = surfaceAt s q.
Proof.
  intros Hne. unfold surfaceAt. rewrite list_lookup_insert_ne by auto.
  reflexivity.
Qed.

Lemma surfaceAt_insert_same s (p q : nat) m m' :
  s !! p = Some m -> surface m' = surface m ->
  surfaceAt (<[p := m']> s) q = surfaceAt s q.
Proof.
  intros Hp Hs. destruct (decide (q = p)) as [-> | Hne];
    [| apply surfaceAt_insert_ne, Hne].
  unfold surfaceAt.
  rewrite list_lookup_insert_eq by (eapply lookup_lt_Some, Hp).
  rewrite Hp. exact Hs.
Qed.

Lemma surfaceAt_update s (p q : nat) (f : Menu T -> Menu T) :
  (forall m, surface (f m) = surface m) ->
  surfaceAt (update s p f) q = surfaceAt s q.
Proof.
  intros Hf. unfold update. destruct (s !! p) as [m |] eqn:Hp;
    [| reflexivity].
  eapply surfaceAt_insert_same; [exact Hp | apply Hf].
Qed.

(** The windows after [show]: the menu shown has one; no other menu got
    one; and the menus up to the caller (up to the menu itself without
    one) kept theirs. *)
Lemma show_surfaces s (w : Wayland) (p : nat) (c : option nat) s'
      (w' : Wayland) :
  linksForward s -> show ctxmenu s w p c = Ok (s', w') ->
  mapped s' p /\
  (forall q, q <> p ->
             surfaceAt s' q = surfaceAt s q \/ surfaceAt s' q = None) /\
  (forall q, q <> p ->
             (q <= match c with Some cp => Nat.min cp p | None => p end)%nat ->
             surfaceAt s' q = surfaceAt s q).
Proof.
  intros Hl Hshow. unfold show in Hshow.
  destruct (hideChildren (length s) s p None) as [s1 | | |] eqn:H1;
    try discriminate.
  cbn [bind] in Hshow.
  destruct (hideChildren_frame _ _ _ _ _ Hl H1) as [Hf1 Hl1].
  pose proof (hideChildren_hidden _ _ _ _ _ H1) as Hh1.
  set (c' := if decide (c = Some p) then None else c) in Hshow.
  destruct (match c' with
            | Some cp => hideChildren (length s) s1 cp (Some p)
            | None => Ok s1
            end) as [s2 | | |] eqn:H2; try discriminate.
  cbn [bind] in Hshow.
  assert (Hh2 : hidden s s2).
  { destruct c' as [cp |].
    - eapply hidden_trans; [exact Hh1 |]. eapply hideChildren_hidden, H2.
    - injection H2 as <-. exact Hh1. }
  assert (Hf2 : forall q,
             (q <= match c with Some cp => Nat.min cp p | None => p end)%nat ->
             s2 !! q = s !! q).
  { intros q Hq. subst c'.
    destruct (decide (c = Some p)) as [-> | Hcp].
    - injection H2 as <-. apply Hf1. lia.
    - destruct c as [cp |].
      + destruct (hideChildren_frame _ _ _ _ _ Hl1 H2) as [Hf _].
        rewrite Hf by lia. apply Hf1. lia.
      + injection H2 as <-. apply Hf1. lia. }
  destruct (s2 !! p) as [m |] eqn:Hp; [| discriminate].
  cbn [deref bind] in Hshow.
  destruct (place ctxmenu s2 _ c') as [m2 | | |]; try discriminate.
  cbn [bind] in Hshow.
  pose proof (lookup_lt_Some _ _ _ Hp) as Hlt.
  unfold updateWindow in Hshow.
  rewrite list_lookup_insert_eq in Hshow by exact Hlt.
  cbn [deref bind] in Hshow.
  assert (Hother : forall q, q <> p -> surfaceAt s' q = surfaceAt s2 q).
  { intros q Hne.
    destruct (surface (clamp ctxmenu m2));
      [| destruct (pixLen (clamp ctxmenu m2) <=? 0); [discriminate |]];
      injection Hshow as <- _;
      rewrite ?surfaceAt_insert_ne by exact Hne; reflexivity. }
  split; [| split].
  - unfold mapped, surfaceAt.
    destruct (surface (clamp ctxmenu m2)) eqn:Hsurf;
      [| destruct (pixLen (clamp ctxmenu m2) <=? 0); [discriminate |]];
      injection Hshow as <- _.
    + rewrite list_lookup_insert_eq by exact Hlt. rewrite Hsurf. discriminate.
    + rewrite list_lookup_insert_eq by (rewrite length_insert; exact Hlt).
      discriminate.
  - intros q Hne. rewrite (Hother q Hne). apply hidden_surface, Hh2.
  - intros q Hne Hq. rewrite (Hother q Hne). unfold surfaceAt.
    rewrite (Hf2 q Hq). reflexivity.
Qed.

(** *** Paths *)

Lemma pathTo_bound s (r : nat) (path : list nat) (p : nat) :
  linksForward s -> pathTo s r path p ->
  In p path /\ forall q, In q path -> (r <= q <= p)%nat.
Proof.
  intros Hl. induction 1 as [p | p m i item sub rest q Hp Hi Hsub _ IH].
  - split; [left; reflexivity |]. intros q [<- | []]. lia.
  - destruct IH as [Hin Hb].
    destruct (Hl p m i item sub Hp Hi Hsub) as [Hps _].
    specialize (Hb q Hin) as Hq.
    split; [right; exact Hin |].
    intros x [<- | Hx]; [lia |]. specialize (Hb x Hx). lia.
Qed.

Lemma pathTo_snoc s (r : nat) (path : list nat) (p : nat) m (i : nat)
      (item : Item T) (sub : nat) :
  pathTo s r path p ->
  s !! p = Some m -> items m !! i = Some item -> submenu item = Some sub ->
  pathTo s r (path ++ [sub]) sub.
Proof.
  intros Hpath Hm Hi Hsub.
  induction Hpath as [p | p m0 i0 item0 sub0 rest q Hp0 Hi0 Hsub0 _ IH].
  - cbn. eapply path_step; [exact Hm | exact Hi | exact Hsub |].
    apply path_here.
  - cbn. eapply path_step; [exact Hp0 | exact Hi0 | exact Hsub0 |].
    apply IH; assumption.
Qed.

Lemma pathTo_sameItems s s' (r : nat) (path : list nat) (p : nat) :
  sameItems s s' -> pathTo s r path p -> pathTo s' r path p.
Proof.
  intros [_ Hsame].
  induction 1 as [p | p m i item sub rest q Hp Hi Hsub _ IH];
    [apply path_here |].
  destruct (Hsame p m Hp) as (m' & Hp' & Heq).
  eapply path_step; [exact Hp' | rewrite Heq; exact Hi | exact Hsub | exact IH].
Qed.

Lemma pathTo_back s s' (r : nat) (path : list nat) (p : nat) :
  sameItems s s' -> pathTo s' r path p -> pathTo s r path p.
Proof.
  intros Hsame.
  induction 1 as [p | p m' i item sub rest q Hp Hi Hsub _ IH];
    [apply path_here |].
  destruct (sameItems_back _ _ _ _ Hsame Hp) as (m & Hq & Heq).
  rewrite Heq in Hi. eapply path_step; eassumption.
Qed.

Lemma pathTo_descendant s (r : nat) (path : list nat) (p : nat) :
  pathTo s r path p ->
  forall q, In q path -> descendant s r q /\ descendant s q p.
Proof.
  induction 1 as [p | p m i item sub rest q Hp Hi Hsub Hrest IH].
  - intros q [<- | []]. split; apply desc_refl.
  - intros x [<- | Hx].
    + split; [apply desc_refl |].
      eapply desc_step; [exact Hp | exact Hi | exact Hsub |].
      destruct rest as [| y rest]; [inversion Hrest |].
      assert (y = sub) as -> by (inversion Hrest; reflexivity).
      apply (IH sub). left. reflexivity.
    + destruct (IH x Hx) as [Hd1 Hd2]. split; [| exact Hd2].
      eapply desc_step; eassumption.
Qed.

(** [show] called by [Run]: on the current menu itself, or on the submenu
    of one of its items.  The windows stay those of the path. *)
Lemma show_windows (root : nat) s (path : list nat) (menu cur : nat)
      (w : Wayland) s' (w' : Wayland) :
  linksForward s -> pathTo s root path menu ->
  (forall q, mapped s q <-> In q path) ->
  (cur = menu \/
   exists m (i : nat) (item : Item T),
     s !! menu = Some m /\ items m !! i = Some item /\
     submenu item = Some cur) ->
  show ctxmenu s w cur (Some menu) = Ok (s', w') ->
  exists path',
    pathTo s root path' cur /\ forall q, mapped s' q <-> In q path'.
Proof.
  intros Hl Hpath Hmap Hcur Hshow.
  destruct (show_surfaces s w cur (Some menu) s' w' Hl Hshow)
    as (Hp & Hhid & Hfr).
  destruct (pathTo_bound s root path menu Hl Hpath) as [Hend Hb].
  assert (Hkept : forall q, q <> cur -> mapped s' q -> In q path).
  { intros q Hne Hq. apply Hmap. unfold mapped in *.
    destruct (Hhid q Hne) as [He | He]; rewrite He in Hq;
      [exact Hq | contradiction]. }
  destruct Hcur as [-> | (m & i & item & Hm & Hi & Hsub)].
  - exists path. split; [exact Hpath |]. intros q. split.
    + intros Hq. destruct (decide (q = menu)) as [-> | Hne];
        [exact Hend | apply Hkept; assumption].
    + intros Hin. destruct (decide (q = menu)) as [-> | Hne];
        [exact Hp |].
      unfold mapped. rewrite Hfr; [apply Hmap, Hin | exact Hne |].
      specialize (Hb q Hin). lia.
  - destruct (Hl menu m i item cur Hm Hi Hsub) as [Hlt _].
    exists (path ++ [cur]). split; [eapply pathTo_snoc; eassumption |].
    intros q. split.
    + intros Hq. apply in_or_app.
      destruct (decide (q = cur)) as [-> | Hne];
        [right; left; reflexivity | left; apply Hkept; assumption].
    + intros Hin. apply in_app_or in Hin. destruct Hin as [Hin | [<- | []]];
        [| exact Hp].
      specialize (Hb q Hin).
      unfold mapped. rewrite Hfr; [apply Hmap, Hin | lia | lia].
Qed.

(** *** One event *)

Lemma finish_loopOf l (action : Action) (o : Outcome T) :
  finish l action = Ok o ->
  store (loopOf o) = store l /\ curmenu (loopOf o) = curmenu l.
Proof.
  unfold finish.
  destruct (if negb (Z.land action ActionDraw =? 0)
            then draw (store l) (wl l) (curmenu l) else Ok (wl l));
    cbn [bind]; try discriminate.
  destruct (if negb (Z.land action ActionWarp =? 0)
            then do cm <- deref (store l !! curmenu l);
                 do _ <- warp cm; Ok true
            else Ok (warped l));
    cbn [bind]; try discriminate.
  intros [= <-]. split; reflexivity.
Qed.

Lemma step_windows (root : nat) l (event : Event) (o : Outcome T)
      (path : list nat) :
  loopOk l ->
  step zero ctxmenu hover l event = Ok o ->
  pathTo (store l) root path (curmenu l) ->
  (forall q, mapped (store l) q <-> In q path) ->
  exists path',
    pathTo (store l) root path' (curmenu (loopOf o)) /\
    forall q, mapped (store (loopOf o)) q <-> In q path'.
Proof.
  intros Hok Hstep Hpath Hmap.
  pose proof Hok as (Hinv & Hl & _).
  assert (Hkeep : forall (s' : list (Menu T)),
             (forall q, surfaceAt s' q = surfaceAt (store l) q) ->
             exists path',
               pathTo (store l) root path' (curmenu l) /\
               forall q, mapped s' q <-> In q path').
  { intros s' Hs. exists path. split; [exact Hpath |].
    intros q. unfold mapped. rewrite Hs. apply Hmap. }
  assert (Hfin : forall l' action,
             finish l' action = Ok o -> curmenu l' = curmenu l ->
             (forall q, surfaceAt (store l') q = surfaceAt (store l) q) ->
             exists path',
               pathTo (store l) root path' (curmenu (loopOf o)) /\
               forall q, mapped (store (loopOf o)) q <-> In q path').
  { intros l' action Hf Hc Hs.
    destruct (finish_loopOf l' action o Hf) as [-> ->]. rewrite Hc.
    apply Hkeep, Hs. }
  assert (Hshown : forall s2 (w1 : Wayland) (cur : nat) s3 (w3 : Wayland) l'
                          action,
             sameItems (store l) s2 ->
             (forall q, surfaceAt s2 q = surfaceAt (store l) q) ->
             (cur = curmenu l \/
              exists m (i : nat) (item : Item T),
                store l !! curmenu l = Some m /\ items m !! i = Some item /\
                submenu item = Some cur) ->
             show ctxmenu s2 w1 cur (Some (curmenu l)) = Ok (s3, w3) ->
             finish l' action = Ok o -> curmenu l' = cur ->
             (forall q, surfaceAt (store l') q = surfaceAt s3 q) ->
             exists path',
               pathTo (store l) root path' (curmenu (loopOf o)) /\
               forall q, mapped (store (loopOf o)) q <-> In q path').
  { intros s2 w1 cur s3 w3 l' action Hsame Hsurf Hcur Hshow Hf Hc Hs.
    destruct (finish_loopOf l' action o Hf) as [-> ->]. rewrite Hc.
    destruct (show_windows root s2 path (curmenu l) cur w1 s3 w3)
      as (path' & Hpath' & Hmap').
    - eapply links_sameItems; eassumption.
    - eapply pathTo_sameItems; eassumption.
    - intros q. unfold mapped. rewrite Hsurf. apply Hmap.
    - destruct Hcur as [-> | (m & i & item & Hm & Hi & Hsub)];
        [left; reflexivity | right].
      destruct Hsame as [_ Hsame].
      destruct (Hsame _ _ Hm) as (m' & Hm' & Heq).
      exists m', i, item. rewrite Heq. auto.
    - exact Hshow.
    - exists path'. split; [eapply pathTo_back; eassumption |].
      intros q. unfold mapped. rewrite Hs. apply Hmap'. }
  destruct event as [| | | | y | axis value | pressed middle | | k1 k2 |];
    cbn [step] in Hstep;
    try (eapply Hfin; [exact Hstep | reflexivity | reflexivity]).
  - injection Hstep as <-. cbn [loopOf]. apply Hkeep. reflexivity.
  - (* motion *)
    unfold onMotion in Hstep.
    cbn [warped store wl seen curmenu buf previtem hasleft curY hovered]
      in Hstep.
    destruct (warped l);
      [eapply Hfin; [exact Hstep | reflexivity | reflexivity] |].
    destruct (store l !! curmenu l) as [m |] eqn:Hm; [| discriminate].
    cbn [deref bind] in Hstep.
    destruct (getitem ctxmenu m y) as [itemidx | | |]; [| discriminate ..].
    cbn [bind] in Hstep.
    destruct (itemidx =? -1);
      [injection Hstep as <-; cbn [loopOf store curmenu]; apply Hkeep;
       reflexivity |].
    destruct (index (items m) itemidx) as [item |] eqn:Hitem;
      [| discriminate].
    cbn [deref bind] in Hstep.
    destruct (decide (previtem l = Some (curmenu l, Z.to_nat itemidx)));
      [injection Hstep as <-; cbn [loopOf store curmenu]; apply Hkeep;
       reflexivity |].
    destruct (draw _ (wl l) (curmenu l)) as [w1 | | |]; [| discriminate ..].
    cbn [bind] in Hstep.
    set (m1 := set_selected m (if isSeparator item then -1 else itemidx))
      in Hstep.
    assert (Hsame1 : sameItems (store l) (<[curmenu l := m1]> (store l)))
      by (eapply sameItems_insert; [exact Hm | reflexivity]).
    assert (Hsurf1 : forall q, surfaceAt (<[curmenu l := m1]> (store l)) q
                               = surfaceAt (store l) q)
      by (intros q; eapply surfaceAt_insert_same; [exact Hm | reflexivity]).
    apply index_lookup in Hitem.
    destruct (submenu item) as [sub |] eqn:Hsub.
    + destruct (<[curmenu l := m1]> (store l) !! sub) as [sm |] eqn:Hsm;
        [| discriminate].
      cbn [deref bind] in Hstep.
      destruct (show ctxmenu _ w1 sub (Some (curmenu l))) as [[s3 w3] | | |]
        eqn:Hshow; [| discriminate ..].
      cbn [bind] in Hstep.
      eapply Hshown; [| | | exact Hshow | exact Hstep | reflexivity
                      | reflexivity].
      * eapply sameItems_trans; [exact Hsame1 |].
        eapply sameItems_insert; [exact Hsm | reflexivity].
      * intros q. rewrite <- Hsurf1.
        eapply surfaceAt_insert_same; [exact Hsm | reflexivity].
      * right. exists m, (Z.to_nat itemidx), item. auto.
    + cbn [bind] in Hstep.
      destruct (show ctxmenu _ w1 (curmenu l) (Some (curmenu l)))
        as [[s3 w3] | | |] eqn:Hshow; [| discriminate ..].
      cbn [bind] in Hstep.
      eapply Hshown; [exact Hsame1 | exact Hsurf1 | left; reflexivity
                      | exact Hshow | exact Hstep | reflexivity
                      | reflexivity].
  - (* axis *)
    unfold onAxis in Hstep. destruct axis;
      [eapply Hfin; [exact Hstep | reflexivity | reflexivity] |].
    destruct (store l !! curmenu l) as [cm |]; [| discriminate].
    cbn [deref bind] in Hstep.
    destruct (overflow cm =? -1);
      [eapply Hfin; [exact Hstep | reflexivity | reflexivity] |].
    destruct (value <? 0).
    { eapply Hfin; [exact Hstep | reflexivity |].
      intros q. apply surfaceAt_update. reflexivity. }
    destruct (0 <? value).
    { eapply Hfin; [exact Hstep | reflexivity |].
      intros q. apply surfaceAt_update. reflexivity. }
    eapply Hfin; [exact Hstep | reflexivity | reflexivity].
  - (* button *)
    unfold onButton in Hstep.
    destruct (negb pressed);
      [eapply Hfin; [exact Hstep | reflexivity | reflexivity] |].
    destruct (store l !! curmenu l) as [m |] eqn:Hm; [| discriminate].
    cbn [deref bind] in Hstep.
    destruct (getitem ctxmenu m (curY l)) as [item | | |]; [| discriminate ..].
    cbn [bind] in Hstep.
    destruct (isoverflowitem ctxmenu m (curY l)) as [ov | | |];
      [| discriminate ..].
    cbn [bind] in Hstep.
    destruct ov.
    + eapply Hfin; [exact Hstep | reflexivity |].
      intros q. apply surfaceAt_update. reflexivity.
    + destruct (item =? -1).
      { eapply Hfin; [exact Hstep | reflexivity |].
        intros q. eapply surfaceAt_insert_same; [exact Hm | reflexivity]. }
      destruct (index (items m) item) as [it |] eqn:Hit; [| discriminate].
      cbn [deref bind] in Hstep. apply index_lookup in Hit.
      destruct (isSeparator it);
        [injection Hstep as <-; cbn [loopOf]; apply Hkeep; reflexivity |].
      destruct (submenu it) as [sub |] eqn:Hsub;
        [| injection Hstep as <-; cbn [loopOf]; apply Hkeep; reflexivity].
      destruct (show ctxmenu (store l) (wl l) sub (Some (curmenu l)))
        as [[s1 w1] | | |] eqn:Hshow; [| discriminate ..].
      cbn [bind] in Hstep.
      destruct (s1 !! sub) as [sm |] eqn:Hsm; [| discriminate].
      cbn [deref bind] in Hstep.
      eapply Hshown; [apply sameItems_refl | reflexivity | | exact Hshow
                      | exact Hstep | reflexivity |].
      * right. exists m, (Z.to_nat item), it. auto.
      * intros q. eapply surfaceAt_insert_same; [exact Hsm | reflexivity].
    + eapply Hfin; [exact Hstep | reflexivity |].
      intros q. apply surfaceAt_update. reflexivity.
Qed.

Lemma loop_windows (root : nat) (events : list Event) :
  forall l (o : Outcome T) (path : list nat),
    loopOk l ->
    loop zero ctxmenu hover l events = Ok o ->
    pathTo (store l) root path (curmenu l) ->
    (forall q, mapped (store l) q <-> In q path) ->
    exists path',
      pathTo (store l) root path' (curmenu (loopOf o)) /\
      forall q, mapped (store (loopOf o)) q <-> In q path'.
Proof.
  induction events as [| event rest IH]; intros l o path Hok Hloop Hpath Hmap.
  - injection Hloop as <-. exists path. auto.
  - cbn [loop] in Hloop.
    destruct (step_turn zero ctxmenu hover l event Hok)
      as [[Hfatal _] | (o1 & Hstep & (Hsame & _ & Ho1) & _)];
      [rewrite Hfatal in Hloop; discriminate |].
    rewrite Hstep in Hloop. cbn [bind] in Hloop.
    destruct (step_windows root l event o1 path Hok Hstep Hpath Hmap)
      as (path1 & Hpath1 & Hmap1).
    destruct o1 as [l1 | v1 e1 l1].
    + cbn [loopOf] in *.
      destruct (IH l1 o path1 Ho1 Hloop) as (path' & Hpath' & Hmap');
        [eapply pathTo_sameItems; eassumption | exact Hmap1 |].
      exists path'. split; [eapply pathTo_back; eassumption | exact Hmap'].
    + injection Hloop as <-. exists path1. auto.
Qed.

Lemma built_unmapped s (q : nat) :
  built zero ctxmenu s -> surfaceAt s q = None.
Proof.
  intros Hb. unfold surfaceAt. destruct (s !! q) as [m |] eqn:Hq;
    [| reflexivity].
  destruct (built_fresh zero ctxmenu s q m Hb Hq)
    as [(_ & _ & _ & Hsurf & _) _].
  exact Hsurf.
Qed.

(** X13.  The windows on the screen follow the pointer down the tree.
    When [Run], on a tree the package built, has come through some events
    or has returned, the menus that have a window are exactly the menus
    on a path through the tree from the root menu down to the current
    menu: the root, the submenu opened from it, the one opened from that,
    and so on.  Every other submenu is closed. *)
Theorem Run_windows_follow_path s (w : Wayland) (root : nat)
        (events : list Event) (o : Outcome T) :
  built zero ctxmenu s -> (root < length s)%nat ->
  Run zero ctxmenu hover s w root events = Ok o ->
  exists path : list nat,
    pathTo s root path (curmenu (loopOf o)) /\
    (forall q, mapped (store (loopOf o)) q <-> In q path) /\
    (forall q, In q path ->
               descendant s root q /\ descendant s q (curmenu (loopOf o))).
Proof.
  intros Hb Hroot Hrun.
  pose proof (built_links zero ctxmenu s Hb) as Hl.
  destruct (Run_cases zero ctxmenu hover s w root events Hb Hroot)
    as [[Hfatal _]
       | (l0 & o' & Hstart & Hok & Hsame0 & Hcur0 & Hrun' & Hloop & _)];
    [congruence |].
  assert (o' = o) as -> by congruence.
  assert (Hmap0 : forall q, mapped (store l0) q <-> In q [root]).
  { unfold start in Hstart.
    destruct (show ctxmenu s w root None) as [[s1 w1] | | |] eqn:Hshow;
      [| discriminate ..].
    cbn [bind] in Hstart.
    destruct (draw s1 w1 root); [| discriminate ..].
    cbn [bind] in Hstart. injection Hstart as <-. cbn [store].
    destruct (show_surfaces s w root None s1 w1 Hl Hshow)
      as (Hp & Hhid & _).
    intros q. split.
    - intros Hq. destruct (decide (q = root)) as [-> | Hne];
        [left; reflexivity |].
      unfold mapped in Hq.
      destruct (Hhid q Hne) as [He | He]; rewrite He in Hq;
        [| contradiction].
      rewrite (built_unmapped s q Hb) in Hq. contradiction.
    - intros [<- | []]. exact Hp. }
  destruct (loop_windows root events l0 o [root] Hok Hloop)
    as (path & Hpath & Hmap); [rewrite Hcur0; apply path_here | exact Hmap0 |].
  exists path.
  assert (Hpath' : pathTo s root path (curmenu (loopOf o)))
    by (eapply pathTo_back; eassumption).
  split; [exact Hpath' |]. split; [exact Hmap |].
  apply pathTo_descendant, Hpath'.
Qed.

End WindowFacts.

(** X13, witness.  The tree of three menus, the pointer over "File" and then over
    "Recent": the root, the submenu of "File" and that of "Recent" have
    windows. *)
Lemma Run_windows_follow_path_witness :
  Run EmptyString demoContext true fileTree noWayland 0
      [PointerMotionEvent 5; PointerMotionEvent 30] = Ok (Continue fileDeeper) /\
  exists path : list nat,
    pathTo fileTree 0 path (curmenu (loopOf (Continue fileDeeper))) /\
    (forall q, mapped (store (loopOf (Continue fileDeeper))) q <-> In q path) /\
    (forall q, In q path ->
               descendant fileTree 0 q /\
               descendant fileTree q (curmenu (loopOf (Continue fileDeeper)))).
Proof.
  split; [vm_compute; reflexivity |].
  apply (Run_windows_follow_path EmptyString demoContext true fileTree
           noWayland 0 [PointerMotionEvent 5; PointerMotionEvent 30]
           (Continue fileDeeper) fileTree_built).
  - vm_compute. lia.
  - vm_compute. reflexivity.
Defined.

(** ** getmenu *)

Section GetMenuFacts.
Context {T : Type}.
Implicit Types s : list (Menu T).
Implicit Types m : Menu T.

Lemma descendant_inv s (p q : nat) :
  descendant s p q ->
  q = p \/
  exists m i item sub,
    s !! p = Some m /\ items m !! i = Some item /\
    submenu item = Some sub /\ descendant s sub q.
Proof.
  intros H. destruct H as [p | p m i item sub q Hp Hi Hsub Hd];
    [left; reflexivity | right; eauto 10].
Qed.

Lemma getmenu_items (n : nat) s (p : nat) (win : nat) :
  (forall sub, (p < sub < length s)%nat ->
               exists r, getmenu n s (Some sub) win = Ok r /\
                         found s sub win r) ->
  forall its : list (Item T),
    (forall item sub, In item its -> submenu item = Some sub ->
                      (p < sub < length s)%nat) ->
    exists r,
      fold_left
        (fun acc item =>
           do w <- acc;
           match w with
           | Some q => Ok (Some q)
           | None => getmenu n s (submenu item) win
           end) its (Ok None) = Ok r /\
      match r with
      | Some q =>
          exists item sub, In item its /\ submenu item = Some sub /\
                           descendant s sub q /\ windowOf s q win
      | None =>
          forall item sub q, In item its -> submenu item = Some sub ->
                             descendant s sub q -> ~ windowOf s q win
      end.
Proof.
  intros Hrec. induction its as [| item its IH]; intros Hits.
  - exists None. split; [reflexivity |]. intros item sub q [].
  - cbn [fold_left bind].
    assert (Hstay : forall (its' : list (Item T)) (q : nat),
               fold_left
                 (fun acc item =>
                    do w <- acc;
                    match w with
                    | Some q => Ok (Some q)
                    | None => getmenu n s (submenu item) win
                    end) its' (Ok (Some q)) = Ok (Some q)).
    { induction its' as [| item' its' IH']; intros q; [reflexivity |].
      cbn [fold_left bind]. apply IH'. }
    destruct (submenu item) as [sub |] eqn:Hsub.
    + destruct (Hrec sub) as (r & Hr & Hfound).
      { eapply Hits; [left; reflexivity | exact Hsub]. }
      rewrite Hr. destruct r as [q |].
      * rewrite Hstay. exists (Some q). split; [reflexivity |].
        destruct Hfound as [Hd Hw].
        exists item, sub. split; [left; reflexivity | auto].
      * destruct IH as (r & Hfold & Hr').
        { intros item' sub' Hin. apply Hits. right. exact Hin. }
        exists r. split; [exact Hfold |]. destruct r as [q |].
        -- destruct Hr' as (item' & sub' & Hin & Hrest).
           exists item', sub'. split; [right; exact Hin | exact Hrest].
        -- intros item' sub' q [<- | Hin] Hsub' Hd.
           ++ assert (sub' = sub) as -> by congruence. apply Hfound, Hd.
           ++ eapply Hr'; eassumption.
    + destruct n; cbn [getmenu].
      * destruct IH as (r & Hfold & Hr').
        { intros item' sub' Hin. apply Hits. right. exact Hin. }
        exists r. split; [exact Hfold |]. destruct r as [q |].
        -- destruct Hr' as (item' & sub' & Hin & Hrest).
           exists item', sub'. split; [right; exact Hin | exact Hrest].
        -- intros item' sub' q [<- | Hin] Hsub' Hd; [congruence |].
           eapply Hr'; eassumption.
      * destruct IH as (r & Hfold & Hr').
        { intros item' sub' Hin. apply Hits. right. exact Hin. }
        exists r. split; [exact Hfold |]. destruct r as [q |].
        -- destruct Hr' as (item' & sub' & Hin & Hrest).
           exists item', sub'. split; [right; exact Hin | exact Hrest].
        -- intros item' sub' q [<- | Hin] Hsub' Hd; [congruence |].
           eapply Hr'; eassumption.
Qed.

Lemma getmenu_found :
  forall (n : nat) s (p : nat) (win : nat),
    linksForward s -> (p < length s)%nat -> (length s - p <= n)%nat ->
    exists r, getmenu n s (Some p) win = Ok r /\ found s p win r.
Proof.
  induction n as [| n IH]; intros s p win Hl Hp Hn; [lia |].
  cbn [getmenu].
  destruct (lookup_lt_is_Some_2 s p Hp) as [m Hm]. rewrite Hm.
  cbn [deref bind].
  destruct (decide (surface m = Some win)) as [Hwin | Hwin].
  - exists (Some p). split; [reflexivity |].
    split; [apply desc_refl | exists m; auto].
  - destruct (getmenu_items n s p win) with (its := items m)
      as (r & Hfold & Hr).
    + intros sub Hsub. apply IH; [exact Hl | lia | lia].
    + intros item sub Hin Hsub.
      apply list_elem_of_In, list_elem_of_lookup_1 in Hin as [i Hi]. eauto.
    + exists r. split; [exact Hfold |]. destruct r as [q |]; cbn.
      * destruct Hr as (item & sub & Hin & Hsub & Hd & Hw).
        apply list_elem_of_In, list_elem_of_lookup_1 in Hin as [i Hi].
        split; [| exact Hw]. eapply desc_step; eassumption.
      * intros q Hd.
        apply descendant_inv in Hd as [-> | (m' & i & item & sub & Hm' & Hi & Hsub & Hd)].
        -- intros (m' & Hm' & Hs). congruence.
        -- assert (m' = m) as -> by congruence.
           eapply Hr; [| exact Hsub | exact Hd].
           apply list_elem_of_In. eapply list_elem_of_lookup_2, Hi.
Qed.

(** X14.  [getmenu(win)] finds the menu of a window.  On a tree whose submenus
    were allocated after their parents (every tree [Append] builds, shown
    or not), the search from a menu returns; what it returns is that menu
    or a menu below it, mapped as the window [win]; and it returns nil only
    if no menu at or below the start is mapped as [win]. *)
Theorem getmenu_finds_window s (p : nat) (win : nat) :
  linksForward s -> (p < length s)%nat ->
  exists r,
    getmenu (length s) s (Some p) win = Ok r /\
    match r with
    | Some q => descendant s p q /\ windowOf s q win
    | None => forall q, descendant s p q -> ~ windowOf s q win
    end.
Proof.
  intros Hl Hp. apply (getmenu_found (length s) s p win Hl Hp). lia.
Qed.

End GetMenuFacts.

Lemma fileMapped_links : linksForward fileMapped.
Proof.
  apply (links_sameItems fileTree);
    [| apply (built_links EmptyString demoContext), fileTree_built].
  split; [reflexivity |].
  intros q m Hq.
  destruct q as [| [| [| q]]]; cbn in Hq; [| | | discriminate];
    injection Hq as <-; eexists; (split; [reflexivity | reflexivity]).
Qed.

(** X14, witness.  The tree of three menus after the pointer went to "Recent": the window
    8 is that of the menu 2, below the root. *)
Lemma getmenu_finds_window_witness :
  exists r,
    getmenu (length fileMapped) fileMapped (Some 0%nat) 8 = Ok r /\
    match r with
    | Some q => descendant fileMapped 0 q /\ windowOf fileMapped q 8
    | None => forall q, descendant fileMapped 0 q -> ~ windowOf fileMapped q 8
    end.
Proof.
  apply (getmenu_finds_window fileMapped 0 8 fileMapped_links).
  vm_compute. lia.
Defined.

(** ** Append within the chain *)

Section AppendWithin.
Context {T : Type}.
Variable zero : T.
Variable ctxmenu : ContextMenu.
Implicit Types s : list (Menu T).
Implicit Types m : Menu T.

Lemma rightmost_le s (p k t : nat) :
  linksForward s -> rightmost s p k t ->
  (p <= t)%nat /\ ((0 < k)%nat -> (p < t)%nat).
Proof.
  intros Hl. induction 1 as [p | p m tail sub k t Hp Hlast Hsub _ IH];
    [lia |].
  destruct (Hl p m _ tail sub Hp (last_index _ _ Hlast) Hsub). lia.
Qed.

Lemma rightmost_frame s s' (p k t : nat) :
  linksForward s -> rightmost s p k t ->
  (forall q, (q < t)%nat -> s' !! q = s !! q) ->
  rightmost s' p k t.
Proof.
  intros Hl. induction 1 as [p | p m tail sub k t Hp Hlast Hsub Hr IH];
    intros Hsame; [apply rm_here |].
  destruct (Hl p m _ tail sub Hp (last_index _ _ Hlast) Hsub) as [Hps _].
  destruct (rightmost_le s sub k t Hl Hr) as [Hst _].
  eapply rm_step; [| exact Hlast | exact Hsub | apply IH, Hsame].
  rewrite Hsame by lia. exact Hp.
Qed.

Lemma rightmost_chain s (p k t n : nat) (opn : bool) :
  rightmost s p k t -> chain s t n opn -> chain s p (k + n) opn.
Proof.
  induction 1 as [p | p m tail sub k t Hp Hlast Hsub _ IH]; intros Hc;
    [exact Hc |].
  cbn [Nat.add]. eapply chain_link; [exact Hp | exact Hlast | exact Hsub |].
  apply IH, Hc.
Qed.

(** The loop of [Append], when it does not fail, has walked the rightmost
    chain, through the submenu it made if the chain ended one short, and
    has touched no menu allocated before the one it started from. *)
Lemma descend_path :
  forall (k : nat) s (p : nat) s' (t : nat),
    descend zero ctxmenu k s p = Ok (s', inr t) ->
    good s -> linksForward s -> (p < length s)%nat ->
    rightmost s' p k t /\ (t < length s')%nat /\
    (forall q, (q < p)%nat -> s' !! q = s !! q) /\
    good s' /\ linksForward s'.
Proof.
  induction k as [| k IH]; intros s p s' t Hdesc Hgood Hl Hp.
  - cbn in Hdesc. injection Hdesc as <- <-.
    split; [apply rm_here |]. auto.
  - cbn [descend] in Hdesc.
    destruct (s !! p) as [m |] eqn:Hm; [| discriminate].
    cbn [deref bind] in Hdesc.
    destruct (last (items m)) as [tail |] eqn:Hlast; [| discriminate].
    destruct (submenu tail) as [sub |] eqn:Hsub.
    + destruct (Hl p m _ tail sub Hm (last_index _ _ Hlast) Hsub)
        as [Hps Hsl].
      destruct (IH s sub s' t Hdesc Hgood Hl Hsl)
        as (Hr & Ht & Hframe & Hgood' & Hl').
      split; [| split; [exact Ht | split; [| auto]]].
      * eapply rm_step; [| exact Hlast | exact Hsub | exact Hr].
        rewrite Hframe by lia. exact Hm.
      * intros q Hq. apply Hframe. lia.
    + unfold MakeMenu in Hdesc.
      pose proof Hgood as [Hwf Hdirty].
      destruct (setSubmenu_last zero ctxmenu s p m tail (length s) Hwf Hm Hlast)
        as (m' & Hset & _ & Hlen & Hchg & Hgrow & Hpar & Hlast' & Hitems).
      rewrite Hset in Hdesc. cbn [bind] in Hdesc.
      assert (Hm1 : (s ++ [newMenu zero ctxmenu (length s)]) !! p = Some m)
        by (rewrite lookup_app_l by assumption; exact Hm).
      assert (Hgood2 : good (<[p := m']> (s ++ [newMenu zero ctxmenu (length s)]))).
      { apply good_insert with m; [| assumption | assumption |].
        - apply (good_MakeMenu zero ctxmenu s). exact Hgood.
        - intros Hc Hnil. rewrite Hchg in Hc.
          apply (Hdirty _ _ Hm Hc). rewrite Hnil in Hlen.
          destruct (items m); [reflexivity | discriminate]. }
      assert (Hl2 : linksForward
                      (<[p := m']> (s ++ [newMenu zero ctxmenu (length s)]))).
      { apply links_insert with m;
          [apply (links_MakeMenu zero ctxmenu s Hl) | exact Hm1 |].
        intros i item sub Hi Hs. rewrite length_app. cbn.
        destruct (Hitems i item Hi) as [Hnew | Hold].
        - assert (sub = length s) by congruence. subst sub. lia.
        - specialize (Hl p m i item sub Hm Hold Hs). lia. }
      destruct (IH _ (length s) s' t Hdesc Hgood2 Hl2)
        as (Hr & Ht & Hframe & Hgood' & Hl').
      { rewrite length_insert, length_app. cbn. lia. }
      split; [| split; [exact Ht | split; [| auto]]].
      * eapply rm_step; [| exact Hlast' | reflexivity | exact Hr].
        rewrite Hframe by lia.
        apply list_lookup_insert_eq. rewrite length_app. cbn. lia.
      * intros q Hq. rewrite Hframe by lia.
        rewrite list_lookup_insert_ne by lia.
        apply lookup_app_l. lia.
Qed.

Lemma makeItem_loads (p : nat) (lbl : string) (out : T) (img : string) :
  (iconLoads ctxmenu lbl img = true ->
   exists item, makeItem ctxmenu p lbl out img = inr item) /\
  (iconLoads ctxmenu lbl img = false ->
   makeItem ctxmenu p lbl out img = inl IconError).
Proof.
  unfold iconLoads, makeItem.
  destruct (String.eqb lbl EmptyString); cbn; [split; [eauto | discriminate] |].
  destruct (String.eqb img EmptyString); cbn; [split; [eauto | discriminate] |].
  destruct (disableIcons ctxmenu); cbn; [split; [eauto | discriminate] |].
  destruct (loadIcon ctxmenu img); split; eauto; discriminate.
Qed.

(** What [Append] does with a depth the chain allows, by the case of the
    icon. *)
Lemma Append_chain_cases s (p n : nat) (opn : bool) (lbl : string)
      (out : T) (img : string) (depth : Z) :
  good s -> linksForward s ->
  chain s p n opn ->
  depth <= Z.of_nat n ->
  (iconLoads ctxmenu lbl img = true ->
   exists s' (t : nat) m' (item : Item T),
     Append zero ctxmenu s p lbl out img depth = Ok (s', None) /\
     rightmost s' p (Z.to_nat depth) t /\
     s' !! t = Some m' /\ last (items m') = Some item /\
     label item = lbl /\ output item = out /\ submenu item = None /\
     itemsChanged m' = true /\
     chain s' p (S (Z.to_nat depth)) true /\
     good s' /\ linksForward s') /\
  (iconLoads ctxmenu lbl img = false ->
   exists s',
     Append zero ctxmenu s p lbl out img depth = Ok (s', Some IconError)).
Proof.
  intros Hgood Hl Hchain Hdepth.
  pose proof Hgood as [Hwf _].
  assert (Hp : (p < length s)%nat).
  { destruct Hchain as [p m Hp _ | p m tail Hp _ _ | p m tail sub n opn Hp _ _ _];
      eapply lookup_lt_Some, Hp. }
  destruct (descend_within zero ctxmenu s Hwf p n opn Hchain (Z.to_nat depth))
    as (s1 & t & Hdesc); [lia |].
  destruct (descend_path _ _ _ _ _ Hdesc Hgood Hl Hp)
    as (Hr & Ht & Hframe & Hgood1 & Hl1).
  unfold Append. rewrite Hdesc. cbn [bind]. unfold AppendItem.
  destruct (lookup_lt_is_Some_2 s1 t Ht) as [mt Hmt]. rewrite Hmt.
  cbn [deref bind].
  destruct (makeItem_loads t lbl out img) as [Hok Herr].
  split; intros Hicon.
  - destruct (Hok Hicon) as (item & Hmk). rewrite Hmk.
    pose proof (makeItem_parent ctxmenu t lbl out img item Hmk)
      as (Hpar & Hlbl & Hout & Hsub).
    set (mt' := set_itemsChanged (set_items mt (items mt ++ [item])) true).
    assert (Hmt' : <[t := mt']> s1 !! t = Some mt')
      by (apply list_lookup_insert_eq; exact Ht).
    assert (Hr' : rightmost (<[t := mt']> s1) p (Z.to_nat depth) t).
    { eapply rightmost_frame; [exact Hl1 | exact Hr |].
      intros q Hq. apply list_lookup_insert_ne. lia. }
    assert (Happ : Append zero ctxmenu s p lbl out img depth
                   = Ok (<[t := mt']> s1, None)).
    { unfold Append. rewrite Hdesc. cbn [bind]. unfold AppendItem.
      rewrite Hmt. cbn [deref bind]. rewrite Hmk. reflexivity. }
    destruct (Append_ext zero ctxmenu _ _ _ _ _ _ _ _ Happ Hgood) as [Hgood' _].
    pose proof (Append_links zero ctxmenu _ _ _ _ _ _ _ _ Happ Hgood Hl) as Hl'.
    exists (<[t := mt']> s1), t, mt', item.
    split; [reflexivity |]. split; [exact Hr' |]. split; [exact Hmt' |].
    assert (Hlast : last (items mt') = Some item) by apply last_snoc.
    split; [exact Hlast |].
    split; [exact Hlbl |]. split; [exact Hout |]. split; [exact Hsub |].
    split; [reflexivity |]. split; [| auto].
    replace (S (Z.to_nat depth)) with (Z.to_nat depth + 1)%nat by lia.
    eapply rightmost_chain; [exact Hr' |].
    eapply chain_open; eassumption.
  - rewrite (Herr Hicon). eauto.
Qed.

(** X15.  [Append] within the chain.  On a tree the package built, a call with
    a depth that the rightmost chain of the menu allows (C2 covers the
    others; a negative depth counts as 0) succeeds whenever no icon fails
    to load: the new item, with the label and output given and without
    submenu, is the last item of the menu [depth] steps down the rightmost
    chain, that menu is marked for a new layout, and the chain is
    [depth + 1] menus long afterwards, ending at the new item.  When the
    icon fails to load the call returns that error. *)
Theorem Append_within_chain s (p n : nat) (opn : bool) (lbl : string)
        (out : T) (img : string) (depth : Z) :
  good s -> linksForward s ->
  chain s p n opn ->
  depth <= Z.of_nat n ->
  if iconLoads ctxmenu lbl img then
    exists s' (t : nat) m' (item : Item T),
      Append zero ctxmenu s p lbl out img depth = Ok (s', None) /\
      rightmost s' p (Z.to_nat depth) t /\
      s' !! t = Some m' /\ last (items m') = Some item /\
      label item = lbl /\ output item = out /\ submenu item = None /\
      itemsChanged m' = true /\
      chain s' p (S (Z.to_nat depth)) true /\
      good s' /\ linksForward s'
  else
    exists s',
      Append zero ctxmenu s p lbl out img depth = Ok (s', Some IconError).
Proof.
  intros Hgood Hl Hchain Hdepth.
  destruct (Append_chain_cases s p n opn lbl out img depth
                               Hgood Hl Hchain Hdepth) as [Hok Herr].
  destruct (iconLoads ctxmenu lbl img).
  - apply Hok. reflexivity.
  - apply Herr. reflexivity.
Qed.

End AppendWithin.

Lemma builtRoot_good : good builtRoot /\ linksForward builtRoot.
Proof.
  split.
  - apply (built_good EmptyString demoContext), builtRoot_built.
  - apply (built_links EmptyString demoContext), builtRoot_built.
Qed.

Lemma builtRoot_chain : chain builtRoot 0 1 true.
Proof. eapply chain_open; reflexivity. Qed.

(** X15, witness.  The root with the item "A": "B" goes in at depth 1, into a new submenu
    under "A", and the chain is two menus long afterwards. *)
Lemma Append_within_chain_witness :
  if iconLoads demoContext "B" EmptyString then
    exists s' (t : nat) m' (item : Item string),
      Append EmptyString demoContext builtRoot 0 "B"%string "b"%string
             EmptyString 1 = Ok (s', None) /\
      rightmost s' 0 (Z.to_nat 1) t /\
      s' !! t = Some m' /\ last (items m') = Some item /\
      label item = "B"%string /\ output item = "b"%string /\
      submenu item = None /\
      itemsChanged m' = true /\
      chain s' 0 (S (Z.to_nat 1)) true /\
      good s' /\ linksForward s'
  else
    exists s',
      Append EmptyString demoContext builtRoot 0 "B"%string "b"%string
             EmptyString 1 = Ok (s', Some IconError).
Proof.
  apply (Append_within_chain EmptyString demoContext builtRoot 0 1 true
                             "B"%string "b"%string EmptyString 1
                             (proj1 builtRoot_good) (proj2 builtRoot_good)
                             builtRoot_chain).
  lia.
Defined.

(** ** The sizes of the items *)

Section SizeFacts.
Context {T : Type}.
Variable zero : T.
Variable ctxmenu : ContextMenu.
Implicit Types s : list (Menu T).
Implicit Types m : Menu T.

Lemma sizesOk_MakeMenu s :
  sizesOk ctxmenu s -> sizesOk ctxmenu (fst (MakeMenu zero ctxmenu s)).
Proof.
  intros Hs q m item Hq Hin. cbn in Hq.
  apply lookup_app_Some in Hq as [Hq | [_ Hq]]; [eapply Hs; eassumption |].
  apply list_lookup_singleton_Some in Hq as [_ <-]. destruct Hin.
Qed.

Lemma sizesOk_insert s (p : nat) m' :
  sizesOk ctxmenu s ->
  (forall item, In item (items m') -> madeSize ctxmenu item) ->
  sizesOk ctxmenu (<[p := m']> s).
Proof.
  intros Hs Hm' q m item Hq Hin.
  destruct (decide (p = q)) as [<- | Hne].
  - destruct (decide (p < length s)%nat) as [Hlt | Hge].
    + rewrite list_lookup_insert_eq in Hq by exact Hlt.
      injection Hq as <-. apply Hm', Hin.
    + rewrite list_insert_ge in Hq by lia. eapply Hs; eassumption.
  - rewrite list_lookup_insert_ne in Hq by assumption.
    eapply Hs; eassumption.
Qed.

(** [setSubmenu] on an item without submenu adds the arrow to its
    width and changes no other size. *)
Lemma setSubmenu_sizes s (menu i sub : nat) m (item : Item T) s' :
  s !! menu = Some m -> items m !! i = Some item -> submenu item = None ->
  sizesOk ctxmenu s ->
  setSubmenu ctxmenu s menu i sub = Ok s' ->
  sizesOk ctxmenu s'.
Proof.
  intros Hm Hi Hsub Hs Hset. unfold setSubmenu in Hset.
  rewrite Hm in Hset. cbn [deref bind] in Hset.
  rewrite Hi in Hset. cbn [deref bind] in Hset.
  match type of Hset with
  | context [<[menu := ?mm]> s] => set (m1 := mm) in Hset
  end.
  assert (Hs1 : sizesOk ctxmenu (<[menu := m1]> s)).
  { apply sizesOk_insert; [exact Hs |].
    intros it Hin. subst m1. cbn [items set_items] in Hin.
    apply list_elem_of_In, list_elem_of_lookup_1 in Hin as [j Hj].
    destruct (decide (i = j)) as [<- | Hne].
    - rewrite list_lookup_insert_eq in Hj by (eapply lookup_lt_Some, Hi).
      injection Hj as <-.
      assert (Hold : madeSize ctxmenu item).
      { eapply Hs; [exact Hm |].
        apply list_elem_of_In. eapply list_elem_of_lookup_2, Hi. }
      destruct Hold as (Hov & Hh & Hw & Hic).
      unfold madeSize, itemHeight, itemWidth in *.
      cbn [overflower ih iw label icon submenu]. rewrite Hsub in Hw.
      repeat split; [exact Hov | exact Hh | lia | exact Hic].
    - rewrite list_lookup_insert_ne in Hj by assumption.
      eapply Hs; [exact Hm |].
      apply list_elem_of_In. eapply list_elem_of_lookup_2, Hj. }
  destruct (<[menu := m1]> s !! parent item) as [pm |] eqn:Hpm;
    [| discriminate].
  cbn [deref bind] in Hset. injection Hset as <-.
  apply sizesOk_insert; [exact Hs1 |].
  intros it Hin. cbn [items set_size] in Hin.
  eapply Hs1; eassumption.
Qed.

Lemma descend_sizes :
  forall (k : nat) s (p : nat) s' (r : AppendError + nat),
    descend zero ctxmenu k s p = Ok (s', r) ->
    sizesOk ctxmenu s -> sizesOk ctxmenu s'.
Proof.
  induction k as [| k IH]; intros s p s' r Hdesc Hs.
  - cbn in Hdesc. injection Hdesc as <- <-. exact Hs.
  - cbn [descend] in Hdesc.
    destruct (s !! p) as [m |] eqn:Hp; [| discriminate].
    cbn [deref bind] in Hdesc.
    destruct (last (items m)) as [tail |] eqn:Hlast.
    2:{ injection Hdesc as <- <-. exact Hs. }
    destruct (submenu tail) as [sub |] eqn:Hsub.
    + exact (IH _ _ _ _ Hdesc Hs).
    + unfold MakeMenu in Hdesc.
      destruct (setSubmenu ctxmenu (s ++ [newMenu zero ctxmenu (length s)]) p
                           (length (items m) - 1) (length s))
        as [s2 | | |] eqn:Hset; try discriminate.
      cbn [bind] in Hdesc.
      apply (IH _ _ _ _ Hdesc).
      apply (setSubmenu_sizes (s ++ [newMenu zero ctxmenu (length s)]) p
               (length (items m) - 1) (length s) m tail s2);
        [| apply last_index, Hlast | exact Hsub
         | apply (sizesOk_MakeMenu s Hs) | exact Hset].
      rewrite lookup_app_l by (eapply lookup_lt_Some, Hp). exact Hp.
Qed.

Lemma makeItem_sizes (p : nat) (lbl : string) (out : T) (img : string)
      (item : Item T) :
  makeItem ctxmenu p lbl out img = inr item -> madeSize ctxmenu item.
Proof.
  unfold makeItem, madeSize, itemHeight, itemWidth.
  destruct (String.eqb lbl EmptyString) eqn:Hlbl.
  { intros [= <-]. cbn. rewrite Hlbl. repeat split; [lia | discriminate]. }
  destruct (negb (String.eqb img EmptyString) && negb (disableIcons ctxmenu)).
  - destruct (loadIcon ctxmenu img); [| discriminate].
    intros [= <-]. cbn. rewrite Hlbl. repeat split; [lia |].
    intros _. apply String.eqb_neq, Hlbl.
  - intros [= <-]. cbn. rewrite Hlbl. repeat split; [lia | discriminate].
Qed.

Lemma Append_sizes s (p : nat) (lbl : string) (out : T) (img : string)
      (depth : Z) s' (e : option AppendError) :
  Append zero ctxmenu s p lbl out img depth = Ok (s', e) ->
  sizesOk ctxmenu s -> sizesOk ctxmenu s'.
Proof.
  unfold Append. intros Happ Hs.
  destruct (descend zero ctxmenu (Z.to_nat depth) s p) as [[s1 r] | | |] eqn:Hd;
    try discriminate.
  cbn [bind] in Happ. apply descend_sizes in Hd; [| exact Hs].
  destruct r as [err | target]; [injection Happ as <- _; exact Hd |].
  unfold AppendItem in Happ.
  destruct (s1 !! target) as [mt |] eqn:Ht; [| discriminate].
  cbn [deref bind] in Happ.
  destruct (makeItem ctxmenu target lbl out img) as [err | item] eqn:Hmk;
    injection Happ as <- _; [exact Hd |].
  apply sizesOk_insert; [exact Hd |].
  intros it Hin. cbn [items set_itemsChanged set_items] in Hin.
  apply in_app_or in Hin. destruct Hin as [Hin | [<- | []]].
  - eapply Hd; eassumption.
  - eapply makeItem_sizes, Hmk.
Qed.

Lemma built_sizes s : built zero ctxmenu s -> sizesOk ctxmenu s.
Proof.
  induction 1 as [| s Hb IH | s p lbl out img depth s' e Hb IH Happ].
  - intros q m item Hq. rewrite lookup_nil in Hq. discriminate.
  - apply sizesOk_MakeMenu, IH.
  - eapply Append_sizes; eassumption.
Qed.

(** X24.  The sizes in a tree that [MakeMenu] and [Append] built.  Every
    item has the size [makeItem] computed from its label and icon: a
    separator is [1 + 2 * PaddingY] high and [2 * PaddingX] wide; a
    labelled item is as high as the font, or the icon if that is higher,
    plus [2 * PaddingY], and as wide as its text, its icon and the padding;
    an item with a submenu is wider by the arrow, which [setSubmenu] adds
    exactly once.  The scroll indicators are those [MakeMenu] made.  So no
    row has a negative height when the padding, the font height and the
    height of the indicator arrow are not negative. *)
Theorem built_item_sizes s (q : nat) m :
  built zero ctxmenu s -> s !! q = Some m ->
  (forall item, In item (items m) ->
                overflower item = OverflowNone /\
                ih item = itemHeight ctxmenu item /\
                iw item = itemWidth ctxmenu item) /\
  overflowItemTop m = makeOverflow zero ctxmenu q true /\
  overflowItemBottom m = makeOverflow zero ctxmenu q false /\
  (0 <= PaddingY ctxmenu -> 0 <= fontHeight ctxmenu ->
   0 <= bottomArrowY ctxmenu -> heightsOk m).
Proof.
  intros Hb Hq.
  pose proof (built_sizes s Hb q m) as Hs.
  destruct (built_fresh zero ctxmenu s q m Hb Hq)
    as [(_ & _ & _ & _ & _ & Htop & Hbot & _) _].
  cbn [newMenu overflowItemTop overflowItemBottom] in Htop, Hbot.
  split; [| split; [exact Htop | split; [exact Hbot |]]].
  - intros item Hin. destruct (Hs item Hq Hin) as (Hov & Hh & Hw & _). auto.
  - intros Hpad Hfont Harrow. split; [| split].
    + intros item Hin. destruct (Hs item Hq Hin) as (_ & Hh & _).
      rewrite Hh. unfold itemHeight.
      destruct (String.eqb (label item) EmptyString); [lia |].
      destruct (icon item); lia.
    + rewrite Htop. cbn. lia.
    + rewrite Hbot. cbn. lia.
Qed.

End SizeFacts.

(** X24, witness.  The tree of three menus: the sizes of the items of its
    root, "File" with a submenu and "Quit". *)
Lemma built_item_sizes_witness :
  (forall item, In item (items fileRoot) ->
                overflower item = OverflowNone /\
                ih item = itemHeight demoContext item /\
                iw item = itemWidth demoContext item) /\
  overflowItemTop fileRoot = makeOverflow EmptyString demoContext 0 true /\
  overflowItemBottom fileRoot = makeOverflow EmptyString demoContext 0 false /\
  (0 <= PaddingY demoContext -> 0 <= fontHeight demoContext ->
   0 <= bottomArrowY demoContext -> heightsOk fileRoot).
Proof.
  apply (built_item_sizes EmptyString demoContext fileTree 0 fileRoot
                          fileTree_built).
  reflexivity.
Defined.

(** ** The outcome of [Run] *)

Section RunFacts.
Context {T : Type}.
Variable zero : T.
Variable ctxmenu : ContextMenu.
Variable hover : bool.
Implicit Types s : list (Menu T).
Implicit Types m : Menu T.

(** *** What [Append] leaves of the menus *)

Lemma keepsLayout_refl m : keepsLayout m m.
Proof. repeat split. Qed.

Lemma keepsLayout_trans m1 m2 m3 :
  keepsLayout m1 m2 -> keepsLayout m2 m3 -> keepsLayout m1 m3.
Proof.
  intros (A1 & B1 & C1) (A2 & B2 & C2). repeat split; congruence.
Qed.

Lemma insert_cases s (p q : nat) m0 m' :
  <[p := m0]> s !! q = Some m' ->
  (q = p /\ m' = m0) \/ (q <> p /\ s !! q = Some m').
Proof.
  intros Hq. destruct (decide (p = q)) as [<- | Hne].
  - destruct (decide (p < length s)%nat) as [Hlt | Hge].
    + rewrite list_lookup_insert_eq in Hq by exact Hlt.
      injection Hq as <-. left. auto.
    + rewrite list_insert_ge in Hq by lia.
      rewrite lookup_ge_None_2 in Hq by lia. discriminate.
  - rewrite list_lookup_insert_ne in Hq by assumption. right. auto.
Qed.

Lemma setSubmenu_keeps s (menu i sub : nat) s' :
  setSubmenu ctxmenu s menu i sub = Ok s' ->
  length s' = length s /\
  forall (q : nat) m', s' !! q = Some m' ->
                       exists m, s !! q = Some m /\ keepsLayout m m'.
Proof.
  unfold setSubmenu. intros Hset.
  destruct (s !! menu) as [m |] eqn:Hm; [| discriminate].
  cbn [deref bind] in Hset.
  destruct (items m !! i) as [item |] eqn:Hi; [| discriminate].
  cbn [deref bind] in Hset.
  match type of Hset with
  | context [<[menu := ?mm]> s] => set (m1 := mm) in Hset
  end.
  destruct (<[menu := m1]> s !! parent item) as [pm |] eqn:Hpm;
    [| discriminate].
  cbn [deref bind] in Hset. injection Hset as <-.
  split; [rewrite !length_insert; reflexivity |].
  assert (H1 : forall q m', <[menu := m1]> s !! q = Some m' ->
                            exists m0, s !! q = Some m0 /\ keepsLayout m0 m').
  { intros q m' Hq. apply insert_cases in Hq as [[-> ->] | [_ Hq]].
    - exists m. split; [exact Hm |]. subst m1. unfold keepsLayout.
      cbn [items set_items mh itemsChanged]. rewrite length_insert. auto.
    - exists m'. split; [exact Hq | apply keepsLayout_refl]. }
  intros q m' Hq. apply insert_cases in Hq as [[-> ->] | [_ Hq]].
  - destruct (H1 _ _ Hpm) as (m0 & Hm0 & Hk). exists m0.
    split; [exact Hm0 |]. eapply keepsLayout_trans; [exact Hk |].
    repeat split.
  - apply H1, Hq.
Qed.

Lemma menuAt_keeps_new s (q : nat) m' :
  (s ++ [newMenu zero ctxmenu (length s)]) !! q = Some m' ->
  m' = menuAt zero ctxmenu s q.
Proof.
  intros Hq. unfold menuAt.
  apply lookup_app_Some in Hq as [Hq | [Hge Hq]]; [rewrite Hq; reflexivity |].
  apply list_lookup_singleton_Some in Hq as [Hz <-].
  assert (q = length s) as -> by lia.
  rewrite lookup_ge_None_2 by lia. reflexivity.
Qed.

(** The loop of [Append] leaves every menu as it was, up to the links it
    sets; the menus it allocates are new. *)
Lemma descend_keeps :
  forall (k : nat) s (p : nat) s' (r : AppendError + nat),
    descend zero ctxmenu k s p = Ok (s', r) ->
    (length s <= length s')%nat /\
    forall (q : nat) m', s' !! q = Some m' ->
                         keepsLayout (menuAt zero ctxmenu s q) m'.
Proof.
  induction k as [| k IH]; intros s p s' r Hdesc.
  - cbn in Hdesc. injection Hdesc as <- <-. split; [lia |].
    intros q m' Hq. unfold menuAt. rewrite Hq. apply keepsLayout_refl.
  - cbn [descend] in Hdesc.
    destruct (s !! p) as [m |] eqn:Hp; [| discriminate].
    cbn [deref bind] in Hdesc.
    destruct (last (items m)) as [tail |] eqn:Hlast.
    2:{ injection Hdesc as <- <-. split; [lia |].
        intros q m' Hq. unfold menuAt. rewrite Hq. apply keepsLayout_refl. }
    destruct (submenu tail) as [sub |] eqn:Hsub.
    + exact (IH _ _ _ _ Hdesc).
    + unfold MakeMenu in Hdesc.
      destruct (setSubmenu ctxmenu (s ++ [newMenu zero ctxmenu (length s)]) p
                           (length (items m) - 1) (length s))
        as [s2 | | |] eqn:Hset; try discriminate.
      cbn [bind] in Hdesc.
      destruct (setSubmenu_keeps _ _ _ _ _ Hset) as [Hlen2 Hk2].
      destruct (IH _ _ _ _ Hdesc) as [Hlen' Hk'].
      rewrite Hlen2, length_app in Hlen'. cbn [length] in Hlen'.
      split; [lia |]. intros q m' Hq.
      specialize (Hk' q m' Hq). unfold menuAt in Hk' at 1.
      destruct (s2 !! q) as [m2 |] eqn:Hq2.
      * destruct (Hk2 q m2 Hq2) as (m1 & Hq1 & Hk1).
        apply menuAt_keeps_new in Hq1. subst m1.
        eapply keepsLayout_trans; eassumption.
      * assert (Hge : (length s + 1 <= q)%nat).
        { apply lookup_ge_None_1 in Hq2.
          rewrite Hlen2, length_app in Hq2. exact Hq2. }
        unfold menuAt. rewrite lookup_ge_None_2 by lia. exact Hk'.
Qed.

Lemma unsized_keeps m m' : keepsLayout m m' -> unsized m -> unsized m'.
Proof.
  intros (Hlen & Hh & Hc) (Hz & Hd). split; [congruence |].
  intros Hne. rewrite Hc. apply Hd. intros Hnil. apply Hne.
  apply length_zero_iff_nil. rewrite Hlen, Hnil. reflexivity.
Qed.

Lemma unsized_new (q : nat) : unsized (newMenu zero ctxmenu q).
Proof. split; [reflexivity |]. intros Hne. contradiction Hne. reflexivity. Qed.

(** A menu of a tree that was built has never been laid out. *)
Lemma built_unsized s (q : nat) m :
  built zero ctxmenu s -> s !! q = Some m -> unsized m.
Proof.
  intros Hb. revert q m.
  induction Hb as [| s Hb IH | s p lbl out img depth s' e Hb IH Happ];
    intros q m Hq.
  - rewrite lookup_nil in Hq. discriminate.
  - cbn in Hq. apply lookup_app_Some in Hq as [Hq | [_ Hq]];
      [eapply IH, Hq |].
    apply list_lookup_singleton_Some in Hq as [_ <-]. apply unsized_new.
  - unfold Append in Happ.
    destruct (descend zero ctxmenu (Z.to_nat depth) s p)
      as [[s1 r] | | |] eqn:Hd; try discriminate.
    cbn [bind] in Happ.
    destruct (descend_keeps _ _ _ _ _ Hd) as [_ Hk].
    assert (H1 : forall q1 m1, s1 !! q1 = Some m1 -> unsized m1).
    { intros q1 m1 Hq1. eapply unsized_keeps; [apply (Hk q1 m1 Hq1) |].
      unfold menuAt. destruct (s !! q1) as [m0 |] eqn:Hq0;
        [eapply IH, Hq0 | apply unsized_new]. }
    destruct r as [err | target]; [injection Happ as <- _; eapply H1, Hq |].
    unfold AppendItem in Happ.
    destruct (s1 !! target) as [mt |] eqn:Ht; [| discriminate].
    cbn [deref bind] in Happ.
    destruct (makeItem ctxmenu target lbl out img) as [err | item];
      injection Happ as <- _; [eapply H1, Hq |].
    apply insert_cases in Hq as [[-> ->] | [_ Hq]]; [| eapply H1, Hq].
    destruct (H1 _ _ Ht) as [Hz _]. split; [exact Hz | reflexivity].
Qed.

(** *** Menus with items *)

Lemma setSubmenu_filled s (menu i sub : nat) s' (x : nat) :
  setSubmenu ctxmenu s menu i sub = Ok s' ->
  filledBut s x -> filledBut s' x.
Proof.
  intros Hset Hf q m' Hq Hne.
  destruct (setSubmenu_keeps _ _ _ _ _ Hset) as [_ Hk].
  destruct (Hk q m' Hq) as (m & Hm & Hlen & _).
  intros Hnil. apply (Hf q m Hm Hne).
  apply length_zero_iff_nil. rewrite <- Hlen, Hnil. reflexivity.
Qed.

(** The menu the loop of [Append] arrives at is the only one that may be
    without items, when the one it started from was. *)
Lemma descend_filled :
  forall (k : nat) s (p : nat) s' (t : nat),
    descend zero ctxmenu k s p = Ok (s', inr t) ->
    filledBut s p -> filledBut s' t.
Proof.
  induction k as [| k IH]; intros s p s' t Hdesc Hf.
  - cbn in Hdesc. injection Hdesc as <- <-. exact Hf.
  - cbn [descend] in Hdesc.
    destruct (s !! p) as [m |] eqn:Hp; [| discriminate].
    cbn [deref bind] in Hdesc.
    destruct (last (items m)) as [tail |] eqn:Hlast; [| discriminate].
    assert (Hm : items m <> []).
    { intros Hnil. rewrite Hnil in Hlast. discriminate. }
    assert (Hall : forall q mq, s !! q = Some mq -> items mq <> []).
    { intros q mq Hq. destruct (decide (q = p)) as [-> | Hne];
        [| eapply Hf; eassumption].
      assert (mq = m) as -> by congruence. exact Hm. }
    destruct (submenu tail) as [sub |] eqn:Hsub.
    + apply (IH _ _ _ _ Hdesc). intros q mq Hq _. eapply Hall, Hq.
    + unfold MakeMenu in Hdesc.
      destruct (setSubmenu ctxmenu (s ++ [newMenu zero ctxmenu (length s)]) p
                           (length (items m) - 1) (length s))
        as [s2 | | |] eqn:Hset; try discriminate.
      cbn [bind] in Hdesc. apply (IH _ _ _ _ Hdesc).
      eapply setSubmenu_filled; [exact Hset |].
      intros q mq Hq Hne.
      apply lookup_app_Some in Hq as [Hq | [Hge Hq]]; [eapply Hall, Hq |].
      apply list_lookup_singleton_Some in Hq as [Hz _]. lia.
Qed.

(** An [Append] that returns no error leaves no menu without items, when
    at most the menu it started from was. *)
Lemma Append_filled s (p : nat) (lbl : string) (out : T) (img : string)
      (depth : Z) s' :
  Append zero ctxmenu s p lbl out img depth = Ok (s', None) ->
  filledBut s p -> allHaveItems s'.
Proof.
  unfold Append. intros Happ Hf.
  destruct (descend zero ctxmenu (Z.to_nat depth) s p)
    as [[s1 r] | | |] eqn:Hd; try discriminate.
  cbn [bind] in Happ. destruct r as [err | target]; [discriminate |].
  apply descend_filled in Hd; [| exact Hf].
  unfold AppendItem in Happ.
  destruct (s1 !! target) as [mt |] eqn:Ht; [| discriminate].
  cbn [deref bind] in Happ.
  destruct (makeItem ctxmenu target lbl out img) as [err | item];
    [discriminate |].
  injection Happ as <-. intros q m Hq.
  apply insert_cases in Hq as [[-> ->] | [Hne Hq]].
  - cbn [items set_itemsChanged set_items]. intros Hnil.
    apply app_eq_nil in Hnil as [_ Hnil]. discriminate.
  - eapply Hd; eassumption.
Qed.

(** *** The area of the menus of a tree *)

Lemma heights_nonneg (its : list (Item T)) :
  Forall (fun item => 0 < ih item) its -> 0 <= heights its.
Proof.
  induction 1 as [| item its Hitem _ IH]; [cbn; lia |].
  rewrite heights_cons. lia.
Qed.

Lemma heights_pos (its : list (Item T)) :
  its <> [] -> Forall (fun item => 0 < ih item) its -> 0 < heights its.
Proof.
  intros Hne Hall. destruct Hall as [| item its Hitem Hall];
    [contradiction |].
  rewrite heights_cons. pose proof (heights_nonneg its Hall). lia.
Qed.

(** A menu with items of a tree that was built has an area when it is
    laid out, with the sizes of a configuration in use. *)
Lemma built_hasArea s (q : nat) m :
  sizesPositive ctxmenu -> built zero ctxmenu s -> s !! q = Some m ->
  items m <> [] -> hasArea ctxmenu m.
Proof.
  intros (HB & HW & HP & HF & HA) Hb Hq Hne.
  destruct (built_unsized s q m Hb Hq) as [_ Hdirty].
  unfold hasArea, laidOut. rewrite (Hdirty Hne).
  assert (Hrows : Forall (fun item => 0 < ih item) (items m)).
  { apply Forall_forall. intros item Hin.
    destruct (built_sizes zero ctxmenu s Hb q m item Hq) as (_ & Hh & _).
    { apply list_elem_of_In, Hin. }
    rewrite Hh. unfold itemHeight.
    destruct (String.eqb (label item) EmptyString); [lia |].
    destruct (icon item); lia. }
  destruct (recompute_size ctxmenu m ltac:(lia) Hne) as (Hw & _ & Hcase).
  assert (Hh : 0 < mh (recompute ctxmenu m)).
  { destruct Hcase as [(_ & -> & _) | (j & _ & _ & -> & _)].
    - unfold totalHeight. pose proof (heights_pos _ Hne Hrows). lia.
    - unfold reserved.
      pose proof (heights_nonneg _ (Forall_take _ j _ Hrows)). lia. }
  unfold pixLen. rewrite !Z.abs_eq by lia.
  assert (0 < mw (recompute ctxmenu m) * mh (recompute ctxmenu m))
    by (apply Z.mul_pos_pos; lia).
  lia.
Qed.

(** A menu without items of such a tree has none. *)
Lemma built_noArea s (q : nat) m :
  built zero ctxmenu s -> s !! q = Some m -> items m = [] ->
  ~ hasArea ctxmenu m.
Proof.
  intros Hb Hq Hnil.
  destruct (built_unsized s q m Hb Hq) as [Hz _].
  destruct (built_fresh zero ctxmenu s q m Hb Hq) as [_ Hdirty].
  unfold hasArea, laidOut.
  destruct (itemsChanged m) eqn:Hc; [contradiction (Hdirty Hc) |].
  unfold pixLen. rewrite Hz. cbn [Z.abs]. lia.
Qed.

Lemma allHaveArea_built s :
  sizesPositive ctxmenu -> built zero ctxmenu s -> allHaveItems s ->
  allHaveArea ctxmenu s.
Proof.
  intros Hsz Hb Hall q m Hq. eapply built_hasArea; eauto.
Qed.

(** [show] returns from [openFile] only for a menu that has an area. *)
Lemma show_unmapped_area s (w : Wayland) (p : nat) (c : option nat) s'
      (w' : Wayland) m :
  show ctxmenu s w p c = Ok (s', w') -> s !! p = Some m ->
  surface m = None -> hasArea ctxmenu m.
Proof.
  unfold show. intros Hshow Hp Hsurf.
  destruct (hideChildren (length s) s p None) as [s1 | | |] eqn:Hh1;
    try discriminate.
  cbn [bind] in Hshow.
  match type of Hshow with
  | bind ?r _ = _ => destruct r as [s2 | | |] eqn:Hh2
  end; try discriminate.
  cbn [bind] in Hshow.
  assert (Hn12 : hidden s s2).
  { apply hideChildren_hidden in Hh1.
    eapply hidden_trans; [exact Hh1 |].
    destruct (if decide (c = Some p) then None else c) as [cp |].
    - eapply hideChildren_hidden, Hh2.
    - injection Hh2 as <-. apply hidden_refl. }
  assert (Hp2 : s2 !! p = Some m).
  { destruct Hn12 as [_ Hn]. destruct (Hn p m Hp) as [H | H]; [exact H |].
    rewrite H. f_equal. destruct m. cbn in Hsurf. subst. reflexivity. }
  rewrite Hp2 in Hshow. cbn [deref bind] in Hshow.
  match type of Hshow with
  | bind ?r _ = _ => destruct r as [m3 | | |] eqn:Hpl
  end; try discriminate.
  cbn [bind] in Hshow. unfold updateWindow in Hshow.
  rewrite list_lookup_insert_eq in Hshow by (eapply lookup_lt_Some, Hp2).
  cbn [deref bind] in Hshow.
  pose proof (place_nav ctxmenu _ _ _ _ Hpl) as (_ & Hs3 & _).
  pose proof (clamp_nav ctxmenu m3) as (_ & Hs4 & _).
  assert (Hnone : surface (clamp ctxmenu m3) = None).
  { rewrite Hs4, Hs3. destruct (itemsChanged m); [| exact Hsurf].
    unfold recompute.
    destruct (measure (items m) _ _) as [w1 h1].
    destruct (if MaxY (Monitor ctxmenu) <? h1 then _ else _) as [[w2 h2] ov].
    exact Hsurf. }
  rewrite Hnone in Hshow.
  destruct (Z.leb_spec (pixLen (clamp ctxmenu m3)) 0) as [Hzero | Hpos];
    [discriminate |].
  apply place_fields in Hpl as (Pw & Ph & _).
  pose proof (clamp_within ctxmenu m3) as (Cw & Ch & _).
  cbv zeta in Cw, Ch. unfold hasArea, laidOut.
  unfold pixLen in Hpos |- *. rewrite Cw, Ch, Pw, Ph in Hpos. exact Hpos.
Qed.

(** X10.  [Run] never panics.  On a tree that [MakeMenu] and [Append] built,
    started on any of its menus, with the compositor in any state and
    whatever events arrive, no slice is indexed out of range and no nil
    menu or surface is used.  [Run] ends in one of two ways.  After a
    finite sequence of events the loop is waiting for the next one, with
    the invariant of every menu intact and the current menu mapped, or
    [Run] has returned.  Or the process has ended in [openFile], which
    exits when there are no pixels to map; that happens only if some menu
    of the tree has no area when it is laid out.  With the sizes of a
    configuration in use and an item in every menu the process does not
    end; and it does end at once when the root menu has no item. *)
Theorem Run_never_panics s (w : Wayland) (root : nat) (events : list Event) :
  built zero ctxmenu s -> (root < length s)%nat ->
  ((Run zero ctxmenu hover s w root events = Fatal /\
    ~ allHaveArea ctxmenu s) \/
   exists o,
     Run zero ctxmenu hover s w root events = Ok o /\
     match o with
     | Continue l => loopOk l
     | Return _ _ _ => True
     end) /\
  (sizesPositive ctxmenu -> allHaveItems s ->
   exists o,
     Run zero ctxmenu hover s w root events = Ok o /\
     match o with
     | Continue l => loopOk l
     | Return _ _ _ => True
     end) /\
  (forall m, s !! root = Some m -> items m = [] ->
             Run zero ctxmenu hover s w root events = Fatal).
Proof.
  intros Hb Hroot.
  assert (Hcases :
           (Run zero ctxmenu hover s w root events = Fatal /\
            ~ allHaveArea ctxmenu s) \/
           exists o,
             Run zero ctxmenu hover s w root events = Ok o /\
             match o with
             | Continue l => loopOk l
             | Return _ _ _ => True
             end).
  { destruct (Run_cases zero ctxmenu hover s w root events Hb Hroot)
      as [Hfatal | (l0 & o & _ & _ & _ & _ & Hrun & _ & _ & _ & Ho)];
      [left; exact Hfatal | right].
    exists o. split; [exact Hrun |]. destruct o; [exact Ho | exact I]. }
  split; [exact Hcases |]. split.
  - intros Hsz Hall. destruct Hcases as [[_ Hnot] | Hok]; [| exact Hok].
    contradiction Hnot. apply allHaveArea_built; assumption.
  - intros m Hm Hnil.
    destruct (Run_cases zero ctxmenu hover s w root events Hb Hroot)
      as [[Hfatal _] | (l0 & o & Hstart & _)]; [exact Hfatal |].
    exfalso. unfold start in Hstart.
    destruct (show ctxmenu s w root None) as [[s1 w1] | | |] eqn:Hshow;
      try discriminate.
    apply (built_noArea s root m Hb Hm Hnil).
    eapply show_unmapped_area; [exact Hshow | exact Hm |].
    destruct (built_fresh zero ctxmenu s root m Hb Hm)
      as [(_ & _ & _ & Hsurf & _) _].
    exact Hsurf.
Qed.

End RunFacts.

Lemma fileTree_filled : allHaveItems fileTree.
Proof.
  intros q m Hq.
  destruct q as [| [| [| q]]]; vm_compute in Hq; [| | | discriminate];
    injection Hq as <-; discriminate.
Qed.

Lemma demoContext_sizes : sizesPositive demoContext.
Proof. unfold sizesPositive. cbn. lia. Qed.

(** X10, witness.  The tree of three menus, every one with an item: [Run]
    has not panicked and the process has not ended. *)
Lemma Run_never_panics_witness :
  exists o,
    Run EmptyString demoContext true fileTree noWayland 0 fileEvents = Ok o /\
    match o with
    | Continue l => loopOk l
    | Return _ _ _ => True
    end.
Proof.
  refine (proj1 (proj2 (Run_never_panics EmptyString demoContext true fileTree
                          noWayland 0 fileEvents fileTree_built _)) _ _).
  - vm_compute. lia.
  - exact demoContext_sizes.
  - exact fileTree_filled.
Defined.

(** ** parseColor *)

(** [ParseUint] reads the digits of either case, and nothing else. *)
Lemma hexDigit_hexVal (c : ascii) : hexDigit c = hexVal c.
Proof.
  destruct c as [b0 b1 b2 b3 b4 b5 b6 b7].
  destruct b0, b1, b2, b3, b4, b5, b6, b7; vm_compute; reflexivity.
Qed.

Lemma hexVal_range (c : ascii) (v : Z) : hexVal c = Some v -> 0 <= v <= 15.
Proof.
  unfold hexVal.
  destruct ((48 <=? byteOf c) && (byteOf c <=? 57)) eqn:H1.
  { intros [= <-]. apply andb_prop in H1 as [Ha Hb]. lia. }
  destruct ((65 <=? byteOf c) && (byteOf c <=? 70)) eqn:H2.
  { intros [= <-]. apply andb_prop in H2 as [Ha Hb]. lia. }
  destruct ((97 <=? byteOf c) && (byteOf c <=? 102)) eqn:H3; [| discriminate].
  intros [= <-]. apply andb_prop in H3 as [Ha Hb]. lia.
Qed.

Lemma ParseUint_pair (a b : ascii) :
  ParseUint_16_8 (String a (String b EmptyString)) = hexPair a b.
Proof.
  unfold ParseUint_16_8, hexPair. cbn [parseDigits].
  rewrite !hexDigit_hexVal.
  destruct (hexVal a) as [x |] eqn:Ha; [| reflexivity].
  pose proof (hexVal_range a x Ha) as Hx.
  change (2 ^ 60 <=? 0) with false. cbn iota.
  replace (0 * 16 + x) with x by lia.
  destruct (Z.ltb_spec x 0); [lia |].
  destruct (Z.ltb_spec 255 x); [lia |]. cbn [orb].
  destruct (hexVal b) as [y |] eqn:Hb; [| reflexivity].
  pose proof (hexVal_range b y Hb) as Hy.
  destruct (Z.leb_spec (2 ^ 60) x); [lia |].
  destruct (Z.ltb_spec (x * 16 + y) x); [lia |].
  destruct (Z.ltb_spec 255 (x * 16 + y)); [lia |]. cbn [orb].
  f_equal. lia.
Qed.

Lemma hexPair_range (a b : ascii) (v : Z) :
  hexPair a b = Some v -> 0 <= v <= 255.
Proof.
  unfold hexPair. destruct (hexVal a) as [x |] eqn:Ha; [| discriminate].
  destruct (hexVal b) as [y |] eqn:Hb; [| discriminate].
  intros [= <-]. apply hexVal_range in Ha, Hb. lia.
Qed.

Lemma hexPair_isHex (a b : ascii) :
  isHex a && isHex b = match hexPair a b with Some _ => true | None => false end.
Proof.
  unfold isHex, hexPair. destruct (hexVal a), (hexVal b); reflexivity.
Qed.

(** What [parseColor] does with the eight bytes it has arrived at. *)
Lemma parse_eight (a b c d e f g h : ascii) :
  let s := String a (String b (String c (String d (String e (String f
             (String g (String h EmptyString))))))) in
  match ParseUint_16_8 (substring 0 2 s) with
  | None => inl (InvalidColor s)
  | Some r =>
      match ParseUint_16_8 (substring 2 2 s) with
      | None => inl (InvalidColor s)
      | Some gg =>
          match ParseUint_16_8 (substring 4 2 s) with
          | None => inl (InvalidColor s)
          | Some bb =>
              match ParseUint_16_8 (substring 6 2 s) with
              | None => inl (InvalidColor s)
              | Some aa => inr (mkNRGBA r gg bb aa)
              end
          end
      end
  end
  = match colorOf a b c d e f g h with
    | Some col => inr col
    | None => inl (InvalidColor s)
    end.
Proof.
  cbv zeta. cbn [substring]. rewrite !ParseUint_pair. unfold colorOf.
  destruct (hexPair a b), (hexPair c d), (hexPair e f), (hexPair g h);
    reflexivity.
Qed.

Lemma hexVal_f : hexVal "f" = Some 15.
Proof. reflexivity. Qed.

Lemma parseSized_body (body : string) :
  match parseSized body with
  | inr col => bodyColor body = Some col
  | inl _ => bodyColor body = None
  end.
Proof.
  unfold parseSized.
  destruct body as [| a [| b [| c [| d [| e [| f [| g [| h [| i rest]]]]]]]]];
    try reflexivity.
  - (* three *)
    cbv zeta. rewrite (parse_eight a a b b c c "f" "f"). cbn [bodyColor].
    destruct (colorOf a a b b c c "f" "f"); reflexivity.
  - (* four *)
    cbv zeta. rewrite (parse_eight a a b b c c d d). cbn [bodyColor].
    destruct (colorOf a a b b c c d d); reflexivity.
  - (* six *)
    cbn [String.length Nat.eqb append]. cbv zeta.
    rewrite (parse_eight a b c d e f "f" "f"). cbn [bodyColor].
    destruct (colorOf a b c d e f "f" "f"); reflexivity.
  - (* eight *)
    cbn [String.length Nat.eqb]. cbv zeta.
    rewrite (parse_eight a b c d e f g h). cbn [bodyColor].
    destruct (colorOf a b c d e f g h); reflexivity.
Qed.

Lemma parseColor_body (s : string) :
  s <> EmptyString ->
  match parseColor s with
  | inr col => bodyColor (colorBody s) = Some col
  | inl _ => bodyColor (colorBody s) = None
  end.
Proof.
  intros Hne. destruct s as [| c0 s0]; [contradiction |].
  exact (parseSized_body (colorBody (String c0 s0))).
Qed.

Lemma parseSized_not_empty (body : string) : parseSized body <> inl EmptyColor.
Proof.
  unfold parseSized.
  repeat match goal with
         | |- context [match ?x with _ => _ end] => destruct x
         end; discriminate.
Qed.

Lemma colorOf_allHex (a b c d e f g h : ascii) :
  match colorOf a b c d e f g h with Some _ => true | None => false end
  = isHex a && isHex b && isHex c && isHex d && isHex e && isHex f
    && isHex g && isHex h.
Proof.
  unfold colorOf, hexPair, isHex.
  destruct (hexVal a), (hexVal b), (hexVal c), (hexVal d), (hexVal e),
    (hexVal f), (hexVal g), (hexVal h); reflexivity.
Qed.

Lemma bodyColor_valid (body : string) :
  (exists col, bodyColor body = Some col) <->
  allHex body = true /\
  (String.length body = 3 \/ String.length body = 4 \/
   String.length body = 6 \/ String.length body = 8)%nat.
Proof.
  assert (Hsome : forall o : option NRGBA,
             (exists col, o = Some col)
             <-> match o with Some _ => true | None => false end = true).
  { intros [col |]; split; eauto; try discriminate. intros [col [=]]. }
  destruct body as [| a [| b [| c [| d [| e [| f [| g [| h [| i rest]]]]]]]]];
    cbn [bodyColor String.length allHex].
  all: try (split; [intros [col [=]] | intros [_ Hlen]; lia]).
  - rewrite Hsome, colorOf_allHex. change (isHex "f") with true.
    destruct (isHex a), (isHex b), (isHex c); cbn; intuition (lia || congruence).
  - rewrite Hsome, colorOf_allHex.
    destruct (isHex a), (isHex b), (isHex c), (isHex d); cbn;
      intuition (lia || congruence).
  - rewrite Hsome, colorOf_allHex. change (isHex "f") with true.
    destruct (isHex a), (isHex b), (isHex c), (isHex d), (isHex e), (isHex f);
      cbn; intuition (lia || congruence).
  - rewrite Hsome, colorOf_allHex.
    destruct (isHex a), (isHex b), (isHex c), (isHex d), (isHex e), (isHex f),
      (isHex g), (isHex h); cbn; intuition (lia || congruence).
Qed.

Lemma parseColor_valid (s : string) :
  (exists col, parseColor s = inr col) <-> validColor s.
Proof.
  destruct (string_dec s EmptyString) as [-> | Hne].
  - split.
    + intros [col [=]].
    + intros [_ Hlen]. cbn in Hlen. lia.
  - pose proof (parseColor_body s Hne) as Hbody.
    pose proof (bodyColor_valid (colorBody s)) as Hvalid.
    unfold validColor. rewrite <- Hvalid.
    destruct (parseColor s) as [err | col].
    + rewrite Hbody. split; intros [col [=]].
    + rewrite Hbody. split; eauto.
Qed.

(** X16.  The colour strings [parseColor] accepts are exactly those of three,
    four, six or eight hexadecimal digits of either case, with or without
    one number sign in front; the empty string is refused as "empty color"
    and every other string as "invalid color". *)
Theorem parseColor_accepts (s : string) :
  ((exists col, parseColor s = inr col) <-> validColor s) /\
  (parseColor s = inl EmptyColor <-> s = EmptyString).
Proof.
  split; [apply parseColor_valid |].
  destruct s as [| c0 s0]; [split; reflexivity |].
  split; [| discriminate]. intros Hempty.
  exfalso. exact (parseSized_not_empty _ Hempty).
Qed.

(** X17.  The colour [parseColor] reads.  Eight digits give the four components
    red, green, blue and alpha, two digits each, the first of a pair counting
    sixteen; six digits give an opaque colour; in the forms of four and of
    three digits every digit stands for itself doubled.  Each component is
    within 0..255. *)
Theorem parseColor_value (s : string) (col : NRGBA) :
  (parseColor s = inr col <->
   s <> EmptyString /\ bodyColor (colorBody s) = Some col) /\
  (parseColor s = inr col ->
   0 <= colorR col <= 255 /\ 0 <= colorG col <= 255 /\
   0 <= colorB col <= 255 /\ 0 <= colorA col <= 255).
Proof.
  assert (Hiff : parseColor s = inr col <->
                 s <> EmptyString /\ bodyColor (colorBody s) = Some col).
  { split.
    - intros Hparse.
      assert (Hne : s <> EmptyString) by (intros ->; discriminate).
      pose proof (parseColor_body s Hne) as Hbody. rewrite Hparse in Hbody.
      auto.
    - intros [Hne Hbody]. pose proof (parseColor_body s Hne) as Hb.
      destruct (parseColor s) as [err | col']; congruence. }
  split; [exact Hiff |]. intros Hparse.
  apply Hiff in Hparse as [_ Hbody].
  assert (Hcol : forall a b c d e f g h,
             colorOf a b c d e f g h = Some col ->
             0 <= colorR col <= 255 /\ 0 <= colorG col <= 255 /\
             0 <= colorB col <= 255 /\ 0 <= colorA col <= 255).
  { intros a b c d e f g h. unfold colorOf.
    destruct (hexPair a b) eqn:H1; [| discriminate].
    destruct (hexPair c d) eqn:H2; [| discriminate].
    destruct (hexPair e f) eqn:H3; [| discriminate].
    destruct (hexPair g h) eqn:H4; [| discriminate].
    intros [= <-]. cbn.
    apply hexPair_range in H1, H2, H3, H4. auto. }
  unfold bodyColor in Hbody.
  destruct (colorBody s)
    as [| a [| b [| c [| d [| e [| f [| g [| h [| i rest]]]]]]]]];
    try discriminate; eapply Hcol, Hbody.
Qed.

(** X18.  [CtxMenuInit] gets past its colours exactly when all six colour
    strings of the configuration name a colour: three, four, six or eight
    hexadecimal digits, with or without a number sign in front. *)
Theorem initColors_accepts (conf : ColorConfig) :
  (exists cols, initColors conf = inr cols) <->
  validColor (BackgroundColor conf) /\ validColor (ForegroundColor conf) /\
  validColor (SelbackgroundColor conf) /\
  validColor (SelforegroundColor conf) /\
  validColor (SeparatorColor conf) /\ validColor (BorderColor conf).
Proof.
  assert (Hone : forall s, validColor s
                           <-> exists col, parseColor s = inr col).
  { intros s. symmetry. apply parseColor_valid. }
  rewrite !Hone. unfold initColors. split.
  - intros [cols Hinit].
    destruct (parseColor (BackgroundColor conf)); [discriminate |].
    destruct (parseColor (ForegroundColor conf)); [discriminate |].
    destruct (parseColor (SelbackgroundColor conf)); [discriminate |].
    destruct (parseColor (SelforegroundColor conf)); [discriminate |].
    destruct (parseColor (SeparatorColor conf)); [discriminate |].
    destruct (parseColor (BorderColor conf)); [discriminate |].
    repeat split; eexists; reflexivity.
  - intros ([c1 ->] & [c2 ->] & [c3 ->] & [c4 ->] & [c5 ->] & [c6 ->]).
    eauto.
Qed.

(** "#3584E4", a colour of the configuration the program ships with, and
    the short form "#fff". *)
Example parseColor_samples :
  parseColor "#3584E4" = inr (mkNRGBA 53 132 228 255) /\
  parseColor "#fff" = inr (mkNRGBA 255 255 255 255) /\
  parseColor "08f8" = inr (mkNRGBA 0 136 255 136) /\
  parseColor "#" = inl (InvalidColor "") /\
  parseColor "#xyz" = inl (InvalidColor "xxyyzzff").
Proof. repeat split. Qed.

(** ** SubImage *)

Section SubImageFacts.
Variable Image : Type.
Variable Color : Type.
Variable srcAt : Image -> Z -> Z -> option Color.
Variable srcSet : Image -> Z -> Z -> Color -> Image.

(** What is assumed of the image behind: [Set] changes the pixel it is
    given and no other. *)
Hypothesis set_other :
  forall img x y c x' y',
    (x', y') <> (x, y) ->
    srcAt (srcSet img x y c) x' y' = srcAt img x' y'.
Hypothesis set_same :
  forall img x y c, srcAt (srcSet img x y c) x y = Some c.

Implicit Types si : SubImage Image.

Lemma outside_spec si (x y : Z) :
  outside si x y = false <->
  inRect (SRect si) (MinX (SRect si) + x) (MinY (SRect si) + y).
Proof.
  unfold outside, inRect, Dx, Dy. rewrite !orb_false_iff.
  rewrite !Z.ltb_ge, !Z.leb_gt. lia.
Qed.

(** X19.  Painting through a [SubImage] stays inside it.  [Set] leaves the
    rectangle of the sub-image as it is and changes no pixel of the image
    behind that lies outside this rectangle; so what is seen through
    another sub-image of the same image, over a rectangle apart from it,
    is the same before and after. *)
Theorem SubImage_Set_confined si (x y : Z) (c : Color) :
  let si' := SubImage_Set srcSet si x y c in
  SRect si' = SRect si /\
  (forall px py, ~ inRect (SRect si) px py ->
                 srcAt (Src si') px py = srcAt (Src si) px py) /\
  (forall (other : Rectangle) (x' y' : Z),
      apart (SRect si) other ->
      SubImage_At srcAt (mkSubImage (Src si') other) x' y'
      = SubImage_At srcAt (mkSubImage (Src si) other) x' y').
Proof.
  cbv zeta. unfold SubImage_Set.
  destruct (outside si x y) eqn:Hout; [auto |].
  apply outside_spec in Hout. cbn [Src SRect].
  split; [reflexivity |].
  assert (Hframe : forall px py, ~ inRect (SRect si) px py ->
            srcAt (srcSet (Src si) (MinX (SRect si) + x)
                          (MinY (SRect si) + y) c) px py
            = srcAt (Src si) px py).
  { intros px py Hnot. apply set_other. intros [= -> ->]. contradiction. }
  split; [exact Hframe |].
  intros other x' y' Hapart. unfold SubImage_At, outside. cbn [Src SRect].
  destruct ((x' <? 0) || (Dx other <=? x') || (y' <? 0) || (Dy other <=? y'))
    eqn:Hout'; [reflexivity |].
  apply Hframe. intros Hin. apply (Hapart _ _ Hin).
  apply (outside_spec (mkSubImage (Src si) other)). exact Hout'.
Qed.

(** X20.  Within its bounds a [SubImage] behaves as an image: the colour set at
    a position is the colour found there.  Outside, [Set] does nothing and
    [At] answers nil.  The bounds are the rectangle moved to the origin,
    provided its corners are in order. *)
Theorem SubImage_At_Set si (x y : Z) (c : Color) :
  MinX (SRect si) <= MaxX (SRect si) ->
  MinY (SRect si) <= MaxY (SRect si) ->
  (inRect (SubImage_Bounds si) x y ->
   SubImage_At srcAt (SubImage_Set srcSet si x y c) x y = Some c) /\
  (~ inRect (SubImage_Bounds si) x y ->
   SubImage_Set srcSet si x y c = si /\ SubImage_At srcAt si x y = None).
Proof.
  intros Hx Hy.
  assert (Hb : inRect (SubImage_Bounds si) x y <-> outside si x y = false).
  { unfold SubImage_Bounds, Rect, inRect, outside, Dx, Dy.
    destruct (Z.ltb_spec (MaxX (SRect si) - MinX (SRect si)) 0); [lia |].
    destruct (Z.ltb_spec (MaxY (SRect si) - MinY (SRect si)) 0); [lia |].
    cbn [MinX MinY MaxX MaxY]. rewrite !orb_false_iff, !Z.ltb_ge, !Z.leb_gt.
    lia. }
  unfold SubImage_At, SubImage_Set. split.
  - intros Hin. apply Hb in Hin. rewrite Hin.
    unfold outside in *. cbn [Src SRect]. rewrite Hin. apply set_same.
  - intros Hnot. destruct (outside si x y) eqn:Hout; [auto |].
    exfalso. apply Hnot, Hb. reflexivity.
Qed.

End SubImageFacts.

Lemma canvas_set_other (img : Canvas) (x y : Z) (c : nat) (x' y' : Z) :
  (x', y') <> (x, y) ->
  canvasAt (canvasSet img x y c) x' y' = canvasAt img x' y'.
Proof.
  intros Hne. unfold canvasAt, canvasSet.
  destruct (Z.eqb_spec x' x) as [-> |]; [| reflexivity].
  destruct (Z.eqb_spec y' y) as [-> |]; [| reflexivity].
  contradiction Hne. reflexivity.
Qed.

Lemma canvas_set_same (img : Canvas) (x y : Z) (c : nat) :
  canvasAt (canvasSet img x y c) x y = Some c.
Proof. unfold canvasAt, canvasSet. rewrite !Z.eqb_refl. reflexivity. Qed.

(** X19, witness.  A pixel set through the first row of a menu: a window
    over any rectangle apart from that row shows what it showed. *)
Lemma SubImage_Set_confined_witness :
  let si' := SubImage_Set canvasSet rowOne 5 5 7%nat in
  SRect si' = SRect rowOne /\
  (forall px py, ~ inRect (SRect rowOne) px py ->
                 canvasAt (Src si') px py = canvasAt (Src rowOne) px py) /\
  (forall (other : Rectangle) (x' y' : Z),
      apart (SRect rowOne) other ->
      SubImage_At canvasAt (mkSubImage (Src si') other) x' y'
      = SubImage_At canvasAt (mkSubImage (Src rowOne) other) x' y').
Proof.
  apply (SubImage_Set_confined Canvas nat canvasAt canvasSet canvas_set_other
                               rowOne 5 5 7%nat).
Defined.

(** X20, witness.  The same pixel is found where it was set. *)
Lemma SubImage_At_Set_witness :
  (inRect (SubImage_Bounds rowOne) 5 5 ->
   SubImage_At canvasAt (SubImage_Set canvasSet rowOne 5 5 7%nat) 5 5
   = Some 7%nat) /\
  (~ inRect (SubImage_Bounds rowOne) 5 5 ->
   SubImage_Set canvasSet rowOne 5 5 7%nat = rowOne /\
   SubImage_At canvasAt rowOne 5 5 = None).
Proof.
  apply (SubImage_At_Set Canvas nat canvasAt canvasSet canvas_set_same
                         rowOne 5 5 7%nat).
  - vm_compute. discriminate.
  - vm_compute. discriminate.
Defined.

(** ** The lines of the input *)

Lemma stripTabs_tabs (d : nat) (rest : list Z) (depth : Z) :
  stripTabs (repeat delim d ++ rest) depth
  = stripTabs rest (depth + Z.of_nat d).
Proof.
  revert depth. induction d as [| d IH]; intros depth; cbn [repeat app].
  - f_equal. lia.
  - cbn [stripTabs]. change (delim =? delim) with true. cbn iota.
    rewrite IH. f_equal. lia.
Qed.

Lemma stripTabs_depth (text : list Z) (depth : Z) :
  depth <= fst (stripTabs text depth).
Proof.
  revert depth. induction text as [| r rest IH]; intros depth; cbn; [lia |].
  destruct (r =? delim); cbn; [| lia]. specialize (IH (depth + 1)). lia.
Qed.

Lemma stripTabs_shift (text : list Z) (depth : Z) :
  stripTabs text depth
  = (fst (stripTabs text 0) + depth, snd (stripTabs text 0)).
Proof.
  revert depth. induction text as [| r rest IH]; intros depth; cbn [stripTabs].
  - cbn. f_equal.
  - destruct (r =? delim); [| cbn; f_equal].
    rewrite (IH (depth + 1)), (IH (0 + 1)). cbn [fst snd]. f_equal. lia.
Qed.

Lemma stripTabs_plain (text : list Z) (depth : Z) :
  match text with [] => True | r :: _ => r <> 9 end ->
  stripTabs text depth = (depth, text).
Proof.
  destruct text as [| r rest]; [reflexivity |]. intros Hr. cbn [stripTabs].
  destruct (Z.eqb_spec r delim) as [Heq | _]; [contradiction | reflexivity].
Qed.

Lemma byteChar_tab (v : Z) : byteChar v = tabChar -> v mod 256 = 9.
Proof.
  unfold byteChar, tabChar. intros Heq.
  apply (f_equal N_of_ascii) in Heq.
  assert (Hlt : 0 <= v mod 256 < 256) by (apply Z.mod_pos_bound; lia).
  rewrite !N_ascii_embedding in Heq by lia. lia.
Qed.

Lemma high_byte_not_tab (v : Z) : Z.testbit v 7 = true -> byteChar v <> tabChar.
Proof.
  intros Hbit Heq. apply byteChar_tab in Heq.
  assert (Hb : Z.testbit (v mod 2 ^ 8) 7 = Z.testbit v 7)
    by (apply Z.mod_pow2_bits_low; lia).
  change (2 ^ 8) with 256 in Hb. rewrite Heq, Hbit in Hb. discriminate.
Qed.

Lemma lor_high (a y : Z) :
  Z.testbit a 7 = true -> byteChar (Z.lor a y) <> tabChar.
Proof.
  intros Ha. apply high_byte_not_tab. rewrite Z.lor_spec, Ha. reflexivity.
Qed.

Lemma low_byte_not_tab (r : Z) :
  plainRune r -> r mod 2 ^ 32 <= 127 -> byteChar r <> tabChar.
Proof.
  intros [[Hlo Hhi] Hne] Hsmall Heq. apply byteChar_tab in Heq.
  change (2 ^ 32) with 4294967296 in Hsmall.
  change (2 ^ 31) with 2147483648 in Hlo, Hhi.
  Z.to_euclidean_division_equations. lia.
Qed.

(** A rune other than the tab has no tab among its bytes, and at least one
    byte. *)
Lemma encodeRune_noTab (r : Z) :
  plainRune r -> noTab (encodeRune r) /\ encodeRune r <> EmptyString.
Proof.
  intros Hr. unfold encodeRune. cbv zeta.
  destruct (Z.leb_spec (r mod 2 ^ 32) 127) as [H1 | H1].
  { split; [| discriminate]. cbn [noTab].
    split; [apply low_byte_not_tab; assumption | exact I]. }
  destruct (r mod 2 ^ 32 <=? 2047).
  { split; [| discriminate]. cbn [noTab].
    repeat split; apply lor_high; reflexivity. }
  destruct ((1114111 <? r mod 2 ^ 32)
            || ((55296 <=? r mod 2 ^ 32) && (r mod 2 ^ 32 <=? 57343))).
  { split; [| discriminate]. cbn [noTab].
    repeat split; apply high_byte_not_tab; reflexivity. }
  destruct (r mod 2 ^ 32 <=? 65535);
    (split; [| discriminate]); cbn [noTab];
    repeat split; apply lor_high; reflexivity.
Qed.

Lemma encodeRune_tab : encodeRune delim = String tabChar EmptyString.
Proof. reflexivity. Qed.

Lemma noTab_app (s t : string) :
  noTab s -> noTab t -> noTab (s ++ t)%string.
Proof.
  induction s as [| c s IH]; cbn; [auto |]. intros [Hc Hs] Ht. auto.
Qed.

Lemma append_assoc (a b c : string) :
  ((a ++ b) ++ c = a ++ (b ++ c))%string.
Proof.
  induction a as [| x a IH]; cbn [String.append]; [reflexivity |].
  rewrite IH. reflexivity.
Qed.

Lemma append_nil_r (a : string) : (a ++ EmptyString)%string = a.
Proof.
  induction a as [| x a IH]; cbn [String.append]; [reflexivity |].
  rewrite IH. reflexivity.
Qed.

Lemma stringOfRunes_app (a b : list Z) :
  stringOfRunes (a ++ b) = (stringOfRunes a ++ stringOfRunes b)%string.
Proof.
  induction a as [| r a IH]; cbn [app stringOfRunes]; [reflexivity |].
  rewrite IH. symmetry. apply append_assoc.
Qed.

Lemma field_noTab (f : list Z) :
  isField f -> noTab (stringOfRunes f) /\ stringOfRunes f <> EmptyString.
Proof.
  intros [Hne Hall]. split.
  - clear Hne. induction Hall as [| r f Hr _ IH]; cbn [stringOfRunes noTab];
      [exact I |].
    apply noTab_app; [apply encodeRune_noTab, Hr | exact IH].
  - destruct Hall as [| r f Hr _]; [contradiction |]. cbn [stringOfRunes].
    destruct (encodeRune_noTab r Hr) as [_ Hr'].
    destruct (encodeRune r); [contradiction | discriminate].
Qed.

(** ** Splitting at the tabs *)

Lemma splitOn_field (s t : string) :
  noTab s ->
  splitOn tabChar (s ++ String tabChar t) = s :: splitOn tabChar t.
Proof.
  induction s as [| c s IH]; cbn [String.append splitOn noTab].
  - intros _. rewrite Ascii.eqb_refl. reflexivity.
  - intros [Hc Hs]. apply Ascii.eqb_neq in Hc. rewrite Hc, (IH Hs).
    reflexivity.
Qed.

Lemma splitOn_plain (s : string) : noTab s -> splitOn tabChar s = [s].
Proof.
  induction s as [| c s IH]; cbn [splitOn noTab]; [reflexivity |].
  intros [Hc Hs]. apply Ascii.eqb_neq in Hc. rewrite Hc, (IH Hs). reflexivity.
Qed.

Lemma fieldsOf_tab (t : string) : fieldsOf (String tabChar t) = fieldsOf t.
Proof.
  unfold fieldsOf. cbn [splitOn]. rewrite Ascii.eqb_refl. reflexivity.
Qed.

Lemma fieldsOf_field (s t : string) :
  noTab s -> s <> EmptyString ->
  fieldsOf (s ++ String tabChar t) = s :: fieldsOf t.
Proof.
  intros Hs Hne. unfold fieldsOf. rewrite splitOn_field by exact Hs.
  cbn [List.filter]. apply String.eqb_neq in Hne. rewrite Hne. reflexivity.
Qed.

Lemma fieldsOf_plain (s : string) :
  noTab s -> s <> EmptyString -> fieldsOf s = [s].
Proof.
  intros Hs Hne. unfold fieldsOf. rewrite splitOn_plain by exact Hs.
  cbn [List.filter]. apply String.eqb_neq in Hne. rewrite Hne. reflexivity.
Qed.

Lemma fieldsOf_tabs (k : nat) (x : list Z) :
  fieldsOf (stringOfRunes (repeat delim k ++ x)) = fieldsOf (stringOfRunes x).
Proof.
  induction k as [| k IH]; cbn [repeat app stringOfRunes]; [reflexivity |].
  rewrite encodeRune_tab. cbn [String.append]. rewrite fieldsOf_tab. exact IH.
Qed.

Lemma joinFields_head (fs : list (list Z * nat)) :
  Forall (fun f => isField (fst f)) fs ->
  match joinFields fs with [] => True | r :: _ => r <> 9 end.
Proof.
  intros Hfs. destruct Hfs as [| [f k] rest [Hne Hall] _]; cbn [joinFields];
    [exact I |].
  cbn [fst] in *. destruct Hall as [| r f [_ Hr] _]; [contradiction |].
  destruct rest; exact Hr.
Qed.

(** The fields of a line are the runs of runes between its tabs. *)
Lemma fieldsOf_joinFields (fs : list (list Z * nat)) :
  Forall (fun f => isField (fst f)) fs ->
  fieldsOf (stringOfRunes (joinFields fs)) = fieldStrings fs.
Proof.
  induction 1 as [| [f k] rest Hf _ IH]; [reflexivity |].
  cbn [fst] in Hf. destruct (field_noTab f Hf) as [Hno Hne].
  cbn [joinFields fieldStrings map fst]. destruct rest as [| g rest].
  - rewrite stringOfRunes_app. destruct k as [| k].
    + cbn [repeat stringOfRunes]. rewrite append_nil_r.
      apply fieldsOf_plain; assumption.
    + cbn [repeat stringOfRunes]. rewrite encodeRune_tab. cbn [String.append].
      rewrite fieldsOf_field by assumption. f_equal.
      rewrite <- (app_nil_r (repeat delim k)). apply (fieldsOf_tabs k []).
  - rewrite stringOfRunes_app. cbn [repeat app stringOfRunes].
    rewrite encodeRune_tab. cbn [String.append].
    rewrite fieldsOf_field by assumption. f_equal.
    rewrite fieldsOf_tabs. exact IH.
Qed.

(** Every line is leading tabs and fields with tabs after them. *)
Lemma line_shape (text : list Z) :
  Forall inRune text ->
  exists (d : nat) (fs : list (list Z * nat)),
    Forall (fun f => isField (fst f)) fs /\
    text = repeat delim d ++ joinFields fs.
Proof.
  induction 1 as [| r text Hr _ (d & fs & Hfs & ->)].
  - exists 0%nat, []. split; [constructor | reflexivity].
  - destruct (Z.eq_dec r 9) as [-> | Hne].
    + exists (S d), fs. split; [exact Hfs | reflexivity].
    + assert (Hplain : plainRune r) by (split; assumption).
      destruct d as [| d].
      * destruct fs as [| [f k] rest].
        -- exists 0%nat, [([r], 0%nat)]. split; [| reflexivity].
           constructor; [| constructor]. cbn [fst].
           split; [discriminate | constructor; [exact Hplain | constructor]].
        -- exists 0%nat, ((r :: f, k) :: rest). split.
           ++ inversion Hfs as [| ? ? [Hne' Hall] Hrest]; subst.
              constructor; [| exact Hrest]. cbn [fst] in *.
              split; [discriminate | constructor; assumption].
           ++ cbn [repeat app joinFields]. destruct rest; reflexivity.
      * assert (Hone : isField [r])
          by (split; [discriminate | constructor; [exact Hplain | constructor]]).
        destruct fs as [| g fs].
        -- exists 0%nat, [([r], S d)]. split; [| cbn; rewrite app_nil_r; reflexivity].
           constructor; [exact Hone | constructor].
        -- exists 0%nat, (([r], d) :: g :: fs). split; [| reflexivity].
           constructor; [exact Hone | exact Hfs].
Qed.

Lemma parseLine_fields (d : nat) (fs : list (list Z * nat)) :
  Forall (fun f => isField (fst f)) fs ->
  parseLine (repeat delim d ++ joinFields fs)
  = match fieldStrings fs with
    | [] => Ok (mkLine (Z.of_nat d) EmptyString EmptyString EmptyString)
    | [f0] => Ok (mkLine (Z.of_nat d) f0 f0 EmptyString)
    | [f0; f1] => Ok (mkLine (Z.of_nat d) f0 f1 EmptyString)
    | [f0; f1; f2] => Ok (mkLine (Z.of_nat d) f1 f2 (TrimPrefix f0 "IMG:"))
    | _ => Panic
    end.
Proof.
  intros Hfs. unfold parseLine.
  rewrite stripTabs_tabs, (stripTabs_plain _ _ (joinFields_head fs Hfs)).
  rewrite fieldsOf_joinFields by exact Hfs. reflexivity.
Qed.

(** X21.  The lines the program reads.  A line of runes is leading tabs and
    then fields, each a run of runes without a tab, with one tab or more
    after each field but the last and any number of tabs after the last.
    The leading tabs are the depth.  No field makes a separator; one field
    is label and output; two are label and output; three are the icon, from
    which a prefix [IMG:] is removed, then label and output; with four or
    more the program panics.  Runes of several bytes do not matter: none of
    their bytes is a tab. *)
Theorem parseLine_grammar (text : list Z) :
  Forall inRune text ->
  (exists (d : nat) (fs : list (list Z * nat)),
      Forall (fun f => isField (fst f)) fs /\
      text = repeat delim d ++ joinFields fs) /\
  (forall (d : nat) (fs : list (list Z * nat)),
      Forall (fun f => isField (fst f)) fs ->
      text = repeat delim d ++ joinFields fs ->
      parseLine text
      = match fieldStrings fs with
        | [] => Ok (mkLine (Z.of_nat d) EmptyString EmptyString EmptyString)
        | [f0] => Ok (mkLine (Z.of_nat d) f0 f0 EmptyString)
        | [f0; f1] => Ok (mkLine (Z.of_nat d) f0 f1 EmptyString)
        | [f0; f1; f2] =>
            Ok (mkLine (Z.of_nat d) f1 f2 (TrimPrefix f0 "IMG:"))
        | _ => Panic
        end).
Proof.
  intros Hrunes. split; [apply line_shape, Hrunes |].
  intros d fs Hfs ->. apply parseLine_fields, Hfs.
Qed.

Lemma parseLine_depth (text : list Z) (line : Line) :
  parseLine text = Ok line -> lineDepth line = depthOf text /\ 0 <= depthOf text.
Proof.
  unfold parseLine, depthOf. pose proof (stripTabs_depth text 0) as Hd.
  destruct (stripTabs text 0) as [depth rest]. cbn [fst] in *.
  destruct (fieldsOf (stringOfRunes rest)) as [| f0 [| f1 [| f2 [| f3 fs]]]];
    intros [= <-]; cbn [lineDepth]; auto.
Qed.

Lemma parseLine_returns (text : list Z) :
  parseLine text = Panic \/ exists line, parseLine text = Ok line.
Proof.
  unfold parseLine. destruct (stripTabs text 0) as [depth rest].
  destruct (fieldsOf (stringOfRunes rest)) as [| f0 [| f1 [| f2 [| f3 fs]]]];
    eauto.
Qed.

(** ** The nesting of the lines *)

Section ProgramFacts.
Variable ctxmenu : ContextMenu.

Lemma readLines_from (lines : list (list Z)) :
  forall (s : list (Menu string)) (root n : nat) (opn : bool) (prev : Z),
    built EmptyString ctxmenu s -> chain s root n opn ->
    Z.of_nat n = prev + 1 ->
    ((Forall (lineOk ctxmenu) lines /\ nested prev (map depthOf lines)) /\
     exists s', readLines ctxmenu s root lines = Ok s' /\
                built EmptyString ctxmenu s' /\ (root < length s')%nat) \/
    (~ (Forall (lineOk ctxmenu) lines /\ nested prev (map depthOf lines)) /\
     readLines ctxmenu s root lines = Panic).
Proof.
  induction lines as [| text rest IH]; intros s root n opn prev Hb Hchain Hn.
  - cbn [readLines map nested]. left.
    split; [split; [constructor | exact I] |].
    exists s. split; [reflexivity |]. split; [exact Hb |].
    destruct Hchain as [p m Hp _ | p m tail Hp _ _ | p m tail sub n opn Hp _ _ _];
      eapply lookup_lt_Some, Hp.
  - cbn [readLines map nested]. unfold appendLine.
    destruct (parseLine_returns text) as [Hpanic | (line & Hline)].
    { rewrite Hpanic. cbn [bind]. right. split; [| reflexivity].
      intros [Hall _]. inversion Hall as [| ? ? (line & Hline & _) _]; subst.
      congruence. }
    rewrite Hline. cbn [bind].
    destruct (parseLine_depth text line Hline) as [Hd Hd0]. rewrite Hd.
    destruct (built_good EmptyString ctxmenu s Hb) as [Hgood _].
    pose proof (built_links EmptyString ctxmenu s Hb) as Hl.
    destruct (Z_le_gt_dec (depthOf text) (prev + 1)) as [Hle | Hgt].
    + destruct (Append_chain_cases EmptyString ctxmenu s root n opn
                  (lineLabel line) (lineOutput line) (lineImage line)
                  (depthOf text) Hgood Hl Hchain) as [Hok Herr]; [lia |].
      destruct (iconLoads ctxmenu (lineLabel line) (lineImage line)) eqn:Hicon.
      * destruct (Hok eq_refl)
          as (s' & t & m' & item & Happ & _ & _ & _ & _ & _ & _ & _ & Hchain' & _).
        rewrite Happ. cbn [bind].
        assert (Hb' : built EmptyString ctxmenu s')
          by (eapply built_append; eassumption).
        destruct (IH s' root (S (Z.to_nat (depthOf text))) true (depthOf text)
                     Hb' Hchain') as [[[Hall Hnest] Hex] | [Hnot Hpanic]];
          [lia | left | right].
        -- split; [| exact Hex]. split; [| split; assumption].
           constructor; [| exact Hall]. exists line. auto.
        -- split; [| exact Hpanic]. intros [Hall [_ Hnest]]. apply Hnot.
           split; [| exact Hnest]. inversion Hall; assumption.
      * destruct (Herr eq_refl) as (s' & Happ). rewrite Happ. cbn [bind].
        right. split; [| reflexivity].
        intros [Hall _]. inversion Hall as [| ? ? (line' & Hline' & Hicon') _].
        subst. assert (line' = line) as -> by congruence. congruence.
    + destruct Hgood as [Hwf _].
      destruct (descend_too_deep EmptyString ctxmenu s Hwf root n opn Hchain
                  (Z.to_nat (depthOf text))) as (s' & Hdesc & _); [lia |].
      unfold Append. rewrite Hdesc. cbn [bind]. right. split; [| reflexivity].
      intros [_ [Hle _]]. lia.
Qed.

Lemma rootStore_built : built EmptyString ctxmenu (rootStore ctxmenu).
Proof. apply built_make, built_nil. Qed.

Lemma rootStore_chain : chain (rootStore ctxmenu) 0 0 false.
Proof. eapply chain_empty; reflexivity. Qed.

(** X22.  The nesting of the lines.  The program builds its menu from the
    lines exactly when every line has at most three fields and an icon
    that loads, the first line has no leading tab, and no line has more
    than one leading tab more than the line before it.  In every other
    case it panics; it does not skip a line.  A line may go back up by
    any number of levels. *)
Theorem readLines_nesting (lines : list (list Z)) :
  ((Forall (lineOk ctxmenu) lines /\ nested (-1) (map depthOf lines)) <->
   exists s, readLines ctxmenu (rootStore ctxmenu) 0 lines = Ok s) /\
  (forall s, readLines ctxmenu (rootStore ctxmenu) 0 lines = Ok s ->
             built EmptyString ctxmenu s /\ (0 < length s)%nat) /\
  ((forall s, readLines ctxmenu (rootStore ctxmenu) 0 lines <> Ok s) ->
   readLines ctxmenu (rootStore ctxmenu) 0 lines = Panic).
Proof.
  destruct (readLines_from lines (rootStore ctxmenu) 0 0 false (-1)
              rootStore_built rootStore_chain eq_refl)
    as [[Hcond (s0 & Hs0 & Hb & Hlen)] | [Hnot Hpanic]].
  - split; [split; [eauto | intros _; exact Hcond] |]. split.
    + intros s Hs. assert (s = s0) as -> by congruence. auto.
    + intros Hnone. contradiction (Hnone s0 Hs0).
  - split; [split; [intros H; contradiction |] |].
    + intros (s & Hs). rewrite Hpanic in Hs. discriminate.
    + split; [| intros _; exact Hpanic].
      intros s Hs. rewrite Hpanic in Hs. discriminate.
Qed.

(** ** What [main] prints *)

Implicit Types l : Loop string.

Lemma finish_hovered l (action : Action) (o : Outcome string) :
  finish l action = Ok o -> hovered (loopOf o) = hovered l.
Proof.
  unfold finish.
  destruct (if negb (Z.land action ActionDraw =? 0)
            then draw (store l) (wl l) (curmenu l) else Ok (wl l));
    cbn [bind]; try discriminate.
  destruct (if negb (Z.land action ActionWarp =? 0)
            then do cm <- deref (store l !! curmenu l);
                 do _ <- warp cm; Ok true
            else Ok (warped l));
    cbn [bind]; try discriminate.
  intros [= <-]. reflexivity.
Qed.

(** One event adds to the hover calls at most the output of a labelled
    item of the current menu. *)
Lemma step_hovered l (event : Event) (o : Outcome string) :
  step EmptyString ctxmenu true l event = Ok o ->
  forall v, In v (hovered (loopOf o)) ->
            In v (hovered l) \/ labelledOutput (store l) v.
Proof.
  intros Hstep v Hv.
  assert (Hfin : forall l' action,
             finish l' action = Ok o -> hovered l' = hovered l ->
             In v (hovered l) \/ labelledOutput (store l) v).
  { intros l' action Hf Hh. left. rewrite <- Hh.
    rewrite <- (finish_hovered l' action o Hf). exact Hv. }
  destruct event as [| | | | y | axis value | pressed middle | | k1 k2 |];
    cbn [step] in Hstep;
    try (eapply Hfin; [exact Hstep | reflexivity]).
  - injection Hstep as <-. left. exact Hv.
  - (* motion *)
    unfold onMotion in Hstep.
    cbn [warped store wl seen curmenu buf previtem hasleft curY hovered]
      in Hstep.
    destruct (warped l); [eapply Hfin; [exact Hstep | reflexivity] |].
    destruct (store l !! curmenu l) as [m |] eqn:Hm; [| discriminate].
    cbn [deref bind] in Hstep.
    destruct (getitem ctxmenu m y) as [itemidx | | |]; [| discriminate ..].
    cbn [bind] in Hstep.
    destruct (itemidx =? -1); [injection Hstep as <-; left; exact Hv |].
    destruct (index (items m) itemidx) as [item |] eqn:Hitem;
      [| discriminate].
    cbn [deref bind] in Hstep.
    destruct (decide (previtem l = Some (curmenu l, Z.to_nat itemidx)));
      [injection Hstep as <-; left; exact Hv |].
    destruct (draw _ (wl l) (curmenu l)) as [w1 | | |]; [| discriminate ..].
    cbn [bind] in Hstep.
    destruct (match submenu item with
              | Some sub => _
              | None => _
              end) as [[cur s2] | | |]; [| discriminate ..].
    cbn [bind] in Hstep.
    destruct (show ctxmenu s2 w1 cur (Some (curmenu l))) as [[s3 w3] | | |];
      [| discriminate ..].
    cbn [bind] in Hstep.
    apply finish_hovered in Hstep. cbn [hovered] in Hstep.
    rewrite Hstep in Hv. rewrite andb_true_r in Hv.
    destruct (isSeparator item) eqn:Hsep; cbn [negb] in Hv;
      [left; exact Hv |].
    apply in_app_or in Hv. destruct Hv as [Hv | [Hout | Hnone]];
      [left; exact Hv | | destruct Hnone].
    right. apply index_lookup in Hitem.
    exists (curmenu l), m, (Z.to_nat itemidx), item.
    split; [exact Hm |]. split; [exact Hitem |]. split; [| exact Hout].
    unfold isSeparator in Hsep. apply String.eqb_neq. exact Hsep.
  - (* axis *)
    unfold onAxis in Hstep. destruct axis;
      [eapply Hfin; [exact Hstep | reflexivity] |].
    destruct (store l !! curmenu l) as [cm |]; [| discriminate].
    cbn [deref bind] in Hstep.
    destruct (overflow cm =? -1); [eapply Hfin; [exact Hstep | reflexivity] |].
    destruct (value <? 0); [eapply Hfin; [exact Hstep | reflexivity] |].
    destruct (0 <? value); eapply Hfin; try exact Hstep; reflexivity.
  - (* button *)
    unfold onButton in Hstep.
    destruct (negb pressed); [eapply Hfin; [exact Hstep | reflexivity] |].
    destruct (store l !! curmenu l) as [m |]; [| discriminate].
    cbn [deref bind] in Hstep.
    destruct (getitem ctxmenu m (curY l)) as [item | | |]; [| discriminate ..].
    cbn [bind] in Hstep.
    destruct (isoverflowitem ctxmenu m (curY l)) as [ov | | |];
      [| discriminate ..].
    cbn [bind] in Hstep.
    destruct ov; try (eapply Hfin; [exact Hstep | reflexivity]).
    destruct (item =? -1); [eapply Hfin; [exact Hstep | reflexivity] |].
    destruct (index (items m) item) as [it |]; [| discriminate].
    cbn [deref bind] in Hstep.
    destruct (isSeparator it); [injection Hstep as <-; left; exact Hv |].
    destruct (submenu it) as [sub |];
      [| injection Hstep as <-; left; exact Hv].
    destruct (show ctxmenu (store l) (wl l) sub (Some (curmenu l)))
      as [[s1 w1] | | |]; [| discriminate ..].
    cbn [bind] in Hstep.
    destruct (s1 !! sub) as [sm |]; [| discriminate].
    cbn [deref bind] in Hstep.
    eapply Hfin; [exact Hstep | reflexivity].
Qed.

Lemma labelledOutput_back (s s' : list (Menu string)) (v : string) :
  sameItems s s' -> labelledOutput s' v -> labelledOutput s v.
Proof.
  intros Hsame (q & m' & i & item & Hq & Hi & Hlbl & Hout).
  destruct (sameItems_back s s' q m' Hsame Hq) as (m & Hm & Hitems).
  exists q, m, i, item. rewrite <- Hitems. auto.
Qed.

Lemma loop_hovered (events : list Event) :
  forall l (o : Outcome string),
    loopOk l ->
    loop EmptyString ctxmenu true l events = Ok o ->
    forall v, In v (hovered (loopOf o)) ->
              In v (hovered l) \/ labelledOutput (store l) v.
Proof.
  induction events as [| event rest IH]; intros l o Hok Hloop v Hv.
  - injection Hloop as <-. left. exact Hv.
  - cbn [loop] in Hloop.
    destruct (step_turn EmptyString ctxmenu true l event Hok)
      as [[Hfatal _] | (o1 & Hstep & (Hsame & _ & Ho1) & _)];
      [rewrite Hfatal in Hloop; discriminate |].
    rewrite Hstep in Hloop. cbn [bind] in Hloop.
    destruct o1 as [l1 | v1 e1 l1].
    + cbn [loopOf] in Hsame.
      destruct (IH l1 o Ho1 Hloop v Hv) as [Hin | Hlab].
      * apply (step_hovered l event (Continue l1) Hstep v Hin).
      * right. eapply labelledOutput_back; eassumption.
    + injection Hloop as <-.
      apply (step_hovered l event (Return v1 e1 l1) Hstep v Hv).
Qed.

Lemma start_hovered (s : list (Menu string)) (w : Wayland) (root : nat) l :
  start ctxmenu s w root = Ok l -> hovered l = [].
Proof.
  unfold start.
  destruct (show ctxmenu s w root None) as [[s1 w1] | | |]; [| discriminate ..].
  cbn [bind]. destruct (draw s1 w1 root); [| discriminate ..].
  cbn [bind]. intros [= <-]. reflexivity.
Qed.

(** When the lines are read, every menu has an item, unless there was no
    line. *)
Lemma readLines_filled (lines : list (list Z)) :
  forall (s s' : list (Menu string)) (root : nat),
    lines <> [] -> filledBut s root ->
    readLines ctxmenu s root lines = Ok s' -> allHaveItems s'.
Proof.
  induction lines as [| text rest IH]; intros s s' root Hne Hf Hread;
    [contradiction |].
  cbn [readLines] in Hread. unfold appendLine in Hread.
  destruct (parseLine text) as [line | | |]; try discriminate.
  cbn [bind] in Hread.
  destruct (Append EmptyString ctxmenu s root (lineLabel line)
                   (lineOutput line) (lineImage line) (lineDepth line))
    as [[s1 [e |]] | | |] eqn:Happ; try discriminate.
  cbn [bind] in Hread.
  pose proof (Append_filled EmptyString ctxmenu s root _ _ _ _ s1 Happ Hf)
    as Hall.
  destruct rest as [| text' rest']; [injection Hread as <-; exact Hall |].
  apply (IH s1 s' root); [discriminate | | exact Hread].
  intros q m Hq _. eapply Hall, Hq.
Qed.

Lemma rootStore_filled : filledBut (rootStore ctxmenu) 0.
Proof.
  intros q m Hq Hne. destruct q as [| q]; [contradiction |].
  apply lookup_lt_Some in Hq. cbn in Hq. lia.
Qed.

(** What the program prints once [Run] has returned or come through the
    events. *)
Lemma Run_printed (s : list (Menu string)) (w : Wayland)
      (events : list Event) (o : Outcome string) :
  built EmptyString ctxmenu s -> (0 < length s)%nat ->
  Run EmptyString ctxmenu true s w 0 events = Ok o ->
  (forall v, In v (hovered (loopOf o)) -> labelledOutput s v) /\
  printed o
  = map hoverLine (hovered (loopOf o))
    ++ match o with
       | Continue _ => []
       | Return _ None _ => []
       | Return _ (Some _) _ => [newline]
       end.
Proof.
  intros Hb Hlen Hrun.
  destruct (Run_cases EmptyString ctxmenu true s w 0 events Hb Hlen)
    as [[Hfatal _]
       | (l0 & o' & Hstart & Hok & Hsame0 & _ & Hrun' & Hloop & _ & _ & Ho)];
    [congruence |].
  assert (o' = o) as -> by congruence.
  split.
  - intros v Hv.
    destruct (loop_hovered events l0 o Hok Hloop v Hv) as [Hin | Hlab].
    + rewrite (start_hovered s w 0 l0 Hstart) in Hin. destruct Hin.
    + eapply labelledOutput_back; eassumption.
  - unfold printed. f_equal. destruct o as [l | v [[] |] l]; try reflexivity.
    cbn in Ho. subst v. reflexivity.
Qed.

(** X23.  What [main] prints.  Once the lines are read, whatever events
    arrive and however many, the program does not panic.  Without any
    line the root menu has no item, and the process ends in [openFile]
    before anything is shown.  With lines, and the sizes of a
    configuration in use, [Run] goes on or returns, and the [Printf]
    statements of [main] write one line per call of the hover callback, a
    tab and the output of a labelled item of the menu that was read; after
    [Run] returned, they write one more line only if [Run] returned an
    error, and that line is empty.  The output of the item the user chose,
    which [Run] returns without error, is not printed after it.  Whatever
    the sizes, the program either ends in [openFile] or prints just
    that. *)
Theorem program_output (lines : list (list Z)) (w : Wayland)
        (events : list Event) (s : list (Menu string)) :
  readLines ctxmenu (rootStore ctxmenu) 0 lines = Ok s ->
  (lines = [] -> program ctxmenu lines w events = Fatal) /\
  (lines <> [] -> sizesPositive ctxmenu ->
   exists o : Outcome string,
     Run EmptyString ctxmenu true s w 0 events = Ok o /\
     program ctxmenu lines w events = Ok (printed o) /\
     (forall v, In v (hovered (loopOf o)) -> labelledOutput s v) /\
     printed o
     = map hoverLine (hovered (loopOf o))
       ++ match o with
          | Continue _ => []
          | Return _ None _ => []
          | Return _ (Some _) _ => [newline]
          end) /\
  (program ctxmenu lines w events = Fatal \/
   exists o : Outcome string,
     Run EmptyString ctxmenu true s w 0 events = Ok o /\
     program ctxmenu lines w events = Ok (printed o) /\
     (forall v, In v (hovered (loopOf o)) -> labelledOutput s v) /\
     printed o
     = map hoverLine (hovered (loopOf o))
       ++ match o with
          | Continue _ => []
          | Return _ None _ => []
          | Return _ (Some _) _ => [newline]
          end).
Proof.
  intros Hread.
  destruct (readLines_from lines (rootStore ctxmenu) 0 0 false (-1)
              rootStore_built rootStore_chain eq_refl)
    as [[_ (s0 & Hs0 & Hb & Hlen)] | [_ Hpanic]];
    [| rewrite Hpanic in Hread; discriminate].
  assert (s0 = s) as -> by congruence.
  assert (Hprog : program ctxmenu lines w events
                  = do o <- Run EmptyString ctxmenu true s w 0 events;
                    Ok (printed o)).
  { unfold program. cbn [MakeMenu].
    change ([] ++ [newMenu EmptyString ctxmenu (length [])])
      with (rootStore ctxmenu).
    cbn [length]. rewrite Hread. reflexivity. }
  assert (Hok : forall o,
             Run EmptyString ctxmenu true s w 0 events = Ok o ->
             exists o : Outcome string,
               Run EmptyString ctxmenu true s w 0 events = Ok o /\
               program ctxmenu lines w events = Ok (printed o) /\
               (forall v, In v (hovered (loopOf o)) -> labelledOutput s v) /\
               printed o
               = map hoverLine (hovered (loopOf o))
                 ++ match o with
                    | Continue _ => []
                    | Return _ None _ => []
                    | Return _ (Some _) _ => [newline]
                    end).
  { intros o Hrun. exists o. split; [exact Hrun |].
    split; [rewrite Hprog, Hrun; reflexivity |].
    apply (Run_printed s w events o Hb Hlen Hrun). }
  split; [| split].
  - intros ->. cbn [readLines] in Hread. injection Hread as <-.
    rewrite Hprog.
    destruct (Run_cases EmptyString ctxmenu true (rootStore ctxmenu) w 0
                        events Hb Hlen)
      as [[-> _] | (l0 & o & Hstart & _)]; [reflexivity |].
    exfalso. unfold start in Hstart.
    destruct (show ctxmenu (rootStore ctxmenu) w 0 None)
      as [[s1 w1] | | |] eqn:Hshow; [| discriminate Hstart ..].
    apply (built_noArea EmptyString ctxmenu (rootStore ctxmenu) 0
                        (newMenu EmptyString ctxmenu 0) Hb eq_refl eq_refl).
    eapply show_unmapped_area; [exact Hshow | reflexivity | reflexivity].
  - intros Hne Hsz.
    destruct (Run_cases EmptyString ctxmenu true s w 0 events Hb Hlen)
      as [[_ Hnot] | (l0 & o & _ & _ & _ & _ & Hrun & _)];
      [| apply (Hok o Hrun)].
    contradiction Hnot.
    apply (allHaveArea_built EmptyString ctxmenu s Hsz Hb).
    eapply readLines_filled; [exact Hne | apply rootStore_filled | exact Hread].
  - destruct (Run_cases EmptyString ctxmenu true s w 0 events Hb Hlen)
      as [[Hfatal _] | (l0 & o & _ & _ & _ & _ & Hrun & _)];
      [left | right; apply (Hok o Hrun)].
    rewrite Hprog, Hfatal. reflexivity.
Qed.

End ProgramFacts.

(** X21, witness.  A line with an icon: three fields, the first with the prefix. *)
Lemma parseLine_grammar_witness :
  (exists (d : nat) (fs : list (list Z * nat)),
      Forall (fun f => isField (fst f)) fs /\
      iconLine = repeat delim d ++ joinFields fs) /\
  (forall (d : nat) (fs : list (list Z * nat)),
      Forall (fun f => isField (fst f)) fs ->
      iconLine = repeat delim d ++ joinFields fs ->
      parseLine iconLine
      = match fieldStrings fs with
        | [] => Ok (mkLine (Z.of_nat d) EmptyString EmptyString EmptyString)
        | [f0] => Ok (mkLine (Z.of_nat d) f0 f0 EmptyString)
        | [f0; f1] => Ok (mkLine (Z.of_nat d) f0 f1 EmptyString)
        | [f0; f1; f2] =>
            Ok (mkLine (Z.of_nat d) f1 f2 (TrimPrefix f0 "IMG:"))
        | _ => Panic
        end).
Proof.
  apply (parseLine_grammar iconLine).
  unfold iconLine.
  repeat (constructor; [unfold inRune; lia |]). constructor.
Defined.

(** What the line with the icon is read as, and a file that goes down two
    levels at once. *)
Example program_samples :
  parseLine iconLine = Ok (mkLine 0 "Help" "help" "help.png") /\
  readLines demoContext (rootStore demoContext) 0 menuFile = Ok menuTree /\
  readLines demoContext (rootStore demoContext) 0 jumpFile = Panic /\
  program demoContext menuFile noWayland menuEvents
  = Ok [hoverLine "File"; hoverLine "open"] /\
  program demoContext menuFile noWayland [PointerMotionEvent 5; QuitEvent]
  = Ok [hoverLine "File"; newline] /\
  program demoContext [] noWayland menuEvents = Fatal.
Proof. repeat split; vm_compute; reflexivity. Qed.

(** X23, witness.  The sample file and a press on "Open": two hover lines and no other. *)
Lemma program_output_witness :
  readLines demoContext (rootStore demoContext) 0 menuFile = Ok menuTree /\
  exists o : Outcome string,
    Run EmptyString demoContext true menuTree noWayland 0 menuEvents = Ok o /\
    program demoContext menuFile noWayland menuEvents = Ok (printed o) /\
    (forall v, In v (hovered (loopOf o)) -> labelledOutput menuTree v) /\
    printed o
    = map hoverLine (hovered (loopOf o))
      ++ match o with
         | Continue _ => []
         | Return _ None _ => []
         | Return _ (Some _) _ => [newline]
         end.
Proof.
  split; [vm_compute; reflexivity |].
  refine (proj1 (proj2 (program_output demoContext menuFile noWayland
                          menuEvents menuTree _)) _ _).
  - vm_compute. reflexivity.
  - discriminate.
  - unfold sizesPositive. cbn. lia.
Defined.
